(** * A-Maze-ing: the maze engine of [mazegen/MazeGenerator.py]

    A shallow embedding of the parameter record [CMazeParams] and of the
    class [MazeGenerator] (pattern placement, carving, imperfection
    injection, the two path finders and the serializer), followed by the
    properties of the engine.

    Conventions of the embedding.
    - A Python [int] is a [Z]; [&], [|], [<<], [>>] are [Z.land], [Z.lor],
      [Z.shiftl], [Z.shiftr].
    - The maze is a [list (list Z)], rows first ([maze[y][x]]).  Indexing
      follows Python: a negative index counts from the end and an index out
      of range raises [IndexError].
    - Every method runs in the monad [M]: it threads the maze object, the
      state of the module [random] and the monotonic clock, and it ends in a
      value, an exception, or the exhaustion of the fuel that bounds the
      [while] loops.  The state reached is kept in all three cases.
    - Console output ([print]) is not modelled.
    - A path is the list of its coordinates [(x, y)]; the third entry that
      the Python lists carry (a constant 0 for the breadth-first search, the
      remaining-direction mask of a frame for the depth-first search) is
      dropped: no function reads it from a path. *)

From Stdlib Require Import ZArith List Lia Bool String Ascii QArith.
From stdpp Require Import base gmap list pretty relations sorting.

Local Open Scope Z_scope.

(** ** Outcomes, world and monad *)

Inductive exn : Type :=
| IndexError
| KeyError
| ValidationError.

Inductive outcome (A : Type) : Type :=
| Ret (a : A)
| Raise (e : exn)
| OutOfFuel.

Arguments Ret {A} a.
Arguments Raise {A} e.
Arguments OutOfFuel {A}.

(** The generator behind the module [random]: the raw numbers it will
    produce and how many were consumed. *)
Record rng_state : Type := Rng { rng_tape : nat → N; rng_pos : nat }.

(** The readings [time.monotonic()] will return, in seconds. *)
Record clock_state : Type := Clock { clock_tape : nat → Q; clock_pos : nat }.

Abbreviation grid := (list (list Z)).

Record world : Type := World {
  w_maze : grid;
  w_rng : rng_state;
  w_clock : clock_state
}.

Definition M (A : Type) : Type := world → outcome A * world.

Definition ret {A} (a : A) : M A := fun w => (Ret a, w).

Definition bind {A B} (m : M A) (k : A → M B) : M B :=
  fun w =>
    match m w with
    | (Ret a, w') => k a w'
    | (Raise e, w') => (Raise e, w')
    | (OutOfFuel, w') => (OutOfFuel, w')
    end.

Definition raise {A} (e : exn) : M A := fun w => (Raise e, w).

Definition out_of_fuel {A} : M A := fun w => (OutOfFuel, w).

Notation "'let*' x ':=' c1 'in' c2" := (bind c1 (fun x => c2))
  (at level 10, x name, c1 at level 100, c2 at level 200,
   format "'[v' 'let*'  x  ':='  c1  'in' '/' c2 ']'").

Notation "c1 ';;' c2" := (bind c1 (fun _ => c2))
  (at level 100, c2 at level 200, right associativity).

Definition get_maze : M grid := fun w => (Ret (w_maze w), w).

Definition set_maze (g : grid) : M unit :=
  fun w => (Ret tt, World g (w_rng w) (w_clock w)).

(** [for v in l: body v] *)
Fixpoint for_each {A} (l : list A) (body : A → M unit) : M unit :=
  match l with
  | [] => ret tt
  | a :: l' => body a ;; for_each l' body
  end.

(** [range(a, b)] *)
Definition range (a b : Z) : list Z := seqZ a (b - a).

(** ** Python list indexing *)

(** The position that index [i] designates in a list of length [n]. *)
Definition py_index (n : nat) (i : Z) : option nat :=
  if (0 <=? i) && (i <? Z.of_nat n) then Some (Z.to_nat i)
  else if (- Z.of_nat n <=? i) && (i <? 0) then Some (Z.to_nat (Z.of_nat n + i))
  else None.

Definition py_get {A} (l : list A) (i : Z) : option A :=
  match py_index (length l) i with
  | Some k => l !! k
  | None => None
  end.

Definition py_set {A} (l : list A) (i : Z) (a : A) : option (list A) :=
  match py_index (length l) i with
  | Some k => Some (<[k := a]> l)
  | None => None
  end.

(** [maze[y][x]] *)
Definition load (y x : Z) : M Z :=
  fun w =>
    match py_get (w_maze w) y with
    | Some row =>
        match py_get row x with
        | Some v => (Ret v, w)
        | None => (Raise IndexError, w)
        end
    | None => (Raise IndexError, w)
    end.

(** [maze[y][x] = v] *)
Definition store (y x v : Z) : M unit :=
  fun w =>
    match py_get (w_maze w) y with
    | Some row =>
        match py_set row x v with
        | Some row' =>
            match py_set (w_maze w) y row' with
            | Some g' => (Ret tt, World g' (w_rng w) (w_clock w))
            | None => (Raise IndexError, w)
            end
        | None => (Raise IndexError, w)
        end
    | None => (Raise IndexError, w)
    end.

(** [len(maze)] and [len(maze[0])] *)
Definition len_maze : M Z := fun w => (Ret (Z.of_nat (length (w_maze w))), w).

Definition len_row0 : M Z :=
  fun w =>
    match py_get (w_maze w) 0 with
    | Some row => (Ret (Z.of_nat (length row)), w)
    | None => (Raise IndexError, w)
    end.

(** Truth of a Python integer. *)
Definition truthy (v : Z) : bool := negb (v =? 0).

(** ** The module [random] and the clock *)

(** [random.choice(seq)]: one raw number, reduced to an index of [seq]. *)
Definition random_choice {A} (seq : list A) : M A :=
  fun w =>
    let r := w_rng w in
    let w' := World (w_maze w) (Rng (rng_tape r) (S (rng_pos r))) (w_clock w) in
    match seq !! (N.to_nat (rng_tape r (rng_pos r)) mod length seq)%nat with
    | Some a => (Ret a, w')
    | None => (Raise IndexError, w)
    end.

(** [random.random()]: a multiple of 2^-53 in [0, 1). *)
Definition random_random : M Q :=
  fun w =>
    let r := w_rng w in
    (Ret (Z.of_N (rng_tape r (rng_pos r)) mod 2 ^ 53 # 2 ^ 53)%Q,
     World (w_maze w) (Rng (rng_tape r) (S (rng_pos r))) (w_clock w)).

(** [time.monotonic()] *)
Definition time_monotonic : M Q :=
  fun w =>
    let c := w_clock w in
    (Ret (clock_tape c (clock_pos c)),
     World (w_maze w) (w_rng w) (Clock (clock_tape c) (S (clock_pos c)))).

Definition Qlt_bool (a b : Q) : bool := negb (Qle_bool b a).

(** ** The parameter record *)

Record CMazeParams : Type := MkParams {
  width : Z;
  height : Z;
  entry : Z * Z;
  exit : Z * Z;
  output_file : string;
  perfect : bool;
  seed : option Z;
  insert_42 : bool;
  w_cell_size : Z;
  w_wall_thickness : Z;
  probability_to_del_dead_end : Q
}.

(** The constraints of the [Field] declarations: [ge=1] on both sizes,
    [ge=2] on the cell size, [ge=1] on the wall thickness and [ge=0, le=100]
    on the probability. *)
Definition field_constraints (r : CMazeParams) : bool :=
  (1 <=? width r) && (1 <=? height r)
  && (2 <=? w_cell_size r) && (1 <=? w_wall_thickness r)
  && Qle_bool 0 (probability_to_del_dead_end r)
  && Qle_bool (probability_to_del_dead_end r) 100.

(** [CMazeParams.params_validator], the [model_validator(mode='after')]. *)
Definition params_validator (self : CMazeParams) : outcome CMazeParams :=
  if bool_decide (entry self = exit self) then Raise ValidationError
  else
    let '(x, y) := entry self in
    if (x >=? width self) || (y >=? height self) then Raise ValidationError
    else
      let '(x, y) := exit self in
      if (x >=? width self) || (y >=? height self) then Raise ValidationError
      else Ret self.

(** [CMazeParams(...)]: the field constraints, then the model validator. *)
Definition CMazeParams_new (r : CMazeParams) : outcome CMazeParams :=
  if field_constraints r then params_validator r else Raise ValidationError.

(** ** [MazeGenerator.place_42] *)

Definition p_42 : list (list Z) :=
  [[15; 0; 0; 0; 15; 15; 15];
   [15; 0; 0; 0; 0; 0; 15];
   [15; 15; 15; 0; 15; 15; 15];
   [0; 0; 15; 0; 15; 0; 0];
   [0; 0; 15; 0; 15; 15; 15]].

(** The inner function [check_palace] of [place_42]; [len_m] is
    [len(maze)]. *)
Definition check_palace (len_m s_42_h s_42_w : Z) (in_ out_ : Z * Z)
    (x y : Z) : bool :=
  if ((y >? in_.2) && (y >? out_.2))
     || ((x >? in_.1) && (x >? out_.1))
     || ((in_.2 >=? y + s_42_h) && (out_.2 >=? y + s_42_h))
     || ((in_.1 >=? x + s_42_w) && (out_.2 >=? x + s_42_w))
  then true
  else if ((y >? in_.2) || (in_.2 >=? y + s_42_h)
           || (x >? in_.1) || (in_.1 >=? x + s_42_w))
          && ((y >? out_.2) || (out_.2 >=? y + s_42_h)
              || (x >? out_.1) || (out_.1 >=? x + s_42_w))
  then (s_42_h <? len_m)
       || ((x >? in_.1) && (x >? out_.1))
       || ((x <? in_.1) && (x <? out_.1))
  else false.

Definition place_42 (in_ out_ : Z * Z) : M bool :=
  let s_42_h := Z.of_nat (length p_42) in
  let* len_m := len_maze in
  if s_42_h >? len_m then ret false
  else
    let* s_42_w :=
      (if s_42_h >? 0
       then match py_get p_42 0 with
            | Some r => ret (Some (Z.of_nat (length r)))
            | None => raise IndexError
            end
       else ret None) in
    match s_42_w with
    | None => ret false
    | Some s_42_w =>
        let* len_0 := len_row0 in
        if s_42_w >? len_0 then ret false
        else
          (* int((a - b) / 2): a true division, then truncation *)
          let p_42_x := Z.quot (len_0 - s_42_w) 2 in
          let p_42_y := Z.quot (len_m - s_42_h) 2 in
          if negb (check_palace len_m s_42_h s_42_w in_ out_ p_42_x p_42_y)
          then ret false
          else
            for_each (range 0 s_42_h) (fun y =>
              for_each (range 0 s_42_w) (fun x =>
                match py_get p_42 y with
                | Some r =>
                    match py_get r x with
                    | Some c =>
                        if c =? 15 then store (y + p_42_y) (x + p_42_x) 15
                        else ret tt
                    | None => raise IndexError
                    end
                | None => raise IndexError
                end)) ;;
            ret true
    end.

(** ** [check_point_in_path] and [clear_tmp_data] *)

(** The first position (counted from 1) of [(x, y)] in [path], 0 when it is
    absent. *)
Fixpoint check_point_in_path (path : list (Z * Z)) (x y : Z) : Z :=
  match path with
  | [] => 0
  | (px, py) :: rest =>
      if (x =? px) && (y =? py) then 1
      else
        let r := check_point_in_path rest x y in
        if r =? 0 then 0 else r + 1
  end.

Definition clear_tmp_data : M grid :=
  let* h := len_maze in
  for_each (range 0 h) (fun y =>
    let* w := len_row0 in
    for_each (range 0 w) (fun x =>
      let* v := load y x in
      if v >? 0xf then store y x (Z.land v 0xf) else ret tt)) ;;
  get_maze.

(** ** The carver: [gen_DFS] and [gen_DFS_animated] *)

(** A frame [[x, y, q]] of the explicit stack. *)
Abbreviation frame := (Z * Z * Z)%type.

(** [[(1 << i) for i in range(4) if (q >> i) & 1]] *)
Definition set_bits4 (q : Z) : list Z :=
  omap (fun i => if truthy (Z.land (Z.shiftr q i) 1)
                 then Some (Z.shiftl 1 i) else None) (range 0 4).

(** One of the four blocks
    [if (q & bit): if <on the edge>: q = q & keep
                   elif (maze[ny][nx] & 0x1c) >= 0xc: q = q & keep]. *)
Definition carve_check (q bit keep : Z) (edge : bool) (ny nx : Z) : M Z :=
  if truthy (Z.land q bit) then
    if edge then ret (Z.land q keep)
    else
      let* v := load ny nx in
      if Z.land v 0x1c >=? 0xc then ret (Z.land q keep) else ret q
  else ret q.

(** [m_path[i][2] = q] for the last frame, at index [i]. *)
Definition set_q (m_path : list frame) (i : nat) (x y q : Z) : list frame :=
  <[i := (x, y, q)]> m_path.

(** The body of the [while] loop of [gen_DFS]: from the stack to the stack
    after one iteration. *)
Definition gen_DFS_body (mzParam : CMazeParams) (m_path : list frame)
    : M (list frame) :=
  let i := (length m_path - 1)%nat in
  match m_path !! i with
  | None => raise IndexError
  | Some (x, y, q) =>
      let* q := carve_check q 1 14 (y =? 0) (y - 1) x in
      let* q := carve_check q 2 13 (x =? width mzParam - 1) y (x + 1) in
      let* q := carve_check q 4 11 (y =? height mzParam - 1) (y + 1) x in
      let* q := carve_check q 8 7 (x =? 0) y (x - 1) in
      if q =? 0 then ret (removelast m_path)
      else
        let* chosen_wall := random_choice (set_bits4 q) in
        if chosen_wall =? 1 then
          let m_path := set_q m_path i x y (Z.land q 0xe) ++ [(x, y - 1, 0xf)] in
          let* v := load y x in
          store y x (Z.land v 0xfffe) ;;
          let* v := load (y - 1) x in
          store (y - 1) x (Z.lor v 0x10) ;;
          ret m_path
        else if chosen_wall =? 2 then
          let m_path := set_q m_path i x y (Z.land q 0xd) ++ [(x + 1, y, 0xf)] in
          let* v := load y x in
          store y x (Z.land v 0xfffd) ;;
          let* v := load y (x + 1) in
          store y (x + 1) (Z.lor v 0x10) ;;
          ret m_path
        else if chosen_wall =? 4 then
          let m_path := set_q m_path i x y (Z.land q 0xb) ++ [(x, y + 1, 0xf)] in
          let* v := load (y + 1) x in
          store (y + 1) x (Z.land v 0xfffe) ;;
          let* v := load (y + 1) x in
          store (y + 1) x (Z.lor v 0x10) ;;
          ret m_path
        else if chosen_wall =? 8 then
          let m_path := set_q m_path i x y (Z.land q 0x7) ++ [(x - 1, y, 0xf)] in
          let* v := load y (x - 1) in
          store y (x - 1) (Z.land v 0xfffd) ;;
          let* v := load y (x - 1) in
          store y (x - 1) (Z.lor v 0x10) ;;
          ret m_path
        else
          ret (removelast (set_q m_path i x y q))
  end.

Fixpoint gen_DFS_loop (fuel : nat) (mzParam : CMazeParams)
    (m_path : list frame) : M unit :=
  match fuel with
  | O => out_of_fuel
  | S fuel' =>
      if Z.of_nat (length m_path) >? 0 then
        let* m_path := gen_DFS_body mzParam m_path in
        gen_DFS_loop fuel' mzParam m_path
      else ret tt
  end.

Definition gen_DFS (fuel : nat) (mzParam : CMazeParams) : M grid :=
  let '(x, y) := exit mzParam in
  let* v := load y x in
  store y x (Z.lor v 0x10) ;;
  gen_DFS_loop fuel mzParam [(x, y, 0xf)] ;;
  get_maze.

(** A region handed to the renderer: [(x1, y1, x2, y2)]. *)
Abbreviation area := (Z * Z * Z * Z)%type.

(** The body of the [while] loop of [gen_DFS_animated]: the new stack and
    what the iteration yields. *)
Definition gen_DFS_animated_body (mzParam : CMazeParams) (animated : bool)
    (m_path : list frame) : M (list frame * list (option area)) :=
  let i := (length m_path - 1)%nat in
  match m_path !! i with
  | None => raise IndexError
  | Some (x, y, q) =>
      let* q := carve_check q 1 14 (y =? 0) (y - 1) x in
      let* q := carve_check q 2 13 (x =? width mzParam - 1) y (x + 1) in
      let* q := carve_check q 4 11 (y =? height mzParam - 1) (y + 1) x in
      let* q := carve_check q 8 7 (x =? 0) y (x - 1) in
      if q =? 0 then ret (removelast m_path, [])
      else
        let* chosen_wall := random_choice (set_bits4 q) in
        let* m_path :=
          (if chosen_wall =? 1 then
             let* v := load y x in
             store y x (Z.land v 0xfffe) ;;
             let* v := load (y - 1) x in
             store (y - 1) x (Z.lor v 0x10) ;;
             ret (set_q m_path i x y (Z.land q 0xe) ++ [(x, y - 1, 0xf)])
           else if chosen_wall =? 2 then
             let* v := load y x in
             store y x (Z.land v 0xfffd) ;;
             let* v := load y (x + 1) in
             store y (x + 1) (Z.lor v 0x10) ;;
             ret (set_q m_path i x y (Z.land q 0xd) ++ [(x + 1, y, 0xf)])
           else if chosen_wall =? 4 then
             let* v := load (y + 1) x in
             store (y + 1) x (Z.land v 0xfffe) ;;
             let* v := load (y + 1) x in
             store (y + 1) x (Z.lor v 0x10) ;;
             ret (set_q m_path i x y (Z.land q 0xb) ++ [(x, y + 1, 0xf)])
           else if chosen_wall =? 8 then
             let* v := load y (x - 1) in
             store y (x - 1) (Z.land v 0xfffd) ;;
             let* v := load y (x - 1) in
             store y (x - 1) (Z.lor v 0x10) ;;
             ret (set_q m_path i x y (Z.land q 0x7) ++ [(x - 1, y, 0xf)])
           else
             ret (removelast (set_q m_path i x y q))) in
        ret (m_path,
             if animated then [Some (x - 1, y - 1, x + 1, y + 1)] else [])
  end.

Fixpoint gen_DFS_animated_loop (fuel : nat) (mzParam : CMazeParams)
    (animated : bool) (m_path : list frame) : M (list (option area)) :=
  match fuel with
  | O => out_of_fuel
  | S fuel' =>
      if Z.of_nat (length m_path) >? 0 then
        let* r := gen_DFS_animated_body mzParam animated m_path in
        let* ys := gen_DFS_animated_loop fuel' mzParam animated r.1 in
        ret (r.2 ++ ys)
      else ret [None]
  end.

(** The generator [gen_DFS_animated] pulled to its end by a consumer that
    leaves the maze alone: the values it yields, in order. *)
Definition gen_DFS_animated (fuel : nat) (mzParam : CMazeParams)
    (animated : bool) : M (list (option area)) :=
  let '(x, y) := exit mzParam in
  let* v := load y x in
  store y x (Z.lor v 0x10) ;;
  gen_DFS_animated_loop fuel mzParam animated [(x, y, 0xf)].

(** ** The imperfection injector *)

(** The effective wall mask of the cell [(x, y)], as [do_not_prefect] and
    [write_to_file] compute it from [v = maze[y][x] & 3]. *)
Definition effective_walls (v x y : Z) : M Z :=
  let v := if y =? 0 then Z.lor v 1 else v in
  let* v :=
    (if x =? 0 then ret (Z.lor v 8)
     else
       let* l := load y (x - 1) in
       if truthy (Z.land l 2) then ret (Z.lor v 8) else ret v) in
  let* h := len_maze in
  let* v :=
    (if y =? h - 1 then ret (Z.lor v 4)
     else
       let* b := load (y + 1) x in
       if truthy (Z.land b 1) then ret (Z.lor v 4) else ret v) in
  let* w := len_row0 in
  ret (if x =? w - 1 then Z.lor v 2 else v).

(** One of the four blocks
    [if w & bit: if <on the edge>: w = w & keep
                 elif (maze[ny][nx] & 0xc) == 0xc: w = w & keep]. *)
Definition removable_check (w bit keep : Z) (edge : M bool) (ny nx : Z)
    : M Z :=
  if truthy (Z.land w bit) then
    let* e := edge in
    if e then ret (Z.land w keep)
    else
      let* v := load ny nx in
      if Z.land v 0xc =? 0xc then ret (Z.land w keep) else ret w
  else ret w.

Definition is_last_row (y : Z) : M bool :=
  let* h := len_maze in ret (y =? h - 1).

Definition is_last_col (x : Z) : M bool :=
  let* w := len_row0 in ret (x =? w - 1).

(** The body of the inner [for] loop of [do_not_prefect] and of
    [do_not_prefect_animated] (the two differ in the [continue] that closes
    each [case] of the former and in the [yield] of the latter).  The result
    tells whether the iteration went through the [match] on the chosen
    wall, which is where the animated variant yields. *)
Definition dead_end_body (pr : Q) (x y : Z) : M bool :=
  let* v := load y x in
  if truthy (Z.land v 0xc) then ret false
  else
    let* v := effective_walls (Z.land v 3) x y in
    let w := v in
    if Z.of_nat (length (set_bits4 v)) =? 3 then
      let* go :=
        (if Qle_bool 100 pr then ret true
         else
           let* r := random_random in
           ret (Qlt_bool r (0.01 * pr)%Q)) in
      if go then
        let* w := removable_check w 1 0xe (ret (y =? 0)) (y - 1) x in
        let* w := removable_check w 2 13 (is_last_col x) y (x + 1) in
        let* w := removable_check w 4 11 (is_last_row y) (y + 1) x in
        let* w := removable_check w 8 7 (ret (x =? 0)) y (x - 1) in
        if w =? 0 then ret false
        else
          let* chosen_wall := random_choice (set_bits4 w) in
          (if chosen_wall =? 1 then
             let* c := load y x in store y x (Z.land c 0xfffe)
           else if chosen_wall =? 2 then
             let* c := load y x in store y x (Z.land c 0xfffd)
           else if chosen_wall =? 4 then
             let* c := load (y + 1) x in store (y + 1) x (Z.land c 0xfffe)
           else if chosen_wall =? 8 then
             let* c := load y (x - 1) in store y (x - 1) (Z.land c 0xfffd)
           else ret tt) ;;
          ret true
      else ret false
    else ret false.

Definition do_not_prefect (mzParam : CMazeParams) : M grid :=
  let pr := probability_to_del_dead_end mzParam in
  if Qle_bool pr 0 then get_maze
  else
    let* h := len_maze in
    for_each (range 0 h) (fun y =>
      let* w := len_row0 in
      for_each (range 0 w) (fun x =>
        dead_end_body pr x y ;; ret tt)) ;;
    get_maze.

(** [for v in l: body v] where the body yields values. *)
Fixpoint for_yield {A B} (l : list A) (body : A → M (list B)) : M (list B) :=
  match l with
  | [] => ret []
  | a :: l' =>
      let* ys := body a in
      let* zs := for_yield l' body in
      ret (ys ++ zs)
  end.

(** The generator [do_not_prefect_animated] pulled to its end: the values
    it yields, in order. *)
Definition do_not_prefect_animated (mzParam : CMazeParams) (animated : bool)
    : M (list (option area)) :=
  let pr := probability_to_del_dead_end mzParam in
  if Qle_bool pr 0 then ret []
  else
    let* h := len_maze in
    let* ys :=
      for_yield (range 0 h) (fun y =>
        let* w := len_row0 in
        for_yield (range 0 w) (fun x =>
          let* removed := dead_end_body pr x y in
          ret (if removed && animated
               then [Some (x - 1, y - 1, x + 1, y + 1)] else []))) in
    ret (ys ++ [None]).

(** ** [generate] *)

Section Generate.

(** [random.seed(a)] installs the stream of raw numbers that the
    generator of the Python library derives from [a]. *)
Variable seed_tape : Z → nat → N.

Definition random_seed (a : Z) : M unit :=
  fun w => (Ret tt, World (w_maze w) (Rng (seed_tape a) 0) (w_clock w)).

Definition generate (fuel : nat) (mzParam : CMazeParams) : M grid :=
  set_maze (replicate (Z.to_nat (height mzParam))
              (replicate (Z.to_nat (width mzParam)) 3)) ;;
  store (entry mzParam).2 (entry mzParam).1 7 ;;
  store (exit mzParam).2 (exit mzParam).1 11 ;;
  (if insert_42 mzParam
   then place_42 (entry mzParam) (exit mzParam) ;; ret tt
   else ret tt) ;;
  match seed mzParam with
  | Some a => random_seed a
  | None => ret tt
  end ;;
  gen_DFS fuel mzParam ;;
  (if negb (perfect mzParam) then do_not_prefect mzParam ;; ret tt
   else ret tt) ;;
  get_maze.

End Generate.

(** ** The breadth-first path finder *)

Abbreviation bfs_state :=
  (list (Z * Z) * gset (Z * Z) * gmap (Z * Z) (Z * Z))%type.

(** One of the four blocks
    [if <in range> and (nx, ny) not in visited:
         visited.add((nx, ny)); parent[(nx, ny)] = (x, y);
         queue.append((nx, ny))]. *)
Definition bfs_push (in_range : bool) (n cur : Z * Z) (st : bfs_state)
    : bfs_state :=
  let '(queue, visited, parent) := st in
  if in_range && negb (bool_decide (n ∈ visited))
  then (queue ++ [n], {[n]} ∪ visited, <[n := cur]> parent)
  else st.

(** The reconstruction loop [while (x, y) != start]. *)
Fixpoint bfs_reconstruct (fuel : nat) (parent : gmap (Z * Z) (Z * Z))
    (start xy : Z * Z) (path : list (Z * Z)) : M (list (Z * Z)) :=
  match fuel with
  | O => out_of_fuel
  | S fuel' =>
      if bool_decide (xy ≠ start) then
        match parent !! xy with
        | Some xy' => bfs_reconstruct fuel' parent start xy' (path ++ [xy])
        | None => raise KeyError
        end
      else ret (reverse (path ++ [start]))
  end.

(** The walls around [(x, y)] as the loop of [find_path_BFS] computes
    them into [cell]: the two stored bits, the left and bottom walls from
    the neighbours, and the four sides of the grid. *)
Definition bfs_walls (height width x y : Z) : M Z :=
  let* c := load y x in
  let cell := Z.land c 3 in
  let* cell :=
    (if x =? 0 then ret (Z.lor cell 8)
     else
       let* l := load y (x - 1) in
       if truthy (Z.land l 2) then ret (Z.lor cell 8)
       else ret cell) in
  let* cell :=
    (if y >=? height - 1 then ret (Z.lor cell 4)
     else
       let* b := load (y + 1) x in
       if truthy (Z.land b 1) then ret (Z.lor cell 4)
       else ret cell) in
  let cell := if y =? 0 then Z.lor cell 1 else cell in
  let cell := if x >=? width - 1 then Z.lor cell 2 else cell in
  ret cell.

Fixpoint bfs_loop (fuel : nat) (height width : Z) (start end_ : Z * Z)
    (st : bfs_state) : M (list (Z * Z)) :=
  match fuel with
  | O => out_of_fuel
  | S fuel' =>
      match st with
      | ([], _, _) => ret []
      | ((x, y) :: queue, visited, parent) =>
          if bool_decide ((x, y) = end_) then
            bfs_reconstruct (S fuel') parent start (x, y) []
          else
            let* cell := bfs_walls height width x y in
            let st := (queue, visited, parent) in
            let st :=
              if negb (truthy (Z.land cell 1))
              then bfs_push ((0 <=? y - 1) && (y - 1 <? height))
                     (x, y - 1) (x, y) st
              else st in
            let st :=
              if negb (truthy (Z.land cell 2))
              then bfs_push ((0 <=? x + 1) && (x + 1 <? width))
                     (x + 1, y) (x, y) st
              else st in
            let st :=
              if negb (truthy (Z.land cell 4))
              then bfs_push ((0 <=? y + 1) && (y + 1 <? height))
                     (x, y + 1) (x, y) st
              else st in
            let st :=
              if negb (truthy (Z.land cell 8))
              then bfs_push ((0 <=? x - 1) && (x - 1 <? width))
                     (x - 1, y) (x, y) st
              else st in
            bfs_loop fuel' height width start end_ st
      end
  end.

Definition find_path_BFS (fuel : nat) (mzParam : CMazeParams)
    : M (list (Z * Z)) :=
  let* height := len_maze in
  let* width := len_row0 in
  let start := entry mzParam in
  let end_ := exit mzParam in
  bfs_loop fuel height width start end_ ([start], {[start]}, ∅).

(** ** The depth-first path finder *)

Record dfs_state : Type := DfsState {
  c_path : list frame;
  best_path : list (Z * Z);
  paths_q : Z;
  start_time : Q
}.

(** [len(l)] *)
Definition len {A} (l : list A) : Z := Z.of_nat (length l).

(** [(maze[y][x] & 0xff) | (i << 8)], written to [maze[y][x]]. *)
Definition stamp (y x i : Z) : M unit :=
  let* m := load y x in
  store y x (Z.lor (Z.land m 0xff) (Z.shiftl i 8)).

(** The block under [if (i > 0)].  [Some b] says that the block left the
    iteration through [c_path.pop(); continue], with [b] the best path at
    that point; [None] that the iteration goes on. *)
Definition dfs_stamp_block (c : list frame) (best : list (Z * Z))
    (i x y q : Z) : M (option (list (Z * Z))) :=
  if i >? 0 then
    let* m := load y x in
    let old_ := Z.shiftr (Z.land m 0xffffff00) 8 in
    if (old_ =? 0) || (old_ >? i) then
      stamp y x i ;;
      if old_ >? 0 then
        let l_ := check_point_in_path best x y in
        if l_ >? 0 then
          let best := c.*1 ++ drop (Z.to_nat l_) best in
          for_each (range (i + 1) (len best)) (fun j_ =>
            match py_get best j_ with
            | Some (bx, by_) => stamp by_ bx j_
            | None => raise IndexError
            end) ;;
          ret (Some best)
        else ret None
      else ret None
    else if (old_ >? 0) && ((old_ <? i) || ((q =? 0xf) && (old_ =? i)))
    then ret (Some best)
    else ret None
  else ret None.

(** The four blocks that take out of [q] the directions that cannot be
    followed from [(x, y)]: towards the top, the right, the bottom and the
    left. *)
Definition dfs_open_north (c : list frame) (x y q : Z) : M Z :=
  if y =? 0 then ret (Z.land q 14)
  else
    let* a := load (y - 1) x in
    if Z.land a 0xc =? 0xc then ret (Z.land q 14)
    else
      let* m := load y x in
      if truthy (Z.land m 1) || truthy (Z.land a 0x20)
         || (check_point_in_path c.*1 x (y - 1) >? 0)
      then ret (Z.land q 14) else ret q.

Definition dfs_open_east (mzParam : CMazeParams) (c : list frame)
    (x y q : Z) : M Z :=
  if x =? width mzParam - 1 then ret (Z.land q 13)
  else
    let* a := load y (x + 1) in
    if Z.land a 0xc =? 0xc then ret (Z.land q 13)
    else
      let* m := load y x in
      if truthy (Z.land m 2) || truthy (Z.land a 0x20)
         || (check_point_in_path c.*1 (x + 1) y >? 0)
      then ret (Z.land q 13) else ret q.

Definition dfs_open_south (mzParam : CMazeParams) (c : list frame)
    (x y q : Z) : M Z :=
  if truthy (Z.land q 4) then
    if y =? height mzParam - 1 then ret (Z.land q 11)
    else
      let* a := load (y + 1) x in
      if (Z.land a 0xc =? 0xc) || truthy (Z.land a 0x21)
         || (check_point_in_path c.*1 x (y + 1) >? 0)
      then ret (Z.land q 11) else ret q
  else ret q.

Definition dfs_open_west (c : list frame) (x y q : Z) : M Z :=
  if truthy (Z.land q 8) then
    if x =? 0 then ret (Z.land q 7)
    else
      let* a := load y (x - 1) in
      if (Z.land a 0xc =? 0xc) || truthy (Z.land a 0x22)
         || (check_point_in_path c.*1 (x - 1) y >? 0)
      then ret (Z.land q 7) else ret q
  else ret q.

Definition dfs_open_dirs (mzParam : CMazeParams) (c : list frame)
    (x y q : Z) : M Z :=
  let* q := dfs_open_north c x y q in
  let* q := dfs_open_east mzParam c x y q in
  let* q := dfs_open_south mzParam c x y q in
  dfs_open_west c x y q.

(** The cascade of [if ...: c_path[i][2] = q & keep; c_path.append(...);
    continue] that ends the loop body: the first that applies, as the mask
    kept in the frame and the cell stepped to. *)
Definition dfs_choose (x y q out_x out_y : Z) : option (Z * (Z * Z)) :=
  let east := Some (0xd, (x + 1, y)) in
  let west := Some (0x7, (x - 1, y)) in
  let south := Some (0xb, (x, y + 1)) in
  let north := Some (0xe, (x, y - 1)) in
  let fallback :=
    if truthy (Z.land q 1) then north
    else if truthy (Z.land q 2) then east
    else if truthy (Z.land q 4) then south
    else if truthy (Z.land q 8) then west
    else None in
  if Z.abs (out_x - x) >? Z.abs (out_y - y) then
    if (out_x >? x) && truthy (Z.land q 2) then east
    else if (out_x <? x) && truthy (Z.land q 8) then west
    else if (out_y >? y) && truthy (Z.land q 4) then south
    else if (out_y <? y) && truthy (Z.land q 1) then north
    else fallback
  else
    if (out_y >? y) && truthy (Z.land q 4) then south
    else if (out_y <? y) && truthy (Z.land q 1) then north
    else if (out_x >? x) && truthy (Z.land q 2) then east
    else if (out_x <? x) && truthy (Z.land q 8) then west
    else fallback.

(** The body of the [while] loop of [find_path_DFS]. *)
Definition find_path_DFS_body (mzParam : CMazeParams) (st : dfs_state)
    : M dfs_state :=
  let c := c_path st in
  let best := best_path st in
  let '(out_x, out_y) := exit mzParam in
  let i := (length c - 1)%nat in
  match c !! i with
  | None => raise IndexError
  | Some (x, y, q) =>
      if (len best >? 0)
         && ((len c + (Z.abs (out_x - x) + Z.abs (out_y - y)) >? len best)
             || (len c >=? len best))
      then ret (DfsState (removelast c) best (paths_q st) (start_time st))
      else if (x =? out_x) && (out_y =? y) then
        let paths_q := paths_q st + 1 in
        let best :=
          if (len best =? 0) || (len best >? len c) then c.*1 else best in
        let* start :=
          (if paths_q =? 1 then
             let* t := time_monotonic in
             if Qlt_bool 15 (t - start_time st) then
               let* t := time_monotonic in ret (t - 15)%Q
             else ret (start_time st)
           else ret (start_time st)) in
        ret (DfsState (removelast c) best paths_q start)
      else
        let* left := dfs_stamp_block c best (Z.of_nat i) x y q in
        match left with
        | Some best =>
            ret (DfsState (removelast c) best (paths_q st) (start_time st))
        | None =>
            let* q := dfs_open_dirs mzParam c x y q in
            if q =? 0 then
              ret (DfsState (removelast c) best (paths_q st) (start_time st))
            else
              match dfs_choose x y q out_x out_y with
              | Some (keep, n) =>
                  ret (DfsState
                         (set_q c i x y (Z.land q keep) ++ [(n, 0xf)])
                         best (paths_q st) (start_time st))
              | None =>
                  ret (DfsState (removelast (set_q c i x y q)) best
                         (paths_q st) (start_time st))
              end
        end
  end.

Fixpoint find_path_DFS_loop (fuel : nat) (mzParam : CMazeParams)
    (st : dfs_state) : M (list (Z * Z)) :=
  match fuel with
  | O => out_of_fuel
  | S fuel' =>
      if len (c_path st) >? 0 then
        let* go :=
          (if len (best_path st) =? 0 then ret true
           else
             let* t := time_monotonic in
             ret (Qlt_bool (t - start_time st) 20)) in
        if go then
          let* st := find_path_DFS_body mzParam st in
          find_path_DFS_loop fuel' mzParam st
        else ret (best_path st)
      else ret (best_path st)
  end.

Definition find_path_DFS (fuel : nat) (mzParam : CMazeParams)
    (best_path : list (Z * Z)) : M (list (Z * Z)) :=
  let '(x, y) := entry mzParam in
  let c_path :=
    if len best_path >? 1 then (fun i : Z * Z => (i, 0xf)) <$> best_path
    else [(x, y, 0xf)] in
  let* start := time_monotonic in
  find_path_DFS_loop fuel mzParam (DfsState c_path best_path 0 start).

(** ** The serializer *)

Local Open Scope string_scope.

Definition hex_digit (d : Z) : ascii :=
  nth (Z.to_nat d) (list_ascii_of_string "0123456789ABCDEF") "?"%char.

Fixpoint format_X_digits (fuel : nat) (v : Z) (acc : string) : string :=
  match fuel with
  | O => acc
  | S fuel' =>
      let acc := String (hex_digit (v mod 16)) acc in
      if (v <? 16)%Z then acc else format_X_digits fuel' (v / 16)%Z acc
  end.

(** [format(v, "X")] *)
Definition format_X (v : Z) : string :=
  if (v <? 0)%Z
  then "-" ++ format_X_digits (S (Z.to_nat (Z.log2 (- v)))) (- v)%Z ""
  else format_X_digits (S (Z.to_nat (Z.log2 v))) v "".

(** The character written for the step from [a] to [b]. *)
Definition direction_char (a b : Z * Z) : string :=
  if (b.1 >? a.1)%Z then "E"
  else if (b.1 <? a.1)%Z then "W"
  else if (b.2 >? a.2)%Z then "S"
  else if (b.2 <? a.2)%Z then "N"
  else "-".

(** The loop [for i in range(1, len(path))] and what it writes. *)
Fixpoint direction_line (path : list (Z * Z)) : string :=
  match path with
  | a :: (b :: _) as rest => direction_char a b ++ direction_line rest
  | _ => ""
  end.

(** [write_to_file]: [None] is the result [False] (nothing is written),
    [Some (name, text)] the result [True] after [text] was written to the
    file [name]. *)
Definition write_to_file (fuel : nat) (mzParam : CMazeParams)
    (path : list (Z * Z)) (file_name : string)
    : M (option (string * string)) :=
  let file_name :=
    if (String.length file_name <=? 0)%nat then output_file mzParam
    else file_name in
  if (String.length file_name <=? 0)%nat then ret None
  else
    let* h := len_maze in
    let* rows :=
      for_yield (range 0 h) (fun y =>
        let* w := len_row0 in
        let* cells :=
          for_yield (range 0 w) (fun x =>
            let* c := load y x in
            let* v := effective_walls (Z.land c 3) x y in
            ret [format_X v]) in
        ret (cells ++ ["
"])%list) in
    let* path :=
      (if (len path =? 0)%Z then find_path_BFS fuel mzParam else ret path) in
    ret (Some (file_name,
               String.concat "" rows ++ "
" ++ pretty (entry mzParam).1 ++ "," ++ pretty (entry mzParam).2 ++ "
" ++ pretty (exit mzParam).1 ++ "," ++ pretty (exit mzParam).2 ++ "
" ++ direction_line path ++ "
")).

Local Close Scope string_scope.

(** ** [generate_animated] *)

(** The generator [generate_animated] pulled to its end by a consumer that
    leaves the maze alone (as [draw_maze] does): the values it yields, in
    order.  The list [maze] it is given is the maze of the world.  Its
    first statement, [maze.clear], names the method without calling it, so
    the rows are appended to whatever the list holds. *)
Definition generate_animated (seed_tape : Z → nat → N) (fuel : nat)
    (mzParam : CMazeParams) : M (list (option area)) :=
  let* maze := get_maze in
  set_maze (maze ++ replicate (Z.to_nat (height mzParam))
                      (replicate (Z.to_nat (width mzParam)) 3)) ;;
  store (entry mzParam).2 (entry mzParam).1 7 ;;
  store (exit mzParam).2 (exit mzParam).1 11 ;;
  (if insert_42 mzParam
   then place_42 (entry mzParam) (exit mzParam) ;; ret tt
   else ret tt) ;;
  match seed mzParam with
  | Some a => random_seed seed_tape a
  | None => ret tt
  end ;;
  let* ys := gen_DFS_animated fuel mzParam true in
  let* zs :=
    (if negb (perfect mzParam) then do_not_prefect_animated mzParam true
     else ret []) in
  ret ([None; None; None] ++ ys ++ zs).

(** ** The first run of [main]

    The statements of [main] (a_maze_ing.py) between the construction of
    the record and the opening of the window: the maze is generated, the
    path is searched between two readings of the clock, and both are saved
    under the name of the record.  The value collects [maze_], [path_] and
    what [write_to_file] has written. *)
Definition main_first_run (seed_tape : Z → nat → N) (fuel : nat)
    (c_mz_param : CMazeParams)
    : M (grid * list (Z * Z) * option (string * string)) :=
  let* maze_ := generate seed_tape fuel c_mz_param in
  let* start := time_monotonic in
  let* path_ := find_path_BFS fuel c_mz_param in
  let* stop := time_monotonic in
  let* saved := write_to_file fuel c_mz_param path_ "" in
  ret (maze_, path_, saved).

(** ** The configuration stage

    The functions that read the configuration work on the environment of
    the process, [os.environ], a map from names to values.  What they print
    on the standard error stream is part of their result here, one
    constructor for each message of the source. *)

Abbreviation environ := (gmap string string).

Inductive stderr_line : Type :=
| ConfigNotFound (file_name : string)
| ConfigUnreadable (file_name : option string)
| ParamNotSet (p_ : string)
| ParamWrongValue (p_ val : string)
| WrongParameters
| ValidationReport.

(** [fm_check_param] (the same text in [a_maze_ing.py] and in the class
    [CMazeParams]); [params] lists the items of the dictionary in their
    order. *)
Fixpoint fm_check_param (params : list (string * Z)) (env : environ)
    : bool * list stderr_line :=
  match params with
  | [] => (true, [])
  | (p_, n) :: rest =>
      match env !! p_ with
      | None => (false, [ParamNotSet p_])
      | Some val =>
          let line :=
            if Z.of_nat (String.length val) <? n
            then [ParamWrongValue p_ val] else [] in
          let r := fm_check_param rest env in
          (r.1, line ++ r.2)
      end
  end.

(** [v.split(",")] *)
Fixpoint split_comma (v : string) : list string :=
  match v with
  | EmptyString => [EmptyString]
  | String c v' =>
      if Ascii.eqb c ","%char then EmptyString :: split_comma v'
      else match split_comma v' with
           | [] => [String c EmptyString]
           | h :: t => String c h :: t
           end
  end.

(** The result of a constructor call or of [create_param_from_file]. *)
Inductive built (A : Type) : Type :=
| Built (a : A)
| ValueError
| ValidationFailed.

Arguments Built {A} a.
Arguments ValueError {A}.
Arguments ValidationFailed {A}.

(** The keyword arguments that [create_param_from_file] and [main] hand to
    the constructor. *)
Record init_args : Type := InitArgs {
  arg_width : option string;
  arg_height : option string;
  arg_entry : option string;
  arg_exit : option string;
  arg_output_file : option string;
  arg_perfect : option string;
  arg_seed : option string;
  arg_insert_42 : bool;
  arg_w_cell_size : Z
}.

Section Config.

(** The file system and the libraries: [os.path.isfile];
    [load_dotenv(file_name, override=False)], which leaves an environment
    and either returns or raises ([false]); [int(s)]; and the conversions
    of a string to an [int] and to a [bool] field by the model class. *)
Variable isfile : string → bool.
Variable load_dotenv : option string → environ → environ * bool.
Variable py_int : string → option Z.
Variable field_int : string → option Z.
Variable field_bool : string → option bool.

(** [fm_read_config] of [a_maze_ing.py]. *)
Definition fm_read_config (file_name : option string) (env : environ)
    : bool * environ * list stderr_line :=
  match file_name with
  | Some f =>
      if (0 <? String.length f)%nat then
        if negb (isfile f) then (false, env, [ConfigNotFound f])
        else
          let r := load_dotenv (Some f) env in
          if r.2 then (true, r.1, [])
          else (false, r.1, [ConfigUnreadable (Some f)])
      else (true, env, [])
  | None => (true, env, [])
  end.

(** [CMazeParams.fm_read_config]: here the first [return False] closes the
    outer [if], not the inner one. *)
Definition CMazeParams_fm_read_config (file_name : option string)
    (env : environ) : bool * environ * list stderr_line :=
  match file_name with
  | Some (String c f) =>
      (false, env,
       if negb (isfile (String c f)) then [ConfigNotFound (String c f)]
       else [])
  | _ =>
      let r := load_dotenv file_name env in
      if r.2 then (true, r.1, [])
      else (false, r.1, [ConfigUnreadable file_name])
  end.

(** [CMazeParams.parse_tuple] on a string. *)
Definition parse_tuple (v : string) : built (Z * Z) :=
  match split_comma v with
  | [x; y] =>
      match py_int x, py_int y with
      | Some a, Some b => Built (a, b)
      | _, _ => ValueError
      end
  | _ => ValueError
  end.

(** The constructor call [CMazeParams(width=..., ...)] on values read from
    the environment: the conversion of each field ([None] is accepted for
    the seed only), with [parse_tuple] before the conversion of the entry
    and of the exit, then the field constraints and the model validator.
    The fields that are not passed take their defaults. *)
Definition CMazeParams_init (a : init_args) : built CMazeParams :=
  match arg_width a ≫= field_int, arg_height a ≫= field_int,
        arg_entry a, arg_exit a, arg_output_file a,
        arg_perfect a ≫= field_bool with
  | Some w, Some h, Some e, Some x, Some o, Some pf =>
      match parse_tuple e, parse_tuple x,
            match arg_seed a with
            | None => Some None
            | Some s => Some <$> field_int s
            end with
      | Built e, Built x, Some sd =>
          match CMazeParams_new
                  (MkParams w h e x o pf sd (arg_insert_42 a)
                     (arg_w_cell_size a) 4 99) with
          | Ret r => Built r
          | _ => ValidationFailed
          end
      | _, _, _ => ValidationFailed
      end
  | _, _, _, _, _, _ => ValidationFailed
  end.

(** The arguments read from the environment, as both callers of the
    constructor compute them. *)
Definition env_args (env : environ) : init_args :=
  InitArgs (env !! "WIDTH"%string) (env !! "HEIGHT"%string)
    (env !! "ENTRY"%string) (env !! "EXIT"%string)
    (env !! "OUTPUT_FILE"%string) (env !! "PERFECT"%string)
    (env !! "SEED"%string)
    (negb (bool_decide (env !! "INSERT_42"%string = Some "False"%string)))
    (match env !! "W_CELL_SIZE"%string with
     | None => 25
     | Some val_ => default 25 (py_int val_)
     end).

(** [CMazeParams.create_param_from_file] *)
Definition create_param_from_file (file_name : option string)
    (env : environ) : built CMazeParams * environ * list stderr_line :=
  match file_name with
  | Some f =>
      let r := CMazeParams_fm_read_config (Some f) env in
      let c := fm_check_param [("WIDTH"%string, 1); ("HEIGHT"%string, 1)]
                 r.1.2 in
      if negb c.1 then (ValueError, r.1.2, r.2 ++ c.2)
      else (CMazeParams_init (env_args r.1.2), r.1.2, r.2 ++ c.2)
  | None => (CMazeParams_init (env_args env), env, [])
  end.

(** The configuration stage of [main]: from [sys.argv] and the environment
    to the record, or to [sys.exit(1)] ([None]). *)
Definition main_config (argv : list string) (env : environ)
    : option CMazeParams * environ * list stderr_line :=
  match argv with
  | [_; file_name] =>
      let r := fm_read_config (Some file_name) env in
      if negb r.1.1 then (None, r.1.2, r.2)
      else
        let c := fm_check_param
                   [("WIDTH"%string, 1); ("HEIGHT"%string, 1);
                    ("ENTRY"%string, 3); ("EXIT"%string, 3);
                    ("OUTPUT_FILE"%string, 1); ("PERFECT"%string, 4)]
                   r.1.2 in
        if negb c.1 then (None, r.1.2, r.2 ++ c.2)
        else
          match CMazeParams_init (env_args r.1.2) with
          | Built p => (Some p, r.1.2, r.2 ++ c.2)
          | _ => (None, r.1.2, r.2 ++ c.2 ++ [ValidationReport])
          end
  | _ => (None, env, [WrongParameters])
  end.

End Config.

(** ** Drawing ([a_maze_ing.py])

    The two drawing functions of [main] call the window library; the calls
    [mlx_pixel_put] and [mlx_string_put] are collected in the order in
    which they are made.  The pause [time.sleep] between two cells of the
    path is not modelled. *)

Inductive mlx_call : Type :=
| PixelPut (x y color : Z)
| StringPut (x y color : Z) (s : string).

(** [draw_filled_rect] *)
Definition draw_filled_rect (x y w h color : Z) : list mlx_call :=
  let color := Z.land 0xffffffff color in
  let color :=
    if Z.land color 0xff000000 =? 0 then color + 0xff000000 else color in
  j ← range 0 h; i ← range 0 w; [PixelPut (x + i) (y + j) color].

Section Draw.

(** The variables of [main] that [draw_maze] reads: the size of the part
    of the window that shows the maze, the height of the window, and the
    dictionary [colors] of the record. *)
Variables (WIN_W WIN_MH WIN_H : Z) (colors : gmap string Z).

(** What [draw_maze] draws for the cell [(x, y)] holding [val]: its
    inside when it is a cell of the pattern, the entry or the exit, then
    its top side and its right side, as a wall or as an opening. *)
Definition draw_cell (param : CMazeParams) (wall_color pattern_color : Z)
    (x y val : Z) : list mlx_call :=
  let t := w_wall_thickness param in
  let c := w_cell_size param in
  let y_l := y * (t + c) in
  let x_l := x * (t + c) in
  (if Z.land val 0xf =? 0xf
   then draw_filled_rect (x_l + t) (y_l + t) c c pattern_color
   else if Z.land val 0xc =? 0x4
   then draw_filled_rect (x_l + t) (y_l + t) c c
          (default 0xFF27C8F5 (colors !! "entry"%string))
   else if Z.land val 0xc =? 0x8
   then draw_filled_rect (x_l + t) (y_l + t) c c
          (default 0xFF38F527 (colors !! "exit"%string))
   else [])
  ++ (if Z.land val 0x1 =? 1
      then draw_filled_rect x_l y_l (c + t * 2) t wall_color
      else draw_filled_rect (x_l + t) y_l c t 0xff000000)
  ++ (if Z.land val 0x2 =? 2
      then draw_filled_rect (x_l + c + t) y_l t (c + t * 2) wall_color
      else draw_filled_rect (x_l + c + t) (y_l + t) t c 0xff000000).

(** The side crossed by the step of the path from [old] to [cur], which
    [draw_maze] paints in the colour of the path (the same statements in
    the loop over the path and after it). *)
Definition path_segment (param : CMazeParams) (path_color : Z)
    (old cur : Z * Z) : list mlx_call :=
  let t := w_wall_thickness param in
  let c := w_cell_size param in
  let '(x, y) := cur in
  let '(old_x, old_y) := old in
  if x =? old_x then
    if old_y >? y
    then draw_filled_rect (x * (t + c) + t) (old_y * (t + c)) c t path_color
    else draw_filled_rect (x * (t + c) + t) (y * (t + c)) c t path_color
  else
    if old_x >? x
    then draw_filled_rect (old_x * (t + c)) (y * (t + c) + t) t c path_color
    else draw_filled_rect (x * (t + c)) (y * (t + c) + t) t c path_color.

(** The last stage of [draw_maze]: the loop over the path and the
    statements after it. *)
Definition draw_path (param : CMazeParams) (path_ : list (Z * Z))
    : M (list mlx_call) :=
  let t := w_wall_thickness param in
  let c := w_cell_size param in
  let path_color := default 0xFFe0e020 (colors !! "path"%string) in
  let* middle :=
    for_yield (range 1 (len path_ - 1)) (fun i =>
      match py_get path_ i, py_get path_ (i - 1) with
      | Some (x, y), Some old =>
          ret (path_segment param path_color old (x, y)
               ++ draw_filled_rect (x * (t + c) + t) (y * (t + c) + t) c c
                    path_color
               ++ [StringPut 0 (WIN_H - 20) 0xf0f0f0 " "])
      | _, _ => raise IndexError
      end) in
  let* final :=
    (if len path_ >? 1 then
       let i := len path_ - 1 in
       match py_get path_ i, py_get path_ (i - 1) with
       | Some cur, Some old => ret (path_segment param path_color old cur)
       | _, _ => raise IndexError
       end
     else ret []) in
  ret (middle ++ final).

(** [draw_maze] *)
Definition draw_maze (param : CMazeParams) (path_ : list (Z * Z))
    (draw_area : option area) : M (list mlx_call) :=
  let t := w_wall_thickness param in
  let wall_color := default 0xff959696 (colors !! "wall"%string) in
  let pattern_color := default 0xffffffff (colors !! "pattern"%string) in
  let outer :=
    draw_filled_rect 0 0 WIN_W t wall_color
    ++ draw_filled_rect 0 0 t WIN_MH wall_color
    ++ draw_filled_rect 0 (WIN_MH - t) WIN_W t wall_color
    ++ draw_filled_rect (WIN_W - t) 0 t WIN_MH wall_color in
  let* len_m := len_maze in
  let* len_0 := (if len_m >? 0 then len_row0 else ret 0) in
  let '(x_from, y_from, x_to, y_to) :=
    match draw_area with
    | None => (0, 0, len_0, len_m)
    | Some (x_from, y_from, x_to, y_to) =>
        let y_from := Z.min (Z.max 0 y_from) len_m in
        let y_to := Z.min (Z.max 0 y_to) len_m in
        let x_from := Z.max 0 x_from in
        let x_to := Z.max 0 x_to in
        if len_m >? 0
        then (Z.min x_from len_0, y_from, Z.min x_to len_0, y_to)
        else (x_from, y_from, x_to, y_to)
    end in
  let* cells :=
    for_yield (range y_from y_to) (fun y =>
      for_yield (range x_from x_to) (fun x =>
        let* val := load y x in
        ret (draw_cell param wall_color pattern_color x y val))) in
  let legend :=
    match draw_area with
    | None =>
        [StringPut 10 (WIN_H - 80) 0xf0f0f0 "=== A-Maze-ing ===";
         StringPut 10 (WIN_H - 60) 0xf0f0f0 "1 - Regenerate";
         StringPut 10 (WIN_H - 40) 0xf0f0f0 "2 - Path, 3 - Color";
         StringPut 10 (WIN_H - 20) 0xf0f0f0
           (if len path_ >? 0 then "4 - Quit, A - Animation"
            else "4 - Quit")]
    | Some _ => [StringPut 0 (WIN_H - 20) 0xf0f0f0 " "]
    end in
  let* path_calls := draw_path param path_ in
  ret (outer ++ cells ++ legend ++ path_calls).

End Draw.

(** ** The key handler of [main]

    [m_mykey] works on the variables [maze_] and [path_] of [main] and on
    the dictionary of colours of the record.  The maze is the maze of the
    world; the other two make the state below.  The calls to [draw_maze]
    and to the window library are left out of the handler: they read these
    variables and assign none of them. *)

Record ui_state : Type := UiState {
  ui_path : list (Z * Z);
  ui_colors : gmap string Z
}.

(** [random.randint(a, b)]: one raw number, reduced to the range. *)
Definition random_randint (a b : Z) : M Z :=
  fun w =>
    let r := w_rng w in
    (Ret (a + Z.of_N (rng_tape r (rng_pos r)) mod (b - a + 1)),
     World (w_maze w) (Rng (rng_tape r) (S (rng_pos r))) (w_clock w)).

Definition m_mykey (seed_tape : Z → nat → N) (fuel : nat)
    (c_mz_param : CMazeParams) (keynum : Z) (st : ui_state) : M ui_state :=
  if keynum =? 49 then
    generate seed_tape fuel c_mz_param ;;
    if len (ui_path st) >? 0 then
      let* path_ := find_path_BFS fuel c_mz_param in
      ret (UiState path_ (ui_colors st))
    else ret st
  else if keynum =? 97 then
    set_maze [] ;;
    generate_animated seed_tape fuel c_mz_param ;;
    if len (ui_path st) >? 0 then
      let* path_ := find_path_BFS fuel c_mz_param in
      ret (UiState path_ (ui_colors st))
    else ret st
  else if (keynum =? 65307) || (keynum =? 52) then ret st
  else if keynum =? 50 then
    if len (ui_path st) <? 1 then
      clear_tmp_data ;;
      let* path_ := find_path_BFS fuel c_mz_param in
      ret (UiState path_ (ui_colors st))
    else ret (UiState [] (ui_colors st))
  else if keynum =? 51 then
    let* a := random_randint 0x101010 0xFFFFFF in
    let colors := <["wall"%string := Z.lor a 0xff000000]> (ui_colors st) in
    let* a := random_randint 0x101010 0xFFFFFF in
    let colors := <["pattern"%string := Z.lor a 0xff000000]> colors in
    ret (UiState (ui_path st) colors)
  else if keynum =? 115 then
    write_to_file fuel c_mz_param (ui_path st) "" ;;
    ret st
  else ret st.

(** The loop of the window library: it hands the keys pressed to
    [m_mykey], one after the other, until the handler asks it to stop
    ([mlx_loop_exit], on Esc and on 4). *)
Fixpoint key_loop (seed_tape : Z → nat → N) (fuel : nat)
    (c_mz_param : CMazeParams) (keys : list Z) (st : ui_state)
    : M ui_state :=
  match keys with
  | [] => ret st
  | keynum :: keys' =>
      let* st := m_mykey seed_tape fuel c_mz_param keynum st in
      if (keynum =? 65307) || (keynum =? 52) then ret st
      else key_loop seed_tape fuel c_mz_param keys' st
  end.

(** The default of the field [colors] of the record. *)
Definition default_colors : gmap string Z :=
  {[ "wall"%string := 0x959696; "entry"%string := 0xFF27C8F5;
     "exit"%string := 0xFF38F527; "pattern"%string := 0xFFFFFFFF ]}.

(** [main] from the record on: the first run, then the keys. *)
Definition main_session (seed_tape : Z → nat → N) (fuel : nat)
    (c_mz_param : CMazeParams) (keys : list Z) : M ui_state :=
  let* r := main_first_run seed_tape fuel c_mz_param in
  key_loop seed_tape fuel c_mz_param keys (UiState r.1.2 default_colors).

(** * Vocabulary of the properties *)

(** ** Grids *)

(** A grid of [H] rows of [W] cells each. *)
Definition wf_grid (W H : Z) (g : grid) : Prop :=
  Z.of_nat (length g) = H ∧ Forall (λ row, Z.of_nat (length row) = W) g.

(** The cell in column [x] of row [y]. *)
Definition cell (g : grid) (x y : Z) : Z :=
  default 0 (row ← g !! Z.to_nat y; row !! Z.to_nat x).

(** The grid with [v] in column [x] of row [y]. *)
Definition upd (g : grid) (x y v : Z) : grid :=
  alter (λ row, <[Z.to_nat x := v]> row) (Z.to_nat y) g.

(** The cell [(x, y)] lies in a grid of [W] columns and [H] rows. *)
Definition inside (W H : Z) (c : Z * Z) : Prop :=
  0 ≤ c.1 < W ∧ 0 ≤ c.2 < H.

(** The invariant of the data model on a parameter record. *)
Definition valid_params (p : CMazeParams) : Prop :=
  1 ≤ width p ∧ 1 ≤ height p ∧ entry p ≠ exit p
  ∧ inside (width p) (height p) (entry p)
  ∧ inside (width p) (height p) (exit p).

(** The grid [generate] builds before it places the pattern and carves. *)
Definition blank_grid (p : CMazeParams) : grid :=
  upd (upd (replicate (Z.to_nat (height p)) (replicate (Z.to_nat (width p)) 3))
         (entry p).1 (entry p).2 7)
    (exit p).1 (exit p).2 11.

(** ** Effects *)

(** A computation that leaves the world as it found it. *)
Definition read_only {A} (m : M A) : Prop := ∀ w, (m w).2 = w.

(** ** The carve steps of [gen_DFS] *)

(** The redraw region around a cell: the cell with a margin of one cell. *)
Definition box (c : Z * Z) : area := (c.1 - 1, c.2 - 1, c.1 + 1, c.2 + 1).

(** The cells from which the loop of [gen_DFS] carves, in order: an
    iteration is a carve step when it pushes a frame (it opens a wall of the
    cell on top of the stack and marks the cell it enters). *)
Fixpoint carve_steps (fuel : nat) (mzParam : CMazeParams)
    (m_path : list frame) (w : world) : list (Z * Z) :=
  match fuel with
  | O => []
  | S fuel' =>
      if Z.of_nat (length m_path) >? 0 then
        match gen_DFS_body mzParam m_path w with
        | (Ret m_path', w') =>
            (if (length m_path <? length m_path')%nat
             then match last m_path with
                  | Some (x, y, _) => [(x, y)]
                  | None => []
                  end
             else [])
            ++ carve_steps fuel' mzParam m_path' w'
        | _ => []
        end
      else []
  end.

(** The carve steps of a whole run of [gen_DFS]. *)
Definition gen_DFS_carve_steps (fuel : nat) (mzParam : CMazeParams)
    (w : world) : list (Z * Z) :=
  let '(x, y) := exit mzParam in
  match (let* v := load y x in store y x (Z.lor v 0x10)) w with
  | (Ret _, w1) => carve_steps fuel mzParam [(x, y, 0xf)] w1
  | _ => []
  end.

(** Two worlds with the same maze and, when [rng] is set, the same state
    of the module [random]; their clocks are unrelated. *)
Definition agree (rng : bool) (w1 w2 : world) : Prop :=
  w_maze w1 = w_maze w2 ∧ (rng = true → w_rng w1 = w_rng w2).

(** A computation that, from worlds related by [R], ends the same way in
    worlds related by [R']. *)
Definition rel_m (R R' : world → world → Prop) {A} (m : M A) : Prop :=
  ∀ w1 w2, R w1 w2 → (m w1).1 = (m w2).1 ∧ R' (m w1).2 (m w2).2.

(** A stream of raw numbers for each seed, for the worked examples. *)
Definition example_seed_tape (a : Z) (n : nat) : N :=
  N.of_nat (n * 13 + Z.to_nat a).

(** ** Paths *)

(** Every two consecutive elements of [l] are related by [R]. *)
Fixpoint chain {A} (R : A → A → Prop) (l : list A) : Prop :=
  match l with
  | a :: (b :: _) as rest => R a b ∧ chain R rest
  | _ => True
  end.

(** Two cells next to each other in the grid: they differ by exactly 1 in
    exactly one coordinate. *)
Definition step_adjacent (a b : Z * Z) : Prop :=
  (b.1 = a.1 ∧ Z.abs (b.2 - a.2) = 1) ∨ (b.2 = a.2 ∧ Z.abs (b.1 - a.1) = 1).

(** ** Reading back a direction line *)

(** The move a direction character stands for. *)
Definition delta (d : ascii) : option (Z * Z) :=
  if Ascii.eqb d "N" then Some (0, -1)
  else if Ascii.eqb d "S" then Some (0, 1)
  else if Ascii.eqb d "E" then Some (1, 0)
  else if Ascii.eqb d "W" then Some (-1, 0)
  else None.

(** The cells visited when the moves of [dirs] are followed from [c]. *)
Fixpoint replay (c : Z * Z) (dirs : string) : option (list (Z * Z)) :=
  match dirs with
  | EmptyString => Some [c]
  | String d rest =>
      match delta d with
      | Some (dx, dy) => cons c <$> replay (c.1 + dx, c.2 + dy) rest
      | None => None
      end
  end.

Definition newline : ascii := ascii_of_nat 10.

(** The characters of [l] up to the first newline. *)
Fixpoint up_to_newline (l : list ascii) : list ascii :=
  match l with
  | [] => []
  | c :: l' => if Ascii.eqb c newline then [] else c :: up_to_newline l'
  end.

(** The last line of a text that ends with a newline: the characters
    between the last two newlines. *)
Definition last_line (text : string) : string :=
  string_of_list_ascii
    (rev (up_to_newline (tl (rev (list_ascii_of_string text))))).

(** ** Total correctness *)

(** From the world [w], [m] returns a value, and the value and the world
    reached satisfy [Q]. *)
Definition returns {A} (m : M A) (w : world) (Q : A → world → Prop) : Prop :=
  ∃ a w', m w = (Ret a, w') ∧ Q a w'.

(** ** Bits of a cell *)

(** The cell belongs to the pattern: bits 2 and 3 are both set. *)
Definition is_pattern (v : Z) : bool := Z.testbit v 3 && Z.testbit v 2.

(** The carver does not enter the cell: it belongs to the pattern or it
    carries the visited flag. *)
Definition is_blocked (v : Z) : bool := Z.testbit v 4 || is_pattern v.

(** ** Directions, walls and passages *)

Inductive dir : Type := North | East | South | West.

#[global] Instance dir_eq_dec : EqDecision dir.
Proof. solve_decision. Defined.

(** The position of the direction in a direction mask: 1 is North, 2 East,
    4 South, 8 West. *)
Definition dir_bit (d : dir) : Z :=
  match d with North => 0 | East => 1 | South => 2 | West => 3 end.

Definition neighbor (c : Z * Z) (d : dir) : Z * Z :=
  match d with
  | North => (c.1, c.2 - 1)
  | East => (c.1 + 1, c.2)
  | South => (c.1, c.2 + 1)
  | West => (c.1 - 1, c.2)
  end.

Definition cell_at (g : grid) (c : Z * Z) : Z := cell g c.1 c.2.

(** The stored bit of the wall of [c] towards [d]: the top or right bit of
    [c] itself, the top bit of the cell below, the right bit of the cell on
    the left. *)
Definition wall_bit (g : grid) (c : Z * Z) (d : dir) : bool :=
  match d with
  | North => Z.testbit (cell_at g c) 0
  | East => Z.testbit (cell_at g c) 1
  | South => Z.testbit (cell_at g (neighbor c South)) 0
  | West => Z.testbit (cell_at g (neighbor c West)) 1
  end.

(** An open connection of the grid: two cells inside the grid, next to each
    other, with no wall between them (a side on the boundary of the grid is
    a wall whatever the bits say). *)
Definition passage (W H : Z) (g : grid) (a b : Z * Z) : Prop :=
  inside W H a ∧ inside W H b
  ∧ ∃ d, b = neighbor a d ∧ wall_bit g a d = false.

(** The open connections, each listed once, from the cell that stores the
    wall: upwards and to the right. *)
Definition cells (W H : Z) : list (Z * Z) :=
  y ← range 0 H; (λ x, (x, y)) <$> range 0 W.

Definition open_edges (W H : Z) (g : grid) : list ((Z * Z) * (Z * Z)) :=
  c ← cells W H;
  (if (0 <? c.2) && negb (Z.testbit (cell_at g c) 0)
   then [(c, neighbor c North)] else [])
  ++ (if (c.1 <? W - 1) && negb (Z.testbit (cell_at g c) 1)
      then [(c, neighbor c East)] else []).

(** ** Simple paths and trees *)

(** [l] is a simple path from [a] to [b] along [R]. *)
Definition simple_path {A} (R : A → A → Prop) (l : list A) (a b : A) : Prop :=
  head l = Some a ∧ last l = Some b ∧ chain R l ∧ NoDup l.

(** The undirected relation of a list of edges. *)
Definition adj {A} (E : list (A * A)) (a b : A) : Prop :=
  (a, b) ∈ E ∨ (b, a) ∈ E.

(** A tree grown from a root by hanging one new vertex at a time from a
    vertex already there. *)
Inductive tree_of {A} : list A → list (A * A) → Prop :=
| tree_root r : tree_of [r] []
| tree_leaf V E u v :
    tree_of V E → u ∈ V → v ∉ V → tree_of (v :: V) ((u, v) :: E).

(** A perfect maze: the open connections are as many as the cells minus
    one, and any two cells are joined by exactly one simple path. *)
Definition perfect_maze (W H : Z) (g : grid) : Prop :=
  Z.of_nat (length (open_edges W H g)) = W * H - 1
  ∧ ∀ a b, inside W H a → inside W H b →
      ∃ l, simple_path (passage W H g) l a b
           ∧ ∀ l', simple_path (passage W H g) l' a b → l' = l.

(** ** The steps of the carver *)

(** The carver may go from [c] towards [d]: the neighbour is inside the
    grid and is neither visited nor part of the pattern. *)
Definition avail (W H : Z) (g : grid) (c : Z * Z) (d : dir) : bool :=
  bool_decide (inside W H (neighbor c d))
  && negb (is_blocked (cell_at g (neighbor c d))).

(** The grid after the wall of [c] towards [d] is opened and the neighbour
    is marked visited. *)
Definition carve (g : grid) (c : Z * Z) (d : dir) : grid :=
  let n := neighbor c d in
  let own := match d with North | East => c | South | West => n end in
  let mask := match d with North | South => 0xfffe | East | West => 0xfffd end in
  let g1 := upd g own.1 own.2 (Z.land (cell_at g own) mask) in
  upd g1 n.1 n.2 (Z.lor (cell_at g1 n) 0x10).

(** One iteration of the loop of [gen_DFS], on the grid and the stack:
    the top frame is dropped when no direction of its mask is available,
    otherwise one available direction of the mask is followed. *)
Inductive carve_step (W H : Z) : grid * list frame → grid * list frame → Prop :=
| carve_pop g m c q :
    (∀ d, Z.testbit q (dir_bit d) = true → avail W H g c d = false) →
    carve_step W H (g, m ++ [(c, q)]) (g, m)
| carve_push g m c q d q' :
    Z.testbit q (dir_bit d) = true →
    avail W H g c d = true →
    0 ≤ q' < 16 →
    (∀ d', Z.testbit q' (dir_bit d')
           = Z.testbit q (dir_bit d') && avail W H g c d'
             && negb (bool_decide (d' = d))) →
    carve_step W H (g, m ++ [(c, q)])
      (carve g c d, m ++ [(c, q')] ++ [(neighbor c d, 0xf)]).

(** What the four checks of the carver leave of the mask [q], given which
    directions are available. *)
Definition prune_mask (q : Z) (a : dir → bool) : Z :=
  let q := if Z.testbit q 0 && negb (a North) then Z.land q 14 else q in
  let q := if Z.testbit q 1 && negb (a East) then Z.land q 13 else q in
  let q := if Z.testbit q 2 && negb (a South) then Z.land q 11 else q in
  if Z.testbit q 3 && negb (a West) then Z.land q 7 else q.

(** The cell that stores the wall of [c] towards [d], and the position of
    the bit in it. *)
Definition wall_owner (c : Z * Z) (d : dir) : Z * Z :=
  match d with North | East => c | South | West => neighbor c d end.

Definition wall_idx (d : dir) : Z :=
  match d with North | South => 0 | East | West => 1 end.

Definition opposite (d : dir) : dir :=
  match d with North => South | East => West | South => North | West => East end.

(** The frames of a stack lie inside the grid and carry a mask of four
    bits. *)
Definition frames_ok (W H : Z) (m : list frame) : Prop :=
  Forall (λ f : frame, inside W H f.1 ∧ 0 ≤ f.2 < 16) m.

(** The cells the carver may still enter. *)
Definition free_cells (W H : Z) (g : grid) : list (Z * Z) :=
  filter (λ c, is_blocked (cell_at g c) = false) (cells W H).

(** The invariant of the carver on a grid without pattern: [V] lists the
    visited cells and [E] the walls opened, each as the pair of the cell
    carved from and the cell entered. *)
Record carve_inv (W H : Z) (V : list (Z * Z)) (E : list ((Z * Z) * (Z * Z)))
    (g : grid) (m : list frame) : Prop := CarveInv {
  ci_wf : wf_grid W H g;
  ci_frames : frames_ok W H m;
  ci_tree : tree_of V E;
  ci_visited :
    ∀ c, inside W H c → (Z.testbit (cell_at g c) 4 = true ↔ c ∈ V);
  ci_inside : ∀ c, c ∈ V → inside W H c;
  ci_no_pattern : ∀ c, inside W H c → is_pattern (cell_at g c) = false;
  ci_passage : ∀ a b, passage W H g a b ↔ adj E a b;
  ci_count : length (open_edges W H g) = length E;
  ci_stack : ∀ f : frame, f ∈ m → f.1 ∈ V;
  ci_pending :
    ∀ (f : frame) d, f ∈ m → Z.testbit f.2 (dir_bit d) = false →
      inside W H (neighbor f.1 d) → neighbor f.1 d ∈ V;
  ci_closed :
    ∀ c, c ∈ V →
      (∃ q, (c, q) ∈ m) ∨ ∀ d, inside W H (neighbor c d) → neighbor c d ∈ V
}.

(** ** The removals of the imperfection injector *)

(** The grid after the bit of the wall of [c] towards [d] is cleared in the
    cell that stores it. *)
Definition open_wall (g : grid) (c : Z * Z) (d : dir) : grid :=
  let own := wall_owner c d in
  upd g own.1 own.2
    (Z.land (cell_at g own) (match wall_idx d with 0 => 0xfffe | _ => 0xfffd end)).

(** The injector may open the wall of [c] towards [d]: the neighbour is
    inside the grid and is not part of the pattern. *)
Definition removable (W H : Z) (g : grid) (c : Z * Z) (d : dir) : bool :=
  bool_decide (inside W H (neighbor c d))
  && negb (is_pattern (cell_at g (neighbor c d))).

(** One removal: a wall between two cells inside the grid, neither of them
    part of the pattern, is opened. *)
Inductive wall_removal (W H : Z) : grid → grid → Prop :=
| wall_removed g c d :
    inside W H c → inside W H (neighbor c d) →
    is_pattern (cell_at g c) = false →
    is_pattern (cell_at g (neighbor c d)) = false →
    wall_removal W H g (open_wall g c d).

(** What the injector guarantees between the grid [g] it receives and the
    grid [g'] it leaves: the shape is kept; bits are only cleared, and below
    bit 16 only the two wall bits; the top bits of the first row and the
    right bits of the last column are kept (the other two sides of the
    boundary store no bit); a wall with a pattern cell on either side is
    kept; and cells joined by open connections stay joined. *)
Definition safe_injection (W H : Z) (g g' : grid) : Prop :=
  wf_grid W H g'
  ∧ (∀ e i, inside W H e → 0 ≤ i →
       Z.testbit (cell_at g' e) i = true → Z.testbit (cell_at g e) i = true)
  ∧ (∀ e i, inside W H e → 2 ≤ i < 16 →
       Z.testbit (cell_at g' e) i = Z.testbit (cell_at g e) i)
  ∧ (∀ e, inside W H e →
       (e.2 = 0 → Z.testbit (cell_at g' e) 0 = Z.testbit (cell_at g e) 0)
       ∧ (e.1 = W - 1 →
          Z.testbit (cell_at g' e) 1 = Z.testbit (cell_at g e) 1))
  ∧ (∀ a d, inside W H a → inside W H (neighbor a d) →
       is_pattern (cell_at g a) = true
       ∨ is_pattern (cell_at g (neighbor a d)) = true →
       wall_bit g' a d = wall_bit g a d)
  ∧ (∀ a b, rtc (passage W H g) a b → rtc (passage W H g') a b).

(** ** Partial correctness and invariants of the world *)

(** If [m] returns from [w], the value and the world reached satisfy
    [Q]. *)
Definition ensures {A} (m : M A) (w : world) (Q : A → world → Prop) : Prop :=
  ∀ a w', m w = (Ret a, w') → Q a w'.

(** [m] keeps [I], however it ends. *)
Definition preserves (I : world → Prop) {A} (m : M A) : Prop :=
  ∀ w, I w → I (m w).2.

(** [g'] has the shape of [g] and the same low eight bits in every cell
    (the walls, the markers and the two flags below bit 8), and no cell has
    become negative. *)
Definition same_low_byte (W H : Z) (g g' : grid) : Prop :=
  wf_grid W H g'
  ∧ ∀ e, inside W H e →
      Z.land (cell_at g' e) 0xff = Z.land (cell_at g e) 0xff
      ∧ (0 ≤ cell_at g e → 0 ≤ cell_at g' e).

(** What [clear_tmp_data] writes for a cell. *)
Definition cleared (v : Z) : Z := if v >? 0xf then Z.land v 0xf else v.

(** One step of a path in the grid [g]: to a cell next to the current one,
    inside the grid, with no wall in between. *)
Definition path_step (W H : Z) (g : grid) (u v : Z * Z) : Prop :=
  step_adjacent u v ∧ passage W H g u v.

(** A path of the maze from [a] to [b]: it starts at [a], ends at [b], and
    each step is a step of the grid. *)
Definition valid_path (W H : Z) (g : grid) (a b : Z * Z) (l : list (Z * Z))
    : Prop :=
  head l = Some a ∧ last l = Some b ∧ chain (path_step W H g) l.

(** [l] is empty or a walk of the grid that starts at [a]. *)
Definition trail (W H : Z) (g : grid) (a : Z * Z) (l : list (Z * Z)) : Prop :=
  chain (path_step W H g) l ∧ Forall (inside W H) l
  ∧ (l = [] ∨ head l = Some a).

(** What the finders return: no path, or a path from [a] to [b]. *)
Definition path_ok (W H : Z) (g : grid) (a b : Z * Z) (l : list (Z * Z))
    : Prop :=
  l = [] ∨ valid_path W H g a b l.

(** What the loop of [find_path_DFS] keeps: the current path is a walk from
    the entry, the best path is empty or a path from the entry to the
    exit. *)
Definition dfs_ok (W H : Z) (g : grid) (mzParam : CMazeParams)
    (st : dfs_state) : Prop :=
  trail W H g (entry mzParam) (c_path st).*1
  ∧ path_ok W H g (entry mzParam) (exit mzParam) (best_path st).

(** What the loop of [find_path_BFS] keeps: the cells of the queue are
    inside the grid, and every cell recorded in [parent] is one step away
    from its parent. *)
Definition bfs_ok (W H : Z) (g : grid) (st : bfs_state) : Prop :=
  Forall (inside W H) st.1.1
  ∧ ∀ k v, st.2 !! k = Some v → path_step W H g v k.

(** What one of the four blocks of [dfs_open_dirs] leaves of the mask: no bit is added, and
    the bit of the block is left only when [P] holds. *)
Definition filtered (q : Z) (k : Z) (P : Prop) (w : world) (q' : Z)
    (w' : world) : Prop :=
  w' = w
  ∧ (∀ j, Z.testbit q' j = true → Z.testbit q j = true)
  ∧ (Z.testbit q' k = true → P).

(** ** The layers of the breadth-first search *)

(** The cells of the grid that the search has not seen yet. *)
Definition bfs_unseen (W H : Z) (visited : gset (Z * Z)) : list (Z * Z) :=
  filter (λ c, c ∉ visited) (cells W H).

(** What is left to do: every iteration takes a cell from the queue, and a
    cell enters the queue once, when it is seen. *)
Definition bfs_measure (W H : Z) (st : bfs_state) : nat :=
  2 * length (bfs_unseen W H st.1.2) + length st.1.1.

(** The layer of a cell, in a map from the cells seen to their layers. *)
Definition lv (lvl : gmap (Z * Z) nat) (c : Z * Z) : nat :=
  default 0%nat (lvl !! c).

(** What the state of the search keeps, with the layers as ghost state: the
    cells seen are the cells with a layer; [start] alone has layer 0; a
    cell of layer [j + 1] has a parent of layer [j] one step before it; the
    queue holds cells seen, in the order of their layers. *)
Record bfs_core (W H : Z) (g : grid) (start : Z * Z)
    (lvl : gmap (Z * Z) nat) (st : bfs_state) : Prop := BfsCore {
  bc_start : lvl !! start = Some 0%nat;
  bc_zero : ∀ k, lvl !! k = Some 0%nat → k = start;
  bc_dom : ∀ k, k ∈ st.1.2 ↔ is_Some (lvl !! k);
  bc_inside : ∀ k, is_Some (lvl !! k) → inside W H k;
  bc_parent :
    ∀ k j, lvl !! k = Some (S j) →
      ∃ v, st.2 !! k = Some v ∧ lvl !! v = Some j ∧ path_step W H g v k;
  bc_queue : ∀ k, k ∈ st.1.1 → is_Some (lvl !! k);
  bc_sorted : StronglySorted (λ a b, lv lvl a ≤ lv lvl b)%nat st.1.1;
  bc_count :
    ∀ k j, lvl !! k = Some j →
      (j + length (bfs_unseen W H st.1.2) < Z.to_nat (W * H))%nat
}.

(** The cell [u] has been dealt with: it is not the exit, and every cell
    one step after it has been seen, at most one layer further. *)
Definition bfs_closed (W H : Z) (g : grid) (end_ : Z * Z)
    (lvl : gmap (Z * Z) nat) (u : Z * Z) : Prop :=
  u ≠ end_
  ∧ ∀ v, path_step W H g u v →
      ∃ j, lvl !! v = Some j ∧ (j ≤ S (lv lvl u))%nat.

(** The invariant at the head of the loop: the cells seen that have left
    the queue have been dealt with, and no layer is more than one beyond
    the layer of the head of the queue. *)
Definition bfs_inv (W H : Z) (g : grid) (start end_ : Z * Z)
    (lvl : gmap (Z * Z) nat) (st : bfs_state) : Prop :=
  bfs_core W H g start lvl st
  ∧ (∀ u, is_Some (lvl !! u) → u ∉ st.1.1 → bfs_closed W H g end_ lvl u)
  ∧ (∀ h, head st.1.1 = Some h →
       ∀ k j, lvl !! k = Some j → (j ≤ S (lv lvl h))%nat).

(** The invariant inside an iteration, while the cell [cur] taken from the
    queue is dealt with, after the directions [ds]. *)
Definition bfs_mid (W H : Z) (g : grid) (start end_ : Z * Z)
    (lvl : gmap (Z * Z) nat) (cur : Z * Z) (ds : list dir)
    (st : bfs_state) : Prop :=
  bfs_core W H g start lvl st
  ∧ is_Some (lvl !! cur) ∧ cur ≠ end_
  ∧ (∀ u, is_Some (lvl !! u) → u ∉ st.1.1 → u ≠ cur →
       bfs_closed W H g end_ lvl u)
  ∧ (∀ k j, lvl !! k = Some j → (j ≤ S (lv lvl cur))%nat)
  ∧ (∀ q, q ∈ st.1.1 → (lv lvl cur ≤ lv lvl q)%nat)
  ∧ (∀ d, d ∈ ds → path_step W H g cur (neighbor cur d) →
       ∃ j, lvl !! neighbor cur d = Some j ∧ (j ≤ S (lv lvl cur))%nat).

(** What [find_path_BFS] returns: no path when there is none, a shortest
    path otherwise. *)
Definition bfs_post (W H : Z) (g : grid) (start end_ : Z * Z)
    (r : list (Z * Z)) : Prop :=
  (r = [] → ∀ l, ¬ valid_path W H g start end_ l)
  ∧ (r ≠ [] →
     valid_path W H g start end_ r
     ∧ ∀ l, valid_path W H g start end_ l → (length r ≤ length l)%nat).

(** ** The footprint of the pattern *)

(** The cell [c] is one of the cells that the pattern marks when its top
    left corner is placed at [(px, py)]. *)
Definition pattern_at (px py : Z) (c : Z * Z) : bool :=
  (0 <=? c.1 - px) && (c.1 - px <? 7) && (0 <=? c.2 - py) && (c.2 - py <? 5)
  && (cell p_42 (c.1 - px) (c.2 - py) =? 15).

(** The corner at which [place_42] puts the pattern in a grid of [H] rows
    of [W] cells. *)
Definition corner_42 (W H : Z) : Z * Z := (Z.quot (W - 7) 2, Z.quot (H - 5) 2).

(** The cell [c] lies in the rectangle of 7 by 5 cells with its top left
    corner at [(px, py)]. *)
Definition in_footprint (px py : Z) (c : Z * Z) : Prop :=
  px ≤ c.1 < px + 7 ∧ py ≤ c.2 < py + 5.

(** ** The carver on a grid with the pattern *)

(** The cell that [generate] prepares at [c] before it carves: 15 on the
    pattern when it was placed, 11 at the exit, 7 at the entry, 3
    elsewhere. *)
Definition template (p : CMazeParams) (placed : bool) (c : Z * Z) : Z :=
  if placed
     && pattern_at (corner_42 (width p) (height p)).1
          (corner_42 (width p) (height p)).2 c
  then 15
  else if bool_decide (c = exit p) then 11
  else if bool_decide (c = entry p) then 7
  else 3.

(** The invariant of the carver on any grid, from the grid [g0] it
    started with at the cell [r]: [V] lists the visited cells and [E] the
    walls opened. *)
Record carve_pat_inv (W H : Z) (g0 : grid) (r : Z * Z) (V : list (Z * Z))
    (E : list ((Z * Z) * (Z * Z))) (g : grid) (m : list frame) : Prop :=
  CarvePatInv {
  cp_wf : wf_grid W H g;
  cp_frames : frames_ok W H m;
  cp_tree : tree_of V E;
  cp_visited :
    ∀ c, inside W H c → (Z.testbit (cell_at g c) 4 = true ↔ c ∈ V);
  cp_inside : ∀ c, c ∈ V → inside W H c;
  cp_passage : ∀ a b, passage W H g a b ↔ adj E a b;
  cp_count : length (open_edges W H g) = length E;
  cp_stack : ∀ f : frame, f ∈ m → f.1 ∈ V;
  cp_pending :
    ∀ (f : frame) d, f ∈ m → Z.testbit f.2 (dir_bit d) = false →
      inside W H (neighbor f.1 d) →
      neighbor f.1 d ∈ V ∨ is_pattern (cell_at g (neighbor f.1 d)) = true;
  cp_closed :
    ∀ c, c ∈ V →
      (∃ q, (c, q) ∈ m)
      ∨ ∀ d, inside W H (neighbor c d) →
          neighbor c d ∈ V ∨ is_pattern (cell_at g (neighbor c d)) = true;
  cp_bits :
    ∀ c i, inside W H c → 2 ≤ i < 16 → i ≠ 4 →
      Z.testbit (cell_at g c) i = Z.testbit (cell_at g0 c) i;
  cp_rest : ∀ c, inside W H c → c ∉ V → cell_at g c = cell_at g0 c;
  cp_root : r ∈ V;
  cp_free : ∀ c, c ∈ V → c ≠ r → is_pattern (cell_at g c) = false
}.

(** What the carver leaves: the walls opened form a tree on the cells
    [V] that carry the visited flag; the exit is one of them; an open
    connection joins two of them, and any two of them are joined by exactly
    one simple path; a cell of the grid next to one of them is one of them
    or belongs to the pattern; none of them but the exit belongs to the
    pattern. *)
Definition carved (W H : Z) (out_ : Z * Z) (V : list (Z * Z)) (g : grid)
    : Prop :=
  NoDup V ∧ out_ ∈ V
  ∧ (∀ c, c ∈ V ↔ inside W H c ∧ Z.testbit (cell_at g c) 4 = true)
  ∧ (∀ a b, passage W H g a b → a ∈ V ∧ b ∈ V)
  ∧ (∀ a b, a ∈ V → b ∈ V →
       ∃ l, simple_path (passage W H g) l a b
            ∧ ∀ l', simple_path (passage W H g) l' a b → l' = l)
  ∧ (∀ c d, c ∈ V → inside W H (neighbor c d) →
       neighbor c d ∈ V ∨ is_pattern (cell_at g (neighbor c d)) = true)
  ∧ (∀ c, c ∈ V → c ≠ out_ → is_pattern (cell_at g c) = false)
  ∧ S (length (open_edges W H g)) = length V.

(** ** The text of the serializer *)

(** The effective wall mask of a cell in a grid of [H] rows of [W] cells:
    bit 0 for the top, 1 for the right, 2 for the bottom, 3 for the left;
    the stored bits, the bits of the neighbours below and on the left, and
    the sides of the grid. *)
Definition wall_mask (W H : Z) (g : grid) (c : Z * Z) : Z :=
  (if Z.testbit (cell_at g c) 0 || (c.2 =? 0) then 1 else 0)
  + (if Z.testbit (cell_at g c) 1 || (c.1 =? W - 1) then 2 else 0)
  + (if (c.2 =? H - 1) || Z.testbit (cell_at g (c.1, c.2 + 1)) 0
     then 4 else 0)
  + (if (c.1 =? 0) || Z.testbit (cell_at g (c.1 - 1, c.2)) 1 then 8 else 0).

(** The pieces that [write_to_file] writes for the grid, in order: for
    each row, one piece for each cell and a newline. *)
Definition maze_rows (W H : Z) (g : grid) : list string :=
  y ← range 0 H;
  ((λ x, format_X (wall_mask W H g (x, y))) <$> range 0 W)
  ++ [String newline EmptyString].

(** What [write_to_file] writes after the grid. *)
Definition file_tail (p : CMazeParams) (path : list (Z * Z)) : string :=
  (String newline EmptyString
   ++ pretty (entry p).1 ++ "," ++ pretty (entry p).2
   ++ String newline EmptyString
   ++ pretty (exit p).1 ++ "," ++ pretty (exit p).2
   ++ String newline EmptyString
   ++ direction_line path ++ String newline EmptyString)%string.

(** The position of a character in a list, from [i]. *)
Fixpoint index_from (ch : ascii) (l : list ascii) (i : Z) : option Z :=
  match l with
  | [] => None
  | a :: l' => if Ascii.eqb a ch then Some i else index_from ch l' (i + 1)
  end.

(** The value of a hexadecimal digit, as a reader of the file decodes
    it. *)
Definition hex_value (ch : ascii) : option Z :=
  index_from ch (list_ascii_of_string "0123456789ABCDEF") 0.

(** ** Runs that differ only in what they return *)

(** [m'] does to the world what [m] does and ends the same way (a return,
    the same exception, or the end of the fuel), whatever the two
    return. *)
Definition same_run {A B} (m : M A) (m' : M B) : Prop :=
  ∀ w, (m' w).2 = (m w).2
       ∧ match (m w).1, (m' w).1 with
         | Ret _, Ret _ => True
         | Raise e, Raise e' => e = e'
         | OutOfFuel, OutOfFuel => True
         | _, _ => False
         end.

(** ** The shape of the list of rows *)

(** The number of rows and the length of each. *)
Definition shape (g : grid) : list nat := length <$> g.

(** ** The window *)

(** The colour that [draw_filled_rect] hands to the window library for the
    colour it is given. *)
Definition argb (color : Z) : Z :=
  let c := Z.land 0xffffffff color in
  if Z.land c 0xff000000 =? 0 then c + 0xff000000 else c.

(** The pixel [(px, py)] lies in the rectangle of width [w] and height [h]
    whose top left corner is [(x, y)]. *)
Definition in_rect (x y w h : Z) (px py : Z) : Prop :=
  x ≤ px < x + w ∧ y ≤ py < y + h.

(** The inside of the cell [c] on the window: the square between its
    sides. *)
Definition cell_inside (param : CMazeParams) (c : Z * Z) (px py : Z)
    : Prop :=
  let t := w_wall_thickness param in
  let s := w_cell_size param in
  in_rect (c.1 * (t + s) + t) (c.2 * (t + s) + t) s s px py.

(** The block of a cell on the window: its inside and its four sides. *)
Definition cell_block (param : CMazeParams) (c : Z * Z) (px py : Z)
    : Prop :=
  let t := w_wall_thickness param in
  let s := w_cell_size param in
  in_rect (c.1 * (t + s)) (c.2 * (t + s)) (s + t * 2) (s + t * 2) px py.

(** The pixel lies on the frame that [draw_maze] draws around the maze. *)
Definition on_frame (WIN_W WIN_MH t : Z) (px py : Z) : Prop :=
  in_rect 0 0 WIN_W WIN_MH px py
  ∧ (px < t ∨ WIN_W - t ≤ px ∨ py < t ∨ WIN_MH - t ≤ py).

(** The cell [c] lies in the region [draw_area] handed to [draw_maze]
    (every cell does when no region is given). *)
Definition in_area (draw_area : option area) (c : Z * Z) : Prop :=
  match draw_area with
  | None => True
  | Some (x1, y1, x2, y2) => x1 ≤ c.1 < x2 ∧ y1 ≤ c.2 < y2
  end.

(** ** The state of the window *)

(** What the key handler keeps: the maze has the size of the record, and
    the path shown is empty or a shortest path of the maze shown, from the
    entry to the exit. *)
Definition ui_inv (p : CMazeParams) (st : ui_state) (w : world) : Prop :=
  wf_grid (width p) (height p) (w_maze w)
  ∧ (ui_path st = []
     ∨ (valid_path (width p) (height p) (w_maze w) (entry p) (exit p)
          (ui_path st)
        ∧ ∀ l, valid_path (width p) (height p) (w_maze w) (entry p) (exit p)
                 l →
               (length (ui_path st) ≤ length l)%nat)).

(** ** Runs that end without an exception *)

(** From [w], [m] returns or runs out of fuel; it does not raise. *)
Definition no_raise {A} (m : M A) (w : world) : Prop :=
  ∀ e w', m w ≠ (Raise e, w').

(** ** Dead ends *)

(** The cell [c] has an open connection. *)
Definition one_open (W H : Z) (g : grid) (c : Z * Z) : Prop :=
  ∃ d, path_step W H g c (neighbor c d).

(** The cell [c] has open connections in two directions at least: it is
    not a dead end. *)
Definition two_open (W H : Z) (g : grid) (c : Z * Z) : Prop :=
  ∃ d1 d2, d1 ≠ d2
           ∧ path_step W H g c (neighbor c d1)
           ∧ path_step W H g c (neighbor c d2).

(** * Properties *)

(** ** The monad *)

Lemma bind_ret {A B} (a : A) (k : A → M B) w : bind (ret a) k w = k a w.
Proof. reflexivity. Qed.

Lemma bind_Ret {A B} (m : M A) (k : A → M B) w a w' :
  m w = (Ret a, w') → bind m k w = k a w'.
Proof. unfold bind. intros ->. reflexivity. Qed.

Lemma bind_inv_Ret {A B} (m : M A) (k : A → M B) w b w' :
  bind m k w = (Ret b, w') →
  ∃ a w1, m w = (Ret a, w1) ∧ k a w1 = (Ret b, w').
Proof.
  unfold bind. destruct (m w) as [[a | e |] w1]; intros H; try discriminate.
  eauto.
Qed.

Lemma bind_unfold {A B} (m : M A) (k : A → M B) w :
  bind m k w =
  match m w with
  | (Ret a, w') => k a w'
  | (Raise e, w') => (Raise e, w')
  | (OutOfFuel, w') => (OutOfFuel, w')
  end.
Proof. reflexivity. Qed.

(** ** Random choices and stacks *)

Lemma random_choice_elem {A} (l : list A) w a w' :
  random_choice l w = (Ret a, w') → a ∈ l.
Proof.
  unfold random_choice.
  destruct (l !! _) as [b |] eqn:Hb; intros H; inversion H; subst.
  eapply list_elem_of_lookup_2. exact Hb.
Qed.

Lemma set_bits4_elem q a :
  a ∈ set_bits4 q → a = 1 ∨ a = 2 ∨ a = 4 ∨ a = 8.
Proof.
  unfold set_bits4. intros H. apply list_elem_of_omap in H.
  destruct H as (i & Hi & Ha). change (range 0 4) with [0; 1; 2; 3] in Hi.
  repeat (apply elem_of_cons in Hi; destruct Hi as [-> | Hi]);
    try (destruct (truthy _); inversion Ha; subst; auto; fail).
  inversion Hi.
Qed.

Lemma length_set_q (m : list frame) i x y q :
  length (set_q m i x y q) = length m.
Proof. apply length_insert. Qed.

Lemma length_removelast {A} (l : list A) :
  length (removelast l) = (length l - 1)%nat.
Proof.
  destruct (decide (l = [])) as [-> | Hne]; [reflexivity |].
  destruct (exists_last Hne) as (l' & a & ->).
  rewrite removelast_last. rewrite length_app. simpl. lia.
Qed.

Lemma range_bounds a b : Forall (λ i, a ≤ i < b) (range a b).
Proof.
  unfold range. apply Forall_forall. intros i Hi.
  apply elem_of_seqZ in Hi. lia.
Qed.

(** ** Indexing inside the bounds *)

Lemma py_index_inside n i :
  0 ≤ i < Z.of_nat n → py_index n i = Some (Z.to_nat i).
Proof.
  intros Hi. unfold py_index.
  replace (0 <=? i) with true by (symmetry; apply Z.leb_le; lia).
  replace (i <? Z.of_nat n) with true by (symmetry; apply Z.ltb_lt; lia).
  reflexivity.
Qed.

Lemma py_get_inside {A} (l : list A) i :
  0 ≤ i < Z.of_nat (length l) → py_get l i = l !! Z.to_nat i.
Proof. intros Hi. unfold py_get. rewrite py_index_inside; done. Qed.

Lemma py_set_inside {A} (l : list A) i a :
  0 ≤ i < Z.of_nat (length l) → py_set l i a = Some (<[Z.to_nat i := a]> l).
Proof. intros Hi. unfold py_set. rewrite py_index_inside; done. Qed.

Lemma wf_grid_row W H g y :
  wf_grid W H g → 0 ≤ y < H →
  ∃ row, g !! Z.to_nat y = Some row ∧ Z.of_nat (length row) = W.
Proof.
  intros [Hl Hr] Hy.
  destruct (lookup_lt_is_Some_2 g (Z.to_nat y)) as [row Hrow]; [lia |].
  exists row. split; [done |].
  rewrite Forall_forall in Hr. apply Hr.
  eapply list_elem_of_lookup_2. exact Hrow.
Qed.

Lemma wf_grid_cell W H g x y :
  wf_grid W H g → 0 ≤ x < W → 0 ≤ y < H →
  ∃ row, g !! Z.to_nat y = Some row
         ∧ row !! Z.to_nat x = Some (cell g x y).
Proof.
  intros Hwf Hx Hy.
  destruct (wf_grid_row W H g y Hwf Hy) as (row & Hrow & Hlen).
  exists row. split; [done |].
  destruct (lookup_lt_is_Some_2 row (Z.to_nat x)) as [v Hv]; [lia |].
  unfold cell. rewrite Hrow. simpl. rewrite Hv. reflexivity.
Qed.

Lemma load_inside W H w x y :
  wf_grid W H (w_maze w) → 0 ≤ x < W → 0 ≤ y < H →
  load y x w = (Ret (cell (w_maze w) x y), w).
Proof.
  intros Hwf Hx Hy.
  destruct (wf_grid_cell _ _ _ _ _ Hwf Hx Hy) as (row & Hrow & Hv).
  destruct (wf_grid_row _ _ _ _ Hwf Hy) as (row' & Hrow' & Hlen).
  assert (row' = row) by congruence. subst row'.
  unfold load. rewrite py_get_inside by (destruct Hwf; lia).
  rewrite Hrow. rewrite py_get_inside by lia. rewrite Hv. reflexivity.
Qed.

Lemma store_inside W H w x y v :
  wf_grid W H (w_maze w) → 0 ≤ x < W → 0 ≤ y < H →
  store y x v w = (Ret tt, World (upd (w_maze w) x y v) (w_rng w) (w_clock w)).
Proof.
  intros Hwf Hx Hy.
  destruct (wf_grid_row _ _ _ _ Hwf Hy) as (row & Hrow & Hlen).
  unfold store. rewrite py_get_inside by (destruct Hwf; lia).
  rewrite Hrow. rewrite py_set_inside by lia.
  rewrite py_set_inside by (destruct Hwf; lia).
  unfold upd. do 3 f_equal.
  apply list_eq. intros k. destruct (decide (k = Z.to_nat y)) as [-> | Hk].
  - rewrite list_lookup_insert_eq by (apply lookup_lt_is_Some_1; eauto).
    rewrite list_lookup_alter_eq. rewrite Hrow. reflexivity.
  - rewrite list_lookup_insert_ne by done.
    rewrite list_lookup_alter_ne by done. reflexivity.
Qed.

Lemma wf_grid_upd W H g x y v : wf_grid W H g → wf_grid W H (upd g x y v).
Proof.
  intros [Hl Hr]. unfold upd. split.
  - rewrite length_alter. done.
  - apply Forall_alter; [done |]. intros row Hrow Hlen.
    rewrite length_insert. done.
Qed.

Lemma cell_upd_eq W H g x y v :
  wf_grid W H g → 0 ≤ x < W → 0 ≤ y < H → cell (upd g x y v) x y = v.
Proof.
  intros Hwf Hx Hy.
  destruct (wf_grid_row _ _ _ _ Hwf Hy) as (row & Hrow & Hlen).
  unfold cell, upd. rewrite list_lookup_alter_eq. rewrite Hrow. simpl.
  rewrite list_lookup_insert_eq by lia. reflexivity.
Qed.

Lemma cell_upd_ne g x y v x' y' :
  0 ≤ x → 0 ≤ y → 0 ≤ x' → 0 ≤ y' → (x', y') ≠ (x, y) →
  cell (upd g x y v) x' y' = cell g x' y'.
Proof.
  intros Hx Hy Hx' Hy' Hne. unfold cell, upd.
  destruct (decide (Z.to_nat y' = Z.to_nat y)) as [Hey | Hney].
  - rewrite Hey. rewrite list_lookup_alter_eq.
    destruct (g !! Z.to_nat y) as [row |]; [| reflexivity]. simpl.
    rewrite list_lookup_insert_ne; [reflexivity |].
    intros Hex. apply Hne. f_equal; lia.
  - rewrite list_lookup_alter_ne by done. reflexivity.
Qed.

Lemma len_maze_wf W H w : wf_grid W H (w_maze w) → len_maze w = (Ret H, w).
Proof. intros [Hl _]. unfold len_maze. rewrite Hl. reflexivity. Qed.

Lemma len_row0_wf W H w :
  wf_grid W H (w_maze w) → 0 < H → len_row0 w = (Ret W, w).
Proof.
  intros Hwf HH.
  destruct (wf_grid_row _ _ _ 0 Hwf) as (row & Hrow & Hlen); [lia |].
  unfold len_row0. rewrite py_get_inside by (destruct Hwf; lia).
  rewrite Hrow. rewrite Hlen. reflexivity.
Qed.

(** ** Rules for computations that return *)

Lemma returns_ret {A} (a : A) w (Q : A → world → Prop) :
  Q a w → returns (ret a) w Q.
Proof. intros H. exists a, w. done. Qed.

Lemma returns_bind {A B} (m : M A) (k : A → M B) w (Q : B → world → Prop) :
  returns m w (λ a w', returns (k a) w' Q) → returns (bind m k) w Q.
Proof.
  intros (a & w' & Hm & b & w'' & Hk & HQ). exists b, w''.
  rewrite bind_unfold, Hm. done.
Qed.

Lemma returns_mono {A} (m : M A) w (Q Q' : A → world → Prop) :
  returns m w Q → (∀ a w', Q a w' → Q' a w') → returns m w Q'.
Proof. intros (a & w' & Hm & HQ) H. exists a, w'. auto. Qed.

Lemma returns_load W H w x y (Q : Z → world → Prop) :
  wf_grid W H (w_maze w) → 0 ≤ x < W → 0 ≤ y < H →
  Q (cell (w_maze w) x y) w → returns (load y x) w Q.
Proof.
  intros Hwf Hx Hy HQ. eexists _, _. split; [| exact HQ].
  by apply (load_inside W H).
Qed.

Lemma returns_store W H w x y v (Q : unit → world → Prop) :
  wf_grid W H (w_maze w) → 0 ≤ x < W → 0 ≤ y < H →
  Q tt (World (upd (w_maze w) x y v) (w_rng w) (w_clock w)) →
  returns (store y x v) w Q.
Proof.
  intros Hwf Hx Hy HQ. eexists _, _. split; [| exact HQ].
  by apply (store_inside W H).
Qed.

Lemma returns_len_maze W H w (Q : Z → world → Prop) :
  wf_grid W H (w_maze w) → Q H w → returns len_maze w Q.
Proof.
  intros Hwf HQ. eexists _, _. split; [| exact HQ]. by apply (len_maze_wf W H).
Qed.

Lemma returns_len_row0 W H w (Q : Z → world → Prop) :
  wf_grid W H (w_maze w) → 0 < H → Q W w → returns len_row0 w Q.
Proof.
  intros Hwf HH HQ. eexists _, _. split; [| exact HQ].
  by apply (len_row0_wf W H).
Qed.

Lemma returns_get_maze w (Q : grid → world → Prop) :
  Q (w_maze w) w → returns get_maze w Q.
Proof. intros HQ. eexists _, _. split; [reflexivity | exact HQ]. Qed.

(** A loop whose body keeps an invariant of the world. *)
Lemma returns_for_each {A} (I : world → Prop) (P : A → Prop) (l : list A)
    (body : A → M unit) w :
  Forall P l → I w →
  (∀ a w, P a → I w → returns (body a) w (λ _ w', I w')) →
  returns (for_each l body) w (λ _ w', I w').
Proof.
  intros Hl. revert w. induction Hl as [| a l Ha Hl IH]; intros w HI Hb; simpl.
  - by apply returns_ret.
  - apply returns_bind. eapply returns_mono; [apply Hb; done |].
    intros ? w' HI'. simpl. apply IH; done.
Qed.

Lemma returns_for_yield {A B} (I : world → Prop) (P : A → Prop) (l : list A)
    (body : A → M (list B)) w :
  Forall P l → I w →
  (∀ a w, P a → I w → returns (body a) w (λ _ w', I w')) →
  returns (for_yield l body) w (λ _ w', I w').
Proof.
  intros Hl. revert w. induction Hl as [| a l Ha Hl IH]; intros w HI Hb; simpl.
  - by apply returns_ret.
  - apply returns_bind. eapply returns_mono; [apply Hb; done |].
    intros ys w' HI'. simpl. apply returns_bind.
    eapply returns_mono; [apply IH; done |].
    intros zs w'' HI''. simpl. by apply returns_ret.
Qed.

(** ** Masks and bits *)

Lemma below_ind (n : nat) (f : Z → bool) :
  forallb f (Z.of_nat <$> seq 0 n) = true →
  ∀ r, 0 ≤ r < Z.of_nat n → f r = true.
Proof.
  intros Hall r Hr. rewrite forallb_forall in Hall. apply Hall.
  apply list_elem_of_In. apply list_elem_of_fmap. exists (Z.to_nat r).
  split; [lia |]. apply elem_of_seq. lia.
Qed.

(** Checks a decidable goal about [r] for every [r] below [n]. *)
Ltac check_below r n :=
  cbv zeta;
  match goal with |- ?P => refine (@bool_decide_eq_true_1 P _ _) end;
  match goal with
  | |- ?b = true =>
      let b' := eval pattern r in b in
      match b' with
      | ?g _ => apply (below_ind n g); [vm_compute; reflexivity | lia]
      end
  end.

Lemma land_low v m k :
  0 ≤ k → Z.land (Z.ones k) m = m → Z.land v m = Z.land (v mod 2 ^ k) m.
Proof.
  intros Hk Hm. rewrite <- Z.land_ones by done.
  rewrite <- Z.land_assoc, Hm. reflexivity.
Qed.

Lemma testbit_low v i k :
  i < k → Z.testbit v i = Z.testbit (v mod 2 ^ k) i.
Proof. intros Hi. symmetry. by apply Z.mod_pow2_bits_low. Qed.

(** Turns a goal about masks and bits of [v] below position [k] into a goal
    about a number below [2 ^ k], and checks it for each such number. *)
Ltac low_bits v k :=
  repeat match goal with
  | |- context [Z.land v ?m] => rewrite (land_low v m k) by (lia || reflexivity)
  end;
  repeat match goal with
  | |- context [Z.testbit v ?i] => rewrite (testbit_low v i k) by lia
  end;
  let r := fresh "r" in
  let Hr := fresh "Hr" in
  assert (Hr : 0 ≤ v mod 2 ^ k < 2 ^ k) by (apply Z.mod_pos_bound; lia);
  generalize dependent (v mod 2 ^ k); intros r Hr;
  let n := eval vm_compute in (Z.to_nat (2 ^ k)) in
  check_below r n.

Lemma ge_0x1c_blocked v : (Z.land v 0x1c >=? 0xc) = is_blocked v.
Proof. unfold is_blocked, is_pattern. low_bits v 5. Qed.

Lemma eq_0xc_pattern v : (Z.land v 0xc =? 0xc) = is_pattern v.
Proof. unfold is_pattern. low_bits v 4. Qed.

Lemma truthy_0xc v : truthy (Z.land v 0xc) = Z.testbit v 3 || Z.testbit v 2.
Proof. unfold truthy. low_bits v 4. Qed.

Lemma truthy_1 v : truthy (Z.land v 1) = Z.testbit v 0.
Proof. unfold truthy. low_bits v 1. Qed.

Lemma truthy_2 v : truthy (Z.land v 2) = Z.testbit v 1.
Proof. unfold truthy. low_bits v 2. Qed.

Lemma truthy_4 v : truthy (Z.land v 4) = Z.testbit v 2.
Proof. unfold truthy. low_bits v 3. Qed.

Lemma truthy_8 v : truthy (Z.land v 8) = Z.testbit v 3.
Proof. unfold truthy. low_bits v 4. Qed.

Lemma truthy_0x20 v : truthy (Z.land v 0x20) = Z.testbit v 5.
Proof. unfold truthy. low_bits v 6. Qed.

Lemma truthy_0x21 v : truthy (Z.land v 0x21) = Z.testbit v 5 || Z.testbit v 0.
Proof. unfold truthy. low_bits v 6. Qed.

Lemma truthy_0x22 v : truthy (Z.land v 0x22) = Z.testbit v 5 || Z.testbit v 1.
Proof. unfold truthy. low_bits v 6. Qed.

(** The bits of a value under the masks the code applies. *)
Lemma testbit_land_const v m i :
  Z.testbit (Z.land v m) i = Z.testbit v i && Z.testbit m i.
Proof. apply Z.land_spec. Qed.

Lemma testbit_lor_const v m i :
  Z.testbit (Z.lor v m) i = Z.testbit v i || Z.testbit m i.
Proof. apply Z.lor_spec. Qed.

(** The elements of [set_bits4 q] are the masks of the bits of [q] below
    position 4. *)
Lemma set_bits4_spec q a :
  a ∈ set_bits4 q ↔
  (a = 1 ∧ Z.testbit q 0 = true) ∨ (a = 2 ∧ Z.testbit q 1 = true)
  ∨ (a = 4 ∧ Z.testbit q 2 = true) ∨ (a = 8 ∧ Z.testbit q 3 = true).
Proof.
  unfold set_bits4. change (range 0 4) with [0; 1; 2; 3].
  assert (Hb : ∀ i, 0 ≤ i →
    truthy (Z.land (Z.shiftr q i) 1) = Z.testbit q i).
  { intros i Hi. rewrite truthy_1, Z.shiftr_spec by lia. f_equal. }
  cbn [omap list_omap]. rewrite !Hb by lia.
  destruct (Z.testbit q 0), (Z.testbit q 1), (Z.testbit q 2), (Z.testbit q 3);
    cbn; rewrite ?elem_of_cons, ?elem_of_nil; intuition (try discriminate; try lia).
Qed.

Lemma set_bits4_nonempty q :
  0 ≤ q < 16 → q ≠ 0 → set_bits4 q ≠ [].
Proof.
  intros Hq. check_below q 16%nat.
Qed.

Lemma random_choice_returns {A} (l : list A) w (Q : A → world → Prop) :
  l ≠ [] →
  (∀ a, a ∈ l →
     Q a (World (w_maze w)
            (Rng (rng_tape (w_rng w)) (S (rng_pos (w_rng w)))) (w_clock w))) →
  returns (random_choice l) w Q.
Proof.
  intros Hne HQ. unfold returns, random_choice.
  destruct (lookup_lt_is_Some_2 l
    (N.to_nat (rng_tape (w_rng w) (rng_pos (w_rng w))) mod length l)%nat)
    as [a Ha].
  { apply Nat.mod_upper_bound. destruct l; [done | simpl; lia]. }
  cbv zeta. rewrite Ha. eexists _, _. split; [reflexivity |].
  apply HQ. eapply list_elem_of_lookup_2. exact Ha.
Qed.

(** ** Construction of the parameter record *)

(** What the constructor checks: the field constraints, that entry and exit
    differ, and an upper bound only on each coordinate. *)
Lemma CMazeParams_new_Ret r :
  CMazeParams_new r = Ret r ↔
  field_constraints r = true ∧ entry r ≠ exit r
  ∧ (entry r).1 < width r ∧ (entry r).2 < height r
  ∧ (exit r).1 < width r ∧ (exit r).2 < height r.
Proof.
  unfold CMazeParams_new, params_validator.
  destruct (field_constraints r); [| split; [discriminate | intros [? _]; discriminate]].
  destruct (entry r) as [ex ey] eqn:He, (exit r) as [ox oy] eqn:Ho. simpl.
  case_bool_decide as Hd.
  { split; [discriminate | intros (_ & Hne & _); congruence]. }
  destruct (Z.geb_spec ex (width r)), (Z.geb_spec ey (height r)); simpl;
    try (split; [discriminate | intros; lia]).
  destruct (Z.geb_spec ox (width r)), (Z.geb_spec oy (height r)); simpl;
    try (split; [discriminate | intros; lia]).
  split; [intros _ | reflexivity]. repeat split; (done || lia).
Qed.

(** C3 (the code departs from the claim): a record whose entry has a
    negative coordinate, hence lies outside the grid, is constructed without
    a validation error; the validator compares each coordinate with the
    width or the height only. *)
Theorem C3_negative_entry_accepted :
  let r := MkParams 5 5 (-1, 0) (4, 4) "maze.txt" true None true 25 4 99 in
  CMazeParams_new r = Ret r ∧ ¬ inside (width r) (height r) (entry r).
Proof.
  split; [reflexivity |]. unfold inside. simpl. lia.
Qed.

(** ** Pattern placement *)

(** C4 (the code departs from the claim): in a grid of 9 columns and 15
    rows with the entry at (8, 0) and the exit at (3, 8), [place_42]
    succeeds and the exit cell is one of the cells it marks 0xF.  The fourth
    test of [check_palace] compares [out_[1]], not [out_[0]], with the right
    edge of the pattern. *)
Theorem C4_exit_inside_pattern :
  let p := MkParams 9 15 (8, 0) (3, 8) "maze.txt" true None true 25 4 99 in
  ∀ r c,
    cell (blank_grid p) 3 8 = 11
    ∧ ∃ w', place_42 (entry p) (exit p) (World (blank_grid p) r c) = (Ret true, w')
            ∧ cell (w_maze w') (exit p).1 (exit p).2 = 0xF.
Proof.
  intros p r c. split; [reflexivity |].
  eexists. split; [vm_compute; reflexivity | reflexivity].
Qed.

(** ** The breadth-first search reads only *)

Lemma read_only_ret {A} (a : A) : read_only (ret a).
Proof. intros w. reflexivity. Qed.

Lemma read_only_raise {A} e : read_only (@raise A e).
Proof. intros w. reflexivity. Qed.

Lemma read_only_out_of_fuel {A} : read_only (@out_of_fuel A).
Proof. intros w. reflexivity. Qed.

Lemma read_only_bind {A B} (m : M A) (k : A → M B) :
  read_only m → (∀ a, read_only (k a)) → read_only (bind m k).
Proof.
  intros Hm Hk w. unfold bind. specialize (Hm w).
  destruct (m w) as [[a | e |] w1]; simpl in Hm; subst w1; [apply Hk | done | done].
Qed.

Lemma read_only_load y x : read_only (load y x).
Proof.
  intros w. unfold load.
  destruct (py_get (w_maze w) y) as [row |]; [| done].
  destruct (py_get row x); done.
Qed.

Lemma read_only_len_maze : read_only len_maze.
Proof. intros w. reflexivity. Qed.

Lemma read_only_len_row0 : read_only len_row0.
Proof.
  intros w. unfold len_row0. destruct (py_get (w_maze w) 0); done.
Qed.

Lemma read_only_if {A} (b : bool) (m1 m2 : M A) :
  read_only m1 → read_only m2 → read_only (if b then m1 else m2).
Proof. destruct b; done. Qed.

Create HintDb read_only.

#[local] Hint Resolve read_only_ret read_only_raise read_only_out_of_fuel
  read_only_load read_only_len_maze read_only_len_row0 : read_only.

Lemma read_only_bfs_reconstruct fuel parent start xy path :
  read_only (bfs_reconstruct fuel parent start xy path).
Proof.
  revert xy path. induction fuel as [| fuel IH]; intros xy path; simpl.
  - apply read_only_out_of_fuel.
  - case_bool_decide; [| apply read_only_ret].
    destruct (parent !! xy); [apply IH | apply read_only_raise].
Qed.

Lemma read_only_bfs_loop fuel height width start end_ st :
  read_only (bfs_loop fuel height width start end_ st).
Proof.
  revert st. induction fuel as [| fuel IH]; intros [[queue visited] parent].
  - apply read_only_out_of_fuel.
  - cbn [bfs_loop]. destruct queue as [| [x y] queue]; [apply read_only_ret |].
    case_bool_decide; [apply read_only_bfs_reconstruct |].
    unfold bfs_walls.
    repeat (apply read_only_bind; [| intros ?]);
      repeat (apply read_only_if);
      repeat (apply read_only_bind; [| intros ?]);
      repeat (apply read_only_if);
      auto with read_only.
Qed.

(** C10: [find_path_BFS] leaves the maze, and the rest of the world, exactly
    as it found them, whatever it returns or raises. *)
Theorem C10_find_path_BFS_frame fuel mzParam w :
  (find_path_BFS fuel mzParam w).2 = w
  ∧ w_maze (find_path_BFS fuel mzParam w).2 = w_maze w.
Proof.
  assert (H : read_only (find_path_BFS fuel mzParam)).
  { unfold find_path_BFS.
    apply read_only_bind; [apply read_only_len_maze | intros h].
    apply read_only_bind; [apply read_only_len_row0 | intros wd].
    apply read_only_bfs_loop. }
  split; [apply H | rewrite (H w); reflexivity].
Qed.

(** ** The animated carver against the plain one *)

Ltac run_check :=
  rewrite ?bind_unfold;
  match goal with
  | |- context [carve_check ?q ?b ?k ?e ?ny ?nx ?w] =>
      destruct (carve_check q b k e ny nx w) as [[? | ? |] ?]; [| reflexivity ..]
  end.

Ltac run_cell :=
  rewrite ?bind_unfold;
  match goal with
  | |- context [load ?y ?x ?w] =>
      destruct (load y x w) as [[? | ? |] ?]; [| reflexivity ..]
  | |- context [store ?y ?x ?v ?w] =>
      destruct (store y x v w) as [[? | ? |] ?]; [| reflexivity ..]
  end.

(** One iteration of the animated loop does what one iteration of the plain
    loop does, and yields the region around the cell on top of the stack
    exactly when the iteration carves. *)
Lemma gen_DFS_animated_body_spec mzParam animated m_path w :
  gen_DFS_animated_body mzParam animated m_path w =
  match gen_DFS_body mzParam m_path w with
  | (Ret m_path', w') =>
      (Ret (m_path',
            if (length m_path <? length m_path')%nat && animated
            then match last m_path with
                 | Some (x, y, _) => [Some (box (x, y))]
                 | None => []
                 end
            else []), w')
  | (Raise e, w') => (Raise e, w')
  | (OutOfFuel, w') => (OutOfFuel, w')
  end.
Proof.
  unfold gen_DFS_animated_body, gen_DFS_body. rewrite last_lookup.
  replace (Init.Nat.pred (length m_path)) with (length m_path - 1)%nat by lia.
  destruct (m_path !! (length m_path - 1)%nat) as [[[x y] q] |] eqn:Htop;
    [| reflexivity].
  assert (Hlen : (0 < length m_path)%nat).
  { apply lookup_lt_Some in Htop. lia. }
  do 4 run_check.
  destruct (_ =? 0) eqn:Hq0.
  { unfold ret. rewrite length_removelast.
    replace (length m_path <? length m_path - 1)%nat with false
      by (symmetry; apply Nat.ltb_ge; lia).
    reflexivity. }
  rewrite ?bind_unfold.
  match goal with
  | |- context [random_choice ?l ?w] =>
      destruct (random_choice l w) as [[ch | ? |] w5] eqn:Hch; [| reflexivity ..]
  end.
  apply random_choice_elem, set_bits4_elem in Hch.
  assert (Hpush : ∀ q' n,
    (length m_path
     <? length (set_q m_path (length m_path - 1) x y q' ++ [n]))%nat = true).
  { intros q' n. apply Nat.ltb_lt. rewrite length_app, length_set_q. simpl. lia. }
  destruct Hch as [-> | [-> | [-> | ->]]]; cbn [Z.eqb Pos.eqb];
    repeat run_cell; unfold ret; rewrite Hpush;
    destruct animated; reflexivity.
Qed.

Lemma gen_DFS_animated_loop_spec fuel mzParam animated m_path w :
  gen_DFS_animated_loop fuel mzParam animated m_path w =
  match gen_DFS_loop fuel mzParam m_path w with
  | (Ret _, w') =>
      (Ret ((if animated
             then (λ c, Some (box c)) <$> carve_steps fuel mzParam m_path w
             else []) ++ [None]), w')
  | (Raise e, w') => (Raise e, w')
  | (OutOfFuel, w') => (OutOfFuel, w')
  end.
Proof.
  revert m_path w. induction fuel as [| fuel IH]; intros m_path w; [reflexivity |].
  cbn [gen_DFS_animated_loop gen_DFS_loop carve_steps].
  destruct (Z.of_nat (length m_path) >? 0); [| destruct animated; reflexivity].
  rewrite !bind_unfold. rewrite gen_DFS_animated_body_spec.
  destruct (gen_DFS_body mzParam m_path w) as [[m' | e |] w1]; [| reflexivity ..].
  rewrite !bind_unfold. cbn [fst snd]. rewrite IH.
  destruct (gen_DFS_loop fuel mzParam m' w1) as [[[] | e |] w2]; [| reflexivity ..].
  unfold ret. do 2 f_equal.
  destruct animated; [| rewrite andb_false_r; reflexivity].
  rewrite andb_true_r. rewrite fmap_app, <- app_assoc. f_equal.
  destruct (_ <? _)%nat; [| reflexivity].
  destruct (last m_path) as [[[x y] q] |]; reflexivity.
Qed.

(** C9: pulled to its end, [gen_DFS_animated] consumes the random choices
    of [gen_DFS] and reaches the same world, hence the same final grid; it
    ends the same way (return, exception, fuel); and what it yields is,
    for every carve step in order, the region of one cell around the cell
    whose wall was opened, then the closing [None] (and only the [None] when
    the animation flag is off). *)
Theorem C9_gen_DFS_animated_refines fuel mzParam animated w :
  (gen_DFS_animated fuel mzParam animated w).2 = (gen_DFS fuel mzParam w).2
  ∧ match (gen_DFS fuel mzParam w).1,
          (gen_DFS_animated fuel mzParam animated w).1 with
    | Ret g, Ret ys =>
        g = w_maze (gen_DFS_animated fuel mzParam animated w).2
        ∧ ys = (if animated
                then (λ c, Some (box c)) <$> gen_DFS_carve_steps fuel mzParam w
                else []) ++ [None]
    | Raise e, Raise e' => e = e'
    | OutOfFuel, OutOfFuel => True
    | _, _ => False
    end.
Proof.
  unfold gen_DFS_animated, gen_DFS, gen_DFS_carve_steps.
  destruct (exit mzParam) as [x y].
  rewrite !bind_unfold.
  destruct (load y x w) as [[v | e |] w1]; [| done ..].
  rewrite !bind_unfold.
  destruct (store y x (Z.lor v 16) w1) as [[[] | e |] w2]; [| done ..].
  rewrite gen_DFS_animated_loop_spec. rewrite !bind_unfold.
  destruct (gen_DFS_loop fuel mzParam [(x, y, 15)] w2) as [[[] | e |] w3];
    simpl; done.
Qed.

(** ** Determinism of [generate] under a seed *)

Lemma rel_m_ret R {A} (a : A) : rel_m R R (ret a).
Proof. intros w1 w2 H. done. Qed.

Lemma rel_m_raise R {A} e : rel_m R R (@raise A e).
Proof. intros w1 w2 H. done. Qed.

Lemma rel_m_out_of_fuel R {A} : rel_m R R (@out_of_fuel A).
Proof. intros w1 w2 H. done. Qed.

Lemma rel_m_bind_step R R' R'' {A B} (m : M A) (k : A → M B) :
  rel_m R R' m → (∀ a, rel_m R' R'' (k a)) →
  (∀ w1 w2, R' w1 w2 → R'' w1 w2) →
  rel_m R R'' (bind m k).
Proof.
  intros Hm Hk Hsub w1 w2 H. unfold bind. destruct (Hm w1 w2 H) as [Ho Hw].
  destruct (m w1) as [[a | e |] w1'], (m w2) as [[a' | e' |] w2'];
    simpl in Ho, Hw; try discriminate; inversion Ho; subst; simpl; auto.
  apply Hk. exact Hw.
Qed.

Lemma rel_m_weaken (R R' R'' : world → world → Prop) {A} (m : M A) :
  rel_m R R' m → (∀ w1 w2, R' w1 w2 → R'' w1 w2) → rel_m R R'' m.
Proof. intros Hm Hsub w1 w2 H. destruct (Hm w1 w2 H). auto. Qed.

Lemma rel_m_bind_same R {A B} (m : M A) (k : A → M B) :
  rel_m R R m → (∀ a, rel_m R R (k a)) → rel_m R R (bind m k).
Proof. intros Hm Hk. apply rel_m_bind_step with (R' := R); auto. Qed.

Lemma rel_m_if R R' {A} (b : bool) (m1 m2 : M A) :
  rel_m R R' m1 → rel_m R R' m2 → rel_m R R' (if b then m1 else m2).
Proof. destruct b; done. Qed.

Lemma rel_m_load b y x : rel_m (agree b) (agree b) (load y x).
Proof.
  intros w1 w2 [Hm Hr]. unfold load. rewrite Hm.
  destruct (py_get (w_maze w2) y) as [row |]; [| done].
  destruct (py_get row x); done.
Qed.

Lemma rel_m_store b y x v : rel_m (agree b) (agree b) (store y x v).
Proof.
  intros w1 w2 [Hm Hr]. unfold store. rewrite Hm.
  destruct (py_get (w_maze w2) y) as [row |]; [| done].
  destruct (py_set row x v); [| done].
  destruct (py_set (w_maze w2) y l); done.
Qed.

Lemma rel_m_len_maze b : rel_m (agree b) (agree b) len_maze.
Proof. intros w1 w2 [Hm Hr]. unfold len_maze. rewrite Hm. done. Qed.

Lemma rel_m_len_row0 b : rel_m (agree b) (agree b) len_row0.
Proof.
  intros w1 w2 [Hm Hr]. unfold len_row0. rewrite Hm.
  destruct (py_get (w_maze w2) 0); done.
Qed.

Lemma rel_m_get_maze b : rel_m (agree b) (agree b) get_maze.
Proof. intros w1 w2 [Hm Hr]. unfold get_maze. rewrite Hm. done. Qed.

Lemma rel_m_set_maze R g : rel_m R (agree false) (set_maze g).
Proof. intros w1 w2 _. done. Qed.

Lemma rel_m_random_seed seed_tape a :
  rel_m (agree false) (agree true) (random_seed seed_tape a).
Proof. intros w1 w2 [Hm _]. done. Qed.

Lemma rel_m_random_choice {A} (l : list A) :
  rel_m (agree true) (agree true) (random_choice l).
Proof.
  intros w1 w2 [Hm Hr]. specialize (Hr eq_refl). unfold random_choice.
  rewrite Hm, Hr. destruct (l !! _); done.
Qed.

Lemma rel_m_random_random : rel_m (agree true) (agree true) random_random.
Proof.
  intros w1 w2 [Hm Hr]. specialize (Hr eq_refl). unfold random_random.
  rewrite Hm, Hr. done.
Qed.

Lemma rel_m_for_each R {A} (l : list A) (body : A → M unit) :
  (∀ a, rel_m R R (body a)) → rel_m R R (for_each l body).
Proof.
  intros Hb. induction l as [| a l IH]; simpl.
  - apply rel_m_ret.
  - apply rel_m_bind_same; auto.
Qed.

Create HintDb rel_m.

#[local] Hint Resolve rel_m_ret rel_m_raise rel_m_out_of_fuel rel_m_load
  rel_m_store rel_m_len_maze rel_m_len_row0 rel_m_get_maze
  rel_m_random_choice rel_m_random_random : rel_m.

Ltac rel_m_auto :=
  repeat first
    [ apply rel_m_bind_same; [| intros ?]
    | apply rel_m_if
    | apply rel_m_for_each; intros ?
    | match goal with
      | |- rel_m _ _ (match ?o with Some _ => _ | None => _ end) => destruct o
      | |- rel_m _ _ (let '(_, _) := ?p in _) => destruct p
      end
    | solve [auto with rel_m] ].

Lemma rel_m_place_42 b in_ out_ : rel_m (agree b) (agree b) (place_42 in_ out_).
Proof. unfold place_42. rel_m_auto. Qed.

Lemma rel_m_carve_check q bit keep edge ny nx :
  rel_m (agree true) (agree true) (carve_check q bit keep edge ny nx).
Proof. unfold carve_check. rel_m_auto. Qed.

Lemma rel_m_gen_DFS_body mzParam m_path :
  rel_m (agree true) (agree true) (gen_DFS_body mzParam m_path).
Proof.
  unfold gen_DFS_body.
  destruct (m_path !! _) as [[[x y] q] |]; [| apply rel_m_raise].
  pose proof rel_m_carve_check. rel_m_auto.
Qed.

Lemma rel_m_gen_DFS_loop fuel mzParam m_path :
  rel_m (agree true) (agree true) (gen_DFS_loop fuel mzParam m_path).
Proof.
  revert m_path. induction fuel as [| fuel IH]; intros m_path; simpl.
  - apply rel_m_out_of_fuel.
  - pose proof rel_m_gen_DFS_body. rel_m_auto.
Qed.

Lemma rel_m_gen_DFS fuel mzParam :
  rel_m (agree true) (agree true) (gen_DFS fuel mzParam).
Proof.
  unfold gen_DFS. pose proof rel_m_gen_DFS_loop. rel_m_auto.
Qed.

Lemma rel_m_effective_walls v x y :
  rel_m (agree true) (agree true) (effective_walls v x y).
Proof. unfold effective_walls. rel_m_auto. Qed.

Lemma rel_m_removable_check w bit keep (edge : M bool) ny nx :
  rel_m (agree true) (agree true) edge →
  rel_m (agree true) (agree true) (removable_check w bit keep edge ny nx).
Proof. intros He. unfold removable_check. rel_m_auto. Qed.

Lemma rel_m_dead_end_body pr x y :
  rel_m (agree true) (agree true) (dead_end_body pr x y).
Proof.
  unfold dead_end_body. pose proof rel_m_effective_walls.
  repeat first
    [ apply rel_m_removable_check; unfold is_last_col, is_last_row
    | apply rel_m_bind_same; [| intros ?]
    | apply rel_m_if
    | solve [auto with rel_m] ].
Qed.

Lemma rel_m_do_not_prefect mzParam :
  rel_m (agree true) (agree true) (do_not_prefect mzParam).
Proof.
  unfold do_not_prefect. pose proof rel_m_dead_end_body. rel_m_auto.
Qed.

Lemma agree_weaken w1 w2 : agree true w1 w2 → agree false w1 w2.
Proof. intros [Hm _]. split; [done | discriminate]. Qed.

(** C8: when the record carries a seed, the outcome of [generate] and the
    grid it leaves do not depend on the world the call starts from (the
    state of the module [random], the clock, the maze in place): two calls
    with the same parameters give the same grid, bit for bit. *)
Theorem C8_generate_deterministic seed_tape fuel mzParam a w1 w2 :
  seed mzParam = Some a →
  (generate seed_tape fuel mzParam w1).1 = (generate seed_tape fuel mzParam w2).1
  ∧ w_maze (generate seed_tape fuel mzParam w1).2
    = w_maze (generate seed_tape fuel mzParam w2).2.
Proof.
  intros Hseed.
  assert (H : rel_m (λ _ _, True) (agree false)
                (generate seed_tape fuel mzParam)).
  { unfold generate. rewrite Hseed.
    apply rel_m_bind_step with (R' := agree false);
      [apply rel_m_set_maze | intros _ | done].
    apply rel_m_bind_same; [apply rel_m_store | intros _].
    apply rel_m_bind_same; [apply rel_m_store | intros _].
    apply rel_m_bind_same; [| intros _].
    { pose proof rel_m_place_42. rel_m_auto. }
    apply rel_m_bind_step with (R' := agree true);
      [apply rel_m_random_seed | intros _ | apply agree_weaken].
    apply rel_m_weaken with (R' := agree true); [| apply agree_weaken].
    pose proof rel_m_gen_DFS. pose proof rel_m_do_not_prefect. rel_m_auto. }
  destruct (H w1 w2 I) as [Ho [Hm _]]. done.
Qed.

Lemma C8_generate_deterministic_witness :
  let p := MkParams 3 3 (0, 0) (2, 2) "maze.txt" false (Some 1) false 25 4 99 in
  let w1 := World [] (Rng (λ n, N.of_nat n) 0) (Clock (λ _, 0%Q) 0) in
  let w2 := World [[1]] (Rng (λ n, 5%N) 7) (Clock (λ _, 1%Q) 3) in
  seed p = Some 1
  ∧ (generate example_seed_tape 40 p w1).1 = (generate example_seed_tape 40 p w2).1
  ∧ w_maze (generate example_seed_tape 40 p w1).2 = w_maze (generate example_seed_tape 40 p w2).2.
Proof.
  intros p w1 w2. split; [reflexivity |].
  apply (C8_generate_deterministic example_seed_tape 40 p 1 w1 w2). reflexivity.
Defined.

(** ** The direction line of the serializer *)

Lemma for_yield_read_only {A B} (P : A → Prop) (l : list A)
    (body : A → M (list B)) w :
  Forall P l →
  (∀ a, P a → ∃ ys, body a w = (Ret ys, w)) →
  ∃ zs, for_yield l body w = (Ret zs, w).
Proof.
  intros Hl Hb. induction Hl as [| a l Ha Hl IH]; simpl.
  - eexists. reflexivity.
  - destruct (Hb a Ha) as [ys Hys]. destruct IH as [zs Hzs].
    exists (ys ++ zs). rewrite bind_unfold, Hys, bind_unfold, Hzs. reflexivity.
Qed.

Lemma effective_walls_inside W H w v x y :
  wf_grid W H (w_maze w) → 0 ≤ x < W → 0 ≤ y < H →
  ∃ v', effective_walls v x y w = (Ret v', w).
Proof.
  intros Hwf Hx Hy. unfold effective_walls.
  rewrite bind_unfold.
  assert (H1 : ∀ v0 : Z, ∃ v1,
    (if x =? 0 then ret (Z.lor v0 8)
     else let* l := load y (x - 1) in
          if truthy (Z.land l 2) then ret (Z.lor v0 8) else ret v0) w
    = (Ret v1, w)).
  { intros v0. destruct (Z.eqb_spec x 0); [eexists; reflexivity |].
    rewrite bind_unfold, (load_inside W H) by (done || lia).
    destruct (truthy _); eexists; reflexivity. }
  destruct (H1 (if y =? 0 then Z.lor v 1 else v)) as [v1 ->].
  rewrite bind_unfold, (len_maze_wf W H) by done.
  rewrite bind_unfold.
  assert (H2 : ∃ v2,
    (if y =? H - 1 then ret (Z.lor v1 4)
     else let* b := load (y + 1) x in
          if truthy (Z.land b 1) then ret (Z.lor v1 4) else ret v1) w
    = (Ret v2, w)).
  { destruct (Z.eqb_spec y (H - 1)); [eexists; reflexivity |].
    rewrite bind_unfold, (load_inside W H) by (done || lia).
    destruct (truthy _); eexists; reflexivity. }
  destruct H2 as [v2 ->].
  rewrite bind_unfold, (len_row0_wf W H) by (done || lia).
  eexists. reflexivity.
Qed.

Lemma list_ascii_of_string_app (s t : string) :
  list_ascii_of_string (s ++ t)
  = (list_ascii_of_string s ++ list_ascii_of_string t)%list.
Proof. induction s as [| c s IH]; simpl; [reflexivity | by rewrite IH]. Qed.

Lemma string_app_assoc (s t u : string) :
  ((s ++ t) ++ u = s ++ (t ++ u))%string.
Proof.
  induction s as [| c s IH]; [reflexivity |].
  change (String c ((s ++ t) ++ u) = String c (s ++ (t ++ u)))%string.
  by rewrite IH.
Qed.

Lemma up_to_newline_app l l' :
  Forall (λ c, c ≠ newline) l →
  up_to_newline (l ++ newline :: l') = l.
Proof.
  induction 1 as [| c l Hc Hl IH]; cbn [up_to_newline app].
  - destruct (Ascii.eqb_spec newline newline); done.
  - destruct (Ascii.eqb_spec c newline); [done |]. by rewrite IH.
Qed.

Lemma last_line_spec (head line : string) :
  Forall (λ c, c ≠ newline) (list_ascii_of_string line) →
  last_line (head ++ String newline (line ++ String newline EmptyString))%string
  = line.
Proof.
  intros Hline. unfold last_line.
  rewrite list_ascii_of_string_app. simpl.
  rewrite list_ascii_of_string_app. simpl.
  rewrite rev_app_distr. simpl. rewrite rev_app_distr. simpl.
  rewrite <- app_assoc. simpl.
  rewrite up_to_newline_app.
  - rewrite rev_involutive. apply string_of_list_ascii_of_string.
  - apply Forall_forall. intros c Hc. rewrite Forall_forall in Hline.
    apply Hline. apply list_elem_of_In. apply list_elem_of_In in Hc.
    apply in_rev. exact Hc.
Qed.

Lemma direction_char_adjacent a b :
  step_adjacent a b →
  ∃ d dx dy, direction_char a b = String d EmptyString
             ∧ delta d = Some (dx, dy) ∧ d ≠ newline
             ∧ b = (a.1 + dx, a.2 + dy).
Proof.
  destruct a as [ax ay], b as [bx by_]. unfold step_adjacent, direction_char.
  simpl. intros Hadj.
  destruct (Z.gtb_spec bx ax).
  { exists "E"%char, 1, 0. repeat split; [done | f_equal; lia]. }
  destruct (Z.ltb_spec bx ax).
  { exists "W"%char, (-1), 0. repeat split; [done | f_equal; lia]. }
  destruct (Z.gtb_spec by_ ay).
  { exists "S"%char, 0, 1. repeat split; [done | f_equal; lia]. }
  destruct (Z.ltb_spec by_ ay).
  { exists "N"%char, 0, (-1). repeat split; [done | f_equal; lia]. }
  lia.
Qed.

(** The line of a path of adjacent cells: one character of N, S, E, W for
    each step, and following the characters from the first cell gives the
    path back. *)
Lemma direction_line_spec a path :
  chain step_adjacent (a :: path) →
  String.length (direction_line (a :: path)) = length path
  ∧ Forall (λ c, is_Some (delta c) ∧ c ≠ newline)
      (list_ascii_of_string (direction_line (a :: path)))
  ∧ replay a (direction_line (a :: path)) = Some (a :: path).
Proof.
  revert a. induction path as [| b path IH]; intros a Hch.
  - simpl. repeat split. constructor.
  - destruct Hch as [Hab Hch].
    destruct (direction_char_adjacent a b Hab) as (d & dx & dy & Hd & Hdl & Hnl & Hb).
    destruct (IH b Hch) as (Hlen & Hall & Hrep).
    change (direction_line (a :: b :: path))
      with (direction_char a b ++ direction_line (b :: path))%string.
    rewrite Hd.
    change (String d "" +:+ direction_line (b :: path))%string
      with (String d (direction_line (b :: path))).
    cbn [String.length list_ascii_of_string replay].
    rewrite Hdl. rewrite <- Hb. rewrite Hrep. split; [| split].
    + rewrite Hlen. reflexivity.
    + constructor; [split; [rewrite Hdl; eauto | done] | done].
    + reflexivity.
Qed.

(** C7: on a grid of [H] rows of [W] cells, with a file name to write to
    and a path that is supplied (not empty), starts at the entry and moves
    between adjacent cells, [write_to_file] writes a text whose last line,
    the direction line, has [len(path) - 1] characters, all of them among N,
    S, E and W, and following their moves from the entry gives exactly the
    path. *)
Theorem C7_direction_line_round_trip fuel mzParam path file_name w W H :
  wf_grid W H (w_maze w) →
  (0 < String.length file_name ∨ 0 < String.length (output_file mzParam))%nat →
  head path = Some (entry mzParam) →
  chain step_adjacent path →
  ∃ name text,
    write_to_file fuel mzParam path file_name w = (Ret (Some (name, text)), w)
    ∧ Z.of_nat (String.length (last_line text)) = len path - 1
    ∧ Forall (λ c, c ∈ ["N"; "S"; "E"; "W"]%char)
        (list_ascii_of_string (last_line text))
    ∧ replay (entry mzParam) (last_line text) = Some path.
Proof.
  intros Hwf Hname Hhead Hch.
  destruct path as [| a path]; [discriminate |]. simpl in Hhead.
  inversion Hhead; subst a. clear Hhead.
  unfold write_to_file.
  set (name := if (String.length file_name <=? 0)%nat
               then output_file mzParam else file_name).
  assert (Hn : (String.length name <=? 0)%nat = false).
  { subst name. apply Nat.leb_gt.
    destruct (Nat.leb_spec (String.length file_name) 0); lia. }
  rewrite Hn. rewrite bind_unfold, (len_maze_wf W H) by done.
  rewrite bind_unfold.
  destruct (for_yield_read_only (λ y, 0 ≤ y < H) (range 0 H)
    (λ y, let* w0 := len_row0 in
          let* cells := for_yield (range 0 w0) (λ x,
            let* c := load y x in
            let* v := effective_walls (Z.land c 3) x y in
            ret [format_X v]) in
          ret (cells ++ [String newline EmptyString])) w) as [rows Hrows].
  { apply range_bounds. }
  { intros y Hy. rewrite bind_unfold, (len_row0_wf W H) by (done || lia).
    rewrite bind_unfold.
    destruct (for_yield_read_only (λ x, 0 ≤ x < W) (range 0 W)
      (λ x, let* c := load y x in
            let* v := effective_walls (Z.land c 3) x y in
            ret [format_X v]) w) as [cells Hcells].
    { apply range_bounds. }
    { intros x Hx. rewrite bind_unfold, (load_inside W H) by done.
      rewrite bind_unfold.
      destruct (effective_walls_inside W H w (Z.land (cell (w_maze w) x y) 3)
                  x y Hwf Hx Hy) as [v ->].
      eexists. reflexivity. }
    rewrite Hcells. eexists. reflexivity. }
  change (String newline EmptyString) with "
"%string in Hrows.
  rewrite Hrows. rewrite bind_unfold.
  replace (len (entry mzParam :: path) =? 0) with false
    by (symmetry; apply Z.eqb_neq; unfold len; simpl; lia).
  unfold ret at 1.
  destruct (direction_line_spec (entry mzParam) path Hch) as (Hlen & Hall & Hrep).
  eexists _, _. split; [reflexivity |].
  set (line := direction_line (entry mzParam :: path)) in *.
  match goal with
  | |- context [last_line ?t] =>
      assert (Hll : last_line t = line)
  end.
  { match goal with
    | |- last_line (?r ++ ?a ++ ?b ++ ?c ++ ?d ++ ?e ++ ?f ++ ?g ++ ?h ++ ?i ++ _ ++ _)%string = _ =>
        replace (r ++ a ++ b ++ c ++ d ++ e ++ f ++ g ++ h ++ i ++ line ++ "
")%string
          with ((r ++ a ++ b ++ c ++ d ++ e ++ f ++ g ++ h) ++
                String newline (line ++ String newline EmptyString))%string
    end.
    - apply last_line_spec. eapply Forall_impl; [exact Hall |].
      intros c [_ Hc]. exact Hc.
    - rewrite !string_app_assoc. reflexivity. }
  rewrite Hll. repeat split.
  - rewrite Hlen. unfold len. simpl. lia.
  - eapply Forall_impl; [exact Hall |]. intros c [[d Hd] _].
    unfold delta in Hd.
    destruct (Ascii.eqb_spec c "N"); [subst; apply list_elem_of_In; simpl; tauto |].
    destruct (Ascii.eqb_spec c "S"); [subst; apply list_elem_of_In; simpl; tauto |].
    destruct (Ascii.eqb_spec c "E"); [subst; apply list_elem_of_In; simpl; tauto |].
    destruct (Ascii.eqb_spec c "W"); [subst; apply list_elem_of_In; simpl; tauto |].
    discriminate.
  - exact Hrep.
Qed.

Lemma C7_direction_line_round_trip_witness :
  let p := MkParams 2 2 (0, 0) (1, 1) "maze.txt" true None false 25 4 99 in
  let w := World [[5; 3]; [2; 11]] (Rng (λ _, 0%N) 0) (Clock (λ _, 0%Q) 0) in
  let path := [(0, 0); (0, 1); (1, 1)] in
  ∃ name text,
    write_to_file 0 p path "" w = (Ret (Some (name, text)), w)
    ∧ Z.of_nat (String.length (last_line text)) = len path - 1
    ∧ Forall (λ c, c ∈ ["N"; "S"; "E"; "W"]%char)
        (list_ascii_of_string (last_line text))
    ∧ replay (entry p) (last_line text) = Some path.
Proof.
  intros p w path.
  apply (C7_direction_line_round_trip 0 p path "" w 2 2).
  - split; [reflexivity | repeat constructor].
  - right. simpl. lia.
  - reflexivity.
  - simpl. unfold step_adjacent. simpl. lia.
Defined.

(** ** One iteration of the carver *)

Lemma prune_mask_spec q a :
  0 ≤ q < 16 →
  0 ≤ prune_mask q a < 16
  ∧ ∀ d, Z.testbit (prune_mask q a) (dir_bit d)
         = Z.testbit q (dir_bit d) && a d.
Proof.
  intros Hq. unfold prune_mask.
  assert (H : ∀ a0 a1 a2 a3 : bool,
    let q1 := if Z.testbit q 0 && negb a0 then Z.land q 14 else q in
    let q2 := if Z.testbit q1 1 && negb a1 then Z.land q1 13 else q1 in
    let q3 := if Z.testbit q2 2 && negb a2 then Z.land q2 11 else q2 in
    let q4 := if Z.testbit q3 3 && negb a3 then Z.land q3 7 else q3 in
    (0 ≤ q4 < 16)
    ∧ Z.testbit q4 0 = Z.testbit q 0 && a0
    ∧ Z.testbit q4 1 = Z.testbit q 1 && a1
    ∧ Z.testbit q4 2 = Z.testbit q 2 && a2
    ∧ Z.testbit q4 3 = Z.testbit q 3 && a3).
  { intros [] [] [] []; check_below q 16%nat. }
  destruct (H (a North) (a East) (a South) (a West)) as (Hr & H0 & H1 & H2 & H3).
  split; [exact Hr |]. intros []; assumption.
Qed.

Lemma keep_mask_spec q d :
  0 ≤ q < 16 →
  let keep := match d with North => 14 | East => 13 | South => 11 | West => 7 end in
  0 ≤ Z.land q keep < 16
  ∧ ∀ d', Z.testbit (Z.land q keep) (dir_bit d')
          = Z.testbit q (dir_bit d') && negb (bool_decide (d' = d)).
Proof.
  intros Hq. destruct d; cbv zeta.
  all: split; [check_below q 16%nat | intros []; check_below q 16%nat].
Qed.

Lemma carve_check_spec W H w c q d keep edge :
  wf_grid W H (w_maze w) →
  edge = negb (bool_decide (inside W H (neighbor c d))) →
  truthy (Z.land q (2 ^ dir_bit d)) = Z.testbit q (dir_bit d) →
  returns (carve_check q (2 ^ dir_bit d) keep edge (neighbor c d).2 (neighbor c d).1) w
    (λ q' w',
       w' = w
       ∧ q' = if Z.testbit q (dir_bit d) && negb (avail W H (w_maze w) c d)
              then Z.land q keep else q).
Proof.
  intros Hwf -> Hbit. unfold carve_check, avail. rewrite Hbit.
  destruct (Z.testbit q (dir_bit d)); [| by apply returns_ret].
  case_bool_decide as Hin; cbn [negb andb].
  - apply returns_bind. destruct Hin as [Hx Hy].
    eapply returns_load; [done ..|]. rewrite ge_0x1c_blocked.
    unfold cell_at. destruct (is_blocked _); by apply returns_ret.
  - by apply returns_ret.
Qed.

Lemma lookup_top {A} (m : list A) (f : A) :
  (m ++ [f]) !! (length (m ++ [f]) - 1)%nat = Some f.
Proof.
  rewrite length_app. simpl.
  replace (length m + 1 - 1)%nat with (length m) by lia.
  apply list_lookup_middle. reflexivity.
Qed.

Lemma set_q_top (m : list frame) x y q q' :
  set_q (m ++ [(x, y, q)]) (length (m ++ [(x, y, q)]) - 1) x y q'
  = m ++ [(x, y, q')].
Proof.
  unfold set_q. rewrite length_app. simpl.
  replace (length m + 1 - 1)%nat with (length m + 0)%nat by lia.
  rewrite insert_app_r. reflexivity.
Qed.

Lemma edge_north W H x y :
  inside W H (x, y) →
  (y =? 0) = negb (bool_decide (inside W H (neighbor (x, y) North))).
Proof.
  unfold inside. simpl. intros Hc.
  case_bool_decide; destruct (Z.eqb_spec y 0); simpl; lia.
Qed.

Lemma edge_east W H x y :
  inside W H (x, y) →
  (x =? W - 1) = negb (bool_decide (inside W H (neighbor (x, y) East))).
Proof.
  unfold inside. simpl. intros Hc.
  case_bool_decide; destruct (Z.eqb_spec x (W - 1)); simpl; lia.
Qed.

Lemma edge_south W H x y :
  inside W H (x, y) →
  (y =? H - 1) = negb (bool_decide (inside W H (neighbor (x, y) South))).
Proof.
  unfold inside. simpl. intros Hc.
  case_bool_decide; destruct (Z.eqb_spec y (H - 1)); simpl; lia.
Qed.

Lemma edge_west W H x y :
  inside W H (x, y) →
  (x =? 0) = negb (bool_decide (inside W H (neighbor (x, y) West))).
Proof.
  unfold inside. simpl. intros Hc.
  case_bool_decide; destruct (Z.eqb_spec x 0); simpl; lia.
Qed.

Lemma avail_inside W H g c d :
  avail W H g c d = true → inside W H (neighbor c d).
Proof.
  unfold avail. intros Ha. apply andb_true_iff in Ha as [Hi _].
  by apply bool_decide_eq_true_1 in Hi.
Qed.

(** One iteration of the loop of [gen_DFS], from a grid of the size the
    parameters say and a top frame inside it, returns and makes a step of
    the carver. *)
Lemma gen_DFS_body_spec mzParam m x y q w :
  let W := width mzParam in
  let H := height mzParam in
  wf_grid W H (w_maze w) → inside W H (x, y) → 0 ≤ q < 16 →
  returns (gen_DFS_body mzParam (m ++ [(x, y, q)])) w
    (λ m' w',
       carve_step W H (w_maze w, m ++ [(x, y, q)]) (w_maze w', m')
       ∧ w_clock w' = w_clock w).
Proof.
  intros W H Hwf Hin Hq. unfold gen_DFS_body. rewrite lookup_top.
  set (a := avail W H (w_maze w) (x, y)).
  apply returns_bind. eapply returns_mono.
  { apply (carve_check_spec W H w (x, y) q North 14);
      [done | by apply edge_north | apply truthy_1]. }
  intros q1 ? [-> ->]. simpl.
  apply returns_bind. eapply returns_mono.
  { apply (carve_check_spec W H w (x, y) _ East 13);
      [done | by apply edge_east | apply truthy_2]. }
  intros q2 ? [-> ->]. simpl.
  apply returns_bind. eapply returns_mono.
  { apply (carve_check_spec W H w (x, y) _ South 11);
      [done | by apply edge_south | apply truthy_4]. }
  intros q3 ? [-> ->]. simpl.
  apply returns_bind. eapply returns_mono.
  { apply (carve_check_spec W H w (x, y) _ West 7);
      [done | by apply edge_west | apply truthy_8]. }
  intros q4 ? [-> Hq4]. simpl.
  assert (Hq4' : q4 = prune_mask q a) by (rewrite Hq4; reflexivity).
  destruct (prune_mask_spec q a Hq) as [Hr4 Hb4]. rewrite <- Hq4' in Hr4, Hb4.
  clear Hq4 Hq4'.
  destruct (Z.eqb_spec q4 0) as [-> | Hne].
  { apply returns_ret. rewrite removelast_last. split; [| done].
    apply carve_pop. intros d Hd. specialize (Hb4 d).
    rewrite Z.bits_0, Hd in Hb4. symmetry in Hb4. exact Hb4. }
  apply returns_bind. apply random_choice_returns.
  { by apply set_bits4_nonempty. }
  intros ch Hch. apply set_bits4_spec in Hch.
  assert (Hstep : ∀ d, Z.testbit q4 (dir_bit d) = true →
    let keep := match d with North => 14 | East => 13 | South => 11 | West => 7 end in
    carve_step W H (w_maze w, m ++ [(x, y, q)])
      (carve (w_maze w) (x, y) d,
       m ++ [(x, y, Z.land q4 keep)] ++ [(neighbor (x, y) d, 15)])
    ∧ inside W H (neighbor (x, y) d)).
  { intros d Hd keep. pose proof (Hb4 d) as Hbd. rewrite Hd in Hbd.
    symmetry in Hbd. apply andb_true_iff in Hbd as [Hqd Had].
    destruct (keep_mask_spec q4 d Hr4) as [Hrk Hbk]. fold keep in Hrk, Hbk.
    split; [| by eapply avail_inside].
    apply carve_push; [done | done | done |].
    intros d'. rewrite Hbk, Hb4. reflexivity. }
  rewrite !set_q_top.
  destruct Hch as [[-> Hb] | [[-> Hb] | [[-> Hb] | [-> Hb]]]];
    cbn [Z.eqb Pos.eqb].
  - destruct (Hstep North Hb) as [Hs [Hnx Hny]]. simpl in Hnx, Hny.
    destruct Hin as [Hx Hy]. simpl in Hx, Hy.
    apply returns_bind. eapply returns_load; [done ..|].
    apply returns_bind. eapply returns_store; [done ..|].
    apply returns_bind.
    eapply returns_load; [by apply wf_grid_upd | done ..|].
    apply returns_bind.
    eapply returns_store; [by apply wf_grid_upd | done ..|].
    apply returns_ret. rewrite <- app_assoc. split; [exact Hs | done].
  - destruct (Hstep East Hb) as [Hs [Hnx Hny]]. simpl in Hnx, Hny.
    destruct Hin as [Hx Hy]. simpl in Hx, Hy.
    apply returns_bind. eapply returns_load; [done ..|].
    apply returns_bind. eapply returns_store; [done ..|].
    apply returns_bind.
    eapply returns_load; [by apply wf_grid_upd | done ..|].
    apply returns_bind.
    eapply returns_store; [by apply wf_grid_upd | done ..|].
    apply returns_ret. rewrite <- app_assoc. split; [exact Hs | done].
  - destruct (Hstep South Hb) as [Hs [Hnx Hny]]. simpl in Hnx, Hny.
    destruct Hin as [Hx Hy]. simpl in Hx, Hy.
    apply returns_bind. eapply returns_load; [done ..|].
    apply returns_bind. eapply returns_store; [done ..|].
    apply returns_bind.
    eapply returns_load; [by apply wf_grid_upd | done ..|].
    apply returns_bind.
    eapply returns_store; [by apply wf_grid_upd | done ..|].
    apply returns_ret. rewrite <- app_assoc. split; [exact Hs | done].
  - destruct (Hstep West Hb) as [Hs [Hnx Hny]]. simpl in Hnx, Hny.
    destruct Hin as [Hx Hy]. simpl in Hx, Hy.
    apply returns_bind. eapply returns_load; [done ..|].
    apply returns_bind. eapply returns_store; [done ..|].
    apply returns_bind.
    eapply returns_load; [by apply wf_grid_upd | done ..|].
    apply returns_bind.
    eapply returns_store; [by apply wf_grid_upd | done ..|].
    apply returns_ret. rewrite <- app_assoc. split; [exact Hs | done].
Qed.

(** ** The cells of a grid *)

Lemma elem_of_range a b i : i ∈ range a b ↔ a ≤ i < b.
Proof. unfold range. rewrite elem_of_seqZ. lia. Qed.

Lemma NoDup_range a b : NoDup (range a b).
Proof. apply NoDup_seqZ. Qed.

Lemma elem_of_cells W H c : c ∈ cells W H ↔ inside W H c.
Proof.
  unfold cells, inside. rewrite list_elem_of_bind. split.
  - intros (y & Hc & Hy). apply list_elem_of_fmap in Hc as (x & -> & Hx).
    apply elem_of_range in Hx, Hy. simpl. lia.
  - intros [Hx Hy]. exists c.2. split; [| apply elem_of_range; lia].
    apply list_elem_of_fmap. exists c.1. split; [by destruct c |].
    apply elem_of_range. lia.
Qed.

Lemma NoDup_cells W H : NoDup (cells W H).
Proof.
  unfold cells. apply NoDup_bind.
  - intros y1 y2 c _ _ H1 H2.
    apply list_elem_of_fmap in H1 as (x1 & -> & _).
    apply list_elem_of_fmap in H2 as (x2 & Heq & _). congruence.
  - intros y _. apply NoDup_fmap; [| apply NoDup_range].
    intros x1 x2 Heq. congruence.
  - apply NoDup_range.
Qed.

Lemma length_cells W H :
  0 ≤ W → 0 ≤ H → Z.of_nat (length (cells W H)) = W * H.
Proof.
  intros HW HH. unfold cells, range. rewrite !Z.sub_0_r.
  assert (Hgen : ∀ l : list Z,
    Z.of_nat (length (y ← l; (λ x, (x, y)) <$> seqZ 0 W))
    = W * Z.of_nat (length l)).
  { induction l as [| y l IH]; [simpl; lia |].
    rewrite bind_cons, length_app, length_fmap, length_seqZ.
    rewrite Nat2Z.inj_add, IH, Z2Nat.id by lia. simpl length. lia. }
  rewrite Hgen, length_seqZ. lia.
Qed.

(** ** The grid after a carve *)

Section Carve.

Variables (W H : Z) (g : grid) (c : Z * Z) (d : dir).
Hypothesis Hwf : wf_grid W H g.
Hypothesis Hc : inside W H c.
Hypothesis Hn : inside W H (neighbor c d).

Lemma neighbor_ne : neighbor c d ≠ c.
Proof. destruct c as [x y], d; simpl; intros Heq; inversion Heq; lia. Qed.

Lemma wall_owner_inside : inside W H (wall_owner c d).
Proof. destruct d; simpl; assumption. Qed.

Lemma wf_grid_carve : wf_grid W H (carve g c d).
Proof. unfold carve. by do 2 apply wf_grid_upd. Qed.

Lemma cell_at_upd_eq g0 e v :
  wf_grid W H g0 → inside W H e → cell_at (upd g0 e.1 e.2 v) e = v.
Proof. intros Hw [Hx Hy]. unfold cell_at. by apply (cell_upd_eq W H). Qed.

Lemma cell_at_upd_ne g0 e e' v :
  inside W H e → inside W H e' → e' ≠ e →
  cell_at (upd g0 e.1 e.2 v) e' = cell_at g0 e'.
Proof.
  intros [Hx Hy] [Hx' Hy'] Hne. unfold cell_at.
  apply cell_upd_ne; try lia. intros Heq. apply Hne.
  destruct e, e'. simpl in *. congruence.
Qed.

(** The cells of the carved grid: the neighbour gains the visited flag, the
    owner of the wall loses the bit of the wall, the rest is untouched. *)
Lemma cell_at_carve e :
  inside W H e →
  cell_at (carve g c d) e
  = let v := cell_at g e in
    let v := if bool_decide (e = wall_owner c d)
             then Z.land v (match wall_idx d with 0 => 0xfffe | _ => 0xfffd end)
             else v in
    if bool_decide (e = neighbor c d) then Z.lor v 0x10 else v.
Proof.
  intros He. unfold carve. cbv zeta.
  set (own := match d with North | East => c | South | West => neighbor c d end).
  set (mask := match d with North | South => 65534 | East | West => 65533 end).
  assert (Hown : own = wall_owner c d) by (destruct d; reflexivity).
  assert (Hmask : mask = match wall_idx d with 0 => 65534 | _ => 65533 end)
    by (destruct d; reflexivity).
  rewrite <- Hown, <- Hmask.
  assert (Hoi : inside W H own) by (rewrite Hown; apply wall_owner_inside).
  set (g1 := upd g own.1 own.2 (Z.land (cell_at g own) mask)).
  assert (Hg1 : ∀ e', inside W H e' →
    cell_at g1 e' = if bool_decide (e' = own)
                    then Z.land (cell_at g e') mask else cell_at g e').
  { intros e' He'. subst g1. case_bool_decide as Heq.
    - subst e'. by apply cell_at_upd_eq.
    - by apply cell_at_upd_ne. }
  case_bool_decide as Hen.
  - subst e. rewrite cell_at_upd_eq; [| by apply wf_grid_upd | done].
    by rewrite Hg1.
  - rewrite cell_at_upd_ne by done. by rewrite Hg1.
Qed.

Lemma testbit_carve e i :
  inside W H e → 0 ≤ i < 16 →
  Z.testbit (cell_at (carve g c d) e) i
  = (Z.testbit (cell_at g e) i
     && negb (bool_decide (e = wall_owner c d) && (i =? wall_idx d)))
    || (bool_decide (e = neighbor c d) && (i =? 4)).
Proof.
  intros He Hi. rewrite cell_at_carve by done. cbv zeta.
  assert (Hm : ∀ v, Z.testbit
    (Z.land v (match wall_idx d with 0 => 65534 | _ => 65533 end)) i
    = Z.testbit v i && negb (i =? wall_idx d)).
  { intros v. rewrite Z.land_spec. f_equal.
    assert (Hi' : i ∈ range 0 16) by (apply elem_of_range; lia).
    destruct d; cbn [wall_idx];
      repeat (apply elem_of_cons in Hi' as [-> | Hi']; [reflexivity |]);
      inversion Hi'. }
  assert (Ho : ∀ v, Z.testbit (Z.lor v 16) i = Z.testbit v i || (i =? 4)).
  { intros v. rewrite Z.lor_spec. f_equal.
    assert (Hi' : i ∈ range 0 16) by (apply elem_of_range; lia).
    repeat (apply elem_of_cons in Hi' as [-> | Hi']; [reflexivity |]);
      inversion Hi'. }
  do 2 case_bool_decide; rewrite ?Ho, ?Hm; cbn [andb negb orb];
    rewrite ?andb_true_r, ?orb_false_r; reflexivity.
Qed.

Lemma is_pattern_carve e :
  inside W H e →
  is_pattern (cell_at (carve g c d) e) = is_pattern (cell_at g e).
Proof.
  intros He. unfold is_pattern. rewrite !testbit_carve by (done || lia).
  assert (H3 : (3 =? wall_idx d) = false) by (by destruct d).
  assert (H2 : (2 =? wall_idx d) = false) by (by destruct d).
  rewrite H3, H2. cbn [Z.eqb Pos.eqb]. 
  rewrite !andb_false_r, !orb_false_r. cbn [negb]. by rewrite !andb_true_r.
Qed.

Lemma visited_carve e :
  inside W H e →
  Z.testbit (cell_at (carve g c d) e) 4
  = Z.testbit (cell_at g e) 4 || bool_decide (e = neighbor c d).
Proof.
  intros He. rewrite testbit_carve by (done || lia).
  assert (H4 : (4 =? wall_idx d) = false) by (by destruct d).
  rewrite H4. cbn [Z.eqb Pos.eqb]. 
  rewrite !andb_false_r, !andb_true_r. reflexivity.
Qed.

Lemma is_blocked_carve e :
  inside W H e →
  is_blocked (cell_at (carve g c d) e)
  = is_blocked (cell_at g e) || bool_decide (e = neighbor c d).
Proof.
  intros He. unfold is_blocked. rewrite is_pattern_carve, visited_carve by done.
  destruct (Z.testbit _ 4), (is_pattern _), (bool_decide _); reflexivity.
Qed.

End Carve.

(** ** The carver terminates *)

Lemma filter_ext_in {A} (P P' : A → Prop)
    `{∀ x, Decision (P x)} `{∀ x, Decision (P' x)} (l : list A) :
  (∀ e, e ∈ l → (P e ↔ P' e)) → filter P l = filter P' l.
Proof.
  induction l as [| a l IH]; intros Heq; [reflexivity |].
  rewrite !filter_cons.
  rewrite IH by (intros e He; apply Heq; by right).
  pose proof (Heq a (list_elem_of_here _ _)) as Hiff.
  destruct (decide (P a)), (decide (P' a)); (reflexivity || tauto).
Qed.

Lemma filter_length_remove {A} (P P' : A → Prop)
    `{∀ x, Decision (P x)} `{∀ x, Decision (P' x)} (l : list A) (n : A) :
  NoDup l → n ∈ l → P n → ¬ P' n →
  (∀ e, e ∈ l → e ≠ n → (P e ↔ P' e)) →
  (length (filter P' l) + 1 = length (filter P l))%nat.
Proof.
  intros Hnd. induction Hnd as [| a l Ha Hnd IH]; intros Hn HP HP' Heq.
  - inversion Hn.
  - rewrite !filter_cons. apply elem_of_cons in Hn as [-> | Hn].
    + destruct (decide (P' a)); [done |]. destruct (decide (P a)); [| done].
      simpl.
      assert (Hsame : filter P' l = filter P l).
      { apply filter_ext_in. intros e He.
        symmetry. apply Heq; [by right |]. intros ->. done. }
      rewrite Hsame. lia.
    + assert (Hane : a ≠ n) by (intros ->; done).
      specialize (IH Hn HP HP' (λ e He, Heq e (list_elem_of_further _ _ _ He))).
      pose proof (Heq a (list_elem_of_here _ _) Hane) as Hiff.
      destruct (decide (P a)) as [Hp | Hp], (decide (P' a)) as [Hp' | Hp'];
        simpl; try lia; tauto.
Qed.

Lemma frames_ok_app W H m m' :
  frames_ok W H (m ++ m') ↔ frames_ok W H m ∧ frames_ok W H m'.
Proof. unfold frames_ok. apply Forall_app. Qed.

(** A step keeps the shape of the grid and the stack inside it, and uses up
    one unit of the measure: twice the free cells plus the height of the
    stack. *)
Lemma carve_step_measure W H g m g' m' :
  carve_step W H (g, m) (g', m') →
  wf_grid W H g → frames_ok W H m →
  wf_grid W H g' ∧ frames_ok W H m'
  ∧ (2 * length (free_cells W H g') + length m' + 1
     = 2 * length (free_cells W H g) + length m)%nat.
Proof.
  intros Hstep Hwf Hm. inversion Hstep as [? ? c q Hnone | ? ? c q d q' Hq Ha Hq' Hbits]; subst.
  - apply frames_ok_app in Hm as [Hm _]. rewrite length_app. simpl.
    split; [done |]. split; [done |]. lia.
  - apply frames_ok_app in Hm as [Hm Htop].
    apply Forall_singleton in Htop as [Hc _]. simpl in Hc.
    pose proof (avail_inside _ _ _ _ _ Ha) as Hn.
    split; [by apply wf_grid_carve |]. split.
    { apply frames_ok_app. split; [done |].
      apply Forall_cons. split; [simpl; split; [done | lia] |].
      apply Forall_singleton. simpl. split; [done | lia]. }
    assert (Hfree : (length (free_cells W H (carve g c d)) + 1
                     = length (free_cells W H g))%nat).
    { unfold free_cells.
      apply filter_length_remove with (n := neighbor c d).
      - apply NoDup_cells.
      - by apply elem_of_cells.
      - unfold avail in Ha. apply andb_true_iff in Ha as [_ Ha].
        by apply negb_true_iff in Ha.
      - rewrite (is_blocked_carve W H) by done.
        rewrite bool_decide_eq_true_2 by done. rewrite orb_true_r. done.
      - intros e He Hne. apply elem_of_cells in He.
        rewrite (is_blocked_carve W H) by done.
        rewrite bool_decide_eq_false_2 by done. by rewrite orb_false_r. }
    rewrite !length_app. simpl. lia.
Qed.

(** With fuel above the measure the loop returns, after a sequence of steps
    that empties the stack; it does not read the clock. *)
Lemma gen_DFS_loop_spec mzParam fuel m w :
  let W := width mzParam in
  let H := height mzParam in
  wf_grid W H (w_maze w) → frames_ok W H m →
  (2 * length (free_cells W H (w_maze w)) + length m < fuel)%nat →
  returns (gen_DFS_loop fuel mzParam m) w
    (λ _ w',
       rtc (carve_step W H) (w_maze w, m) (w_maze w', [])
       ∧ w_clock w' = w_clock w).
Proof.
  intros W H. revert m w.
  induction fuel as [| fuel IH]; intros m w Hwf Hm Hfuel; [lia |].
  cbn [gen_DFS_loop].
  destruct (decide (m = [])) as [-> | Hne].
  { simpl. apply returns_ret. done. }
  replace (Z.of_nat (length m) >? 0) with true
    by (symmetry; apply Z.gtb_lt; destruct m; [done | simpl; lia]).
  destruct (exists_last Hne) as (m0 & [[x y] q] & ->).
  pose proof Hm as Hm'. apply frames_ok_app in Hm' as [_ Htop].
  apply Forall_singleton in Htop as [Hc Hq]. simpl in Hc, Hq.
  apply returns_bind. eapply returns_mono.
  { by apply gen_DFS_body_spec. }
  intros m' w1 [Hstep Hclk]. simpl.
  destruct (carve_step_measure _ _ _ _ _ _ Hstep Hwf Hm) as (Hwf1 & Hm1 & Hmeas).
  eapply returns_mono.
  { apply IH; [done | done |]. unfold W, H in *. lia. }
  intros _ w2 [Hrtc Hclk2]. simpl. split; [| congruence].
  eapply rtc_l; [exact Hstep | exact Hrtc].
Qed.

Lemma length_free_cells W H g :
  0 ≤ W → 0 ≤ H → Z.of_nat (length (free_cells W H g)) ≤ W * H.
Proof.
  intros HW HH. rewrite <- length_cells by done. unfold free_cells.
  apply inj_le. apply length_filter.
Qed.

(** [gen_DFS] returns the grid it leaves, and reaches it by steps of the
    carver from the grid with the exit marked visited and the stack that
    holds the exit with a full mask. *)
Lemma gen_DFS_spec mzParam fuel w :
  let W := width mzParam in
  let H := height mzParam in
  let g0 := upd (w_maze w) (exit mzParam).1 (exit mzParam).2
              (Z.lor (cell_at (w_maze w) (exit mzParam)) 0x10) in
  wf_grid W H (w_maze w) → inside W H (exit mzParam) →
  2 * (W * H) + 1 < Z.of_nat fuel →
  returns (gen_DFS fuel mzParam) w
    (λ g' w',
       g' = w_maze w' ∧ wf_grid W H g'
       ∧ rtc (carve_step W H) (g0, [(exit mzParam, 15)]) (g', [])
       ∧ w_clock w' = w_clock w).
Proof.
  intros W H g0 Hwf Hex Hfuel. unfold gen_DFS.
  destruct (exit mzParam) as [x y] eqn:Hxy. destruct Hex as [Hx Hy].
  simpl in Hx, Hy.
  apply returns_bind. eapply returns_load; [done ..|].
  apply returns_bind. eapply returns_store; [done ..|].
  apply returns_bind. eapply returns_mono.
  { apply gen_DFS_loop_spec.
    - simpl. by apply wf_grid_upd.
    - apply Forall_singleton. simpl. unfold inside. simpl. lia.
    - simpl w_maze. fold W H.
      pose proof (length_free_cells W H
        (upd (w_maze w) x y (Z.lor (cell (w_maze w) x y) 16))).
      simpl length. lia. }
  intros _ w1 [Hrtc Hclk]. simpl in Hrtc, Hclk. simpl.
  apply returns_get_maze. split; [done |]. split; [| split; [exact Hrtc | done]].
  clear -Hrtc Hwf Hx Hy.
  assert (Hgen : ∀ s s', rtc (carve_step W H) s s' →
    wf_grid W H s.1 → frames_ok W H s.2 → wf_grid W H s'.1).
  { induction 1 as [| [g m] [g1 m1] s3 Hstep _ IH]; [done |].
    intros Hw Hf. simpl in *.
    destruct (carve_step_measure _ _ _ _ _ _ Hstep Hw Hf) as (? & ? & _).
    by apply IH. }
  apply (Hgen _ _ Hrtc); simpl.
  - by apply wf_grid_upd.
  - apply Forall_singleton. simpl. unfold inside. simpl. lia.
Qed.

(** ** Walls and passages after a carve *)

Lemma wall_bit_owner g a d :
  wall_bit g a d = Z.testbit (cell_at g (wall_owner a d)) (wall_idx d).
Proof. by destruct d. Qed.

Lemma neighbor_opposite c d : neighbor (neighbor c d) (opposite d) = c.
Proof. destruct c as [x y], d; simpl; f_equal; lia. Qed.

Lemma wall_owner_opposite c d :
  wall_owner (neighbor c d) (opposite d) = wall_owner c d.
Proof. destruct c as [x y], d; simpl; f_equal; lia. Qed.

Lemma wall_idx_opposite d : wall_idx (opposite d) = wall_idx d.
Proof. by destruct d. Qed.

(** A wall is stored once: two sides with the same owner and bit are the
    same side, seen from one cell or from the other. *)
Lemma same_wall a d' c d :
  wall_owner a d' = wall_owner c d → wall_idx d' = wall_idx d →
  (a = c ∧ d' = d) ∨ (a = neighbor c d ∧ d' = opposite d).
Proof.
  destruct a as [ax ay], c as [cx cy].
  destruct d, d'; simpl; intros Ho Hi; try discriminate;
    inversion Ho; subst;
    first [ left; split; [f_equal; lia | reflexivity]
          | right; split; [f_equal; lia | reflexivity] ].
Qed.

Lemma wall_owner_inside' W H a d :
  inside W H a → inside W H (neighbor a d) → inside W H (wall_owner a d).
Proof. destruct d; simpl; auto. Qed.

Section CarvePassage.

Variables (W H : Z) (g : grid) (c : Z * Z) (d : dir).
Hypothesis Hwf : wf_grid W H g.
Hypothesis Hc : inside W H c.
Hypothesis Hn : inside W H (neighbor c d).

Lemma wall_bit_carve a d' :
  inside W H a → inside W H (neighbor a d') →
  wall_bit (carve g c d) a d'
  = wall_bit g a d'
    && negb (bool_decide ((a = c ∧ d' = d)
                          ∨ (a = neighbor c d ∧ d' = opposite d))).
Proof.
  intros Ha Hb. rewrite !wall_bit_owner.
  rewrite (testbit_carve W H) by
    (done || (by apply wall_owner_inside') || (destruct d'; simpl; lia)).
  replace (wall_idx d' =? 4) with false by (by destruct d').
  rewrite andb_false_r, orb_false_r. f_equal. f_equal.
  destruct (decide (wall_owner a d' = wall_owner c d)) as [Ho | Ho];
    destruct (Z.eqb_spec (wall_idx d') (wall_idx d)) as [Hi | Hi].
  - rewrite bool_decide_eq_true_2 by done.
    rewrite bool_decide_eq_true_2 by (by apply same_wall). reflexivity.
  - rewrite andb_false_r. symmetry. apply bool_decide_eq_false_2.
    intros [[-> ->] | [-> ->]]; [done |]. by rewrite wall_idx_opposite in Hi.
  - rewrite bool_decide_eq_false_2 by done. symmetry.
    apply bool_decide_eq_false_2.
    intros [[-> ->] | [-> ->]]; [done |]. by rewrite wall_owner_opposite in Ho.
  - rewrite bool_decide_eq_false_2 by done. symmetry.
    apply bool_decide_eq_false_2.
    intros [[-> ->] | [-> ->]]; [done |]. by rewrite wall_owner_opposite in Ho.
Qed.

(** Carving adds the passage between the cell and its neighbour, and
    nothing else. *)
Lemma passage_carve a b :
  passage W H (carve g c d) a b
  ↔ passage W H g a b
    ∨ (a = c ∧ b = neighbor c d) ∨ (a = neighbor c d ∧ b = c).
Proof.
  unfold passage. split.
  - intros (Ha & Hb & d' & -> & Hw).
    rewrite wall_bit_carve in Hw by done.
    apply andb_false_iff in Hw as [Hw | Hw].
    + left. eauto.
    + apply negb_false_iff, bool_decide_eq_true_1 in Hw.
      destruct Hw as [[-> ->] | [-> ->]]; [by right; left |].
      right; right. by rewrite neighbor_opposite.
  - intros [(Ha & Hb & d' & -> & Hw) | [[-> ->] | [-> ->]]].
    + split; [done |]. split; [done |]. exists d'. split; [done |].
      rewrite wall_bit_carve by done. by rewrite Hw.
    + split; [done |]. split; [done |]. exists d. split; [done |].
      rewrite wall_bit_carve by done.
      rewrite bool_decide_eq_true_2 by (by left). apply andb_false_r.
    + split; [done |]. split; [done |]. exists (opposite d).
      split; [by rewrite neighbor_opposite |].
      rewrite wall_bit_carve by (by rewrite ?neighbor_opposite).
      rewrite bool_decide_eq_true_2 by (by right). apply andb_false_r.
Qed.

End CarvePassage.

(** ** Counting the open connections *)

Lemma length_bind_change {A B} (f f' : A → list B) (l : list A) (o : A) :
  NoDup l → o ∈ l →
  (∀ e, e ∈ l → e ≠ o → f' e = f e) →
  length (f' o) = S (length (f o)) →
  length (l ≫= f') = S (length (l ≫= f)).
Proof.
  intros Hnd. induction Hnd as [| a l Ha Hnd IH]; intros Ho Hsame Hlen.
  - inversion Ho.
  - rewrite !bind_cons, !length_app. apply elem_of_cons in Ho as [-> | Ho].
    + assert (Heq : l ≫= f' = l ≫= f).
      { clear IH Hnd. induction l as [| b l IHl]; [reflexivity |].
        rewrite !bind_cons. rewrite Hsame.
        - f_equal. apply IHl.
          + intros Hin. apply Ha. by right.
          + intros e He Hne. apply Hsame; [| done].
            apply elem_of_cons in He as [-> | He]; [by left |].
            right. by right.
        - right. by left.
        - intros ->. apply Ha. by left. }
      rewrite Heq, Hlen. lia.
    + rewrite Hsame; [| by left | intros ->; done].
      rewrite IH; [lia | done | | done].
      intros e He Hne. apply Hsame; [by right | done].
Qed.

Lemma length_open_edges_carve W H g c d :
  wf_grid W H g → inside W H c → inside W H (neighbor c d) →
  wall_bit g c d = true →
  length (open_edges W H (carve g c d)) = S (length (open_edges W H g)).
Proof.
  intros Hwf Hc Hn Hw. unfold open_edges.
  assert (Hoi : inside W H (wall_owner c d)) by (by apply wall_owner_inside').
  apply length_bind_change with (o := wall_owner c d).
  - apply NoDup_cells.
  - by apply elem_of_cells.
  - intros e He Hne. apply elem_of_cells in He.
    rewrite !(testbit_carve W H) by (done || lia).
    rewrite !bool_decide_eq_false_2 by done. cbn [andb negb Z.eqb].
    by rewrite !andb_true_r, !andb_false_r, !orb_false_r.
  - rewrite wall_bit_owner in Hw.
    rewrite !(testbit_carve W H) by (done || lia).
    rewrite bool_decide_eq_true_2 by done. cbn [andb Z.eqb].
    rewrite !andb_false_r, !orb_false_r.
    destruct c as [x y]. destruct Hc as [Hx Hy], Hn as [Hnx Hny].
    destruct d; simpl in *; rewrite Hw; cbn [negb andb];
      rewrite ?andb_true_r, ?andb_false_r.
    + replace (0 <? y) with true by (symmetry; apply Z.ltb_lt; lia).
      rewrite !length_app. simpl. lia.
    + replace (x <? W - 1) with true by (symmetry; apply Z.ltb_lt; lia).
      rewrite !length_app. simpl. lia.
    + replace (0 <? y + 1) with true by (symmetry; apply Z.ltb_lt; lia).
      rewrite !length_app. simpl. lia.
    + replace (x - 1 <? W - 1) with true by (symmetry; apply Z.ltb_lt; lia).
      rewrite !length_app. simpl. lia.
Qed.

(** ** Chains and simple paths *)

Section Paths.

Context {A : Type}.
Implicit Types (R : A → A → Prop) (l : list A).

Lemma chain_cons R a b l : chain R (a :: b :: l) ↔ R a b ∧ chain R (b :: l).
Proof. reflexivity. Qed.

Lemma chain_tail R a l : chain R (a :: l) → chain R l.
Proof. destruct l as [| b l]; [done |]. by intros [_ H]. Qed.

Lemma chain_mono R R' l : (∀ a b, R a b → R' a b) → chain R l → chain R' l.
Proof.
  intros Hsub. induction l as [| a [| b l] IH]; [done | done |].
  intros [Hab Hch]. split; [by apply Hsub | by apply IH].
Qed.

Lemma chain_mono_in R R' l :
  (∀ a b, a ∈ l → b ∈ l → R a b → R' a b) → chain R l → chain R' l.
Proof.
  induction l as [| a [| b l] IH]; [done | done |].
  intros Hsub [Hab Hch]. split.
  - apply Hsub; [by left | right; by left | done].
  - apply IH; [| done]. intros x y Hx Hy. apply Hsub; by right.
Qed.

Lemma chain_app_r R l1 l2 : chain R (l1 ++ l2) → chain R l2.
Proof.
  induction l1 as [| a l1 IH]; [done |]. intros H. apply IH.
  simpl in H. by apply chain_tail in H.
Qed.

Lemma chain_middle R l1 x y l2 : chain R (l1 ++ x :: y :: l2) → R x y.
Proof. intros H. apply chain_app_r in H. by destruct H. Qed.

Lemma chain_snoc R l a b :
  chain R (l ++ [a]) → R a b → chain R (l ++ [a; b]).
Proof.
  induction l as [| x [| y l] IH]; intros Hch Hab.
  - done.
  - simpl in *. destruct Hch as [Hxa _]. done.
  - destruct Hch as [Hxy Hch]. split; [done |]. by apply IH.
Qed.

Lemma chain_reverse R l :
  (∀ a b, R a b → R b a) → chain R l → chain R (reverse l).
Proof.
  intros Hsym. induction l as [| a l IH]; [done |]. intros Hch.
  rewrite reverse_cons. destruct l as [| b l]; [done |].
  destruct Hch as [Hab Hch]. specialize (IH Hch).
  rewrite reverse_cons in *. rewrite <- app_assoc. simpl.
  apply chain_snoc; [done | by apply Hsym].
Qed.

Lemma simple_path_reverse R l a b :
  (∀ a b, R a b → R b a) →
  simple_path R l a b → simple_path R (reverse l) b a.
Proof.
  intros Hsym (Hh & Hl & Hch & Hnd). split; [by rewrite head_reverse |].
  split; [by rewrite last_reverse |].
  split; [by apply chain_reverse | by rewrite reverse_Permutation].
Qed.

(** A simple path from a vertex to itself is that vertex alone. *)
Lemma simple_path_loop R l a : simple_path R l a a → l = [a].
Proof.
  intros (Hh & Hl & _ & Hnd). destruct l as [| x l]; [done |].
  simpl in Hh. inversion Hh; subst x. destruct l as [| y l]; [done |].
  rewrite last_cons_cons in Hl. apply NoDup_cons in Hnd as [Hni _].
  exfalso. apply Hni. apply last_Some in Hl as [l' ->].
  apply elem_of_app. right. by left.
Qed.

Lemma simple_path_single R a : simple_path R [a] a a.
Proof. repeat split. apply NoDup_singleton. Qed.

Lemma simple_path_mono R R' l a b :
  (∀ x y, R x y → R' x y) → simple_path R l a b → simple_path R' l a b.
Proof.
  intros Hsub (Hh & Hl & Hch & Hnd). repeat split; try done.
  by eapply chain_mono.
Qed.

(** Hanging a new first vertex in front of a simple path. *)
Lemma simple_path_cons R l v u b :
  R v u → v ∉ l → simple_path R l u b → simple_path R (v :: l) v b.
Proof.
  intros Hvu Hv (Hh & Hl & Hch & Hnd). destruct l as [| x l]; [done |].
  simpl in Hh. inversion Hh; subst x.
  split; [done |]. split; [by rewrite last_cons_cons |].
  split; [by split | by apply NoDup_cons].
Qed.

Lemma simple_path_uncons R l v b :
  v ≠ b → simple_path R l v b →
  ∃ u l', l = v :: l' ∧ R v u ∧ (v ∉ l') ∧ simple_path R l' u b.
Proof.
  intros Hne (Hh & Hl & Hch & Hnd). destruct l as [| x l]; [done |].
  simpl in Hh. inversion Hh; subst x. destruct l as [| u l].
  { simpl in Hl. congruence. }
  destruct Hch as [Hvu Hch]. apply NoDup_cons in Hnd as [Hni Hnd].
  exists u, (u :: l). rewrite last_cons_cons in Hl. by repeat split.
Qed.

End Paths.

(** ** Trees have exactly one simple path between two vertices *)

Section Trees.

Context {A : Type}.
Implicit Types (V : list A) (E : list (A * A)).

Lemma adj_sym E a b : adj E a b → adj E b a.
Proof. unfold adj. tauto. Qed.

Lemma adj_cons E u v a b :
  adj ((u, v) :: E) a b ↔ adj E a b ∨ (a = u ∧ b = v) ∨ (a = v ∧ b = u).
Proof.
  unfold adj. rewrite !elem_of_cons. split.
  - intros [[Heq | H] | [Heq | H]]; try (inversion Heq; subst); tauto.
  - intros [[H | H] | [[-> ->] | [-> ->]]]; tauto.
Qed.

Lemma tree_of_NoDup V E : tree_of V E → NoDup V.
Proof.
  induction 1; [apply NoDup_singleton | by apply NoDup_cons].
Qed.

Lemma tree_of_length V E : tree_of V E → length V = S (length E).
Proof. induction 1; simpl; [done | lia]. Qed.

Lemma tree_of_adj V E a b : tree_of V E → adj E a b → a ∈ V ∧ b ∈ V.
Proof.
  induction 1 as [r | V E u v Ht IH Hu Hv].
  - unfold adj. rewrite !elem_of_nil. tauto.
  - rewrite adj_cons. intros [H | [[-> ->] | [-> ->]]].
    + destruct (IH H). split; by right.
    + split; [by right | by left].
    + split; [by left | by right].
Qed.

Lemma chain_adj_in V E a l :
  tree_of V E → a ∈ V → chain (adj E) (a :: l) → Forall (λ x, x ∈ V) (a :: l).
Proof.
  intros Ht. revert a. induction l as [| b l IH]; intros a Ha Hch.
  - by apply Forall_singleton.
  - destruct Hch as [Hab Hch]. apply Forall_cons. split; [done |].
    apply IH; [| done]. by destruct (tree_of_adj _ _ _ _ Ht Hab).
Qed.

Theorem tree_unique_path V E :
  tree_of V E → ∀ a b, a ∈ V → b ∈ V →
  ∃ l, simple_path (adj E) l a b
       ∧ ∀ l', simple_path (adj E) l' a b → l' = l.
Proof.
  induction 1 as [r | V E u v Ht IH Hu Hv].
  { intros a b Ha Hb. apply list_elem_of_singleton in Ha, Hb. subst.
    exists [r]. split; [apply simple_path_single |].
    intros l'. apply simple_path_loop. }
  set (R := adj E). set (R' := adj ((u, v) :: E)).
  assert (Hsub : ∀ x y, R x y → R' x y).
  { intros x y Hxy. apply adj_cons. by left. }
  assert (Hsym : ∀ x y, R' x y → R' y x) by (intros x y; apply adj_sym).
  assert (HRV : ∀ x y, R x y → x ∈ V ∧ y ∈ V).
  { intros x y. by apply tree_of_adj. }
  assert (Hv1 : ∀ y, R' v y → y = u).
  { intros y Hvy. apply adj_cons in Hvy as [H | [[-> ->] | [_ ->]]]; [| done ..].
    destruct (HRV _ _ H). done. }
  assert (Hdown : ∀ l, v ∉ l → chain R' l → chain R l).
  { intros l Hvl. apply chain_mono_in. intros x y Hx Hy Hxy.
    apply adj_cons in Hxy as [H | [[-> ->] | [-> ->]]]; done. }
  assert (Hends : ∀ l a b, simple_path R' l a b → v ∈ l → a = v ∨ b = v).
  { intros l a b (Hh & Hl & Hch & Hnd) Hvl.
    apply list_elem_of_split in Hvl as (l1 & l2 & ->).
    destruct l1 as [| x l1 _] using rev_ind.
    { left. simpl in Hh. congruence. }
    destruct l2 as [| y l2].
    { right. rewrite last_app_cons in Hl. simpl in Hl. congruence. }
    exfalso. rewrite <- app_assoc in Hch, Hnd. simpl in Hch, Hnd.
    pose proof (chain_middle _ _ _ _ _ Hch) as Hxv.
    apply chain_app_r in Hch. destruct Hch as [_ [Hvy _]].
    apply Hsym, Hv1 in Hxv. apply Hv1 in Hvy. subst x y.
    apply NoDup_app in Hnd as (_ & _ & Hnd).
    apply NoDup_cons in Hnd as [Hni _]. apply Hni. right. by left. }
  (* paths that start at the new vertex *)
  assert (Hfrom : ∀ b, b ∈ v :: V →
    ∃ l, simple_path R' l v b ∧ ∀ l', simple_path R' l' v b → l' = l).
  { intros b Hb. apply elem_of_cons in Hb as [-> | Hb].
    { exists [v]. split; [apply simple_path_single |].
      intros l'. apply simple_path_loop. }
    assert (Hne : v ≠ b) by (intros ->; done).
    destruct (IH u b Hu Hb) as (l0 & Hl0 & Huniq).
    exists (v :: l0). split.
    - apply simple_path_cons with (u := u).
      + apply adj_cons. right; right. done.
      + destruct Hl0 as (Hh & _ & Hch & _).
        destruct l0 as [| x l0]; [done |]. simpl in Hh. inversion Hh; subst x.
        pose proof (chain_adj_in V E u l0 Ht Hu Hch) as Hall.
        rewrite Forall_forall in Hall. intros Hin. apply Hv. by apply Hall.
      + by apply (simple_path_mono R R').
    - intros l' Hl'.
      destruct (simple_path_uncons R' l' v b Hne Hl')
        as (y & l'' & -> & Hvy & Hni & Hp).
      apply Hv1 in Hvy. subst y. f_equal. apply Huniq.
      destruct Hp as (Hh & Hl & Hch & Hnd). repeat split; try done.
      by apply Hdown. }
  intros a b Ha Hb.
  apply elem_of_cons in Ha as [-> | Ha]; [by apply Hfrom |].
  apply elem_of_cons in Hb as [-> | Hb].
  { destruct (Hfrom a) as (l & Hl & Huniq); [by right |].
    exists (reverse l). split.
    - by apply simple_path_reverse.
    - intros l' Hl'. apply (simple_path_reverse R') in Hl'; [| done].
      apply Huniq in Hl'. rewrite <- Hl'. by rewrite reverse_involutive. }
  assert (Hav : a ≠ v) by (intros ->; done).
  assert (Hbv : b ≠ v) by (intros ->; done).
  destruct (IH a b Ha Hb) as (l0 & Hl0 & Huniq). exists l0. split.
  - by apply (simple_path_mono R R').
  - intros l' Hl'. apply Huniq.
    assert (Hvl : v ∉ l').
    { intros Hin. destruct (Hends _ _ _ Hl' Hin); congruence. }
    destruct Hl' as (Hh & Hl & Hch & Hnd). repeat split; try done.
    by apply Hdown.
Qed.

End Trees.

(** ** The carver grows a spanning tree *)

Lemma avail_false_blocked W H g c d :
  avail W H g c d = false → inside W H (neighbor c d) →
  is_blocked (cell_at g (neighbor c d)) = true.
Proof.
  unfold avail. intros Ha Hin. rewrite bool_decide_eq_true_2 in Ha by done.
  simpl in Ha. by apply negb_false_iff in Ha.
Qed.

Lemma avail_true_free W H g c d :
  avail W H g c d = true → is_blocked (cell_at g (neighbor c d)) = false.
Proof.
  unfold avail. intros Ha. apply andb_true_iff in Ha as [_ Ha].
  by apply negb_true_iff in Ha.
Qed.

Lemma blocked_visited W H V E g m c :
  carve_inv W H V E g m → inside W H c →
  is_blocked (cell_at g c) = true → c ∈ V.
Proof.
  intros Hinv Hc Hb. apply (ci_visited _ _ _ _ _ _ Hinv); [done |].
  unfold is_blocked in Hb. rewrite (ci_no_pattern _ _ _ _ _ _ Hinv) in Hb by done.
  by rewrite orb_false_r in Hb.
Qed.

(** A step of the carver keeps the invariant; the visited cells only
    grow. *)
Lemma carve_step_inv W H V E g m g' m' :
  carve_step W H (g, m) (g', m') → carve_inv W H V E g m →
  ∃ V' E', carve_inv W H V' E' g' m' ∧ ∀ c, c ∈ V → c ∈ V'.
Proof.
  intros Hstep Hinv.
  destruct (carve_step_measure _ _ _ _ _ _ Hstep (ci_wf _ _ _ _ _ _ Hinv)
              (ci_frames _ _ _ _ _ _ Hinv)) as (Hwf' & Hfr' & _).
  inversion Hstep as [? m0 c q Hnone | ? m0 c q d q' Hq Ha Hq' Hbits]; subst.
  - (* the top frame is dropped *)
    exists V, E. split; [| done].
    pose proof Hinv as [Hwf Hfr Ht Hvis Hins Hnp Hpas Hcnt Hst Hpen Hcl].
    split; [exact Hwf' | exact Hfr' | exact Ht | exact Hvis | exact Hins
           | exact Hnp | exact Hpas | exact Hcnt | | |].
    + intros f Hf. apply Hst. apply elem_of_app. by left.
    + intros f d Hf. apply Hpen. apply elem_of_app. by left.
    + intros c' Hc'. destruct (Hcl c' Hc') as [[q0 Hq0] | Hclosed]; [| by right].
      apply elem_of_app in Hq0 as [Hq0 | Hq0]; [left; eauto |].
      apply list_elem_of_singleton in Hq0. inversion Hq0; subst c' q0.
      right. intros d Hd.
      destruct (Z.testbit q (dir_bit d)) eqn:Hqd.
      * eapply blocked_visited; [exact Hinv | done |].
        eapply avail_false_blocked; [by apply Hnone | done].
      * apply (Hpen (c, q) d); [| done | done].
        apply elem_of_app. right. by left.
  - (* a wall is opened *)
    pose proof (avail_inside _ _ _ _ _ Ha) as Hn.
    pose proof (avail_true_free _ _ _ _ _ Ha) as Hfree.
    pose proof Hinv as [Hwf Hfr Ht Hvis Hins Hnp Hpas Hcnt Hst Hpen Hcl].
    assert (Htop : (c, q) ∈ m0 ++ [(c, q)]).
    { apply elem_of_app. right. by left. }
    assert (HcV : c ∈ V) by (apply (Hst (c, q)); done).
    assert (Hc : inside W H c) by (by apply Hins).
    assert (HnV : neighbor c d ∉ V).
    { intros Hin. apply Hvis in Hin; [| done].
      unfold is_blocked in Hfree. rewrite Hin in Hfree. done. }
    exists (neighbor c d :: V), ((c, neighbor c d) :: E).
    split; [| intros; by right].
    split; [exact Hwf' | exact Hfr' | | | | | | | | |].
    + by apply tree_leaf.
    + intros e He. rewrite (visited_carve W H) by done.
      rewrite elem_of_cons, <- Hvis by done.
      destruct (Z.testbit (cell_at g e) 4); simpl; [tauto |].
      case_bool_decide; split; (tauto || (intros [? | ?]; done) || done).
    + intros e He. apply elem_of_cons in He as [-> | He]; [done | by apply Hins].
    + intros e He. rewrite (is_pattern_carve W H) by done. by apply Hnp.
    + intros a b. rewrite (passage_carve W H) by done.
      rewrite adj_cons, Hpas. tauto.
    + assert (Hw : wall_bit g c d = true).
      { destruct (wall_bit g c d) eqn:Hw; [done |]. exfalso. apply HnV.
        assert (Hp : passage W H g c (neighbor c d)).
        { split; [done |]. split; [done |]. eauto. }
        apply Hpas in Hp. by destruct (tree_of_adj _ _ _ _ Ht Hp). }
      rewrite (length_open_edges_carve W H) by done.
      simpl. by rewrite Hcnt.
    + intros f Hf. apply elem_of_app in Hf as [Hf | Hf].
      * right. apply Hst. apply elem_of_app. by left.
      * apply elem_of_cons in Hf as [-> | Hf]; [by right |].
        apply list_elem_of_singleton in Hf. subst f. by left.
    + intros f d' Hf Hbit Hin. apply elem_of_app in Hf as [Hf | Hf].
      * right. apply Hpen; [| done | done]. apply elem_of_app. by left.
      * apply elem_of_cons in Hf as [-> | Hf].
        -- simpl in *. rewrite Hbits in Hbit.
           destruct (Z.testbit q (dir_bit d')) eqn:Hqd'.
           ++ destruct (avail W H g c d') eqn:Had'.
              ** simpl in Hbit. apply negb_false_iff in Hbit.
                 apply bool_decide_eq_true_1 in Hbit. subst d'. by left.
              ** right. eapply blocked_visited; [exact Hinv | done |].
                 by eapply avail_false_blocked.
           ++ right. by apply (Hpen (c, q) d').
        -- apply list_elem_of_singleton in Hf. subst f. simpl in Hbit.
           by destruct d'.
    + intros e He. apply elem_of_cons in He as [-> | He].
      { left. exists 15. apply elem_of_app. right. right. by left. }
      destruct (Hcl e He) as [[q0 Hq0] | Hclosed].
      * left. apply elem_of_app in Hq0 as [Hq0 | Hq0].
        -- exists q0. apply elem_of_app. by left.
        -- apply list_elem_of_singleton in Hq0. inversion Hq0; subst.
           exists q'. apply elem_of_app. right. by left.
      * right. intros d' Hd'. right. by apply Hclosed.
Qed.

Lemma carve_steps_inv W H s s' :
  rtc (carve_step W H) s s' →
  ∀ V E, carve_inv W H V E s.1 s.2 →
  ∃ V' E', carve_inv W H V' E' s'.1 s'.2 ∧ ∀ c, c ∈ V → c ∈ V'.
Proof.
  induction 1 as [s | [g m] [g1 m1] s3 Hstep _ IH]; intros V E Hinv.
  - eauto.
  - destruct (carve_step_inv _ _ _ _ _ _ _ _ Hstep Hinv) as (V1 & E1 & Hinv1 & Hsub1).
    destruct (IH V1 E1 Hinv1) as (V2 & E2 & Hinv2 & Hsub2).
    exists V2, E2. split; [done |]. auto.
Qed.

(** A set of cells that holds one cell of the grid and, with each cell, its
    neighbours in the grid, holds every cell of the grid. *)
Lemma closed_all W H (V : list (Z * Z)) r :
  inside W H r → r ∈ V →
  (∀ c d, c ∈ V → inside W H (neighbor c d) → neighbor c d ∈ V) →
  ∀ c, inside W H c → c ∈ V.
Proof.
  intros Hr HrV Hcl.
  assert (Hgen : ∀ n : nat, ∀ c, inside W H c →
    Z.abs (c.1 - r.1) + Z.abs (c.2 - r.2) = Z.of_nat n → c ∈ V).
  { induction n as [| n IH]; intros [x y] Hc Hdist; simpl in Hdist.
    - destruct r as [rx ry]. simpl in Hdist.
      replace x with rx by lia. replace y with ry by lia. done.
    - destruct r as [rx ry]. destruct Hc as [Hx Hy], Hr as [Hrx Hry].
      simpl in *.
      destruct (Z.lt_trichotomy x rx) as [Hlt | [Heq | Hgt]].
      + replace (x, y) with (neighbor (x + 1, y) West)
          by (simpl; f_equal; lia).
        apply Hcl; [| simpl; unfold inside; simpl; lia].
        apply IH; [unfold inside; simpl; lia | simpl; lia].
      + destruct (Z.lt_trichotomy y ry) as [Hlt | [Heq' | Hgt]].
        * replace (x, y) with (neighbor (x, y + 1) North)
            by (simpl; f_equal; lia).
          apply Hcl; [| simpl; unfold inside; simpl; lia].
          apply IH; [unfold inside; simpl; lia | simpl; lia].
        * lia.
        * replace (x, y) with (neighbor (x, y - 1) South)
            by (simpl; f_equal; lia).
          apply Hcl; [| simpl; unfold inside; simpl; lia].
          apply IH; [unfold inside; simpl; lia | simpl; lia].
      + replace (x, y) with (neighbor (x - 1, y) East)
          by (simpl; f_equal; lia).
        apply Hcl; [| simpl; unfold inside; simpl; lia].
        apply IH; [unfold inside; simpl; lia | simpl; lia]. }
  intros c Hc.
  apply (Hgen (Z.to_nat (Z.abs (c.1 - r.1) + Z.abs (c.2 - r.2)))); [done | lia].
Qed.

(** When the stack is empty the invariant says that the maze is perfect. *)
Lemma carve_inv_perfect W H V E g r :
  0 ≤ W → 0 ≤ H → carve_inv W H V E g [] → r ∈ V → perfect_maze W H g.
Proof.
  intros HW HH Hinv Hr.
  pose proof Hinv as [Hwf Hfr Ht Hvis Hins Hnp Hpas Hcnt Hst Hpen Hcl].
  assert (Hall : ∀ c, inside W H c → c ∈ V).
  { apply (closed_all W H V r); [by apply Hins | done |].
    intros c d Hc. destruct (Hcl c Hc) as [[q Hq] | Hclosed]; [| by apply Hclosed].
    inversion Hq. }
  assert (Hlen : length V = length (cells W H)).
  { apply Permutation_length. apply NoDup_Permutation.
    - by eapply tree_of_NoDup.
    - apply NoDup_cells.
    - intros c. rewrite elem_of_cells. split; [apply Hins | apply Hall]. }
  split.
  - rewrite Hcnt. pose proof (tree_of_length _ _ Ht) as HVE.
    pose proof (length_cells W H HW HH). lia.
  - intros a b Ha Hb.
    destruct (tree_unique_path V E Ht a b (Hall a Ha) (Hall b Hb))
      as (l & Hl & Huniq).
    exists l. split.
    + eapply simple_path_mono; [| exact Hl]. intros x y. apply Hpas.
    + intros l' Hl'. apply Huniq.
      eapply simple_path_mono; [| exact Hl']. intros x y. apply Hpas.
Qed.

(** ** The grid [generate] starts from *)

Lemma wf_grid_replicate W H v :
  0 ≤ W → 0 ≤ H →
  wf_grid W H (replicate (Z.to_nat H) (replicate (Z.to_nat W) v)).
Proof.
  intros HW HH. split.
  - rewrite length_replicate. lia.
  - apply Forall_forall. intros row Hrow.
    apply elem_of_replicate in Hrow as [-> _]. rewrite length_replicate. lia.
Qed.

Lemma cell_at_replicate W H v c :
  inside W H c →
  cell_at (replicate (Z.to_nat H) (replicate (Z.to_nat W) v)) c = v.
Proof.
  intros [Hx Hy]. unfold cell_at, cell.
  rewrite lookup_replicate_2 by lia. simpl.
  rewrite lookup_replicate_2 by lia. reflexivity.
Qed.

Lemma cell_at_upd W H g e v c :
  wf_grid W H g → inside W H e → inside W H c →
  cell_at (upd g e.1 e.2 v) c = if bool_decide (c = e) then v else cell_at g c.
Proof.
  intros Hwf He Hc. case_bool_decide as Heq.
  - subst c. by apply (cell_at_upd_eq W H).
  - by apply (cell_at_upd_ne W H).
Qed.

Lemma wf_grid_blank p :
  1 ≤ width p → 1 ≤ height p → wf_grid (width p) (height p) (blank_grid p).
Proof.
  intros HW HH. unfold blank_grid. do 2 apply wf_grid_upd.
  apply wf_grid_replicate; lia.
Qed.

Lemma cell_at_blank p c :
  valid_params p → inside (width p) (height p) c →
  cell_at (blank_grid p) c
  = if bool_decide (c = exit p) then 11
    else if bool_decide (c = entry p) then 7 else 3.
Proof.
  intros (HW & HH & Hne & Hen & Hex) Hc. unfold blank_grid.
  rewrite (cell_at_upd (width p) (height p)); try done.
  - case_bool_decide; [done |].
    rewrite (cell_at_upd (width p) (height p)); try done.
    + case_bool_decide; [done |]. by apply cell_at_replicate.
    + apply wf_grid_replicate; lia.
  - apply wf_grid_upd. apply wf_grid_replicate; lia.
Qed.

Lemma returns_set_maze g w (Q : unit → world → Prop) :
  Q tt (World g (w_rng w) (w_clock w)) → returns (set_maze g) w Q.
Proof. intros HQ. eexists _, _. split; [reflexivity | exact HQ]. Qed.

Lemma returns_random_seed seed_tape a w (Q : unit → world → Prop) :
  Q tt (World (w_maze w) (Rng (seed_tape a) 0) (w_clock w)) →
  returns (random_seed seed_tape a) w Q.
Proof. intros HQ. eexists _, _. split; [reflexivity | exact HQ]. Qed.

(** The first three statements of [generate] build [blank_grid]. *)
Lemma generate_blank p w (Q : unit → world → Prop) :
  valid_params p →
  Q tt (World (blank_grid p) (w_rng w) (w_clock w)) →
  returns (set_maze (replicate (Z.to_nat (height p))
                       (replicate (Z.to_nat (width p)) 3)) ;;
           store (entry p).2 (entry p).1 7 ;;
           store (exit p).2 (exit p).1 11) w Q.
Proof.
  intros (HW & HH & Hne & [Hex Hey] & [Hox Hoy]) HQ.
  apply returns_bind, returns_set_maze.
  apply returns_bind. eapply returns_store;
    [simpl; apply wf_grid_replicate; lia | done ..|].
  eapply returns_store;
    [simpl; apply wf_grid_upd, wf_grid_replicate; lia | done ..|].
  exact HQ.
Qed.

(** The invariant holds when the carver starts on a grid without
    pattern. *)
Lemma carve_inv_init p :
  valid_params p →
  carve_inv (width p) (height p) [exit p] []
    (upd (blank_grid p) (exit p).1 (exit p).2
       (Z.lor (cell_at (blank_grid p) (exit p)) 0x10))
    [(exit p, 15)].
Proof.
  intros Hp. pose proof Hp as (HW & HH & Hne & Hen & Hex).
  set (W := width p) in *. set (H := height p) in *.
  set (g0 := upd _ _ _ _).
  assert (Hwf : wf_grid W H g0) by (apply wf_grid_upd; by apply wf_grid_blank).
  assert (Hcell : ∀ c, inside W H c →
    cell_at g0 c = if bool_decide (c = exit p) then 27
                   else if bool_decide (c = entry p) then 7 else 3).
  { intros c Hc. subst g0.
    rewrite (cell_at_upd W H) by (done || by apply wf_grid_blank).
    rewrite !cell_at_blank by done.
    rewrite (bool_decide_eq_true_2 (exit p = exit p)) by done.
    by case_bool_decide. }
  assert (Hbits : ∀ c, inside W H c →
    Z.testbit (cell_at g0 c) 0 = true ∧ Z.testbit (cell_at g0 c) 1 = true
    ∧ is_pattern (cell_at g0 c) = false
    ∧ Z.testbit (cell_at g0 c) 4 = bool_decide (c = exit p)).
  { intros c Hc. rewrite Hcell by done. by repeat case_bool_decide. }
  split.
  - exact Hwf.
  - apply Forall_singleton. simpl. split; [done | lia].
  - apply tree_root.
  - intros c Hc. destruct (Hbits c Hc) as (_ & _ & _ & ->).
    rewrite list_elem_of_singleton. case_bool_decide; split; done.
  - intros c Hc. apply list_elem_of_singleton in Hc. by subst.
  - intros c Hc. by destruct (Hbits c Hc) as (_ & _ & ? & _).
  - intros a b. split.
    + intros (Ha & Hb & d & -> & Hw). rewrite wall_bit_owner in Hw.
      destruct (Hbits (wall_owner a d)) as (H0 & H1 & _);
        [by apply wall_owner_inside' |].
      destruct d; cbn [wall_idx] in Hw; congruence.
    + intros [Hin | Hin]; inversion Hin.
  - unfold open_edges. simpl.
    assert (Hnil : ∀ l : list (Z * Z), Forall (inside W H) l →
      l ≫= (λ c,
        (if (0 <? c.2) && negb (Z.testbit (cell_at g0 c) 0)
         then [(c, neighbor c North)] else [])
        ++ (if (c.1 <? W - 1) && negb (Z.testbit (cell_at g0 c) 1)
            then [(c, neighbor c East)] else [])) = []).
    { induction 1 as [| c l Hc Hl IH]; [done |].
      rewrite bind_cons, IH. destruct (Hbits c Hc) as (-> & -> & _).
      by rewrite !andb_false_r. }
    rewrite Hnil; [done |]. apply Forall_forall. intros c.
    apply elem_of_cells.
  - intros f Hf. apply list_elem_of_singleton in Hf. subst f. by left.
  - intros f d Hf Hbit. apply list_elem_of_singleton in Hf. subst f.
    by destruct d.
  - intros c Hc. apply list_elem_of_singleton in Hc. subst c.
    left. exists 15. by left.
Qed.

(** C1, as amended: for a record that satisfies the invariant of the data
    model (entry and exit distinct and inside the grid), with width and
    height at least 2, no pattern requested and the perfect flag set,
    whatever the seed and the state of the random source, [generate] returns
    (given fuel above twice the number of cells plus one, which the loop
    never exceeds), and the grid it returns is a perfect maze: its open
    connections number the cells minus one, and any two cells are joined by
    exactly one simple path. *)
Theorem C1_generate_perfect seed_tape fuel mzParam w :
  valid_params mzParam →
  2 ≤ width mzParam → 2 ≤ height mzParam →
  insert_42 mzParam = false → perfect mzParam = true →
  2 * (width mzParam * height mzParam) + 1 < Z.of_nat fuel →
  returns (generate seed_tape fuel mzParam) w
    (λ g w',
       g = w_maze w'
       ∧ wf_grid (width mzParam) (height mzParam) g
       ∧ perfect_maze (width mzParam) (height mzParam) g).
Proof.
  intros Hp HW HH Hins Hperf Hfuel.
  pose proof Hp as (_ & _ & Hne & Hen & Hex).
  assert (Hgen : ∀ w1, w_maze w1 = blank_grid mzParam →
    returns (gen_DFS fuel mzParam ;; ret tt ;; get_maze) w1
      (λ g w', g = w_maze w'
               ∧ wf_grid (width mzParam) (height mzParam) g
               ∧ perfect_maze (width mzParam) (height mzParam) g)).
  { intros w1 Hw1. apply returns_bind. eapply returns_mono.
    { apply gen_DFS_spec; [| done | done].
      rewrite Hw1. apply wf_grid_blank; lia. }
    intros g' w2 (-> & Hwf2 & Hrtc & _). simpl.
    apply returns_bind, returns_ret. apply returns_get_maze.
    split; [done |]. split; [done |].
    rewrite Hw1 in Hrtc.
    destruct (carve_steps_inv _ _ _ _ Hrtc [exit mzParam] []
                (carve_inv_init mzParam Hp)) as (V & E & Hinv & Hsub).
    eapply (carve_inv_perfect _ _ V E _ (exit mzParam)); [lia | lia | exact Hinv |].
    apply Hsub. by left. }
  unfold generate. rewrite Hins, Hperf. cbn [negb].
  apply returns_bind, returns_set_maze.
  apply returns_bind. destruct Hen as [Hex1 Hey1], Hex as [Hox Hoy].
  eapply returns_store;
    [simpl; apply wf_grid_replicate; lia | done ..|].
  apply returns_bind.
  eapply returns_store;
    [simpl; apply wf_grid_upd, wf_grid_replicate; lia | done ..|].
  cbn [w_maze w_rng w_clock].
  apply returns_bind, returns_ret.
  apply returns_bind.
  destruct (seed mzParam) as [a |].
  - apply returns_random_seed. by apply Hgen.
  - apply returns_ret. by apply Hgen.
Qed.

Lemma C1_generate_perfect_witness :
  let p := MkParams 3 3 (0, 0) (2, 2) "maze.txt" true None false 25 4 99 in
  let w := World [] (Rng (λ n, N.of_nat (n * 7 + 3)) 0) (Clock (λ _, 0%Q) 0) in
  returns (generate example_seed_tape 20 p) w
    (λ g w', g = w_maze w' ∧ wf_grid 3 3 g ∧ perfect_maze 3 3 g).
Proof.
  intros p w.
  apply (C1_generate_perfect example_seed_tape 20 p w).
  - unfold valid_params, inside. simpl. repeat split; (lia || discriminate).
  - simpl. lia.
  - simpl. lia.
  - reflexivity.
  - reflexivity.
  - simpl. lia.
Defined.

(** C1, as stated, fails: with the perfect flag off (and the probability of
    removal at 100) [generate] runs the imperfection injector after the
    carver, and in a grid of 2 by 2 cells the result has four open
    connections for four cells, hence a cycle. *)
Lemma C1_counterexample :
  let p := MkParams 2 2 (0, 0) (1, 1) "maze.txt" false (Some 1) false 25 4 100 in
  let w := World [] (Rng (λ n, N.of_nat n) 0) (Clock (λ _, 0%Q) 0) in
  valid_params p ∧ 2 ≤ width p ∧ 2 ≤ height p ∧ insert_42 p = false
  ∧ ∃ g w', generate example_seed_tape 20 p w = (Ret g, w')
            ∧ ¬ perfect_maze 2 2 g.
Proof.
  intros p w. split.
  { unfold valid_params, inside. simpl. repeat split; (lia || discriminate). }
  split; [simpl; lia |]. split; [simpl; lia |]. split; [reflexivity |].
  eexists _, _. split; [vm_compute; reflexivity |].
  intros [Hcount _]. vm_compute in Hcount. discriminate.
Qed.

(** ** One removal of the injector *)

Section OpenWall.

Variables (W H : Z) (g : grid) (c : Z * Z) (d : dir).
Hypothesis Hwf : wf_grid W H g.
Hypothesis Hc : inside W H c.
Hypothesis Hn : inside W H (neighbor c d).

Lemma wf_grid_open_wall : wf_grid W H (open_wall g c d).
Proof. unfold open_wall. by apply wf_grid_upd. Qed.

Lemma cell_at_open_wall e :
  inside W H e →
  cell_at (open_wall g c d) e
  = if bool_decide (e = wall_owner c d)
    then Z.land (cell_at g e)
           (match wall_idx d with 0 => 0xfffe | _ => 0xfffd end)
    else cell_at g e.
Proof.
  intros He. unfold open_wall. cbv zeta.
  rewrite (cell_at_upd W H) by (done || by apply wall_owner_inside').
  case_bool_decide; [by subst e | done].
Qed.

Lemma testbit_open_wall_mono e i :
  inside W H e →
  Z.testbit (cell_at (open_wall g c d) e) i = true →
  Z.testbit (cell_at g e) i = true.
Proof.
  intros He. rewrite cell_at_open_wall by done. case_bool_decide; [| done].
  rewrite Z.land_spec. intros Hb. by apply andb_true_iff in Hb as [Hb _].
Qed.

Lemma testbit_open_wall e i :
  inside W H e → 0 ≤ i < 16 →
  Z.testbit (cell_at (open_wall g c d) e) i
  = Z.testbit (cell_at g e) i
    && negb (bool_decide (e = wall_owner c d) && (i =? wall_idx d)).
Proof.
  intros He Hi. rewrite cell_at_open_wall by done.
  case_bool_decide; [| by rewrite andb_true_r].
  rewrite Z.land_spec. f_equal.
  assert (Hi' : i ∈ range 0 16) by (apply elem_of_range; lia).
  destruct d; cbn [wall_idx andb];
    repeat (apply elem_of_cons in Hi' as [-> | Hi']; [reflexivity |]);
    inversion Hi'.
Qed.

Lemma is_pattern_open_wall e :
  inside W H e →
  is_pattern (cell_at (open_wall g c d) e) = is_pattern (cell_at g e).
Proof.
  intros He. unfold is_pattern. rewrite !testbit_open_wall by (done || lia).
  assert (H3 : (3 =? wall_idx d) = false) by (by destruct d).
  assert (H2 : (2 =? wall_idx d) = false) by (by destruct d).
  rewrite H3, H2. by rewrite !andb_false_r, !andb_true_r.
Qed.

Lemma wall_bit_open_wall a d' :
  inside W H a → inside W H (neighbor a d') →
  wall_bit (open_wall g c d) a d'
  = wall_bit g a d'
    && negb (bool_decide ((a = c ∧ d' = d)
                          ∨ (a = neighbor c d ∧ d' = opposite d))).
Proof.
  intros Ha Hb. rewrite !wall_bit_owner.
  rewrite testbit_open_wall by
    ((by apply wall_owner_inside') || (destruct d'; simpl; lia)).
  f_equal. f_equal.
  destruct (decide (wall_owner a d' = wall_owner c d)) as [Ho | Ho];
    destruct (Z.eqb_spec (wall_idx d') (wall_idx d)) as [Hi | Hi].
  - rewrite bool_decide_eq_true_2 by done.
    rewrite bool_decide_eq_true_2 by (by apply same_wall). reflexivity.
  - rewrite andb_false_r. symmetry. apply bool_decide_eq_false_2.
    intros [[-> ->] | [-> ->]]; [done |]. by rewrite wall_idx_opposite in Hi.
  - rewrite bool_decide_eq_false_2 by done. symmetry.
    apply bool_decide_eq_false_2.
    intros [[-> ->] | [-> ->]]; [done |]. by rewrite wall_owner_opposite in Ho.
  - rewrite bool_decide_eq_false_2 by done. symmetry.
    apply bool_decide_eq_false_2.
    intros [[-> ->] | [-> ->]]; [done |]. by rewrite wall_owner_opposite in Ho.
Qed.

Lemma passage_open_wall a b :
  passage W H g a b → passage W H (open_wall g c d) a b.
Proof.
  intros (Ha & Hb & d' & -> & Hw). split; [done |]. split; [done |].
  exists d'. split; [done |]. rewrite wall_bit_open_wall by done. by rewrite Hw.
Qed.

(** The wall opened is not on the boundary: its bit is neither a top bit of
    the first row nor a right bit of the last column. *)
Lemma open_wall_inner :
  (wall_idx d = 0 → 0 < (wall_owner c d).2)
  ∧ (wall_idx d = 1 → (wall_owner c d).1 < W - 1).
Proof.
  destruct c as [x y], Hc as [Hx Hy], Hn as [Hnx Hny].
  destruct d; simpl in *; split; intros; lia.
Qed.

End OpenWall.

Lemma wall_removal_safe W H g g' :
  wf_grid W H g → wall_removal W H g g' → safe_injection W H g g'.
Proof.
  intros Hwf Hrem. inversion Hrem as [? c d Hc Hn Hpc Hpn]; subst.
  split; [by apply wf_grid_open_wall |].
  split; [intros e i He _; by apply (testbit_open_wall_mono W H) |].
  split.
  { intros e i He Hi. rewrite (testbit_open_wall W H) by (done || lia).
    replace (i =? wall_idx d) with false
      by (symmetry; apply Z.eqb_neq; destruct d; simpl; lia).
    by rewrite andb_false_r, andb_true_r. }
  destruct (open_wall_inner W H c d Hc Hn) as [Hin0 Hin1].
  split.
  { intros e He. split; intros Hb;
      rewrite (testbit_open_wall W H) by (done || lia).
    - destruct (Z.eqb_spec 0 (wall_idx d)) as [Hi | Hi];
        [| by rewrite andb_false_r, andb_true_r].
      rewrite bool_decide_eq_false_2; [by rewrite andb_true_r |].
      intros ->. symmetry in Hi. apply Hin0 in Hi. lia.
    - destruct (Z.eqb_spec 1 (wall_idx d)) as [Hi | Hi];
        [| by rewrite andb_false_r, andb_true_r].
      rewrite bool_decide_eq_false_2; [by rewrite andb_true_r |].
      intros ->. symmetry in Hi. apply Hin1 in Hi. lia. }
  split.
  { intros a d' Ha Hb Hpat. rewrite (wall_bit_open_wall W H) by done.
    rewrite bool_decide_eq_false_2; [by rewrite andb_true_r |].
    intros [[-> ->] | [-> ->]].
    - destruct Hpat; congruence.
    - rewrite neighbor_opposite in Hpat. destruct Hpat; congruence. }
  intros a b Hab. eapply rtc_subrel; [| exact Hab].
  intros x y. by apply passage_open_wall.
Qed.

Lemma safe_injection_refl W H g : wf_grid W H g → safe_injection W H g g.
Proof.
  intros Hwf. split; [done |]. split; [auto |]. split; [auto |].
  split; [by split |]. split; auto.
Qed.

Lemma safe_injection_trans W H g1 g2 g3 :
  safe_injection W H g1 g2 → safe_injection W H g2 g3 →
  safe_injection W H g1 g3.
Proof.
  intros (Hwf2 & Hmono2 & Hlow2 & Hbd2 & Hpat2 & Hcon2)
         (Hwf3 & Hmono3 & Hlow3 & Hbd3 & Hpat3 & Hcon3).
  assert (Hpatt : ∀ e, inside W H e →
    is_pattern (cell_at g2 e) = is_pattern (cell_at g1 e)).
  { intros e He. unfold is_pattern. by rewrite !Hlow2 by (done || lia). }
  split; [done |]. split; [by auto |]. split.
  { intros e i He Hi. by rewrite Hlow3, Hlow2. }
  split.
  { intros e He. destruct (Hbd2 e He) as [H20 H21], (Hbd3 e He) as [H30 H31].
    split; intros Hb; [rewrite H30, H20 | rewrite H31, H21]; done. }
  split.
  { intros a d Ha Hb Hpat. rewrite Hpat3, Hpat2; try done.
    by rewrite !Hpatt. }
  auto.
Qed.

Lemma wall_removals_safe W H g g' :
  wf_grid W H g → rtc (wall_removal W H) g g' → safe_injection W H g g'.
Proof.
  intros Hwf Hrtc. induction Hrtc as [g | g g1 g2 Hstep _ IH].
  - by apply safe_injection_refl.
  - pose proof (wall_removal_safe _ _ _ _ Hwf Hstep) as Hs1.
    eapply safe_injection_trans; [exact Hs1 |]. apply IH. by destruct Hs1.
Qed.

(** ** The injector, cell by cell *)

Lemma lor_wall_below v :
  0 ≤ v < 16 →
  0 ≤ Z.lor v 1 < 16 ∧ 0 ≤ Z.lor v 2 < 16
  ∧ 0 ≤ Z.lor v 4 < 16 ∧ 0 ≤ Z.lor v 8 < 16.
Proof. intros Hv. check_below v 16%nat. Qed.

Lemma land_3_below v : 0 ≤ Z.land v 3 < 16.
Proof.
  rewrite (land_low v 3 2) by (lia || reflexivity).
  assert (Hr : 0 ≤ v mod 2 ^ 2 < 2 ^ 2) by (apply Z.mod_pos_bound; lia).
  generalize dependent (v mod 2 ^ 2). intros r Hr. check_below r 4%nat.
Qed.

Lemma effective_walls_spec W H w v x y :
  wf_grid W H (w_maze w) → 0 ≤ x < W → 0 ≤ y < H → 0 ≤ v < 16 →
  returns (effective_walls v x y) w (λ v' w', w' = w ∧ 0 ≤ v' < 16).
Proof.
  intros Hwf Hx Hy Hv. unfold effective_walls.
  set (v1 := if y =? 0 then Z.lor v 1 else v).
  assert (Hv1 : 0 ≤ v1 < 16).
  { subst v1. destruct (y =? 0); [apply lor_wall_below |]; done. }
  apply returns_bind.
  apply returns_mono with (Q := λ v2 w', w' = w ∧ 0 ≤ v2 < 16).
  { destruct (Z.eqb_spec x 0).
    - apply returns_ret. split; [done |]. by apply lor_wall_below.
    - apply returns_bind. eapply returns_load; [done | lia | done |].
      destruct (truthy _); apply returns_ret;
        (split; [done |]); [by apply lor_wall_below | done]. }
  intros v2 ? [-> Hv2]. simpl.
  apply returns_bind. eapply returns_len_maze; [done |].
  apply returns_bind.
  apply returns_mono with (Q := λ v3 w', w' = w ∧ 0 ≤ v3 < 16).
  { destruct (Z.eqb_spec y (H - 1)).
    - apply returns_ret. split; [done |]. by apply lor_wall_below.
    - apply returns_bind. eapply returns_load; [done | done | lia |].
      destruct (truthy _); apply returns_ret;
        (split; [done |]); [by apply lor_wall_below | done]. }
  intros v3 ? [-> Hv3]. simpl.
  apply returns_bind. eapply returns_len_row0; [done | lia |].
  apply returns_ret. split; [done |].
  destruct (x =? W - 1); [by apply lor_wall_below | done].
Qed.

Lemma removable_check_spec W H w c q d keep (edge : M bool) :
  wf_grid W H (w_maze w) →
  returns edge w
    (λ e w', w' = w ∧ e = negb (bool_decide (inside W H (neighbor c d)))) →
  truthy (Z.land q (2 ^ dir_bit d)) = Z.testbit q (dir_bit d) →
  returns (removable_check q (2 ^ dir_bit d) keep edge
             (neighbor c d).2 (neighbor c d).1) w
    (λ q' w',
       w' = w
       ∧ q' = if Z.testbit q (dir_bit d)
                 && negb (removable W H (w_maze w) c d)
              then Z.land q keep else q).
Proof.
  intros Hwf Hedge Hbit. unfold removable_check, removable. rewrite Hbit.
  destruct (Z.testbit q (dir_bit d)); [| by apply returns_ret].
  apply returns_bind. eapply returns_mono; [exact Hedge |].
  intros e ? [-> ->]. simpl.
  case_bool_decide as Hin; cbn [negb andb].
  - apply returns_bind. destruct Hin as [Hx Hy].
    eapply returns_load; [done ..|]. rewrite eq_0xc_pattern.
    unfold cell_at. destruct (is_pattern _); by apply returns_ret.
  - by apply returns_ret.
Qed.

Lemma removable_inside W H g c d :
  removable W H g c d = true →
  inside W H (neighbor c d) ∧ is_pattern (cell_at g (neighbor c d)) = false.
Proof.
  unfold removable. intros Hr. apply andb_true_iff in Hr as [Hi Hp].
  apply bool_decide_eq_true_1 in Hi. by apply negb_true_iff in Hp.
Qed.

(** At one cell the injector leaves the grid as it is or removes one
    wall; it does not read the clock. *)
Lemma dead_end_body_spec W H w pr x y :
  wf_grid W H (w_maze w) → inside W H (x, y) →
  returns (dead_end_body pr x y) w
    (λ _ w',
       (w_maze w' = w_maze w ∨ wall_removal W H (w_maze w) (w_maze w'))
       ∧ w_clock w' = w_clock w).
Proof.
  intros Hwf Hin. pose proof Hin as [Hx Hy]. simpl in Hx, Hy.
  assert (HH : 0 < H) by lia.
  unfold dead_end_body.
  apply returns_bind. eapply returns_load; [done ..|].
  rewrite truthy_0xc.
  destruct (Z.testbit (cell (w_maze w) x y) 3 || Z.testbit (cell (w_maze w) x y) 2)
    eqn:Hpat; [apply returns_ret; auto |].
  assert (Hpc : is_pattern (cell_at (w_maze w) (x, y)) = false).
  { unfold is_pattern, cell_at. cbn [fst snd].
    apply orb_false_iff in Hpat as [-> _]. done. }
  apply returns_bind. eapply returns_mono.
  { apply (effective_walls_spec W H); [done .. | apply land_3_below]. }
  intros v ? [-> Hv]. simpl.
  destruct (_ =? 3); [| apply returns_ret; auto].
  apply returns_bind.
  apply returns_mono with
    (Q := λ (_ : bool) w', w_maze w' = w_maze w ∧ w_clock w' = w_clock w).
  { destruct (Qle_bool 100 pr); [by apply returns_ret |].
    apply returns_bind. eexists _, _. split; [reflexivity |].
    by apply returns_ret. }
  intros go w1 [Hm1 Hc1]. simpl.
  destruct go; [| apply returns_ret; auto].
  assert (Hwf1 : wf_grid W H (w_maze w1)) by (by rewrite Hm1).
  set (a := removable W H (w_maze w1) (x, y)).
  apply returns_bind. eapply returns_mono.
  { apply (removable_check_spec W H w1 (x, y) v North 14); [done | | apply truthy_1].
    apply returns_ret. split; [done |]. by apply edge_north. }
  intros q1 ? [-> ->]. simpl.
  apply returns_bind. eapply returns_mono.
  { apply (removable_check_spec W H w1 (x, y) _ East 13); [done | | apply truthy_2].
    unfold is_last_col. apply returns_bind.
    eapply returns_len_row0; [done ..|].
    apply returns_ret. split; [done |]. by apply edge_east. }
  intros q2 ? [-> ->]. simpl.
  apply returns_bind. eapply returns_mono.
  { apply (removable_check_spec W H w1 (x, y) _ South 11); [done | | apply truthy_4].
    unfold is_last_row. apply returns_bind.
    eapply returns_len_maze; [done |].
    apply returns_ret. split; [done |]. by apply edge_south. }
  intros q3 ? [-> ->]. simpl.
  apply returns_bind. eapply returns_mono.
  { apply (removable_check_spec W H w1 (x, y) _ West 7); [done | | apply truthy_8].
    apply returns_ret. split; [done |]. by apply edge_west. }
  intros q4 ? [-> Hq4]. simpl.
  assert (Hq4' : q4 = prune_mask v a) by (rewrite Hq4; reflexivity).
  destruct (prune_mask_spec v a Hv) as [Hr4 Hb4]. rewrite <- Hq4' in Hr4, Hb4.
  clear Hq4 Hq4'.
  destruct (Z.eqb_spec q4 0) as [-> | Hne]; [apply returns_ret; auto |].
  apply returns_bind. apply random_choice_returns.
  { by apply set_bits4_nonempty. }
  intros ch Hch. apply set_bits4_spec in Hch. cbn [w_maze w_rng w_clock].
  assert (Hrem : ∀ d, Z.testbit q4 (dir_bit d) = true →
    inside W H (neighbor (x, y) d)
    ∧ wall_removal W H (w_maze w) (open_wall (w_maze w1) (x, y) d)).
  { intros d Hd. rewrite Hb4 in Hd. apply andb_true_iff in Hd as [_ Had].
    apply removable_inside in Had as [Hn Hpn]. split; [done |].
    rewrite Hm1. apply wall_removed; try done. by rewrite <- Hm1. }
  destruct Hch as [[-> Hb] | [[-> Hb] | [[-> Hb] | [-> Hb]]]];
    cbn [Z.eqb Pos.eqb].
  - destruct (Hrem North Hb) as [[Hnx Hny] Hr]. simpl in Hnx, Hny.
    apply returns_bind. apply returns_bind.
    eapply returns_load; [done ..|]. eapply returns_store; [done ..|].
    apply returns_ret. split; [right; exact Hr | done].
  - destruct (Hrem East Hb) as [[Hnx Hny] Hr]. simpl in Hnx, Hny.
    apply returns_bind. apply returns_bind.
    eapply returns_load; [done ..|]. eapply returns_store; [done ..|].
    apply returns_ret. split; [right; exact Hr | done].
  - destruct (Hrem South Hb) as [[Hnx Hny] Hr]. simpl in Hnx, Hny.
    apply returns_bind. apply returns_bind.
    eapply returns_load; [done ..|]. eapply returns_store; [done ..|].
    apply returns_ret. split; [right; exact Hr | done].
  - destruct (Hrem West Hb) as [[Hnx Hny] Hr]. simpl in Hnx, Hny.
    apply returns_bind. apply returns_bind.
    eapply returns_load; [done ..|]. eapply returns_store; [done ..|].
    apply returns_ret. split; [right; exact Hr | done].
Qed.

(** ** The injector, over the whole grid *)

Lemma wall_removal_wf W H g g' :
  wf_grid W H g → wall_removal W H g g' → wf_grid W H g'.
Proof. intros Hwf Hr. by destruct (wall_removal_safe _ _ _ _ Hwf Hr). Qed.

Section Injector.

Variables (W H : Z) (g0 : grid) (clk : clock_state) (pr : Q).

(** The invariant of the two loops. *)
Let inv (w : world) : Prop :=
  wf_grid W H (w_maze w) ∧ rtc (wall_removal W H) g0 (w_maze w)
  ∧ w_clock w = clk.

Lemma dead_end_body_inv w x y :
  inv w → 0 ≤ x < W → 0 ≤ y < H →
  returns (dead_end_body pr x y) w (λ _ w', inv w').
Proof.
  intros (Hwf & Hrtc & Hclk) Hx Hy. eapply returns_mono.
  { by apply (dead_end_body_spec W H). }
  intros ? w' [[Hsame | Hrem] Hc]; simpl.
  - split; [by rewrite Hsame |]. split; [by rewrite Hsame | congruence].
  - split; [by eapply wall_removal_wf |].
    split; [by eapply rtc_r | congruence].
Qed.

Lemma do_not_prefect_loop w :
  inv w →
  returns
    (for_each (range 0 H) (λ y,
       let* w0 := len_row0 in
       for_each (range 0 w0) (λ x, dead_end_body pr x y ;; ret tt)))
    w (λ _ w', inv w').
Proof.
  intros Hinv.
  apply (returns_for_each inv (λ y, 0 ≤ y < H)); [apply range_bounds | done |].
  intros y w1 Hy Hinv1. apply returns_bind.
  eapply returns_len_row0; [apply Hinv1 | lia |].
  apply (returns_for_each inv (λ x, 0 ≤ x < W)); [apply range_bounds | done |].
  intros x w2 Hx Hinv2. apply returns_bind. eapply returns_mono.
  { by apply dead_end_body_inv. }
  intros ? w3 Hinv3. simpl. by apply returns_ret.
Qed.

Lemma do_not_prefect_animated_loop animated w :
  inv w →
  returns
    (for_yield (range 0 H) (λ y,
       let* w0 := len_row0 in
       for_yield (range 0 w0) (λ x,
         let* removed := dead_end_body pr x y in
         ret (if removed && animated
              then [Some (x - 1, y - 1, x + 1, y + 1)] else []))))
    w (λ _ w', inv w').
Proof.
  intros Hinv.
  apply (returns_for_yield inv (λ y, 0 ≤ y < H)); [apply range_bounds | done |].
  intros y w1 Hy Hinv1. apply returns_bind.
  eapply returns_len_row0; [apply Hinv1 | lia |].
  apply (returns_for_yield inv (λ x, 0 ≤ x < W)); [apply range_bounds | done |].
  intros x w2 Hx Hinv2. apply returns_bind. eapply returns_mono.
  { by apply dead_end_body_inv. }
  intros ? w3 Hinv3. simpl. by apply returns_ret.
Qed.

End Injector.

(** [do_not_prefect] returns the grid it leaves, reached from the grid it
    receives by removals of removable walls. *)
Lemma do_not_prefect_removals mzParam w W H :
  wf_grid W H (w_maze w) →
  returns (do_not_prefect mzParam) w
    (λ g' w', g' = w_maze w' ∧ wf_grid W H g'
              ∧ rtc (wall_removal W H) (w_maze w) g').
Proof.
  intros Hwf.
  assert (Hinv0 : wf_grid W H (w_maze w)
                  ∧ rtc (wall_removal W H) (w_maze w) (w_maze w)
                  ∧ w_clock w = w_clock w) by done.
  unfold do_not_prefect. destruct (Qle_bool _ 0).
  { by apply returns_get_maze. }
  apply returns_bind. eapply returns_len_maze; [done |].
  apply returns_bind. eapply returns_mono.
  { by apply (do_not_prefect_loop W H (w_maze w) (w_clock w)). }
  intros ? w' (Hwf' & Hrtc & _). simpl. by apply returns_get_maze.
Qed.

(** C5: on a grid of [H] rows of [W] cells, for every probability and every
    state of the random source, [do_not_prefect] and
    [do_not_prefect_animated] return, and between the grid they receive and
    the grid they leave: bits are only cleared, and below bit 16 only the
    two wall bits; no wall of the boundary is removed; no wall with a
    pattern cell on either side is removed; hence cells joined by open
    connections stay joined, and a connected grid stays connected. *)
Theorem C5_injector_safe mzParam animated w W H :
  wf_grid W H (w_maze w) →
  returns (do_not_prefect mzParam) w
    (λ g' w', g' = w_maze w' ∧ safe_injection W H (w_maze w) g')
  ∧ returns (do_not_prefect_animated mzParam animated) w
      (λ _ w', safe_injection W H (w_maze w) (w_maze w')).
Proof.
  intros Hwf.
  assert (Hinv0 : wf_grid W H (w_maze w)
                  ∧ rtc (wall_removal W H) (w_maze w) (w_maze w)
                  ∧ w_clock w = w_clock w) by done.
  split.
  - eapply returns_mono; [by apply do_not_prefect_removals |].
    intros g' w' (-> & Hwf' & Hrtc). split; [done |].
    by apply wall_removals_safe.
  - unfold do_not_prefect_animated. destruct (Qle_bool _ 0).
    { apply returns_ret. by apply safe_injection_refl. }
    apply returns_bind. eapply returns_len_maze; [done |].
    apply returns_bind. eapply returns_mono.
    { by apply (do_not_prefect_animated_loop W H (w_maze w) (w_clock w)). }
    intros ? w' (Hwf' & Hrtc & _). simpl. apply returns_ret.
    by apply wall_removals_safe.
Qed.

Lemma C5_injector_safe_witness :
  let p := MkParams 2 2 (0, 0) (1, 1) "maze.txt" false None false 25 4 100 in
  let w := World [[21; 19]; [16; 26]] (Rng (λ n, N.of_nat n) 0)
             (Clock (λ _, 0%Q) 0) in
  returns (do_not_prefect p) w
    (λ g' w', g' = w_maze w' ∧ safe_injection 2 2 (w_maze w) g')
  ∧ returns (do_not_prefect_animated p true) w
      (λ _ w', safe_injection 2 2 (w_maze w) (w_maze w')).
Proof.
  intros p w. apply (C5_injector_safe p true w 2 2).
  split; [reflexivity | repeat constructor].
Defined.

(** ** Rules for partial correctness *)

Lemma ensures_ret {A} (a : A) w (Q : A → world → Prop) :
  Q a w → ensures (ret a) w Q.
Proof. intros HQ a' w' Heq. inversion Heq; by subst. Qed.

Lemma ensures_raise {A} e w (Q : A → world → Prop) : ensures (raise e) w Q.
Proof. intros a' w' Heq. inversion Heq. Qed.

Lemma ensures_out_of_fuel {A} w (Q : A → world → Prop) :
  ensures out_of_fuel w Q.
Proof. intros a' w' Heq. inversion Heq. Qed.

Lemma ensures_bind {A B} (m : M A) (k : A → M B) w (Q : B → world → Prop) :
  ensures m w (λ a w', ensures (k a) w' Q) → ensures (bind m k) w Q.
Proof.
  intros Hm b w'' Heq. apply bind_inv_Ret in Heq as (a & w' & Hma & Hk).
  by apply (Hm a w' Hma).
Qed.

Lemma ensures_mono {A} (m : M A) w (Q Q' : A → world → Prop) :
  ensures m w Q → (∀ a w', Q a w' → Q' a w') → ensures m w Q'.
Proof. intros Hm H a w' Heq. apply H. by apply Hm. Qed.

Lemma returns_ensures {A} (m : M A) w (Q : A → world → Prop) :
  returns m w Q → ensures m w Q.
Proof.
  intros (a & w' & Hm & HQ) a' w'' Heq. rewrite Hm in Heq.
  inversion Heq; by subst.
Qed.

Lemma ensures_load W H w x y (Q : Z → world → Prop) :
  wf_grid W H (w_maze w) → 0 ≤ x < W → 0 ≤ y < H →
  Q (cell (w_maze w) x y) w → ensures (load y x) w Q.
Proof. intros. apply returns_ensures. by eapply returns_load. Qed.

Lemma preserves_ensures (I : world → Prop) {A} (m : M A) w :
  preserves I m → I w → ensures m w (λ _ w', I w').
Proof. intros Hp HI a w' Heq. specialize (Hp w HI). by rewrite Heq in Hp. Qed.

(** ** Rules for invariants *)

Lemma preserves_ret I {A} (a : A) : preserves I (ret a).
Proof. by intros w. Qed.

Lemma preserves_raise I {A} e : preserves I (@raise A e).
Proof. by intros w. Qed.

Lemma preserves_out_of_fuel I {A} : preserves I (@out_of_fuel A).
Proof. by intros w. Qed.

Lemma preserves_bind I {A B} (m : M A) (k : A → M B) :
  preserves I m → (∀ a, preserves I (k a)) → preserves I (bind m k).
Proof.
  intros Hm Hk w HI. specialize (Hm w HI). unfold bind.
  destruct (m w) as [[a | e |] w1]; simpl in *; [by apply Hk | done | done].
Qed.

Lemma preserves_if I {A} (b : bool) (m1 m2 : M A) :
  preserves I m1 → preserves I m2 → preserves I (if b then m1 else m2).
Proof. by destruct b. Qed.

Lemma preserves_read_only I {A} (m : M A) : read_only m → preserves I m.
Proof. intros Hm w HI. by rewrite Hm. Qed.

Lemma preserves_for_each I {A} (l : list A) (body : A → M unit) :
  (∀ a, preserves I (body a)) → preserves I (for_each l body).
Proof.
  intros Hb. induction l as [| a l IH]; simpl.
  - apply preserves_ret.
  - apply preserves_bind; auto.
Qed.

(** ** Indexing in general *)

Lemma py_index_lt n i k : py_index n i = Some k → (k < n)%nat.
Proof.
  unfold py_index.
  destruct (Z.leb_spec 0 i), (Z.ltb_spec i (Z.of_nat n)); simpl;
    try (intros [= <-]; lia).
  all: destruct (Z.leb_spec (- Z.of_nat n) i), (Z.ltb_spec i 0); simpl;
    try discriminate; intros [= <-]; lia.
Qed.

(** A store that does not raise writes one cell of the grid, and a load of
    the same indices reads that cell. *)
Lemma store_cases W H w y x v :
  wf_grid W H (w_maze w) →
  (∃ e, (store y x v w).1 = Raise e ∧ (store y x v w).2 = w)
  ∨ ∃ c, inside W H c
         ∧ load y x w = (Ret (cell_at (w_maze w) c), w)
         ∧ store y x v w
           = (Ret tt, World (upd (w_maze w) c.1 c.2 v) (w_rng w) (w_clock w)).
Proof.
  intros [Hlen Hrows]. unfold store, load, py_get, py_set.
  destruct (py_index (length (w_maze w)) y) as [ky |] eqn:Hky; [| left; eauto].
  pose proof (py_index_lt _ _ _ Hky) as Hlt.
  destruct (lookup_lt_is_Some_2 (w_maze w) ky Hlt) as [row Hrow].
  rewrite Hrow.
  destruct (py_index (length row) x) as [kx |] eqn:Hkx; [| left; eauto].
  pose proof (py_index_lt _ _ _ Hkx) as Hltx.
  destruct (lookup_lt_is_Some_2 row kx Hltx) as [v0 Hv0].
  rewrite Hv0. right. exists (Z.of_nat kx, Z.of_nat ky).
  assert (Hrl : Z.of_nat (length row) = W).
  { rewrite Forall_forall in Hrows. apply Hrows.
    by eapply list_elem_of_lookup_2. }
  split; [unfold inside; simpl; lia |]. split.
  - unfold cell_at, cell. simpl. rewrite !Nat2Z.id, Hrow. simpl.
    by rewrite Hv0.
  - unfold upd. simpl. rewrite !Nat2Z.id. do 3 f_equal.
    apply list_eq. intros k. destruct (decide (k = ky)) as [-> | Hk].
    + rewrite list_lookup_insert_eq by done.
      rewrite list_lookup_alter_eq, Hrow. reflexivity.
    + rewrite list_lookup_insert_ne by done.
      by rewrite list_lookup_alter_ne.
Qed.

(** ** The depth stamps leave the low byte alone *)

Lemma land_stamp m i :
  Z.land (Z.lor (Z.land m 0xff) (Z.shiftl i 8)) 0xff = Z.land m 0xff.
Proof.
  apply Z.bits_inj'. intros n Hn.
  rewrite !Z.land_spec, Z.lor_spec, Z.land_spec.
  destruct (Z.ltb_spec n 8).
  - rewrite Z.shiftl_spec_low by lia. rewrite orb_false_r.
    by rewrite <- andb_assoc, andb_diag.
  - change 255 with (Z.ones 8). rewrite Z.ones_spec_high by lia.
    by rewrite !andb_false_r.
Qed.

Lemma same_low_byte_refl W H g : wf_grid W H g → same_low_byte W H g g.
Proof. by split. Qed.

(** A loop whose body keeps an invariant on the elements of the list. *)
Lemma preserves_for_each_in I {A} (l : list A) (body : A → M unit) :
  (∀ a, a ∈ l → preserves I (body a)) → preserves I (for_each l body).
Proof.
  induction l as [| a l IH]; intros Hb; simpl.
  - apply preserves_ret.
  - apply preserves_bind; [apply Hb; by left |].
    intros _. apply IH. intros b Hin. apply Hb. by right.
Qed.

Lemma preserves_time_monotonic (I : grid → Prop) :
  preserves (λ w, I (w_maze w)) time_monotonic.
Proof. by intros w. Qed.

Lemma stamp_nonneg m i : 0 ≤ i → 0 ≤ Z.lor (Z.land m 0xff) (Z.shiftl i 8).
Proof.
  intros Hi. apply Z.lor_nonneg. split.
  - apply Z.land_nonneg. by right.
  - by apply Z.shiftl_nonneg.
Qed.

Lemma preserves_stamp W H g0 y x i :
  0 ≤ i →
  preserves (λ w, same_low_byte W H g0 (w_maze w)) (stamp y x i).
Proof.
  intros Hi w [Hwf Hlow]. unfold stamp, bind.
  destruct (load y x w) as [[m | e' |] w1] eqn:Hl;
    (assert (w1 = w) as -> by (pose proof (read_only_load y x w) as Hr;
                                by rewrite Hl in Hr)); [| done | done].
  destruct (store_cases W H w y x (Z.lor (Z.land m 255) (Z.shiftl i 8)) Hwf)
    as [(e1 & _ & Hs) | (c & Hc & Hload & Hstore)].
  - simpl. destruct (store y x _ w) as [[[] | ? |] w2];
      simpl in Hs; subst w2; done.
  - rewrite Hl in Hload. inversion Hload; subst m. rewrite Hstore. simpl.
    split; [by apply wf_grid_upd |]. intros e0 He0.
    rewrite (cell_at_upd W H) by done. case_bool_decide as Heq.
    + subst e0. rewrite land_stamp. split; [by apply Hlow |].
      intros _. by apply stamp_nonneg.
    + by apply Hlow.
Qed.

(** ** [clear_tmp_data] *)

(** A loop over [range(a, b)] with an invariant that follows the index. *)
Lemma returns_for_range (I : Z → world → Prop) a b (body : Z → M unit) w :
  a ≤ b → I a w →
  (∀ i w, a ≤ i < b → I i w → returns (body i) w (λ _ w', I (i + 1) w')) →
  returns (for_each (range a b) body) w (λ _ w', I b w').
Proof.
  intros Hab. unfold range.
  remember (Z.to_nat (b - a)) as n eqn:Hn. revert a w Hab Hn.
  induction n as [| n IH]; intros a w Hab Hn HI Hbody.
  - assert (b = a) as -> by lia. rewrite Z.sub_diag. simpl.
    by apply returns_ret.
  - rewrite seqZ_cons by lia. simpl. apply returns_bind.
    eapply returns_mono; [apply Hbody; [lia | done] |].
    intros ? w1 HI1. simpl.
    replace (Z.pred (b - a)) with (b - Z.succ a) by lia.
    apply IH; [lia | lia | by replace (Z.succ a) with (a + 1) by lia |].
    intros i w2 Hi. apply Hbody. lia.
Qed.

Lemma cleared_spec v :
  cleared v ≤ 0xf ∧ Z.land (cleared v) 0xf = Z.land v 0xf.
Proof.
  unfold cleared. destruct (Z.gtb_spec v 15).
  - split.
    + pose proof (Z.land_ones v 4 ltac:(lia)) as Hl.
      change (Z.ones 4) with 15 in Hl. rewrite Hl.
      pose proof (Z.mod_pos_bound v (2 ^ 4)). lia.
    + by rewrite <- Z.land_assoc, Z.land_diag.
  - split; [lia | done].
Qed.

(** On a grid of [H] rows of [W] cells, [clear_tmp_data] returns the grid
    it leaves, in which every cell holds the cleared value of what it
    held. *)
Lemma clear_tmp_data_spec W H w :
  wf_grid W H (w_maze w) →
  returns clear_tmp_data w
    (λ g' w',
       g' = w_maze w' ∧ wf_grid W H g'
       ∧ ∀ e, inside W H e → cell_at g' e = cleared (cell_at (w_maze w) e)).
Proof.
  intros Hwf. set (g0 := w_maze w).
  unfold clear_tmp_data. apply returns_bind.
  eapply returns_len_maze; [done |].
  assert (HH : 0 ≤ H) by (destruct Hwf; lia).
  assert (HW : 0 < H → 0 ≤ W).
  { intros Hpos. destruct (wf_grid_row W H g0 0 Hwf) as (r & _ & Hr); lia. }
  apply returns_bind.
  eapply returns_mono.
  { apply (returns_for_range
      (λ y w', wf_grid W H (w_maze w')
               ∧ ∀ e, inside W H e →
                   cell_at (w_maze w') e
                   = if e.2 <? y then cleared (cell_at g0 e)
                     else cell_at g0 e)); [done | |].
    { split; [done |]. intros e [_ He].
      by replace (e.2 <? 0) with false by (symmetry; apply Z.ltb_ge; lia). }
    intros y w1 Hy [Hwf1 Hc1]. apply returns_bind.
    eapply returns_len_row0; [done | lia |].
    eapply returns_mono.
    { apply (returns_for_range
        (λ x w', wf_grid W H (w_maze w')
                 ∧ ∀ e, inside W H e →
                     cell_at (w_maze w') e
                     = if (e.2 <? y) || ((e.2 =? y) && (e.1 <? x))
                       then cleared (cell_at g0 e) else cell_at g0 e));
        [lia | |].
      { split; [done |]. intros e He. rewrite Hc1 by done.
        destruct He as [He _].
        replace (e.1 <? 0) with false by (symmetry; apply Z.ltb_ge; lia).
        by rewrite andb_false_r, orb_false_r. }
      intros x w2 Hx [Hwf2 Hc2]. apply returns_bind.
      eapply returns_load; [done ..|].
      assert (Hcur : cell (w_maze w2) x y = cell_at g0 (x, y)).
      { change (cell (w_maze w2) x y) with (cell_at (w_maze w2) (x, y)).
        rewrite Hc2 by (unfold inside; simpl; lia). simpl.
        replace (y <? y) with false by (symmetry; apply Z.ltb_ge; lia).
        replace (x <? x) with false by (symmetry; apply Z.ltb_ge; lia).
        by rewrite andb_false_r. }
      assert (Hnew : ∀ g2, wf_grid W H g2 →
        (∀ e, inside W H e →
           cell_at g2 e = if bool_decide (e = (x, y))
                          then cleared (cell_at g0 (x, y))
                          else cell_at (w_maze w2) e) →
        ∀ e, inside W H e →
          cell_at g2 e
          = if (e.2 <? y) || ((e.2 =? y) && (e.1 <? x + 1))
            then cleared (cell_at g0 e) else cell_at g0 e).
      { intros g2 Hwfg2 Hg2 e He. rewrite Hg2 by done.
        case_bool_decide as Heq.
        - subst e. simpl.
          replace (y =? y) with true by (symmetry; apply Z.eqb_eq; lia).
          replace (x <? x + 1) with true by (symmetry; apply Z.ltb_lt; lia).
          by rewrite orb_true_r.
        - rewrite Hc2 by done. destruct e as [ex ey]. simpl.
          destruct (Z.ltb_spec ey y); [done |]. simpl.
          destruct (Z.eqb_spec ey y); [| done]. simpl. subst ey.
          destruct (Z.ltb_spec ex x), (Z.ltb_spec ex (x + 1)); try done; try lia.
          exfalso. apply Heq. f_equal. lia. }
      rewrite Hcur. unfold cleared at 1.
      destruct (Z.gtb_spec (cell_at g0 (x, y)) 15) as [Hgt | Hle].
      - eapply returns_store; [done ..|]. simpl.
        split; [by apply wf_grid_upd |].
        apply Hnew; [by apply wf_grid_upd |]. intros e He.
        rewrite (cell_at_upd W H (w_maze w2) (x, y)) by
          (done || (unfold inside; simpl; lia)).
        case_bool_decide; [| done]. unfold cleared.
        by destruct (Z.gtb_spec (cell_at g0 (x, y)) 15); [| lia].
      - apply returns_ret. split; [done |].
        apply Hnew; [done |]. intros e He.
        case_bool_decide as Heq; [| done]. subst e.
        change (cell_at (w_maze w2) (x, y)) with (cell (w_maze w2) x y).
        rewrite Hcur. unfold cleared.
        by destruct (Z.gtb_spec (cell_at g0 (x, y)) 15); [lia |]. }
    intros ? w2 [Hwf2 Hc2]. simpl. split; [done |].
    intros e He. rewrite Hc2 by done. destruct He as [[_ He1] _].
    replace (e.1 <? W) with true by (symmetry; apply Z.ltb_lt; lia).
    rewrite andb_true_r.
    destruct (Z.ltb_spec e.2 y), (Z.eqb_spec e.2 y), (Z.ltb_spec e.2 (y + 1));
      try done; lia. }
  intros ? w1 [Hwf1 Hc1]. simpl. apply returns_get_maze.
  split; [done |]. split; [done |]. intros e He. rewrite Hc1 by done.
  destruct He as [_ [_ He2]].
  by replace (e.2 <? H) with true by (symmetry; apply Z.ltb_lt; lia).
Qed.

(** ** [generate] returns *)

Lemma wf_grid_p_42 : wf_grid 7 5 p_42.
Proof. split; [reflexivity | repeat constructor]. Qed.

(** On a grid of [H] rows of [W] cells [place_42] returns and keeps the
    shape of the grid. *)
Lemma place_42_spec W H w in_ out_ :
  wf_grid W H (w_maze w) →
  returns (place_42 in_ out_) w (λ _ w', wf_grid W H (w_maze w')).
Proof.
  intros Hwf. unfold place_42.
  apply returns_bind. eapply returns_len_maze; [done |].
  change (Z.of_nat (length p_42)) with 5.
  destruct (Z.gtb_spec 5 H) as [Hlt | HH]; [by apply returns_ret |].
  apply returns_bind. cbn [Z.gtb Z.compare].
  change (py_get p_42 0) with (Some [15; 0; 0; 0; 15; 15; 15]).
  apply returns_ret. cbn [length Z.of_nat]. 
  change (Z.of_nat 7) with 7.
  apply returns_bind. eapply returns_len_row0; [done | lia |].
  destruct (Z.gtb_spec 7 W) as [Hlt | HW]; [by apply returns_ret |].
  destruct (negb _); [by apply returns_ret |].
  apply returns_bind.
  assert (Hpx : 0 ≤ Z.quot (W - 7) 2 ∧ Z.quot (W - 7) 2 + 7 ≤ W).
  { rewrite Z.quot_div_nonneg by lia.
    pose proof (Z.div_mod (W - 7) 2 ltac:(lia)).
    pose proof (Z.mod_pos_bound (W - 7) 2 ltac:(lia)). lia. }
  assert (Hpy : 0 ≤ Z.quot (H - 5) 2 ∧ Z.quot (H - 5) 2 + 5 ≤ H).
  { rewrite Z.quot_div_nonneg by lia.
    pose proof (Z.div_mod (H - 5) 2 ltac:(lia)).
    pose proof (Z.mod_pos_bound (H - 5) 2 ltac:(lia)). lia. }
  eapply returns_mono.
  { apply (returns_for_each (λ w', wf_grid W H (w_maze w'))
             (λ y, 0 ≤ y < 5)); [apply range_bounds | done |].
    intros y w1 Hy Hwf1.
    apply (returns_for_each (λ w', wf_grid W H (w_maze w'))
             (λ x, 0 ≤ x < 7)); [apply range_bounds | done |].
    intros x w2 Hx Hwf2.
    destruct (wf_grid_cell 7 5 p_42 x y wf_grid_p_42 Hx Hy) as (r & Hr & Hv).
    rewrite py_get_inside by (simpl; lia). rewrite Hr.
    rewrite py_get_inside.
    2:{ destruct (wf_grid_row 7 5 p_42 y wf_grid_p_42 Hy) as (r' & Hr' & Hl).
        assert (r' = r) by congruence. subst r'. lia. }
    rewrite Hv. destruct (_ =? 15); [| by apply returns_ret].
    eapply returns_store; [done | lia | lia |]. simpl.
    by apply wf_grid_upd. }
  intros ? w1 Hwf1. simpl. by apply returns_ret.
Qed.

Lemma carve_steps_visited W H s s' :
  rtc (carve_step W H) s s' →
  wf_grid W H s.1 → frames_ok W H s.2 →
  ∀ e, inside W H e → Z.testbit (cell_at s.1 e) 4 = true →
       Z.testbit (cell_at s'.1 e) 4 = true.
Proof.
  induction 1 as [s | [g m] [g1 m1] s3 Hstep _ IH]; [done |].
  intros Hwf Hfr e He Hb. cbn [fst snd] in *.
  destruct (carve_step_measure _ _ _ _ _ _ Hstep Hwf Hfr) as (Hwf1 & Hfr1 & _).
  apply IH; try done.
  inversion Hstep as [? m0 c q Hnone | ? m0 c q d q' Hq Ha Hq' Hbits]; subst;
    [done |].
  apply frames_ok_app in Hfr as [_ Htop].
  apply Forall_singleton in Htop as [Hc _]. cbn [fst snd] in Hc.
  rewrite (visited_carve W H) by (done || by eapply avail_inside).
  by rewrite Hb.
Qed.

(** For a record that satisfies the invariant of the data model, with fuel
    above twice the number of cells plus one, [generate] returns a grid of
    the size asked, and the exit cell carries the visited flag. *)
Lemma generate_total seed_tape fuel mzParam w :
  valid_params mzParam →
  2 * (width mzParam * height mzParam) + 1 < Z.of_nat fuel →
  returns (generate seed_tape fuel mzParam) w
    (λ g w',
       g = w_maze w'
       ∧ wf_grid (width mzParam) (height mzParam) g
       ∧ Z.testbit (cell_at g (exit mzParam)) 4 = true).
Proof.
  intros Hp Hfuel. pose proof Hp as (HW & HH & Hne & Hen & Hex).
  set (W := width mzParam) in *. set (H := height mzParam) in *.
  pose (I := λ w' : world, wf_grid W H (w_maze w')).
  unfold generate.
  apply returns_bind, returns_set_maze.
  apply returns_bind. destruct Hen as [Hex1 Hey1]. pose proof Hex as [Hox Hoy].
  eapply returns_store;
    [simpl; apply wf_grid_replicate; lia | done ..|].
  apply returns_bind.
  eapply returns_store;
    [simpl; apply wf_grid_upd, wf_grid_replicate; lia | done ..|].
  cbn [w_maze w_rng w_clock].
  apply returns_bind.
  apply returns_mono with (Q := λ _ w', I w').
  { destruct (insert_42 mzParam).
    - apply returns_bind. eapply returns_mono.
      { apply (place_42_spec W H). simpl.
        do 2 apply wf_grid_upd. apply wf_grid_replicate; lia. }
      intros ? w1 Hw1. simpl. by apply returns_ret.
    - apply returns_ret. unfold I. simpl.
      do 2 apply wf_grid_upd. apply wf_grid_replicate; lia. }
  intros ? w1 Hwf1. simpl. apply returns_bind.
  apply returns_mono with (Q := λ _ w', I w').
  { destruct (seed mzParam); [by apply returns_random_seed | by apply returns_ret]. }
  intros ? w2 Hwf2. simpl. unfold I in Hwf2.
  apply returns_bind. eapply returns_mono.
  { by apply gen_DFS_spec. }
  intros g3 w3 (-> & Hwf3 & Hrtc & _). simpl.
  assert (Hvis : Z.testbit (cell_at (w_maze w3) (exit mzParam)) 4 = true).
  { apply (carve_steps_visited _ _ _ _ Hrtc); cbn [fst snd].
    - by apply wf_grid_upd.
    - apply Forall_singleton. split; [done | simpl; lia].
    - done.
    - rewrite (cell_at_upd_eq W H) by done.
      rewrite Z.lor_spec. apply orb_true_r. }
  apply returns_bind.
  destruct (perfect mzParam); cbn [negb].
  - apply returns_ret. by apply returns_get_maze.
  - apply returns_bind.
    eapply returns_mono; [by apply do_not_prefect_removals |].
    intros g4 w4 (-> & Hwf4 & Hrtc4). cbn beta.
    destruct (wall_removals_safe _ _ _ _ Hwf3 Hrtc4) as (_ & _ & Hlow & _).
    apply returns_ret. apply returns_get_maze.
    split; [done |]. split; [done |].
    change (Z.testbit (cell_at (w_maze w4) (exit mzParam)) 4 = true).
    by rewrite Hlow by (done || lia).
Qed.

(** ** What [find_path_DFS] does to the grid *)

Ltac read_only_step :=
  first [ apply read_only_ret | apply read_only_raise
        | apply read_only_load | apply read_only_if
        | apply read_only_bind; [| intros ?] ].

Lemma read_only_dfs_open_dirs mzParam c x y q :
  read_only (dfs_open_dirs mzParam c x y q).
Proof.
  unfold dfs_open_dirs, dfs_open_north, dfs_open_east, dfs_open_south,
    dfs_open_west.
  repeat read_only_step.
Qed.

Section Stamps.

Variables (W H : Z) (g0 : grid).

Let I : world → Prop := λ w, same_low_byte W H g0 (w_maze w).

Ltac preserves_with tac :=
  repeat first
    [ tac
    | apply preserves_ret | apply preserves_raise
    | apply preserves_out_of_fuel
    | apply (preserves_time_monotonic (same_low_byte W H g0))
    | apply preserves_read_only, read_only_load
    | apply preserves_read_only, read_only_dfs_open_dirs
    | apply preserves_if
    | apply preserves_bind; [| intros ?] ].

Lemma preserves_dfs_stamp_block c best i x y q :
  preserves I (dfs_stamp_block c best i x y q).
Proof.
  unfold dfs_stamp_block.
  destruct (Z.gtb_spec i 0) as [Hi |]; [| apply preserves_ret].
  preserves_with ltac:(first
    [ apply preserves_stamp; [lia]
    | apply preserves_for_each_in; intros j Hj ]).
  pose proof (range_bounds (i + 1) (len (c.*1 ++
    drop (Z.to_nat (check_point_in_path best x y)) best))) as Hr.
  rewrite Forall_forall in Hr. apply Hr in Hj.
  destruct (py_get _ j) as [[bx by_] |]; [| apply preserves_raise].
  apply preserves_stamp. lia.
Qed.

Lemma preserves_find_path_DFS_body mzParam st :
  preserves I (find_path_DFS_body mzParam st).
Proof.
  unfold find_path_DFS_body. destruct (exit mzParam) as [out_x out_y].
  destruct (c_path st !! _) as [[[x y] q] |]; [| apply preserves_raise].
  preserves_with ltac:(apply preserves_dfs_stamp_block).
  destruct a as [best |];
    preserves_with ltac:(apply preserves_dfs_stamp_block).
  destruct (dfs_choose _ _ _ _ _) as [[keep n] |]; apply preserves_ret.
Qed.

Lemma preserves_find_path_DFS_loop fuel mzParam st :
  preserves I (find_path_DFS_loop fuel mzParam st).
Proof.
  revert st. induction fuel as [| fuel IH]; intros st; simpl.
  - apply preserves_out_of_fuel.
  - preserves_with ltac:(first
      [ apply preserves_find_path_DFS_body | apply IH ]).
Qed.

Lemma preserves_find_path_DFS fuel mzParam best :
  preserves I (find_path_DFS fuel mzParam best).
Proof.
  unfold find_path_DFS. destruct (entry mzParam) as [x y].
  preserves_with ltac:(apply preserves_find_path_DFS_loop).
Qed.

End Stamps.

(** With the stamps taken away by [clear_tmp_data], a grid whose cells were
    between 0 and 0xF is the grid it was. *)
Lemma cleared_same_low_byte v v' :
  0 ≤ v ≤ 0xf → Z.land v' 0xff = Z.land v 0xff → 0 ≤ v' → cleared v' = v.
Proof.
  intros Hv Hlow Hpos.
  assert (Hv4 : Z.land v 0xf = v).
  { change 15 with (Z.ones 4). rewrite Z.land_ones by lia.
    apply Z.mod_small. lia. }
  assert (Hl4 : Z.land v' 0xf = v).
  { rewrite <- Hv4.
    change 15 with (Z.land 0xff 0xf). by rewrite !Z.land_assoc, Hlow. }
  unfold cleared. destruct (Z.gtb_spec v' 15) as [Hgt | Hle]; [done |].
  rewrite <- Hl4. change 15 with (Z.ones 4). rewrite Z.land_ones by lia.
  symmetry. apply Z.mod_small. lia.
Qed.

(** ** C6: the transient bits *)

(** C6 (amended): neither [generate] nor [find_path_DFS] clears its
    transient bits; [clear_tmp_data] does.  For a record that satisfies the
    invariant of the data model, [generate] returns a grid in which the
    exit cell carries the visited flag 0x10, and [clear_tmp_data] then
    returns a grid whose cells are at most 0xF, with the low four bits of
    each cell kept.  On a grid of the size of the record, however
    [find_path_DFS] ends it leaves the low eight bits of every cell as
    they were (the walls and markers are kept, the dead-end bit 0x20 is
    never set) and makes no cell negative; when the cells were between 0
    and 0xF, [clear_tmp_data] then returns the grid as it was before the
    search. *)
Theorem C6_transient_bits seed_tape fuel fuel' mzParam best w :
  valid_params mzParam →
  2 * (width mzParam * height mzParam) + 1 < Z.of_nat fuel →
  wf_grid (width mzParam) (height mzParam) (w_maze w) →
  let W := width mzParam in
  let H := height mzParam in
  returns (generate seed_tape fuel mzParam) w
    (λ g w1,
       g = w_maze w1
       ∧ Z.testbit (cell_at g (exit mzParam)) 4 = true
       ∧ returns clear_tmp_data w1
           (λ g' w2,
              g' = w_maze w2 ∧ wf_grid W H g'
              ∧ ∀ e, inside W H e →
                  cell_at g' e ≤ 0xf
                  ∧ Z.land (cell_at g' e) 0xf = Z.land (cell_at g e) 0xf))
  ∧ let w1 := (find_path_DFS fuel' mzParam best w).2 in
    same_low_byte W H (w_maze w) (w_maze w1)
    ∧ ((∀ e, inside W H e → 0 ≤ cell_at (w_maze w) e ≤ 0xf) →
       returns clear_tmp_data w1
         (λ g' w2,
            g' = w_maze w2 ∧ wf_grid W H g'
            ∧ ∀ e, inside W H e → cell_at g' e = cell_at (w_maze w) e)).
Proof.
  intros Hp Hfuel Hwf W H. split.
  - eapply returns_mono; [by apply generate_total |].
    intros g w1 (-> & Hwf1 & Hvis). split; [done |]. split; [done |].
    eapply returns_mono; [by apply (clear_tmp_data_spec W H) |].
    intros g' w2 (-> & Hwf2 & Hcells). split; [done |]. split; [done |].
    intros e He. rewrite Hcells by done. apply cleared_spec.
  - intros w1.
    assert (Hlow : same_low_byte W H (w_maze w) (w_maze w1)).
    { apply (preserves_find_path_DFS W H (w_maze w)).
      by apply same_low_byte_refl. }
    split; [done |]. intros Hnib. destruct Hlow as [Hwf1 Hlow].
    eapply returns_mono; [by apply (clear_tmp_data_spec W H) |].
    intros g' w2 (-> & Hwf2 & Hcells). split; [done |]. split; [done |].
    intros e He. rewrite Hcells by done.
    destruct (Hlow e He) as [Hbyte Hpos].
    apply cleared_same_low_byte; [by apply Hnib | done |].
    apply Hpos. by apply Hnib.
Qed.

Lemma C6_transient_bits_witness :
  let p := MkParams 3 1 (0, 0) (2, 0) "maze.txt" true (Some 1) false 25 4 0 in
  let w := World [[5; 1; 11]] (Rng (λ n, N.of_nat n) 0)
             (Clock (λ _, 0%Q) 0) in
  returns (generate example_seed_tape 20 p) w
    (λ g w1,
       g = w_maze w1
       ∧ Z.testbit (cell_at g (exit p)) 4 = true
       ∧ returns clear_tmp_data w1
           (λ g' w2,
              g' = w_maze w2 ∧ wf_grid 3 1 g'
              ∧ ∀ e, inside 3 1 e →
                  cell_at g' e ≤ 0xf
                  ∧ Z.land (cell_at g' e) 0xf = Z.land (cell_at g e) 0xf))
  ∧ let w1 := (find_path_DFS 20 p [] w).2 in
    same_low_byte 3 1 (w_maze w) (w_maze w1)
    ∧ ((∀ e, inside 3 1 e → 0 ≤ cell_at (w_maze w) e ≤ 0xf) →
       returns clear_tmp_data w1
         (λ g' w2,
            g' = w_maze w2 ∧ wf_grid 3 1 g'
            ∧ ∀ e, inside 3 1 e → cell_at g' e = cell_at (w_maze w) e)).
Proof.
  intros p w. apply (C6_transient_bits example_seed_tape 20 20 p [] w).
  - unfold valid_params, inside. simpl. repeat split; (lia || discriminate).
  - simpl. lia.
  - split; [reflexivity | repeat constructor].
Defined.

(** C6, as stated, fails.  In a grid of one row of three cells, all at most
    0xF, [generate] returns a grid whose three cells carry the visited flag
    0x10, and [find_path_DFS] returns the path and leaves the depth stamp 1
    in bits 8 and above of the middle cell. *)
Lemma C6_counterexample :
  let p := MkParams 3 1 (0, 0) (2, 0) "maze.txt" true (Some 1) false 25 4 0 in
  let w := World [[5; 1; 11]] (Rng (λ n, N.of_nat n) 0)
             (Clock (λ _, 0%Q) 0) in
  valid_params p
  ∧ Forall (Forall (λ v, 0 ≤ v ≤ 0xf)) (w_maze w)
  ∧ (∃ w1, generate example_seed_tape 20 p w = (Ret [[21; 17; 27]], w1)
           ∧ w_maze w1 = [[21; 17; 27]]
           ∧ Z.land 27 0x10 = 0x10)
  ∧ (∃ w1, find_path_DFS 20 p [] w = (Ret [(0, 0); (1, 0); (2, 0)], w1)
           ∧ w_maze w1 = [[5; 257; 11]]
           ∧ Z.shiftr 257 8 = 1).
Proof.
  intros p w. split.
  { unfold valid_params, inside. simpl. repeat split; (lia || discriminate). }
  split.
  { repeat constructor; simpl; lia. }
  split; eexists; (split; [vm_compute; reflexivity |]); split; reflexivity.
Qed.

(** ** Paths of the grid *)

Section Walks.

Context {A : Type}.
Implicit Types (R : A → A → Prop) (l : list A).

Lemma chain_app_l R l1 l2 : chain R (l1 ++ l2) → chain R l1.
Proof.
  induction l1 as [| a [| b l1] IH]; [done | done |].
  intros [Hab Hch]. split; [done | by apply IH].
Qed.

Lemma chain_join R l a l' :
  chain R (l ++ [a]) → chain R (a :: l') → chain R (l ++ a :: l').
Proof.
  induction l as [| x [| y l] IH]; intros Hl Hl'.
  - done.
  - destruct Hl as [Hxa _]. by split.
  - destruct Hl as [Hxy Hl]. split; [done | by apply IH].
Qed.

Lemma chain_reverse_flip R l : chain (flip R) l → chain R (reverse l).
Proof.
  induction l as [| a l IH]; [done |]. intros Hch.
  rewrite reverse_cons. destruct l as [| b l]; [done |].
  destruct Hch as [Hab Hch]. specialize (IH Hch).
  rewrite reverse_cons in *. rewrite <- app_assoc. simpl.
  by apply chain_snoc.
Qed.

(** The last element of a list, as the loops read it: at the index
    [len(l) - 1]. *)
Lemma lookup_last_inv l (f : A) :
  l !! (length l - 1)%nat = Some f → l = removelast l ++ [f].
Proof.
  intros Hl. destruct l as [| a l] using rev_ind; [done |].
  rewrite lookup_top in Hl. inversion Hl; subst.
  by rewrite removelast_last.
Qed.

End Walks.

Lemma fmap_fst_set_q (c0 : list frame) x y q q' :
  (set_q (c0 ++ [(x, y, q)]) (length (c0 ++ [(x, y, q)]) - 1) x y q').*1
  = c0.*1 ++ [(x, y)].
Proof. rewrite set_q_top. by rewrite fmap_app. Qed.

(** [check_point_in_path] gives a position of the point, counted from 1. *)
Lemma check_point_in_path_spec path x y :
  0 ≤ check_point_in_path path x y
  ∧ (0 < check_point_in_path path x y →
     path !! (Z.to_nat (check_point_in_path path x y) - 1)%nat = Some (x, y)).
Proof.
  induction path as [| [px py] rest IH]; cbn [check_point_in_path];
    [split; [done | lia] |].
  remember (check_point_in_path rest x y) as r eqn:Hr. clear Hr.
  destruct IH as [Hr Hpos].
  destruct (Z.eqb_spec x px) as [-> | Hx], (Z.eqb_spec y py) as [-> | Hy];
    cbn [andb]; [by split | ..];
    (destruct (Z.eqb_spec r 0) as [-> | Hne]; [split; [done | lia] |];
     split; [lia |]; intros _;
     replace (Z.to_nat (r + 1) - 1)%nat with (S (Z.to_nat r - 1)) by lia;
     simpl; apply Hpos; lia).
Qed.

Section Grid.

Variables (W H : Z) (g0 : grid).

Lemma same_low_byte_testbit g e k :
  same_low_byte W H g0 g → inside W H e → 0 ≤ k < 8 →
  Z.testbit (cell_at g e) k = Z.testbit (cell_at g0 e) k.
Proof.
  intros [_ Hlow] He Hk. destruct (Hlow e He) as [Hbyte _].
  assert (Hb : Z.testbit (Z.land (cell_at g e) 0xff) k
               = Z.testbit (Z.land (cell_at g0 e) 0xff) k) by by rewrite Hbyte.
  rewrite !Z.land_spec in Hb. change 255 with (Z.ones 8) in Hb.
  rewrite Z.ones_spec_low in Hb by lia. by rewrite !andb_true_r in Hb.
Qed.

Lemma path_step_neighbor c d :
  inside W H c → inside W H (neighbor c d) → wall_bit g0 c d = false →
  path_step W H g0 c (neighbor c d).
Proof.
  intros Hc Hn Hwall. split.
  - destruct c as [x y], d; unfold step_adjacent; simpl; lia.
  - split; [done |]. split; [done |]. by exists d.
Qed.

Lemma trail_pop a l :
  trail W H g0 a l → trail W H g0 a (removelast l).
Proof.
  intros (Hch & Hin & Hhd).
  destruct l as [| z l] using rev_ind; [done |].
  rewrite removelast_last. split; [by eapply chain_app_l |].
  split; [by apply Forall_app in Hin as [? _] |].
  destruct l as [| b l]; [by left |]. right.
  destruct Hhd as [Hnil | Hhd]; [done | done].
Qed.

Lemma trail_push a l c n :
  trail W H g0 a (l ++ [c]) → path_step W H g0 c n →
  trail W H g0 a (l ++ [c] ++ [n]).
Proof.
  intros (Hch & Hin & Hhd) Hstep. split; [by apply chain_snoc |].
  split.
  - rewrite app_assoc. apply Forall_app. split; [done |].
    apply Forall_singleton. by destruct Hstep as (_ & _ & ? & _).
  - right. destruct Hhd as [Hnil | Hhd]; [by destruct l |].
    by destruct l.
Qed.

(** A walk from [a] that has reached [b] is a path from [a] to [b]. *)
Lemma trail_valid_path a b l :
  trail W H g0 a (l ++ [b]) → valid_path W H g0 a b (l ++ [b]).
Proof.
  intros (Hch & _ & Hhd). split.
  - destruct Hhd as [Hnil | Hhd]; [by destruct l | done].
  - split; [by rewrite last_snoc | done].
Qed.

(** Stitching: a walk from [a] that has reached the cell at position [k]
    of a path from [a] to [b], followed by the rest of that path, is a path
    from [a] to [b]. *)
Lemma stitch_valid_path a b l c best k :
  trail W H g0 a (l ++ [c]) →
  valid_path W H g0 a b best →
  best !! k = Some c →
  valid_path W H g0 a b ((l ++ [c]) ++ drop (S k) best).
Proof.
  intros (Hch & _ & Hhd) (Hbh & Hbl & Hbch) Hk.
  pose proof (take_drop_middle best k c Hk) as Hsplit.
  rewrite <- app_assoc. simpl. split.
  - destruct Hhd as [Hnil | Hhd]; [by destruct l |]. by destruct l.
  - split.
    + rewrite <- Hsplit in Hbl.
      rewrite last_app_cons in Hbl. by rewrite last_app_cons.
    + apply chain_join; [done |]. rewrite <- Hsplit in Hbch.
      by apply chain_app_r in Hbch.
Qed.

End Grid.

(** ** The paths of [find_path_DFS] *)

Lemma ensures_with_inv (I : world → Prop) {A} (m : M A) w
    (Q : A → world → Prop) :
  preserves I m → I w → ensures m w Q →
  ensures m w (λ a w', I w' ∧ Q a w').
Proof.
  intros Hp HI Hm a w' Heq. split; [| by apply Hm].
  specialize (Hp w HI). by rewrite Heq in Hp.
Qed.

Lemma ensures_bind_inv (I : world → Prop) {A B} (m : M A) (k : A → M B) w
    (Q : B → world → Prop) :
  preserves I m → I w → (∀ a w', I w' → ensures (k a) w' Q) →
  ensures (bind m k) w Q.
Proof.
  intros Hp HI Hk. apply ensures_bind.
  eapply ensures_mono; [by apply (preserves_ensures I) |]. intros a w' HI'.
  by apply Hk.
Qed.

Lemma ensures_bind_any {A B} (m : M A) (k : A → M B) w
    (Q : B → world → Prop) :
  (∀ a w', ensures (k a) w' Q) → ensures (bind m k) w Q.
Proof. intros Hk. apply ensures_bind. intros a w' _. apply Hk. Qed.

Lemma ensures_if {A} (b : bool) (m1 m2 : M A) w (Q : A → world → Prop) :
  (b = true → ensures m1 w Q) → (b = false → ensures m2 w Q) →
  ensures (if b then m1 else m2) w Q.
Proof. destruct b; auto. Qed.

Lemma land_mono q m k :
  Z.testbit (Z.land q m) k = true → Z.testbit q k = true.
Proof. rewrite Z.land_spec. by intros [? _]%andb_true_iff. Qed.

Lemma land_clears q m k :
  Z.testbit m k = false → Z.testbit (Z.land q m) k = true → False.
Proof. rewrite Z.land_spec. intros ->. by rewrite andb_false_r. Qed.

Lemma filtered_land q k P w m :
  Z.testbit m k = false → filtered q k P w (Z.land q m) w.
Proof.
  intros Hm. split; [done |]. split; [intros j; apply land_mono |].
  intros Hb. by destruct (land_clears q m k).
Qed.

Lemma filtered_keep q k (P : Prop) w :
  (Z.testbit q k = true → P) → filtered q k P w q w.
Proof. by intros HP. Qed.

Section Finder.

Variables (mzParam : CMazeParams) (g0 : grid).

Let W := width mzParam.
Let H := height mzParam.

Section Blocks.

Variables (w : world) (c : list frame) (x y q : Z).
Hypothesis Hwf : wf_grid W H (w_maze w).
Hypothesis Hin : inside W H (x, y).

Lemma dfs_open_north_spec :
  ensures (dfs_open_north c x y q) w
    (filtered q 0
       (inside W H (x, y - 1)
        ∧ Z.testbit (cell_at (w_maze w) (x, y)) 0 = false) w).
Proof.
  destruct Hin as [Hx Hy]. simpl in Hx, Hy. unfold dfs_open_north.
  destruct (Z.eqb_spec y 0) as [-> | Hy0];
    [by apply ensures_ret, filtered_land |].
  apply ensures_bind. eapply ensures_load; [done | lia | lia |].
  destruct (_ =? 0xc); [by apply ensures_ret, filtered_land |].
  apply ensures_bind. eapply ensures_load; [done | lia | lia |].
  destruct (_ || _) eqn:Hc; [by apply ensures_ret, filtered_land |].
  apply ensures_ret, filtered_keep. intros _.
  apply orb_false_iff in Hc as [Hc _]. apply orb_false_iff in Hc as [Hc _].
  rewrite truthy_1 in Hc. split; [unfold inside; simpl; lia | done].
Qed.

Lemma dfs_open_east_spec :
  ensures (dfs_open_east mzParam c x y q) w
    (filtered q 1
       (inside W H (x + 1, y)
        ∧ Z.testbit (cell_at (w_maze w) (x, y)) 1 = false) w).
Proof.
  destruct Hin as [Hx Hy]. simpl in Hx, Hy. unfold dfs_open_east.
  fold W. destruct (Z.eqb_spec x (W - 1)) as [-> | Hx0];
    [by apply ensures_ret, filtered_land |].
  apply ensures_bind. eapply ensures_load; [done | lia | lia |].
  destruct (_ =? 0xc); [by apply ensures_ret, filtered_land |].
  apply ensures_bind. eapply ensures_load; [done | lia | lia |].
  destruct (_ || _) eqn:Hc; [by apply ensures_ret, filtered_land |].
  apply ensures_ret, filtered_keep. intros _.
  apply orb_false_iff in Hc as [Hc _]. apply orb_false_iff in Hc as [Hc _].
  rewrite truthy_2 in Hc. split; [unfold inside; simpl; lia | done].
Qed.

Lemma dfs_open_south_spec :
  ensures (dfs_open_south mzParam c x y q) w
    (filtered q 2
       (inside W H (x, y + 1)
        ∧ Z.testbit (cell_at (w_maze w) (x, y + 1)) 0 = false) w).
Proof.
  destruct Hin as [Hx Hy]. simpl in Hx, Hy. unfold dfs_open_south.
  fold H. rewrite truthy_4. destruct (Z.testbit q 2) eqn:Hq;
    [| apply ensures_ret, filtered_keep; congruence].
  destruct (Z.eqb_spec y (H - 1)) as [-> | Hy0];
    [by apply ensures_ret, filtered_land |].
  apply ensures_bind. eapply ensures_load; [done | lia | lia |].
  destruct (_ || _) eqn:Hc; [by apply ensures_ret, filtered_land |].
  apply ensures_ret, filtered_keep. intros _.
  apply orb_false_iff in Hc as [Hc _]. apply orb_false_iff in Hc as [_ Hc].
  rewrite truthy_0x21 in Hc. apply orb_false_iff in Hc as [_ Hc].
  split; [unfold inside; simpl; lia | done].
Qed.

Lemma dfs_open_west_spec :
  ensures (dfs_open_west c x y q) w
    (filtered q 3
       (inside W H (x - 1, y)
        ∧ Z.testbit (cell_at (w_maze w) (x - 1, y)) 1 = false) w).
Proof.
  destruct Hin as [Hx Hy]. simpl in Hx, Hy. unfold dfs_open_west.
  rewrite truthy_8. destruct (Z.testbit q 3) eqn:Hq;
    [| apply ensures_ret, filtered_keep; congruence].
  destruct (Z.eqb_spec x 0) as [-> | Hx0];
    [by apply ensures_ret, filtered_land |].
  apply ensures_bind. eapply ensures_load; [done | lia | lia |].
  destruct (_ || _) eqn:Hc; [by apply ensures_ret, filtered_land |].
  apply ensures_ret, filtered_keep. intros _.
  apply orb_false_iff in Hc as [Hc _]. apply orb_false_iff in Hc as [_ Hc].
  rewrite truthy_0x22 in Hc. apply orb_false_iff in Hc as [_ Hc].
  split; [unfold inside; simpl; lia | done].
Qed.

End Blocks.

(** Every direction that [dfs_open_dirs] leaves in the mask is a step of
    the grid. *)
Lemma dfs_open_dirs_spec w c x y q :
  same_low_byte W H g0 (w_maze w) → inside W H (x, y) →
  ensures (dfs_open_dirs mzParam c x y q) w
    (λ q' w',
       w' = w
       ∧ ∀ d, Z.testbit q' (dir_bit d) = true →
              path_step W H g0 (x, y) (neighbor (x, y) d)).
Proof.
  intros Hlow Hin. pose proof Hlow as [Hwf _]. unfold dfs_open_dirs.
  apply ensures_bind.
  eapply ensures_mono; [by apply dfs_open_north_spec |].
  intros q1 ? (-> & M1 & N1).
  apply ensures_bind.
  eapply ensures_mono; [by apply dfs_open_east_spec |].
  intros q2 ? (-> & M2 & N2).
  apply ensures_bind.
  eapply ensures_mono; [by apply dfs_open_south_spec |].
  intros q3 ? (-> & M3 & N3).
  eapply ensures_mono; [by apply dfs_open_west_spec |].
  intros q4 ? (-> & M4 & N4). split; [done |].
  intros d Hd. apply path_step_neighbor; [done | ..]; destruct d; simpl in Hd.
  - by apply N1, M2, M3, M4.
  - by apply N2, M3, M4.
  - by apply N3, M4.
  - by apply N4.
  - unfold wall_bit. rewrite <- (same_low_byte_testbit W H g0 (w_maze w))
      by (done || lia). by apply N1, M2, M3, M4.
  - unfold wall_bit. rewrite <- (same_low_byte_testbit W H g0 (w_maze w))
      by (done || lia). by apply N2, M3, M4.
  - unfold wall_bit.
    assert (Hn : inside W H (x, y + 1)) by by apply N3, M4.
    rewrite <- (same_low_byte_testbit W H g0 (w_maze w))
      by (done || lia). by apply N3, M4.
  - unfold wall_bit.
    assert (Hn : inside W H (x - 1, y)) by by apply N4.
    rewrite <- (same_low_byte_testbit W H g0 (w_maze w))
      by (done || lia). by apply N4.
Qed.

(** The cell [dfs_choose] steps to lies in a direction of the mask. *)
Lemma dfs_choose_spec x y q out_x out_y keep n :
  dfs_choose x y q out_x out_y = Some (keep, n) →
  ∃ d, n = neighbor (x, y) d ∧ Z.testbit q (dir_bit d) = true.
Proof.
  unfold dfs_choose. rewrite truthy_1, truthy_2, truthy_4, truthy_8.
  destruct (Z.testbit q 0) eqn:H0, (Z.testbit q 1) eqn:H1,
    (Z.testbit q 2) eqn:H2, (Z.testbit q 3) eqn:H3,
    (_ >? Z.abs _), (out_x >? x), (out_x <? x), (out_y >? y), (out_y <? y);
    cbn [andb]; intros [= <- <-]; 
    first [ by exists North | by exists East | by exists South
          | by exists West ].
Qed.

Let I : world → Prop := λ w, same_low_byte W H g0 (w_maze w).

(** The best path that the block under [if (i > 0)] leaves is empty or a
    path from the entry to the exit. *)
Lemma dfs_stamp_block_spec c0 best i x y q w :
  trail W H g0 (entry mzParam) ((c0 ++ [(x, y, q)]).*1) → path_ok W H g0 (entry mzParam) (exit mzParam) best →
  ensures (dfs_stamp_block (c0 ++ [(x, y, q)]) best i x y q) w
    (λ r _, ∀ b, r = Some b → path_ok W H g0 (entry mzParam) (exit mzParam) b).
Proof.
  intros Htr Hbest. unfold dfs_stamp_block.
  assert (Hnone : ∀ w', ensures (ret None) w'
            (λ (r : option (list (Z * Z))) (_ : world),
               ∀ b, r = Some b → path_ok W H g0 (entry mzParam) (exit mzParam) b)).
  { intros w'. by apply ensures_ret. }
  assert (Hsame : ∀ w', ensures (ret (Some best)) w'
            (λ (r : option (list (Z * Z))) (_ : world),
               ∀ b, r = Some b → path_ok W H g0 (entry mzParam) (exit mzParam) b)).
  { intros w'. apply ensures_ret. by intros b [= <-]. }
  destruct (i >? 0); [| done].
  apply ensures_bind_any. intros m w1.
  destruct (_ || _).
  - apply ensures_bind_any. intros ? w2.
    destruct (_ >? 0); [| done].
    destruct (Z.gtb_spec (check_point_in_path best x y) 0) as [Hl |]; [| done].
    apply ensures_bind_any. intros ? w3. apply ensures_ret.
    intros b [= <-]. right.
    destruct (check_point_in_path_spec best x y) as [_ Hk].
    specialize (Hk Hl).
    destruct Hbest as [-> | Hbest]; [done |].
    replace (Z.to_nat (check_point_in_path best x y))
      with (S (Z.to_nat (check_point_in_path best x y) - 1)) by lia.
    rewrite fmap_app in *. simpl in *.
    by apply stitch_valid_path.
  - destruct (_ && _); done.
Qed.

Lemma dfs_ok_pop c0 f best pq t :
  trail W H g0 (entry mzParam) ((c0 ++ [f]).*1) → path_ok W H g0 (entry mzParam) (exit mzParam) best →
  dfs_ok W H g0 mzParam (DfsState (removelast (c0 ++ [f])) best pq t).
Proof.
  intros Htr Hbest. split; [| done]. simpl. rewrite removelast_last.
  apply trail_pop in Htr. rewrite fmap_app in Htr. simpl in Htr.
  by rewrite removelast_last in Htr.
Qed.

(** One iteration of the loop keeps the two paths in order. *)
Lemma find_path_DFS_body_spec st w :
  I w → dfs_ok W H g0 mzParam st →
  ensures (find_path_DFS_body mzParam st) w
    (λ st' _, dfs_ok W H g0 mzParam st').
Proof.
  destruct st as [c best pq t]. intros HI Hok.
  unfold find_path_DFS_body. cbn [c_path best_path paths_q start_time].
  destruct (exit mzParam) as [out_x out_y] eqn:Hexit.
  destruct Hok as [Htr Hbest]. cbn [c_path best_path] in Htr, Hbest.
  destruct (c !! _) as [[[x y] q] |] eqn:Htop; [| apply ensures_raise].
  assert (Hc : ∃ c0, c = c0 ++ [(x, y, q)])
    by (apply lookup_last_inv in Htop; eauto).
  clear Htop. destruct Hc as [c0 ->].
  assert (Hin : inside W H (x, y)).
  { destruct Htr as (_ & Hall & _). rewrite fmap_app in Hall.
    apply Forall_app in Hall as [_ Hall]. simpl in Hall.
    by inversion Hall. }
  destruct (_ && _); [apply ensures_ret; by apply dfs_ok_pop |].
  destruct (Z.eqb_spec x out_x) as [-> | Hx],
    (Z.eqb_spec out_y y) as [<- | Hy]; cbn [andb].
  { apply ensures_bind_any. intros t1 w1. apply ensures_ret.
    apply dfs_ok_pop; [done |].
    destruct (_ || _); [| done]. right. rewrite fmap_app.
    rewrite fmap_app in Htr. rewrite Hexit.
    by apply trail_valid_path. }
  all: apply ensures_bind;
    (eapply ensures_mono;
     [apply (ensures_with_inv I);
      [apply preserves_dfs_stamp_block | done
      | by apply dfs_stamp_block_spec] |]);
    intros left w1 [HI1 Hleft];
    (destruct left as [best' |];
     [apply ensures_ret; apply dfs_ok_pop; [done | by apply Hleft] |]);
    apply ensures_bind;
    (eapply ensures_mono; [by apply dfs_open_dirs_spec |]);
    intros q' ? [-> Hdirs];
    (destruct (q' =? 0); [apply ensures_ret; by apply dfs_ok_pop |]);
    (destruct (dfs_choose _ _ _ _ _) as [[keep n] |] eqn:Hch;
     apply ensures_ret;
     [| split; [| done]; cbn [c_path]; rewrite set_q_top;
        rewrite removelast_last; apply trail_pop in Htr;
        rewrite fmap_app in Htr; simpl in Htr;
        by rewrite removelast_last in Htr]);
    apply dfs_choose_spec in Hch as (d & -> & Hd);
    (split; [| done]); cbn [c_path]; rewrite set_q_top;
    rewrite !fmap_app; rewrite fmap_app in Htr;
    rewrite <- app_assoc; apply trail_push; [done | by apply Hdirs].
Qed.

Lemma find_path_DFS_loop_spec fuel st w :
  I w → dfs_ok W H g0 mzParam st →
  ensures (find_path_DFS_loop fuel mzParam st) w (λ r _, path_ok W H g0 (entry mzParam) (exit mzParam) r).
Proof.
  revert st w. induction fuel as [| fuel IH]; intros st w HI Hok; simpl.
  - apply ensures_out_of_fuel.
  - destruct (_ >? 0); [| apply ensures_ret; by destruct Hok].
    apply (ensures_bind_inv I); [| done |].
    { apply preserves_if; [apply preserves_ret |].
      apply preserves_bind;
        [apply (preserves_time_monotonic (same_low_byte W H g0)) |].
      intros t. apply preserves_ret. }
    intros go w1 HI1. destruct go; [| apply ensures_ret; by destruct Hok].
    apply ensures_bind. eapply ensures_mono.
    { apply (ensures_with_inv I);
        [apply preserves_find_path_DFS_body | done
        | by apply find_path_DFS_body_spec]. }
    intros st' w2 [HI2 Hok2]. by apply IH.
Qed.

Lemma chain_path_step_inside l :
  chain (path_step W H g0) l → (2 ≤ length l)%nat → Forall (inside W H) l.
Proof.
  induction l as [| a [| b l] IH]; simpl; [lia | lia |].
  intros [[_ (Ha & Hb & _)] Hch] _. constructor; [done |].
  destruct l as [| c l]; [by constructor |]. apply IH; [done | simpl; lia].
Qed.

(** A path that [find_path_DFS] returns is empty or a path from the entry
    to the exit, when the path it is given is. *)
Lemma find_path_DFS_spec fuel best w :
  wf_grid W H g0 → w_maze w = g0 → inside W H (entry mzParam) →
  path_ok W H g0 (entry mzParam) (exit mzParam) best →
  ensures (find_path_DFS fuel mzParam best) w
    (λ r _, path_ok W H g0 (entry mzParam) (exit mzParam) r).
Proof.
  intros Hwf Hg Hin Hbest. unfold find_path_DFS.
  destruct (entry mzParam) as [x y] eqn:Hentry. rewrite <- Hentry in *.
  apply (ensures_bind_inv I).
  - apply (preserves_time_monotonic (same_low_byte W H g0)).
  - unfold I. rewrite Hg. by apply same_low_byte_refl.
  - intros t w1 HI1. apply find_path_DFS_loop_spec; [done |].
    split; [| done]. cbn [c_path].
    destruct (Z.gtb_spec (len best) 1) as [Hlen | Hlen].
    + assert (Hid : ((λ i : Z * Z, (i, 15)) <$> best).*1 = best).
      { clear. induction best as [| a l IH]; [done |]. simpl. by f_equal. }
      rewrite Hid.
      destruct Hbest as [-> | (Hh & Hl & Hch)]; [done |].
      split; [done |]. split; [| by right].
      apply chain_path_step_inside; [done |]. unfold len in Hlen. lia.
    + split; [done |]. split; [| by right].
      by apply Forall_singleton.
Qed.

End Finder.

(** ** The paths of [find_path_BFS] *)

Lemma lor_bit_set v m k :
  Z.testbit m k = true → Z.testbit (Z.lor v m) k = true.
Proof. intros Hm. by rewrite Z.lor_spec, Hm, orb_true_r. Qed.

Lemma lor_bit_other v m k :
  Z.testbit m k = false → Z.testbit (Z.lor v m) k = Z.testbit v k.
Proof. intros Hm. by rewrite Z.lor_spec, Hm, orb_false_r. Qed.

Lemma land_bit_keep v m k :
  Z.testbit m k = true → Z.testbit (Z.land v m) k = Z.testbit v k.
Proof. intros Hm. by rewrite Z.land_spec, Hm, andb_true_r. Qed.

Lemma land_bit_drop v m k :
  Z.testbit m k = false → Z.testbit (Z.land v m) k = false.
Proof. intros Hm. by rewrite Z.land_spec, Hm, andb_false_r. Qed.

Ltac bits_in H :=
  repeat first
    [ rewrite lor_bit_set in H by reflexivity
    | rewrite lor_bit_other in H by reflexivity
    | rewrite land_bit_keep in H by reflexivity
    | rewrite land_bit_drop in H by reflexivity ].

Ltac bits_goal :=
  try first
    [ rewrite ?lor_bit_other, ?land_bit_keep, ?land_bit_drop by reflexivity;
      reflexivity
    | rewrite lor_bit_set by reflexivity; discriminate ].

Section Breadth.

Variables (W H : Z) (g : grid).
Hypothesis Hwf : wf_grid W H g.

(** A direction whose bit [bfs_walls] leaves clear is a step of the
    grid. *)
Lemma bfs_walls_spec w x y :
  w_maze w = g → inside W H (x, y) →
  ensures (bfs_walls H W x y) w
    (λ f w',
       w' = w
       ∧ ∀ d, Z.testbit f (dir_bit d) = false →
              path_step W H g (x, y) (neighbor (x, y) d)).
Proof.
  intros Hg Hin. pose proof Hin as [Hx Hy]. simpl in Hx, Hy.
  rewrite <- Hg in Hwf. unfold bfs_walls.
  apply ensures_bind. eapply ensures_load; [done ..|].
  apply ensures_bind.
  apply ensures_mono with
    (Q := λ f1 w', w' = w
       ∧ Z.testbit f1 0 = Z.testbit (cell_at g (x, y)) 0
       ∧ Z.testbit f1 1 = Z.testbit (cell_at g (x, y)) 1
       ∧ Z.testbit f1 2 = false
       ∧ (Z.testbit f1 3 = false →
          x ≠ 0 ∧ Z.testbit (cell_at g (x - 1, y)) 1 = false)).
  { rewrite Hg. fold (cell_at g (x, y)).
    destruct (Z.eqb_spec x 0) as [Hx0 | Hx0].
    - apply ensures_ret. split; [done |]. split_and!; bits_goal.
    - apply ensures_bind. eapply ensures_load; [done | lia | lia |].
      rewrite Hg. fold (cell_at g (x - 1, y)).
      destruct (truthy _) eqn:Ht; apply ensures_ret; (split; [done |]).
      + split_and!; bits_goal.
      + rewrite truthy_2 in Ht. split_and!; bits_goal. by intros _. }
  intros f1 ? (-> & F0 & F1 & F2 & F3).
  apply ensures_bind.
  apply ensures_mono with
    (Q := λ f2 w', w' = w
       ∧ Z.testbit f2 0 = Z.testbit f1 0
       ∧ Z.testbit f2 1 = Z.testbit f1 1
       ∧ Z.testbit f2 3 = Z.testbit f1 3
       ∧ (Z.testbit f2 2 = false →
          y < H - 1 ∧ Z.testbit (cell_at g (x, y + 1)) 0 = false)).
  { destruct (Z.geb_spec y (H - 1)) as [Hy0 | Hy0].
    - apply ensures_ret. split; [done |]. split_and!; bits_goal.
    - apply ensures_bind. eapply ensures_load; [done | lia | lia |].
      rewrite Hg. fold (cell_at g (x, y + 1)).
      destruct (truthy _) eqn:Ht; apply ensures_ret; (split; [done |]).
      + split_and!; bits_goal.
      + rewrite truthy_1 in Ht. split_and!; bits_goal.
        intros _. split; [lia | done]. }
  intros f2 ? (-> & G0 & G1 & G3 & G2).
  apply ensures_ret. split; [done |]. intros d Hd.
  assert (Hd' : match d with
                | North => y ≠ 0 ∧ Z.testbit f2 0 = false
                | East => x < W - 1 ∧ Z.testbit f2 1 = false
                | South => Z.testbit f2 2 = false
                | West => Z.testbit f2 3 = false
                end).
  { destruct d; cbn [dir_bit] in Hd;
      destruct (Z.eqb_spec y 0), (Z.geb_spec x (W - 1));
      bits_in Hd; try discriminate; try done; split; (lia || done). }
  apply path_step_neighbor; [done | ..]; destruct d; unfold inside, wall_bit;
    simpl.
  - lia.
  - lia.
  - apply G2 in Hd'. lia.
  - rewrite G3 in Hd'. apply F3 in Hd'. lia.
  - destruct Hd' as [_ Hb]. by rewrite G0, F0 in Hb.
  - destruct Hd' as [_ Hb]. by rewrite G1, F1 in Hb.
  - by apply G2 in Hd' as [_ ?].
  - rewrite G3 in Hd'. by apply F3 in Hd' as [_ ?].
Qed.

Lemma bfs_push_ok (b in_range : bool) n cur st :
  (b = true → path_step W H g cur n) → bfs_ok W H g st →
  bfs_ok W H g (if b then bfs_push in_range n cur st else st).
Proof.
  intros Hstep Hok. destruct b; [| done]. specialize (Hstep eq_refl).
  destruct st as [[queue visited] parent]. unfold bfs_push.
  destruct (_ && _); [| done]. destruct Hok as [Hq Hp]. simpl in *.
  split; simpl.
  - apply Forall_app. split; [done |]. apply Forall_singleton.
    by destruct Hstep as (_ & _ & ? & _).
  - intros k v. destruct (decide (k = n)) as [-> | Hne].
    + rewrite lookup_insert_eq. by intros [= <-].
    + rewrite lookup_insert_ne by done. apply Hp.
Qed.

(** The reconstruction follows [parent] back from the exit; what it
    returns is a path from [start] to [end_]. *)
Lemma bfs_reconstruct_spec fuel parent start end_ xy path w :
  (∀ k v, parent !! k = Some v → path_step W H g v k) →
  head (path ++ [xy]) = Some end_ →
  chain (flip (path_step W H g)) (path ++ [xy]) →
  ensures (bfs_reconstruct fuel parent start xy path) w
    (λ r _, valid_path W H g start end_ r).
Proof.
  intros Hp. revert xy path.
  induction fuel as [| fuel IH]; intros xy path Hh Hch; simpl.
  - apply ensures_out_of_fuel.
  - case_bool_decide as Hxy.
    + destruct (parent !! xy) as [xy' |] eqn:Hpar; [| apply ensures_raise].
      apply IH.
      * by destruct path.
      * rewrite <- app_assoc. simpl. apply chain_snoc; [done |].
        by apply Hp.
    + assert (xy = start) as -> by (by destruct (decide (xy = start))).
      apply ensures_ret. split; [| split].
      * rewrite head_reverse. by rewrite last_snoc.
      * by rewrite last_reverse.
      * by apply chain_reverse_flip.
Qed.

Lemma bfs_loop_spec fuel start end_ st w :
  w_maze w = g → bfs_ok W H g st →
  ensures (bfs_loop fuel H W start end_ st) w
    (λ r _, path_ok W H g start end_ r).
Proof.
  intros Hg. revert st.
  induction fuel as [| fuel IH]; intros [[queue visited] parent] Hok.
  - apply ensures_out_of_fuel.
  - cbn [bfs_loop]. destruct queue as [| [x y] queue];
      [apply ensures_ret; by left |].
    destruct Hok as [Hq Hp]. simpl in Hq, Hp.
    apply Forall_cons in Hq as [Hin Hq].
    case_bool_decide as Hend.
    { eapply ensures_mono.
      - apply (bfs_reconstruct_spec _ _ start end_); [done | | done].
        simpl. by rewrite Hend.
      - intros r ? Hr. by right. }
    apply ensures_bind.
    eapply ensures_mono; [by apply bfs_walls_spec |].
    intros f ? [-> Hf]. cbv zeta. apply IH.
    repeat apply bfs_push_ok; [..| by split].
    + rewrite truthy_8. intros Hb%negb_true_iff. apply (Hf West Hb).
    + rewrite truthy_4. intros Hb%negb_true_iff. apply (Hf South Hb).
    + rewrite truthy_2. intros Hb%negb_true_iff. apply (Hf East Hb).
    + rewrite truthy_1. intros Hb%negb_true_iff. apply (Hf North Hb).
Qed.

(** A path that [find_path_BFS] returns is empty or a path from the entry
    to the exit. *)
Lemma find_path_BFS_spec fuel mzParam w :
  w_maze w = g → inside W H (entry mzParam) →
  ensures (find_path_BFS fuel mzParam) w
    (λ r _, path_ok W H g (entry mzParam) (exit mzParam) r).
Proof.
  intros Hg Hin. unfold find_path_BFS.
  assert (Hwf' : wf_grid W H (w_maze w)) by by rewrite Hg.
  apply ensures_bind, returns_ensures.
  eapply returns_len_maze; [done |].
  apply ensures_bind, returns_ensures. pose proof Hin as [? ?].
  eapply returns_len_row0; [done | lia |].
  apply bfs_loop_spec; [done |]. split; simpl.
  - by apply Forall_singleton.
  - intros k v. by rewrite lookup_empty.
Qed.

End Breadth.

(** ** C2: the paths of the two finders *)

(** C2: on a grid of the size of the record, with the entry inside the
    grid, every non-empty path that [find_path_BFS] or [find_path_DFS]
    returns starts at the entry, ends at the exit, and each of its steps
    goes to a cell that differs by exactly 1 in exactly one coordinate,
    inside the grid, with no wall in between (the top or right bit of the
    cell that owns the wall).  For [find_path_DFS] the path it is given to
    improve is empty, as by default, or such a path itself. *)
Theorem C2_paths_valid fuel mzParam best w path w' :
  wf_grid (width mzParam) (height mzParam) (w_maze w) →
  inside (width mzParam) (height mzParam) (entry mzParam) →
  path_ok (width mzParam) (height mzParam) (w_maze w)
    (entry mzParam) (exit mzParam) best →
  find_path_BFS fuel mzParam w = (Ret path, w')
  ∨ find_path_DFS fuel mzParam best w = (Ret path, w') →
  path ≠ [] →
  head path = Some (entry mzParam)
  ∧ last path = Some (exit mzParam)
  ∧ chain (λ u v, step_adjacent u v
                  ∧ passage (width mzParam) (height mzParam) (w_maze w) u v)
      path.
Proof.
  intros Hwf Hin Hbest Hrun Hne.
  assert (Hok : path_ok (width mzParam) (height mzParam) (w_maze w)
                  (entry mzParam) (exit mzParam) path).
  { destruct Hrun as [Hrun | Hrun].
    - by apply (find_path_BFS_spec _ _ _ Hwf fuel mzParam w eq_refl Hin
                  path w').
    - by apply (find_path_DFS_spec mzParam _ fuel best w Hwf eq_refl Hin
                  Hbest path w'). }
  by destruct Hok as [-> | Hvalid].
Qed.

Lemma C2_paths_valid_witness :
  let p := MkParams 3 2 (0, 0) (2, 0) "maze.txt" true (Some 1) false 25 4 0 in
  let g := [[7; 1; 9]; [0; 0; 2]] in
  let path := [(0, 0); (0, 1); (1, 1); (1, 0); (2, 0)] in
  head path = Some (0, 0) ∧ last path = Some (2, 0)
  ∧ chain (λ u v, step_adjacent u v ∧ passage 3 2 g u v) path.
Proof.
  intros p g path.
  pose (w := World g (Rng (λ n, N.of_nat n) 0) (Clock (λ _, 0%Q) 0)).
  apply (C2_paths_valid 40 p [] w path (find_path_DFS 40 p [] w).2).
  - split; [reflexivity | repeat constructor].
  - unfold inside. simpl. lia.
  - by left.
  - right. vm_compute. reflexivity.
  - discriminate.
Defined.

(** ** [find_path_BFS] finds a shortest path *)

Lemma neighbor_inj c d d' : neighbor c d = neighbor c d' → d = d'.
Proof.
  destruct c as [x y], d, d'; simpl; intros [= ]; (reflexivity || lia).
Qed.

Lemma path_step_dir W H g c v :
  path_step W H g c v → ∃ d, v = neighbor c d.
Proof. intros (_ & _ & _ & d & -> & _). by exists d. Qed.

Lemma path_step_neighbor_iff W H g c d :
  inside W H c →
  path_step W H g c (neighbor c d)
  ↔ inside W H (neighbor c d) ∧ wall_bit g c d = false.
Proof.
  intros Hc. split.
  - intros (_ & _ & Hn & d' & Heq & Hwall). apply neighbor_inj in Heq.
    by subst d'.
  - intros [Hn Hwall]. by apply path_step_neighbor.
Qed.

Lemma StronglySorted_snoc {A} (R : A → A → Prop) l x :
  StronglySorted R l → Forall (λ a, R a x) l → StronglySorted R (l ++ [x]).
Proof.
  induction 1 as [| a l Hl IH Ha]; intros Hx; simpl.
  - repeat constructor.
  - apply Forall_cons in Hx as [Hax Hx]. constructor; [by apply IH |].
    apply Forall_app. split; [done | by constructor].
Qed.

Lemma StronglySorted_mono_in {A} (R R' : A → A → Prop) l :
  (∀ a b, a ∈ l → b ∈ l → R a b → R' a b) →
  StronglySorted R l → StronglySorted R' l.
Proof.
  intros Hsub Hl. induction Hl as [| a l Hl IH Ha]; [constructor |].
  constructor.
  - apply IH. intros x y Hx Hy. apply Hsub; by right.
  - rewrite Forall_forall in *. intros x Hx.
    apply Hsub; [by left | by right | by apply Ha].
Qed.

Lemma lv_lookup lvl c j : lvl !! c = Some j → lv lvl c = j.
Proof. unfold lv. by intros ->. Qed.

Lemma lv_insert_ne lvl n j c : c ≠ n → lv (<[n := j]> lvl) c = lv lvl c.
Proof. intros Hne. unfold lv. by rewrite lookup_insert_ne. Qed.

Lemma lv_insert_eq lvl n j : lv (<[n := j]> lvl) n = j.
Proof. unfold lv. by rewrite lookup_insert_eq. Qed.

Lemma length_bfs_unseen W H visited :
  0 ≤ W → 0 ≤ H →
  (length (bfs_unseen W H visited) ≤ Z.to_nat (W * H))%nat.
Proof.
  intros HW HH. rewrite <- (length_cells W H) by done. rewrite Nat2Z.id.
  apply length_filter.
Qed.

Lemma length_bfs_unseen_insert W H visited n :
  inside W H n → n ∉ visited →
  (length (bfs_unseen W H ({[n]} ∪ visited)) + 1
   = length (bfs_unseen W H visited))%nat.
Proof.
  intros Hn Hnew. unfold bfs_unseen.
  apply (filter_length_remove _ _ _ n).
  - apply NoDup_cells.
  - by apply elem_of_cells.
  - done.
  - set_solver.
  - intros e _ Hne. set_solver.
Qed.

Section Layers.

Variables (W H : Z) (g : grid).
Hypothesis Hwf : wf_grid W H g.

(** [bfs_walls] returns, and its result has the bit of a direction clear
    exactly when that direction is a step of the grid. *)
Lemma bfs_walls_returns w x y :
  w_maze w = g → inside W H (x, y) →
  returns (bfs_walls H W x y) w
    (λ f w',
       w' = w
       ∧ ∀ d, Z.testbit f (dir_bit d) = false
              ↔ path_step W H g (x, y) (neighbor (x, y) d)).
Proof.
  intros Hg Hin. pose proof Hin as [Hx Hy]. simpl in Hx, Hy.
  rewrite <- Hg in Hwf. unfold bfs_walls.
  apply returns_bind. eapply returns_load; [done ..|].
  apply returns_bind.
  apply returns_mono with
    (Q := λ f1 w', w' = w
       ∧ Z.testbit f1 0 = Z.testbit (cell g x y) 0
       ∧ Z.testbit f1 1 = Z.testbit (cell g x y) 1
       ∧ Z.testbit f1 2 = false
       ∧ (Z.testbit f1 3 = false
          ↔ x ≠ 0 ∧ Z.testbit (cell g (x - 1) y) 1 = false)).
  { rewrite Hg.
    destruct (Z.eqb_spec x 0) as [Hx0 | Hx0].
    - apply returns_ret. split; [done |]. split_and!; bits_goal.
      rewrite lor_bit_set by reflexivity. split; [done | tauto].
    - apply returns_bind. eapply returns_load; [done | lia | lia |].
      rewrite Hg.
      destruct (truthy _) eqn:Ht; apply returns_ret; (split; [done |]).
      + split_and!; bits_goal. rewrite truthy_2 in Ht.
        rewrite lor_bit_set by reflexivity. split; [done |].
        intros [_ Hb]. congruence.
      + rewrite truthy_2 in Ht. split_and!; bits_goal.
        rewrite land_bit_drop by reflexivity. tauto. }
  intros f1 ? (-> & F0 & F1 & F2 & F3).
  apply returns_bind.
  apply returns_mono with
    (Q := λ f2 w', w' = w
       ∧ Z.testbit f2 0 = Z.testbit f1 0
       ∧ Z.testbit f2 1 = Z.testbit f1 1
       ∧ Z.testbit f2 3 = Z.testbit f1 3
       ∧ (Z.testbit f2 2 = false
          ↔ y < H - 1 ∧ Z.testbit (cell g x (y + 1)) 0 = false)).
  { destruct (Z.geb_spec y (H - 1)) as [Hy0 | Hy0].
    - apply returns_ret. split; [done |]. split_and!; bits_goal.
      rewrite lor_bit_set by reflexivity. split; [done | lia].
    - apply returns_bind. eapply returns_load; [done | lia | lia |].
      rewrite Hg.
      destruct (truthy _) eqn:Ht; apply returns_ret; (split; [done |]).
      + split_and!; bits_goal. rewrite truthy_1 in Ht.
        rewrite lor_bit_set by reflexivity. split; [done |].
        intros [_ Hb]. congruence.
      + rewrite truthy_1 in Ht. split_and!; bits_goal.
        rewrite F2. split; [by split; [lia |] | done]. }
  intros f2 ? (-> & G0 & G1 & G3 & G2).
  apply returns_ret. split; [done |]. intros d.
  rewrite (path_step_neighbor_iff W H g (x, y) d Hin).
  unfold inside, wall_bit, cell_at.
  destruct d; cbn [dir_bit neighbor fst snd];
    destruct (Z.eqb_spec y 0), (Z.geb_spec x (W - 1));
    repeat first [ rewrite lor_bit_set by reflexivity
                 | rewrite lor_bit_other by reflexivity ];
    rewrite ?G0, ?G1, ?G3, ?F0, ?F1, ?G2, ?F3;
    intuition (first [lia | discriminate | congruence]).
Qed.

Variables (start end_ : Z * Z).

Lemma bfs_inv_init :
  inside W H start →
  bfs_inv W H g start end_ {[start := 0%nat]} ([start], {[start]}, ∅).
Proof.
  intros Hin. split; [| split].
  - split; cbn [fst snd].
    + apply lookup_singleton_eq.
    + intros k Hk. apply lookup_singleton_Some in Hk. by destruct Hk.
    + intros k. rewrite elem_of_singleton. split.
      * intros ->. rewrite lookup_singleton_eq. by eexists.
      * intros [j Hj]. apply lookup_singleton_Some in Hj. by destruct Hj.
    + intros k [j Hj]. apply lookup_singleton_Some in Hj as [<- _]. done.
    + intros k j Hk. apply lookup_singleton_Some in Hk as [_ [=]].
    + intros k Hk. apply list_elem_of_singleton in Hk as ->.
      rewrite lookup_singleton_eq. by eexists.
    + repeat constructor.
    + intros k j Hk. apply lookup_singleton_Some in Hk as [_ <-].
      pose proof (length_bfs_unseen_insert W H ∅ start Hin) as Hlen.
      rewrite union_empty_r_L in Hlen.
      destruct Hin as [? ?].
      pose proof (length_bfs_unseen W H ∅ ltac:(lia) ltac:(lia)).
      specialize (Hlen ltac:(set_solver)). lia.
  - cbn [fst snd]. intros u [j Hj] Hu.
    apply lookup_singleton_Some in Hj as [<- _]. exfalso. apply Hu. by left.
  - cbn [fst snd]. intros h _ k j Hk.
    apply lookup_singleton_Some in Hk as [_ <-]. lia.
Qed.

(** Taking the head of the queue. *)
Lemma bfs_inv_dequeue lvl cur queue visited parent :
  bfs_inv W H g start end_ lvl (cur :: queue, visited, parent) →
  cur ≠ end_ →
  bfs_mid W H g start end_ lvl cur [] (queue, visited, parent).
Proof.
  intros ([Hs Hz Hd Hi Hp Hq Hso Hc] & Hclosed & Hbound) Hne.
  cbn [fst snd] in *. apply StronglySorted_inv in Hso as [Hso Hhead].
  split; [| split_and!]; cbn [fst snd].
  - split; cbn [fst snd]; try done. intros k Hk. apply Hq. by right.
  - apply Hq. by left.
  - done.
  - intros u Hu Hnq Hnc. apply Hclosed; [done |].
    intros [-> | Hin]%elem_of_cons; done.
  - by apply Hbound.
  - intros q Hin. rewrite Forall_forall in Hhead. by apply Hhead.
  - intros d Hd'. by apply elem_of_nil in Hd'.
Qed.

(** One of the four blocks that look at a neighbour of [cur]. *)
Lemma bfs_push_mid lvl cur ds d (b in_range : bool) st :
  bfs_mid W H g start end_ lvl cur ds st →
  (b = true ↔ path_step W H g cur (neighbor cur d)) →
  (inside W H (neighbor cur d) → in_range = true) →
  let st' := if b then bfs_push in_range (neighbor cur d) cur st else st in
  ∃ lvl', bfs_mid W H g start end_ lvl' cur (d :: ds) st'
          ∧ (bfs_measure W H st' ≤ bfs_measure W H st)%nat.
Proof.
  intros Hmid Hb Hrange st'.
  destruct Hmid as ([Hs Hz Hd Hi Hp Hq Hso Hc] & Hcur & Hne & Hclosed
                    & Hbound & Hlow & Hdone).
  destruct st as [[queue visited] parent]. cbn [fst snd] in *.
  assert (Hkeep :
    (path_step W H g cur (neighbor cur d) →
     ∃ j, lvl !! neighbor cur d = Some j ∧ (j ≤ S (lv lvl cur))%nat) →
    ∃ lvl', bfs_mid W H g start end_ lvl' cur (d :: ds)
              (queue, visited, parent)
            ∧ (bfs_measure W H (queue, visited, parent)
               ≤ bfs_measure W H (queue, visited, parent))%nat).
  { intros Hstep. exists lvl. split; [| done].
    split; [done |]. split_and!; try done. cbn [fst snd].
    intros d' [-> | Hin]%elem_of_cons; [done | by apply Hdone]. }
  subst st'. destruct b.
  2:{ apply Hkeep. intros Hstep. apply Hb in Hstep. discriminate. }
  assert (Hstep : path_step W H g cur (neighbor cur d)) by by apply Hb.
  assert (Hn : inside W H (neighbor cur d))
    by by destruct Hstep as (_ & _ & ? & _).
  unfold bfs_push. rewrite (Hrange Hn). cbn [andb].
  case_bool_decide as Hvis; cbn [negb].
  { apply Hkeep. intros _.
    apply Hd in Hvis as [j Hj]. exists j. split; [done |].
    by eapply Hbound. }
  clear Hkeep.
  set (n := neighbor cur d) in *.
  assert (Hnone : lvl !! n = None).
  { destruct (lvl !! n) eqn:Hl; [| done]. exfalso. apply Hvis, Hd.
    by eexists. }
  destruct Hcur as [jc Hjc]. pose proof (lv_lookup _ _ _ Hjc) as Hlvc.
  rewrite Hlvc in *.
  assert (Hcn : cur ≠ n) by congruence.
  exists (<[n := S jc]> lvl). split.
  - split; [| split_and!]; cbn [fst snd].
    + split; cbn [fst snd].
      * rewrite lookup_insert_ne by congruence. done.
      * intros k Hk. apply lookup_insert_Some in Hk as [[_ [=]] | [_ Hk]].
        by apply Hz.
      * intros k. rewrite elem_of_union, elem_of_singleton, Hd.
        rewrite lookup_insert_is_Some. naive_solver.
      * intros k Hk. apply lookup_insert_is_Some in Hk as [<- | [_ Hk]];
          [done | by apply Hi].
      * intros k j Hk. apply lookup_insert_Some in Hk as [[<- [= <-]] | [Hkn Hk]].
        -- exists cur. rewrite lookup_insert_eq.
           rewrite lookup_insert_ne by congruence. done.
        -- destruct (Hp k j Hk) as (v & Hpv & Hlv & Hstepv). exists v.
           rewrite !lookup_insert_ne by congruence. done.
      * intros k Hk. apply lookup_insert_is_Some.
        apply elem_of_app in Hk as [Hk | Hk%list_elem_of_singleton];
          [| by left].
        destruct (decide (n = k)); [by left | right]. split; [done |].
        by apply Hq.
      * apply StronglySorted_snoc.
        -- eapply StronglySorted_mono_in; [| exact Hso].
           intros a c Ha Hc'. cbn beta.
           assert (a ≠ n) by (intros ->; destruct (Hq n Ha); congruence).
           assert (c ≠ n) by (intros ->; destruct (Hq n Hc'); congruence).
           by rewrite !lv_insert_ne.
        -- apply Forall_forall. intros a Ha.
           assert (a ≠ n) by (intros ->; destruct (Hq n Ha); congruence).
           rewrite lv_insert_ne, lv_insert_eq by done.
           destruct (Hq a Ha) as [ja Hja]. rewrite (lv_lookup _ _ _ Hja).
           by eapply Hbound.
      * intros k j Hk.
        pose proof (length_bfs_unseen_insert W H visited n Hn Hvis) as Hlen.
        apply lookup_insert_Some in Hk as [[_ <-] | [_ Hk]].
        -- specialize (Hc cur jc Hjc). lia.
        -- specialize (Hc k j Hk). lia.
    + rewrite lookup_insert_ne by congruence. by eexists.
    + done.
    + intros u Hu Hnq Hnc.
      apply lookup_insert_is_Some in Hu as [<- | [Hun Hu]].
      { exfalso. apply Hnq, elem_of_app. right. by left. }
      destruct (Hclosed u Hu) as [Hue Hunb]; [| done | ].
      { intros Hin. apply Hnq, elem_of_app. by left. }
      split; [done |]. intros v Hv. destruct (Hunb v Hv) as (j & Hj & Hle).
      exists j. rewrite lookup_insert_ne by congruence.
      by rewrite lv_insert_ne.
    + intros k j Hk. rewrite lv_insert_ne, Hlvc by done.
      apply lookup_insert_Some in Hk as [[_ <-] | [_ Hk]]; [lia |].
      by eapply Hbound.
    + intros q Hin. rewrite lv_insert_ne, Hlvc by done.
      apply elem_of_app in Hin as [Hin | ->%list_elem_of_singleton].
      * assert (q ≠ n) by (intros ->; destruct (Hq n Hin); congruence).
        rewrite lv_insert_ne by done. by apply Hlow.
      * rewrite lv_insert_eq. lia.
    + intros d' Hd' Hstep'. rewrite lv_insert_ne, Hlvc by done.
      apply elem_of_cons in Hd' as [-> | Hd'].
      * exists (S jc). by rewrite lookup_insert_eq.
      * destruct (Hdone d' Hd' Hstep') as (j & Hj & Hle). exists j.
        rewrite lookup_insert_ne by congruence. done.
  - unfold bfs_measure. cbn [fst snd]. rewrite length_app. simpl.
    pose proof (length_bfs_unseen_insert W H visited n Hn Hvis). lia.
Qed.

(** The four neighbours done, the cell taken from the queue has been
    dealt with. *)
Lemma bfs_mid_done lvl cur st :
  bfs_mid W H g start end_ lvl cur [West; South; East; North] st →
  bfs_inv W H g start end_ lvl st.
Proof.
  intros (Hcore & Hcur & Hne & Hclosed & Hbound & Hlow & Hdone).
  split; [done |]. split.
  - intros u Hu Hnq. destruct (decide (u = cur)) as [-> | Hnc];
      [| by apply Hclosed].
    split; [done |]. intros v Hv.
    destruct (path_step_dir _ _ _ _ _ Hv) as [d ->].
    apply Hdone; [| done]. destruct d; set_solver.
  - intros h Hh k j Hk. specialize (Hbound k j Hk).
    assert (h ∈ st.1.1) by (destruct st.1.1; [done |]; injection Hh as ->; by left).
    specialize (Hlow h ltac:(done)). lia.
Qed.

(** A path from [start] ends at a cell whose layer is at most the number
    of its steps, unless it is at least as long as the layer of the head
    of the queue. *)
Lemma bfs_inv_layers lvl st l c :
  bfs_inv W H g start end_ lvl st →
  head l = Some start → last l = Some c → chain (path_step W H g) l →
  (∃ j, lvl !! c = Some j ∧ (j + 1 ≤ length l)%nat)
  ∨ (∃ h, head st.1.1 = Some h ∧ (lv lvl h + 1 ≤ length l)%nat).
Proof.
  intros (Hcore & Hclosed & Hbound). revert c.
  induction l as [| u l IH] using rev_ind; intros c Hh Hl Hch; [done |].
  rewrite last_snoc in Hl. injection Hl as ->.
  destruct l as [| a l _] using rev_ind.
  { simpl in Hh. injection Hh as ->. left. exists 0%nat.
    split; [apply Hcore | simpl; lia]. }
  rewrite <- app_assoc in Hch. simpl in Hch.
  pose proof (chain_middle _ _ _ _ _ Hch) as Hstep.
  assert (Hch' : chain (path_step W H g) (l ++ [a])).
  { replace (l ++ [a; c]) with ((l ++ [a]) ++ [c]) in Hch
      by by rewrite <- app_assoc.
    by apply chain_app_l in Hch. }
  assert (Hh' : head (l ++ [a]) = Some start).
  { destruct l; simpl in *; done. }
  rewrite !length_app. simpl.
  destruct (IH a Hh' (last_snoc _ _) Hch') as [(j & Hj & Hle) | (h & Hhq & Hle)].
  - rewrite length_app in Hle. simpl in Hle.
    destruct (decide (a ∈ st.1.1)) as [Hin | Hout].
    + right. destruct st.1.1 as [| h q] eqn:Hq; [by apply elem_of_nil in Hin |].
      exists h. split; [done |].
      pose proof (bc_sorted _ _ _ _ _ _ Hcore) as Hso. rewrite Hq in Hso.
      apply StronglySorted_inv in Hso as [_ Hhd].
      rewrite Forall_forall in Hhd.
      apply elem_of_cons in Hin as [-> | Hin]; [rewrite (lv_lookup _ _ _ Hj); lia |].
      specialize (Hhd a Hin). rewrite (lv_lookup _ _ _ Hj) in Hhd. lia.
    + left. destruct (Hclosed a ltac:(by eexists) Hout) as [_ Hnb].
      destruct (Hnb c Hstep) as (j' & Hj' & Hle').
      exists j'. split; [done |]. rewrite (lv_lookup _ _ _ Hj) in Hle'. lia.
  - right. exists h. split; [done |]. rewrite length_app in Hle. simpl in Hle.
    lia.
Qed.

(** The reconstruction returns a path from [start] to [end_], with one
    cell for each layer down from the layer of [end_]. *)
Lemma bfs_reconstruct_returns lvl st j :
  bfs_core W H g start lvl st →
  ∀ fuel xy path w,
    lvl !! xy = Some j → (j < fuel)%nat →
    head (path ++ [xy]) = Some end_ →
    chain (flip (path_step W H g)) (path ++ [xy]) →
    returns (bfs_reconstruct fuel st.2 start xy path) w
      (λ r w', w' = w ∧ valid_path W H g start end_ r
               ∧ length r = (length path + j + 1)%nat).
Proof.
  intros Hcore. induction j as [| j IH]; intros fuel xy path w Hl Hf Hh Hch;
    (destruct fuel as [| fuel]; [lia |]); simpl.
  - apply (bc_zero _ _ _ _ _ _ Hcore) in Hl as ->.
    rewrite bool_decide_eq_false_2 by (by intros ?).
    apply returns_ret. split; [done |]. split; [split; [| split] |].
    + rewrite head_reverse. by rewrite last_snoc.
    + by rewrite last_reverse.
    + by apply chain_reverse_flip.
    + rewrite length_reverse, length_app. simpl. lia.
  - assert (Hne : xy ≠ start).
    { intros ->. rewrite (bc_start _ _ _ _ _ _ Hcore) in Hl. discriminate. }
    rewrite bool_decide_eq_true_2 by done.
    destruct (bc_parent _ _ _ _ _ _ Hcore xy j Hl) as (v & -> & Hv & Hstep).
    eapply returns_mono.
    { apply IH; [done | lia | by destruct path |].
      rewrite <- app_assoc. simpl. by apply chain_snoc. }
    intros r w' (-> & Hvalid & Hlen). split; [done |]. split; [done |].
    rewrite Hlen, length_app. simpl. lia.
Qed.

Lemma bfs_loop_returns fuel : ∀ st lvl w,
  w_maze w = g → bfs_inv W H g start end_ lvl st →
  (bfs_measure W H st + Z.to_nat (W * H) < fuel)%nat →
  returns (bfs_loop fuel H W start end_ st) w (λ r w', w' = w ∧ bfs_post W H g start end_ r).
Proof.
  induction fuel as [| fuel IH]; intros [[queue visited] parent] lvl w Hg Hinv
    Hfuel; [lia |].
  cbn [bfs_loop]. destruct queue as [| [x y] queue].
  { apply returns_ret. split; [done |]. split; [| done].
    intros _ l (Hh & Hl & Hch).
    destruct (bfs_inv_layers _ _ _ _ Hinv Hh Hl Hch)
      as [(j & Hj & _) | (h & Hhq & _)]; [| done].
    destruct Hinv as (_ & Hclosed & _).
    destruct (Hclosed end_ ltac:(by eexists) ltac:(apply not_elem_of_nil)).
    done. }
  pose proof Hinv as (Hcore & Hclosed & Hbound).
  destruct (bc_queue _ _ _ _ _ _ Hcore (x, y) ltac:(by left)) as [j Hj].
  case_bool_decide as Hend.
  { pose proof (bc_count _ _ _ _ _ _ Hcore _ _ Hj) as Hcount.
    eapply returns_mono.
    { apply (bfs_reconstruct_returns lvl _ j Hcore (S fuel) (x, y) []);
        [done | lia | simpl; by rewrite Hend | done]. }
    intros r w' (-> & Hvalid & Hlen). split; [done |]. split.
    - intros ->. simpl in Hlen. lia.
    - intros _. split; [done |]. intros l (Hh & Hl & Hch).
      rewrite <- Hend in Hl.
      destruct (bfs_inv_layers _ _ _ _ Hinv Hh Hl Hch)
        as [(j' & Hj' & Hle) | (h & Hhq & Hle)].
      + assert (j' = j) as -> by congruence. simpl in Hlen. lia.
      + cbn [fst snd head] in Hhq. injection Hhq as <-.
        rewrite (lv_lookup _ _ _ Hj) in Hle. simpl in Hlen. lia. }
  assert (Hin : inside W H (x, y)).
  { apply (bc_inside _ _ _ _ _ _ Hcore). by eexists. }
  apply returns_bind.
  eapply returns_mono; [by apply bfs_walls_returns |].
  intros f ? [-> Hf]. cbv zeta.
  pose proof (bfs_inv_dequeue _ _ _ _ _ Hinv Hend) as Hmid0.
  assert (Hbit : ∀ d, (negb (Z.testbit f (dir_bit d)) = true
                       ↔ path_step W H g (x, y) (neighbor (x, y) d))).
  { intros d. rewrite negb_true_iff. apply Hf. }
  destruct (bfs_push_mid _ _ _ North _
              ((0 <=? y - 1) && (y - 1 <? H)) _ Hmid0 (Hbit North))
    as (lvl1 & Hmid1 & Hm1).
  { intros [? ?]. simpl in *. apply andb_true_iff.
    split; [apply Z.leb_le | apply Z.ltb_lt]; lia. }
  destruct (bfs_push_mid _ _ _ East _
              ((0 <=? x + 1) && (x + 1 <? W)) _ Hmid1 (Hbit East))
    as (lvl2 & Hmid2 & Hm2).
  { intros [? ?]. simpl in *. apply andb_true_iff.
    split; [apply Z.leb_le | apply Z.ltb_lt]; lia. }
  destruct (bfs_push_mid _ _ _ South _
              ((0 <=? y + 1) && (y + 1 <? H)) _ Hmid2 (Hbit South))
    as (lvl3 & Hmid3 & Hm3).
  { intros [? ?]. simpl in *. apply andb_true_iff.
    split; [apply Z.leb_le | apply Z.ltb_lt]; lia. }
  destruct (bfs_push_mid _ _ _ West _
              ((0 <=? x - 1) && (x - 1 <? W)) _ Hmid3 (Hbit West))
    as (lvl4 & Hmid4 & Hm4).
  { intros [? ?]. simpl in *. apply andb_true_iff.
    split; [apply Z.leb_le | apply Z.ltb_lt]; lia. }
  apply bfs_mid_done in Hmid4.
  rewrite truthy_1, truthy_2, truthy_4, truthy_8.
  apply (IH _ lvl4); [done | exact Hmid4 |].
  cbn [dir_bit neighbor fst snd] in Hm1, Hm2, Hm3, Hm4.
  unfold bfs_measure in Hfuel at 1. cbn [fst snd length] in Hfuel.
  unfold bfs_measure in Hm1 at 2. cbn [fst snd] in Hm1. lia.
Qed.

End Layers.

(** [find_path_BFS] returns, leaves the world as it was, and what it
    returns is a shortest path from the entry to the exit, or no path when
    the exit cannot be reached. *)
Lemma find_path_BFS_returns fuel mzParam w :
  let W := width mzParam in
  let H := height mzParam in
  wf_grid W H (w_maze w) → inside W H (entry mzParam) →
  (3 * Z.to_nat (W * H) ≤ fuel)%nat →
  returns (find_path_BFS fuel mzParam) w
    (λ r w', w' = w
             ∧ bfs_post W H (w_maze w) (entry mzParam) (exit mzParam) r).
Proof.
  intros W H Hwf Hin Hfuel. unfold find_path_BFS.
  apply returns_bind. eapply returns_len_maze; [done |].
  apply returns_bind. pose proof Hin as [? ?].
  eapply returns_len_row0; [done | lia |].
  eapply (bfs_loop_returns W H (w_maze w) Hwf); [done | |].
  - by apply bfs_inv_init.
  - unfold bfs_measure. cbn [fst snd length].
    pose proof (length_bfs_unseen_insert W H ∅ (entry mzParam) Hin
                  ltac:(set_solver)) as Hlen.
    rewrite union_empty_r_L in Hlen.
    pose proof (length_bfs_unseen W H ∅ ltac:(lia) ltac:(lia)). lia.
Qed.

(** ** What [place_42] writes *)

Lemma quot2_bounds a : 0 ≤ a → 0 ≤ Z.quot a 2 ∧ 2 * Z.quot a 2 ≤ a.
Proof.
  intros Ha. rewrite Z.quot_div_nonneg by lia.
  pose proof (Z.div_mod a 2 ltac:(lia)).
  pose proof (Z.mod_pos_bound a 2 ltac:(lia)). lia.
Qed.

(** On a grid of [H] rows of [W] cells [place_42] returns.  When it
    returns [False] the world is as it was.  When it returns [True] the
    grid holds the pattern, [check_palace] accepted the corner, and every
    cell of the pattern holds 15 while every other cell is as it was. *)
Lemma place_42_result W H w in_ out_ :
  wf_grid W H (w_maze w) →
  returns (place_42 in_ out_) w
    (λ b w',
       if b then
         5 ≤ H ∧ 7 ≤ W
         ∧ check_palace H 5 7 in_ out_ (corner_42 W H).1 (corner_42 W H).2
           = true
         ∧ wf_grid W H (w_maze w')
         ∧ w_rng w' = w_rng w ∧ w_clock w' = w_clock w
         ∧ ∀ e, inside W H e →
             cell_at (w_maze w') e
             = if pattern_at (corner_42 W H).1 (corner_42 W H).2 e then 15
               else cell_at (w_maze w) e
       else w' = w).
Proof.
  intros Hwf. set (g0 := w_maze w). unfold place_42.
  apply returns_bind. eapply returns_len_maze; [done |].
  change (Z.of_nat (length p_42)) with 5.
  destruct (Z.gtb_spec 5 H) as [Hlt | HH]; [by apply returns_ret |].
  apply returns_bind. cbn [Z.gtb Z.compare].
  change (py_get p_42 0) with (Some [15; 0; 0; 0; 15; 15; 15]).
  apply returns_ret. cbn [length Z.of_nat].
  change (Z.of_nat 7) with 7.
  apply returns_bind. eapply returns_len_row0; [done | lia |].
  destruct (Z.gtb_spec 7 W) as [Hlt | HW]; [by apply returns_ret |].
  unfold corner_42. cbn [fst snd].
  set (px := Z.quot (W - 7) 2). set (py := Z.quot (H - 5) 2).
  destruct (check_palace H 5 7 in_ out_ px py) eqn:Hcheck; cbn [negb];
    [| by apply returns_ret].
  pose proof (quot2_bounds (W - 7) ltac:(lia)) as Hpx.
  pose proof (quot2_bounds (H - 5) ltac:(lia)) as Hpy.
  fold px in Hpx. fold py in Hpy.
  apply returns_bind. eapply returns_mono.
  { apply (returns_for_range
      (λ y w', wf_grid W H (w_maze w')
               ∧ w_rng w' = w_rng w ∧ w_clock w' = w_clock w
               ∧ ∀ e, inside W H e →
                   cell_at (w_maze w') e
                   = if pattern_at px py e && (e.2 - py <? y) then 15
                     else cell_at g0 e)); [done | |].
    { split; [done |]. split; [done |]. split; [done |]. intros e He.
      unfold pattern_at.
      destruct (Z.leb_spec 0 (e.2 - py)), (Z.ltb_spec (e.2 - py) 0);
        try lia; by rewrite ?andb_false_r. }
    intros y w1 Hy (Hwf1 & Hr1 & Hk1 & Hc1).
    eapply returns_mono.
    { apply (returns_for_range
        (λ x w', wf_grid W H (w_maze w')
                 ∧ w_rng w' = w_rng w ∧ w_clock w' = w_clock w
                 ∧ ∀ e, inside W H e →
                     cell_at (w_maze w') e
                     = if pattern_at px py e
                          && ((e.2 - py <? y)
                              || ((e.2 - py =? y) && (e.1 - px <? x)))
                       then 15 else cell_at g0 e)); [done | |].
      { split; [done |]. split; [done |]. split; [done |]. intros e He.
        rewrite Hc1 by done. unfold pattern_at.
        destruct (Z.leb_spec 0 (e.1 - px)), (Z.ltb_spec (e.1 - px) 0);
          try lia; by rewrite ?andb_false_r, ?orb_false_r. }
      intros x w2 Hx (Hwf2 & Hr2 & Hk2 & Hc2).
      destruct (wf_grid_cell 7 5 p_42 x y wf_grid_p_42 Hx Hy) as (r & Hr & Hv).
      rewrite py_get_inside by (simpl; lia). rewrite Hr.
      rewrite py_get_inside.
      2:{ destruct (wf_grid_row 7 5 p_42 y wf_grid_p_42 Hy) as (r' & Hr' & Hl).
          assert (r' = r) by congruence. subst r'. lia. }
      rewrite Hv.
      assert (Hstep : ∀ g2,
        (∀ e, inside W H e →
           cell_at g2 e
           = if bool_decide (e = (x + px, y + py)) && (cell p_42 x y =? 15)
             then 15 else cell_at (w_maze w2) e) →
        ∀ e, inside W H e →
          cell_at g2 e
          = if pattern_at px py e
               && ((e.2 - py <? y)
                   || ((e.2 - py =? y) && (e.1 - px <? x + 1)))
            then 15 else cell_at g0 e).
      { intros g2 Hg2 e He. rewrite Hg2 by done. rewrite Hc2 by done.
        case_bool_decide as Heq.
        - subst e. cbn [fst snd andb]. unfold pattern_at. cbn [fst snd].
          replace (x + px - px) with x by lia.
          replace (y + py - py) with y by lia.
          destruct (cell p_42 x y =? 15) eqn:Hc; cbn [andb].
          + replace (y =? y) with true by (symmetry; apply Z.eqb_eq; lia).
            replace (x <? x + 1) with true by (symmetry; apply Z.ltb_lt; lia).
            rewrite orb_true_r.
            destruct (Z.leb_spec 0 x), (Z.ltb_spec x 7), (Z.leb_spec 0 y),
              (Z.ltb_spec y 5); try lia. done.
          + by rewrite !andb_false_r.
        - cbn [andb]. destruct (pattern_at px py e) eqn:Hp; [| done].
          cbn [andb]. destruct e as [ex ey]. cbn [fst snd] in *.
          destruct (Z.ltb_spec (ey - py) y); [done |]. cbn [orb].
          destruct (Z.eqb_spec (ey - py) y); [| done]. cbn [andb].
          destruct (Z.ltb_spec (ex - px) x), (Z.ltb_spec (ex - px) (x + 1));
            try done; try lia.
          exfalso. apply Heq. f_equal; lia. }
      destruct (cell p_42 x y =? 15) eqn:Hc.
      - eapply returns_store; [done | lia | lia |]. cbn [w_maze w_rng w_clock].
        split; [by apply wf_grid_upd |]. split; [done |]. split; [done |].
        apply Hstep. intros e He.
        rewrite (cell_at_upd W H (w_maze w2) (x + px, y + py))
          by (done || (unfold inside; simpl; lia)).
        by rewrite andb_true_r.
      - apply returns_ret. split; [done |]. split; [done |]. split; [done |].
        apply Hstep. intros e He. by rewrite andb_false_r. }
    intros ? w2 (Hwf2 & Hr2 & Hk2 & Hc2). split; [done |]. split; [done |].
    split; [done |]. intros e He. rewrite Hc2 by done.
    destruct (pattern_at px py e) eqn:Hp; [| done]. cbn [andb].
    unfold pattern_at in Hp.
    destruct (Z.ltb_spec (e.2 - py) y), (Z.ltb_spec (e.2 - py) (y + 1)),
      (Z.eqb_spec (e.2 - py) y), (Z.ltb_spec (e.1 - px) 7);
      cbn [andb orb]; try done; try lia.
    all: by rewrite ?andb_false_r in Hp. }
  intros ? w1 (Hwf1 & Hr1 & Hk1 & Hc1). cbn beta. apply returns_ret.
  split; [lia |]. split; [lia |]. split; [done |]. split; [done |].
  split; [done |]. split; [done |]. intros e He. rewrite Hc1 by done.
  destruct (pattern_at px py e) eqn:Hp; [| done]. cbn [andb].
  unfold pattern_at in Hp.
  destruct (Z.ltb_spec (e.2 - py) 5); [done |].
  by rewrite ?andb_false_r in Hp.
Qed.

(** ** The carver around the pattern *)

Lemma blocked_cases W H g0 r V E g m c :
  carve_pat_inv W H g0 r V E g m → inside W H c →
  is_blocked (cell_at g c) = true →
  c ∈ V ∨ is_pattern (cell_at g c) = true.
Proof.
  intros Hinv Hc Hb. unfold is_blocked in Hb.
  apply orb_true_iff in Hb as [Hb | Hb]; [left | by right].
  by apply (cp_visited _ _ _ _ _ _ _ _ Hinv).
Qed.

(** A step of the carver keeps the invariant; the visited cells only
    grow. *)
Lemma carve_step_pat_inv W H g0 r V E g m g' m' :
  carve_step W H (g, m) (g', m') → carve_pat_inv W H g0 r V E g m →
  ∃ V' E', carve_pat_inv W H g0 r V' E' g' m' ∧ ∀ c, c ∈ V → c ∈ V'.
Proof.
  intros Hstep Hinv.
  destruct (carve_step_measure _ _ _ _ _ _ Hstep (cp_wf _ _ _ _ _ _ _ _ Hinv)
              (cp_frames _ _ _ _ _ _ _ _ Hinv)) as (Hwf' & Hfr' & _).
  inversion Hstep as [? m0 c q Hnone | ? m0 c q d q' Hq Ha Hq' Hbits]; subst.
  - exists V, E. split; [| done].
    pose proof Hinv as [Hwf Hfr Ht Hvis Hins Hpas Hcnt Hst Hpen Hcl Hbt Hrest
                          Hroot Hfree].
    split; [exact Hwf' | exact Hfr' | exact Ht | exact Hvis | exact Hins
           | exact Hpas | exact Hcnt | | | | exact Hbt | exact Hrest
           | exact Hroot | exact Hfree].
    + intros f Hf. apply Hst. apply elem_of_app. by left.
    + intros f d Hf. apply Hpen. apply elem_of_app. by left.
    + intros c' Hc'. destruct (Hcl c' Hc') as [[q0 Hq0] | Hclosed]; [| by right].
      apply elem_of_app in Hq0 as [Hq0 | Hq0]; [left; eauto |].
      apply list_elem_of_singleton in Hq0. inversion Hq0; subst c' q0.
      right. intros d Hd.
      destruct (Z.testbit q (dir_bit d)) eqn:Hqd.
      * eapply blocked_cases; [exact Hinv | done |].
        eapply avail_false_blocked; [by apply Hnone | done].
      * apply (Hpen (c, q) d); [| done | done].
        apply elem_of_app. right. by left.
  - pose proof (avail_inside _ _ _ _ _ Ha) as Hn.
    pose proof (avail_true_free _ _ _ _ _ Ha) as Hfree0.
    pose proof Hinv as [Hwf Hfr Ht Hvis Hins Hpas Hcnt Hst Hpen Hcl Hbt Hrest
                          Hroot Hfree].
    assert (Htop : (c, q) ∈ m0 ++ [(c, q)]).
    { apply elem_of_app. right. by left. }
    assert (HcV : c ∈ V) by (apply (Hst (c, q)); done).
    assert (Hc : inside W H c) by (by apply Hins).
    assert (HnV : neighbor c d ∉ V).
    { intros Hin. apply Hvis in Hin; [| done].
      unfold is_blocked in Hfree0. rewrite Hin in Hfree0. done. }
    exists (neighbor c d :: V), ((c, neighbor c d) :: E).
    split; [| intros; by right].
    split; [exact Hwf' | exact Hfr' | | | | | | | | | | | by right |].
    + by apply tree_leaf.
    + intros e He. rewrite (visited_carve W H) by done.
      rewrite elem_of_cons, <- Hvis by done.
      destruct (Z.testbit (cell_at g e) 4); simpl; [tauto |].
      case_bool_decide; split; (tauto || (intros [? | ?]; done) || done).
    + intros e He. apply elem_of_cons in He as [-> | He]; [done | by apply Hins].
    + intros a b. rewrite (passage_carve W H) by done.
      rewrite adj_cons, Hpas. tauto.
    + assert (Hw : wall_bit g c d = true).
      { destruct (wall_bit g c d) eqn:Hw; [done |]. exfalso. apply HnV.
        assert (Hp : passage W H g c (neighbor c d)).
        { split; [done |]. split; [done |]. eauto. }
        apply Hpas in Hp. by destruct (tree_of_adj _ _ _ _ Ht Hp). }
      rewrite (length_open_edges_carve W H) by done.
      simpl. by rewrite Hcnt.
    + intros f Hf. apply elem_of_app in Hf as [Hf | Hf].
      * right. apply Hst. apply elem_of_app. by left.
      * apply elem_of_cons in Hf as [-> | Hf]; [by right |].
        apply list_elem_of_singleton in Hf. subst f. by left.
    + intros f d' Hf Hbit Hin. rewrite (is_pattern_carve W H) by done.
      rewrite elem_of_cons.
      apply elem_of_app in Hf as [Hf | Hf].
      * destruct (Hpen f d') as [? | ?]; [apply elem_of_app; by left | done ..
                                         | tauto | tauto].
      * apply elem_of_cons in Hf as [-> | Hf].
        -- simpl in *. rewrite Hbits in Hbit.
           destruct (Z.testbit q (dir_bit d')) eqn:Hqd'.
           ++ destruct (avail W H g c d') eqn:Had'.
              ** simpl in Hbit. apply negb_false_iff in Hbit.
                 apply bool_decide_eq_true_1 in Hbit. subst d'. by left; left.
              ** destruct (blocked_cases _ _ _ _ _ _ _ _ (neighbor c d') Hinv Hin);
                   [by eapply avail_false_blocked | tauto | tauto].
           ++ destruct (Hpen (c, q) d'); [done .. | tauto | tauto].
        -- apply list_elem_of_singleton in Hf. subst f. simpl in Hbit.
           by destruct d'.
    + intros e He. apply elem_of_cons in He as [-> | He].
      { left. exists 15. apply elem_of_app. right. right. by left. }
      destruct (Hcl e He) as [[q0 Hq0] | Hclosed].
      * left. apply elem_of_app in Hq0 as [Hq0 | Hq0].
        -- exists q0. apply elem_of_app. by left.
        -- apply list_elem_of_singleton in Hq0. inversion Hq0; subst.
           exists q'. apply elem_of_app. right. by left.
      * right. intros d' Hd'. rewrite (is_pattern_carve W H) by done.
        rewrite elem_of_cons. destruct (Hclosed d' Hd'); tauto.
    + intros e i He Hi Hi4. rewrite (testbit_carve W H) by (done || lia).
      rewrite <- Hbt by done.
      assert (Hw : (i =? wall_idx d) = false)
        by (destruct d; cbn [wall_idx]; apply Z.eqb_neq; lia).
      assert (H4 : (i =? 4) = false) by (apply Z.eqb_neq; lia).
      rewrite Hw, H4, !andb_false_r, orb_false_r. cbn [negb].
      by rewrite andb_true_r.
    + intros e He HeV. apply not_elem_of_cons in HeV as [Hen HeV].
      rewrite (cell_at_carve W H) by done. cbn zeta.
      rewrite (bool_decide_eq_false_2 (e = neighbor c d)) by done.
      rewrite bool_decide_eq_false_2; [by apply Hrest |].
      intros ->. destruct d; cbn [wall_owner] in *; done.
    + intros e He Her. rewrite (is_pattern_carve W H) by
        (done || (apply elem_of_cons in He as [-> | He]; [done | by apply Hins])).
      apply elem_of_cons in He as [-> | He]; [| by apply Hfree].
      unfold is_blocked in Hfree0. by apply orb_false_iff in Hfree0 as [_ ?].
Qed.

Lemma carve_steps_pat_inv W H g0 r s s' :
  rtc (carve_step W H) s s' →
  ∀ V E, carve_pat_inv W H g0 r V E s.1 s.2 →
  ∃ V' E', carve_pat_inv W H g0 r V' E' s'.1 s'.2 ∧ ∀ c, c ∈ V → c ∈ V'.
Proof.
  induction 1 as [s | [g m] [g1 m1] s3 Hstep _ IH]; intros V E Hinv.
  - eauto.
  - destruct (carve_step_pat_inv _ _ _ _ _ _ _ _ _ _ Hstep Hinv)
      as (V1 & E1 & Hinv1 & Hsub1).
    destruct (IH V1 E1 Hinv1) as (V2 & E2 & Hinv2 & Hsub2).
    exists V2, E2. split; [done |]. auto.
Qed.

(** When the stack is empty the invariant gives the carved tree. *)
Lemma carve_pat_inv_carved W H g0 V E g r :
  carve_pat_inv W H g0 r V E g [] → carved W H r V g.
Proof.
  intros Hinv.
  pose proof Hinv as [Hwf Hfr Ht Hvis Hins Hpas Hcnt Hst Hpen Hcl Hbt Hrest
                          Hroot Hfree].
  split; [by eapply tree_of_NoDup |]. split; [done |]. split_and!.
  - intros c. split.
    + intros Hc. split; [by apply Hins |]. apply Hvis; [by apply Hins | done].
    + intros [Hc Hb]. by apply Hvis.
  - intros a b Hp. apply Hpas in Hp. by eapply tree_of_adj.
  - intros a b Ha Hb.
    destruct (tree_unique_path V E Ht a b Ha Hb) as (l & Hl & Huniq).
    exists l. split.
    + eapply simple_path_mono; [| exact Hl]. intros x y. apply Hpas.
    + intros l' Hl'. apply Huniq.
      eapply simple_path_mono; [| exact Hl']. intros x y. apply Hpas.
  - intros c d Hc Hd. destruct (Hcl c Hc) as [[q Hq] | Hclosed];
      [inversion Hq | by apply Hclosed].
  - done.
  - rewrite Hcnt. by rewrite (tree_of_length _ _ Ht).
Qed.

(** ** What [generate] builds *)

Lemma template_cases p placed c :
  template p placed c = 15 ∨ template p placed c = 11
  ∨ template p placed c = 7 ∨ template p placed c = 3.
Proof. unfold template. destruct (_ && _); repeat case_bool_decide; tauto. Qed.

(** The invariant holds when the carver starts on a grid with every wall
    up and no cell visited. *)
Lemma carve_pat_inv_init W H g1 r :
  wf_grid W H g1 → inside W H r →
  (∀ c, inside W H c →
     Z.testbit (cell_at g1 c) 0 = true ∧ Z.testbit (cell_at g1 c) 1 = true
     ∧ Z.testbit (cell_at g1 c) 4 = false) →
  carve_pat_inv W H g1 r [r] []
    (upd g1 r.1 r.2 (Z.lor (cell_at g1 r) 0x10)) [(r, 15)].
Proof.
  intros Hwf1 Hr Hg1. set (g0 := upd _ _ _ _).
  assert (Hwf : wf_grid W H g0) by by apply wf_grid_upd.
  assert (Hcell : ∀ c, inside W H c →
    cell_at g0 c = if bool_decide (c = r) then Z.lor (cell_at g1 r) 0x10
                   else cell_at g1 c).
  { intros c Hc. subst g0. by rewrite (cell_at_upd W H). }
  assert (Hbits : ∀ c, inside W H c →
    Z.testbit (cell_at g0 c) 0 = true ∧ Z.testbit (cell_at g0 c) 1 = true
    ∧ Z.testbit (cell_at g0 c) 4 = bool_decide (c = r)).
  { intros c Hc. rewrite Hcell by done. case_bool_decide as Heq.
    - subst c. destruct (Hg1 r Hr) as (H0 & H1 & H4).
      rewrite !Z.lor_spec, H0, H1, H4. done.
    - destruct (Hg1 c Hc) as (H0 & H1 & H4). by rewrite H0, H1, H4. }
  split.
  - exact Hwf.
  - apply Forall_singleton. simpl. split; [done | lia].
  - apply tree_root.
  - intros c Hc. destruct (Hbits c Hc) as (_ & _ & ->).
    rewrite list_elem_of_singleton. case_bool_decide; split; done.
  - intros c Hc. apply list_elem_of_singleton in Hc. by subst.
  - intros a b. split.
    + intros (Ha & Hb & d & -> & Hw). rewrite wall_bit_owner in Hw.
      destruct (Hbits (wall_owner a d)) as (H0 & H1 & _);
        [by apply wall_owner_inside' |].
      destruct d; cbn [wall_idx] in Hw; congruence.
    + intros [Hin | Hin]; inversion Hin.
  - unfold open_edges. simpl.
    assert (Hnil : ∀ l : list (Z * Z), Forall (inside W H) l →
      l ≫= (λ c,
        (if (0 <? c.2) && negb (Z.testbit (cell_at g0 c) 0)
         then [(c, neighbor c North)] else [])
        ++ (if (c.1 <? W - 1) && negb (Z.testbit (cell_at g0 c) 1)
            then [(c, neighbor c East)] else [])) = []).
    { induction 1 as [| c l Hc Hl IH]; [done |].
      rewrite bind_cons, IH. destruct (Hbits c Hc) as (-> & -> & _).
      by rewrite !andb_false_r. }
    rewrite Hnil; [done |]. apply Forall_forall. intros c.
    apply elem_of_cells.
  - intros f Hf. apply list_elem_of_singleton in Hf. subst f. by left.
  - intros f d Hf Hbit. apply list_elem_of_singleton in Hf. subst f.
    by destruct d.
  - intros c Hc. apply list_elem_of_singleton in Hc. subst c.
    left. exists 15. by left.
  - intros c i Hc Hi Hi4. rewrite Hcell by done. case_bool_decide; [| done].
    subst c. rewrite Z.lor_spec.
    assert (Hz : Z.testbit 16 i = false).
    { change 16 with (2 ^ 4). rewrite Z.pow2_bits_eqb by lia.
      apply Z.eqb_neq. lia. }
    by rewrite Hz, orb_false_r.
  - intros c Hc HcV. rewrite Hcell by done.
    rewrite bool_decide_eq_false_2; [done |]. intros ->. apply HcV. by left.
  - by left.
  - intros c Hc Hne. apply list_elem_of_singleton in Hc. done.
Qed.

(** The grid before the carver starts. *)
Lemma generate_prefix {A} p w (k : M A) (Q : A → world → Prop) :
  valid_params p →
  (∀ w1 placed,
     wf_grid (width p) (height p) (w_maze w1) →
     w_rng w1 = w_rng w → w_clock w1 = w_clock w →
     (placed = true →
      insert_42 p = true ∧ 5 ≤ height p ∧ 7 ≤ width p
      ∧ check_palace (height p) 5 7 (entry p) (exit p)
          (corner_42 (width p) (height p)).1
          (corner_42 (width p) (height p)).2 = true) →
     (∀ c, inside (width p) (height p) c →
           cell_at (w_maze w1) c = template p placed c) →
     returns k w1 Q) →
  returns (set_maze (replicate (Z.to_nat (height p))
                       (replicate (Z.to_nat (width p)) 3)) ;;
           store (entry p).2 (entry p).1 7 ;;
           store (exit p).2 (exit p).1 11 ;;
           (if insert_42 p then place_42 (entry p) (exit p) ;; ret tt
            else ret tt) ;;
           k) w Q.
Proof.
  intros Hp HQ. pose proof Hp as (HW & HH & Hne & [Hex Hey] & [Hox Hoy]).
  apply returns_bind, returns_set_maze.
  apply returns_bind. eapply returns_store;
    [simpl; apply wf_grid_replicate; lia | done ..|].
  apply returns_bind. eapply returns_store;
    [simpl; apply wf_grid_upd, wf_grid_replicate; lia | done ..|].
  cbn [w_maze w_rng w_clock]. fold (blank_grid p).
  set (w0 := World (blank_grid p) (w_rng w) (w_clock w)).
  assert (Hwf0 : wf_grid (width p) (height p) (w_maze w0))
    by (apply wf_grid_blank; lia).
  assert (Hblank : ∀ c, inside (width p) (height p) c →
            cell_at (w_maze w0) c = template p false c).
  { intros c Hc. simpl. by rewrite cell_at_blank. }
  apply returns_bind.
  destruct (insert_42 p) eqn:Hins.
  - apply returns_bind. eapply returns_mono;
      [by apply (place_42_result (width p) (height p)) |].
    intros b w1 Hb. apply returns_ret. destruct b.
    + destruct Hb as (H5 & H7 & Hcheck & Hwf1 & Hr1 & Hk1 & Hc1).
      apply (HQ w1 true); try done.
      intros c Hc. rewrite Hc1, Hblank by done. unfold template.
      cbn [andb]. by destruct (pattern_at _ _ c).
    + subst w1. by apply (HQ w0 false).
  - apply returns_ret. by apply (HQ w0 false).
Qed.

(** What [generate] returns, for any record that satisfies the invariant
    of the data model: the grid [gc] that the carver leaves is a tree of
    open connections on the visited cells [V]; it differs from the grid
    prepared only in the wall bits and the visited flag, and only on
    visited cells; with the perfect flag it is the result, without it the
    result is reached from it by removals of removable walls. *)
Lemma generate_run seed_tape fuel p w :
  valid_params p →
  2 * (width p * height p) + 1 < Z.of_nat fuel →
  returns (generate seed_tape fuel p) w
    (λ g w',
       g = w_maze w' ∧ wf_grid (width p) (height p) g
       ∧ ∃ placed gc V,
           (placed = true →
            insert_42 p = true ∧ 5 ≤ height p ∧ 7 ≤ width p
            ∧ check_palace (height p) 5 7 (entry p) (exit p)
                (corner_42 (width p) (height p)).1
                (corner_42 (width p) (height p)).2 = true)
           ∧ wf_grid (width p) (height p) gc
           ∧ carved (width p) (height p) (exit p) V gc
           ∧ (∀ c i, inside (width p) (height p) c → 2 ≤ i < 16 → i ≠ 4 →
                Z.testbit (cell_at gc c) i
                = Z.testbit (template p placed c) i)
           ∧ (∀ c, inside (width p) (height p) c → c ∉ V →
                cell_at gc c = template p placed c)
           ∧ (if perfect p then g = gc
              else rtc (wall_removal (width p) (height p)) gc g)).
Proof.
  intros Hp Hfuel. pose proof Hp as (HW & HH & Hne & Hen & Hex).
  set (W := width p) in *. set (H := height p) in *.
  unfold generate. apply generate_prefix; [done |].
  intros w1 placed Hwf1 _ _ Hplaced Hcells.
  assert (Hpre : ∀ c, inside W H c →
     Z.testbit (cell_at (w_maze w1) c) 0 = true
     ∧ Z.testbit (cell_at (w_maze w1) c) 1 = true
     ∧ Z.testbit (cell_at (w_maze w1) c) 4 = false).
  { intros c Hc. rewrite Hcells by done.
    destruct (template_cases p placed c) as [-> | [-> | [-> | ->]]]; done. }
  apply returns_bind.
  apply returns_mono with
    (Q := λ _ w2, w_maze w2 = w_maze w1).
  { destruct (seed p); [by apply returns_random_seed | by apply returns_ret]. }
  intros ? w2 Hw2. cbn beta.
  apply returns_bind. eapply returns_mono.
  { apply gen_DFS_spec; [by rewrite Hw2 | done | done]. }
  intros g3 w3 (-> & Hwf3 & Hrtc & _). cbn beta. rewrite Hw2 in Hrtc.
  destruct (carve_steps_pat_inv _ _ (w_maze w1) (exit p) _ _ Hrtc
              [exit p] [] (carve_pat_inv_init _ _ _ _ Hwf1 Hex Hpre))
    as (V & E & Hinv & _).
  cbn [fst snd] in Hinv.
  pose proof (carve_pat_inv_carved _ _ _ _ _ _ _ Hinv) as Hcarved.
  assert (Hbits : ∀ c i, inside W H c → 2 ≤ i < 16 → i ≠ 4 →
            Z.testbit (cell_at (w_maze w3) c) i
            = Z.testbit (template p placed c) i).
  { intros c i Hc Hi Hi4. rewrite <- Hcells by done.
    by apply (cp_bits _ _ _ _ _ _ _ _ Hinv). }
  assert (Hrest : ∀ c, inside W H c → c ∉ V →
            cell_at (w_maze w3) c = template p placed c).
  { intros c Hc HcV. rewrite <- Hcells by done.
    by apply (cp_rest _ _ _ _ _ _ _ _ Hinv). }
  apply returns_bind.
  destruct (perfect p); cbn [negb].
  - apply returns_ret. apply returns_get_maze.
    split; [done |]. split; [done |]. by exists placed, (w_maze w3), V.
  - apply returns_bind.
    eapply returns_mono; [by apply do_not_prefect_removals |].
    intros g4 w4 (-> & Hwf4 & Hrtc4). cbn beta.
    apply returns_ret. apply returns_get_maze.
    split; [done |]. split; [done |]. by exists placed, (w_maze w3), V.
Qed.

(** ** The pattern, the entry and the exit *)

Lemma pattern_at_footprint px py c :
  pattern_at px py c = true → in_footprint px py c.
Proof.
  unfold pattern_at, in_footprint.
  rewrite !andb_true_iff, !Z.leb_le, !Z.ltb_lt. lia.
Qed.

(** When [check_palace] accepts the corner, the entry lies outside the
    rectangle of the pattern; so does the exit, except when the entry is
    right of the rectangle and the row of the exit, read for its column,
    is too. *)
Lemma check_palace_outside len_m in_ out_ x y :
  check_palace len_m 5 7 in_ out_ x y = true →
  ¬ in_footprint x y in_
  ∧ (in_footprint x y out_ → x + 7 ≤ in_.1 ∧ x + 7 ≤ out_.2).
Proof.
  unfold check_palace, in_footprint.
  match goal with
  | |- (if ?b then _ else _) = true → _ => destruct b eqn:H1
  end.
  - intros _. rewrite !orb_true_iff, !andb_true_iff in H1.
    rewrite !Z.gtb_lt, !Z.geb_le in H1. lia.
  - match goal with
    | |- (if ?b then _ else _) = true → _ => destruct b eqn:H2
    end; [| intros [=]]. intros _.
    rewrite !andb_true_iff, !orb_true_iff in H2.
    rewrite !Z.gtb_lt, !Z.geb_le in H2. lia.
Qed.

Lemma land_0xc_bits v :
  Z.land v 0xc
  = (if Z.testbit v 3 then 8 else 0) + (if Z.testbit v 2 then 4 else 0).
Proof. low_bits v 4. Qed.

Lemma land_0xf_bits v :
  (Z.land v 0xf =? 0xf)
  = Z.testbit v 0 && Z.testbit v 1 && Z.testbit v 2 && Z.testbit v 3.
Proof. low_bits v 4. Qed.

Lemma template_entry p placed :
  entry p ≠ exit p →
  (placed = true →
   check_palace (height p) 5 7 (entry p) (exit p)
     (corner_42 (width p) (height p)).1
     (corner_42 (width p) (height p)).2 = true) →
  template p placed (entry p) = 7.
Proof.
  intros Hne Hplaced. unfold template.
  destruct placed; cbn [andb].
  - destruct (pattern_at _ _ (entry p)) eqn:Hpat.
    + apply pattern_at_footprint in Hpat.
      by destruct (check_palace_outside _ _ _ _ _ (Hplaced eq_refl)).
    + rewrite bool_decide_eq_false_2 by done.
      by rewrite bool_decide_eq_true_2.
  - rewrite bool_decide_eq_false_2 by done. by rewrite bool_decide_eq_true_2.
Qed.

(** The injector keeps the two wall bits of a pattern cell, and the bits
    from 2 to 15 of every cell. *)
Lemma safe_injection_pattern W H g g' c :
  wf_grid W H g → safe_injection W H g g' → inside W H c →
  (∀ i, 2 ≤ i < 16 →
        Z.testbit (cell_at g' c) i = Z.testbit (cell_at g c) i)
  ∧ (is_pattern (cell_at g c) = true →
     Z.testbit (cell_at g' c) 0 = Z.testbit (cell_at g c) 0
     ∧ Z.testbit (cell_at g' c) 1 = Z.testbit (cell_at g c) 1).
Proof.
  intros Hwf (_ & _ & Hlow & Hbd & Hpat & _) Hc. split; [by auto |].
  intros Hp. destruct (Hbd c Hc) as [Htop Hright]. split.
  - destruct (decide (c.2 = 0)) as [H0 | H0]; [by apply Htop |].
    apply (Hpat c North); [done | | by left].
    destruct Hc as [? ?]. unfold inside. simpl. lia.
  - destruct (decide (c.1 = W - 1)) as [H0 | H0]; [by apply Hright |].
    apply (Hpat c East); [done | | by left].
    destruct Hc as [? ?]. unfold inside. simpl. lia.
Qed.

(** ** The grid in the text of [write_to_file] *)

Lemma wall_mask_range W H g c : 0 ≤ wall_mask W H g c < 16.
Proof. unfold wall_mask. repeat destruct (_ || _); lia. Qed.

(** [effective_walls] returns the wall mask of the cell. *)
Lemma effective_walls_value W H w x y :
  wf_grid W H (w_maze w) → 0 ≤ x < W → 0 ≤ y < H →
  returns (effective_walls (Z.land (cell (w_maze w) x y) 3) x y) w
    (λ v w', w' = w ∧ v = wall_mask W H (w_maze w) (x, y)).
Proof.
  intros Hwf Hx Hy. unfold effective_walls.
  set (c := cell (w_maze w) x y).
  set (v0 := if y =? 0 then Z.lor (Z.land c 3) 1 else Z.land c 3).
  set (b8 := (x =? 0) || Z.testbit (cell (w_maze w) (x - 1) y) 1).
  set (b4 := (y =? H - 1) || Z.testbit (cell (w_maze w) x (y + 1)) 0).
  apply returns_bind.
  apply returns_mono with
    (Q := λ v1 w', w' = w ∧ v1 = if b8 then Z.lor v0 8 else v0).
  { subst b8. destruct (Z.eqb_spec x 0).
    - by apply returns_ret.
    - apply returns_bind. eapply returns_load; [done | lia | done |].
      rewrite truthy_2. cbn [orb].
      destruct (Z.testbit _ 1); by apply returns_ret. }
  intros v1 ? [-> ->]. cbn beta.
  apply returns_bind. eapply returns_len_maze; [done |].
  apply returns_bind.
  apply returns_mono with
    (Q := λ v2 w', w' = w
       ∧ v2 = if b4 then Z.lor (if b8 then Z.lor v0 8 else v0) 4
              else (if b8 then Z.lor v0 8 else v0)).
  { subst b4. destruct (Z.eqb_spec y (H - 1)).
    - by apply returns_ret.
    - apply returns_bind. eapply returns_load; [done | done | lia |].
      rewrite truthy_1. cbn [orb].
      destruct (Z.testbit _ 0); by apply returns_ret. }
  intros v2 ? [-> ->]. cbn beta.
  apply returns_bind. eapply returns_len_row0; [done | lia |].
  apply returns_ret. split; [done |].
  unfold wall_mask, cell_at. cbn [fst snd]. fold c b8 b4. subst v0.
  clearbody b8 b4. clearbody c.
  destruct (y =? 0), (x =? W - 1), b8, b4; rewrite ?orb_true_r, ?orb_false_r;
    low_bits c 2.
Qed.

(** A direction has its bit clear in the wall mask exactly when it is a
    step of the grid. *)
Lemma wall_mask_spec W H g c d :
  inside W H c →
  Z.testbit (wall_mask W H g c) (dir_bit d) = false
  ↔ path_step W H g c (neighbor c d).
Proof.
  intros Hc. rewrite (path_step_neighbor_iff W H g c d Hc).
  destruct c as [x y]. destruct Hc as [Hx Hy]. cbn [fst snd] in Hx, Hy.
  unfold wall_mask, inside, wall_bit. cbn [fst snd].
  destruct d; cbn [dir_bit neighbor fst snd];
    destruct (Z.eqb_spec y 0), (Z.eqb_spec x (W - 1)), (Z.eqb_spec y (H - 1)),
      (Z.eqb_spec x 0);
    destruct (Z.testbit (cell_at g (x, y)) 0),
      (Z.testbit (cell_at g (x, y)) 1),
      (Z.testbit (cell_at g (x, y + 1)) 0),
      (Z.testbit (cell_at g (x - 1, y)) 1);
    cbn [orb]; (split; [intros Hb; try discriminate Hb | intros [Hin Hb]]);
    try discriminate; try lia; try done; split; (lia || done).
Qed.

Lemma format_X_digit v :
  0 ≤ v < 16 → format_X v = String (hex_digit v) EmptyString.
Proof. intros Hv. check_below v 16%nat. Qed.

Lemma hex_value_digit v : 0 ≤ v < 16 → hex_value (hex_digit v) = Some v.
Proof. intros Hv. check_below v 16%nat. Qed.

(** A loop that yields, when each iteration leaves the world alone. *)
Lemma for_yield_map {A B} (f : A → list B) (P : A → Prop) (l : list A)
    (body : A → M (list B)) w :
  Forall P l → (∀ a, P a → body a w = (Ret (f a), w)) →
  for_yield l body w = (Ret (l ≫= f), w).
Proof.
  intros Hl Hb. induction Hl as [| a l Ha Hl IH]; [done |].
  simpl. rewrite bind_unfold, (Hb a Ha), bind_unfold, IH. reflexivity.
Qed.

Lemma bind_singleton_fmap {A B} (f : A → B) (l : list A) :
  l ≫= (λ a, [f a]) = f <$> l.
Proof. induction l as [| a l IH]; [done |]. by rewrite bind_cons, IH. Qed.

(** [write_to_file], with the loops over the grid done. *)
Lemma write_to_file_run W H fuel p path file_name w :
  wf_grid W H (w_maze w) →
  write_to_file fuel p path file_name w
  = (let name := if (String.length file_name <=? 0)%nat then output_file p
                 else file_name in
     if (String.length name <=? 0)%nat then ret None
     else
       let* path :=
         (if len path =? 0 then find_path_BFS fuel p else ret path) in
       ret (Some (name,
                  (String.concat "" (maze_rows W H (w_maze w))
                   ++ file_tail p path)%string))) w.
Proof.
  intros Hwf. unfold write_to_file. cbv zeta.
  set (name := if (String.length file_name <=? 0)%nat then output_file p
               else file_name).
  destruct (String.length name <=? 0)%nat; [done |].
  rewrite bind_unfold, (len_maze_wf W H) by done.
  rewrite bind_unfold.
  rewrite (for_yield_map
             (λ y, ((λ x, format_X (wall_mask W H (w_maze w) (x, y)))
                    <$> range 0 W) ++ [String newline EmptyString])
             (λ y, 0 ≤ y < H)); [reflexivity | apply range_bounds |].
  intros y Hy. rewrite bind_unfold, (len_row0_wf W H) by (done || lia).
  rewrite bind_unfold.
  rewrite (for_yield_map
             (λ x, [format_X (wall_mask W H (w_maze w) (x, y))])
             (λ x, 0 ≤ x < W)); [| apply range_bounds |].
  - by rewrite bind_singleton_fmap.
  - intros x Hx. rewrite bind_unfold, (load_inside W H) by done.
    rewrite bind_unfold.
    destruct (effective_walls_value W H w x y Hwf Hx Hy)
      as (v & w' & -> & -> & ->). reflexivity.
Qed.

(** The characters of the rows, one list for the whole grid. *)
Lemma maze_rows_chars W H g :
  maze_rows W H g
  = (λ a, String a EmptyString)
    <$> (y ← range 0 H;
         ((λ x, hex_digit (wall_mask W H g (x, y))) <$> range 0 W)
         ++ [newline]).
Proof.
  unfold maze_rows. induction (range 0 H) as [| y l IH]; [done |].
  rewrite !bind_cons, fmap_app, IH. f_equal.
  rewrite fmap_app. f_equal. rewrite <- list_fmap_compose.
  apply list_fmap_ext. intros i x _. cbn.
  apply format_X_digit, wall_mask_range.
Qed.

Lemma concat_chars (chars : list ascii) :
  String.concat "" ((λ a, String a EmptyString) <$> chars)
  = string_of_list_ascii chars.
Proof.
  induction chars as [| a [| b chars] IH]; [done | done |].
  change (String.concat "" ((λ a, String a EmptyString) <$> a :: b :: chars))
    with (String a EmptyString ++ "" ++
          String.concat "" ((λ a, String a EmptyString) <$> b :: chars))%string.
  rewrite IH. reflexivity.
Qed.

Lemma get_chars_app (chars : list ascii) (t : string) (i : nat) ch :
  chars !! i = Some ch →
  String.get i (string_of_list_ascii chars ++ t)%string = Some ch.
Proof.
  revert i. induction chars as [| a chars IH]; intros i Hi; [done |].
  destruct i as [| i]; simpl in *; [done |]. by apply IH.
Qed.

(** The element at a position of a list put together from pieces of one
    length. *)
Lemma lookup_bind_pieces {A B} (f : A → list B) (l : list A) (n i j : nat) a :
  (∀ a, length (f a) = n) → l !! i = Some a → (j < n)%nat →
  (l ≫= f) !! (i * n + j)%nat = f a !! j.
Proof.
  intros Hlen. revert i. induction l as [| b l IH]; intros i Hi Hj; [done |].
  rewrite bind_cons. destruct i as [| i]; simpl in Hi.
  - injection Hi as ->. simpl. rewrite lookup_app_l by (rewrite Hlen; lia).
    done.
  - rewrite lookup_app_r by (rewrite Hlen; simpl; lia).
    rewrite Hlen. replace (S i * n + j - n)%nat with (i * n + j)%nat by lia.
    by apply IH.
Qed.

(** The character that the text holds for a cell, and the newline that
    ends each row. *)
Lemma maze_text_get W H g (t : string) x y :
  0 ≤ x < W → 0 ≤ y < H →
  String.get (Z.to_nat (y * (W + 1) + x))
    (String.concat "" (maze_rows W H g) ++ t)%string
  = Some (hex_digit (wall_mask W H g (x, y)))
  ∧ String.get (Z.to_nat (y * (W + 1) + W))
      (String.concat "" (maze_rows W H g) ++ t)%string
    = Some newline.
Proof.
  intros Hx Hy. rewrite maze_rows_chars, concat_chars.
  assert (Hrow : ∀ y0 : Z,
    length (((λ x0, hex_digit (wall_mask W H g (x0, y0))) <$> range 0 W)
            ++ [newline]) = Z.to_nat (W + 1)).
  { intros y0. rewrite length_app, length_fmap. unfold range.
    rewrite length_seqZ. simpl. lia. }
  assert (Hy' : range 0 H !! Z.to_nat y = Some y).
  { unfold range. rewrite lookup_seqZ. split; lia. }
  split; apply get_chars_app.
  - replace (Z.to_nat (y * (W + 1) + x))
      with (Z.to_nat y * Z.to_nat (W + 1) + Z.to_nat x)%nat by nia.
    rewrite (lookup_bind_pieces _ _ _ _ _ y Hrow Hy') by lia.
    rewrite lookup_app_l by (rewrite length_fmap; unfold range;
                             rewrite length_seqZ; lia).
    rewrite list_lookup_fmap. unfold range. rewrite (proj2 (lookup_seqZ _ _ _ x));
      [| lia]. simpl. repeat (f_equal; try lia).
  - replace (Z.to_nat (y * (W + 1) + W))
      with (Z.to_nat y * Z.to_nat (W + 1) + Z.to_nat W)%nat by nia.
    rewrite (lookup_bind_pieces _ _ _ _ _ y Hrow Hy') by lia.
    rewrite lookup_app_r by (rewrite length_fmap; unfold range;
                             rewrite length_seqZ; lia).
    rewrite length_fmap. unfold range. rewrite length_seqZ.
    replace (Z.to_nat W - Z.to_nat (W - 0))%nat with 0%nat by lia. done.
Qed.

(** ** Without the pattern the maze is connected *)

Lemma passage_step_adjacent W H g a b :
  passage W H g a b → step_adjacent a b.
Proof.
  intros (_ & _ & d & -> & _). destruct a as [x y], d;
    unfold step_adjacent; simpl; lia.
Qed.

(** An open connection stays open when walls are removed. *)
Lemma safe_injection_passage W H g g' a b :
  safe_injection W H g g' → passage W H g a b → passage W H g' a b.
Proof.
  intros (_ & Hmono & _) (Ha & Hb & d & -> & Hw).
  split; [done |]. split; [done |]. exists d. split; [done |].
  rewrite wall_bit_owner in *.
  destruct (Z.testbit (cell_at g' (wall_owner a d)) (wall_idx d)) eqn:Hbit;
    [| done].
  apply Hmono in Hbit; [congruence | by apply wall_owner_inside' |].
  destruct d; simpl; lia.
Qed.

(** For a record that satisfies the invariant of the data model and asks
    for no pattern, whatever the perfect flag, any two cells of the grid
    that [generate] returns are joined by a path. *)
Lemma generate_connected seed_tape fuel p w :
  valid_params p → insert_42 p = false →
  2 * (width p * height p) + 1 < Z.of_nat fuel →
  returns (generate seed_tape fuel p) w
    (λ g w',
       g = w_maze w' ∧ wf_grid (width p) (height p) g
       ∧ ∀ a b, inside (width p) (height p) a →
                inside (width p) (height p) b →
                ∃ l, valid_path (width p) (height p) g a b l).
Proof.
  intros Hp Hins Hfuel. pose proof Hp as (HW & HH & Hne & Hen & Hex).
  eapply returns_mono; [by apply generate_run |].
  intros g w' (-> & Hwf & placed & gc & V & Hplaced & Hwfc & Hcarved & Hbits
               & Hrest & Hg).
  split; [done |]. split; [done |].
  assert (Hpl : placed = false).
  { destruct placed; [| done]. destruct (Hplaced eq_refl). congruence. }
  subst placed.
  destruct Hcarved as (_ & HrV & HV & _ & Hpath & Hclosed & _).
  assert (Hall : ∀ c, inside (width p) (height p) c → c ∈ V).
  { apply (closed_all _ _ V (exit p)); [done | done |].
    intros c d Hc Hd. destruct (Hclosed c d Hc Hd) as [? | Hpat]; [done |].
    exfalso. unfold is_pattern in Hpat. rewrite !Hbits in Hpat by (done || lia).
    destruct (template_cases p false (neighbor c d)) as [Ht | [Ht | [Ht | Ht]]];
      rewrite Ht in Hpat; try done.
    unfold template in Ht. cbn [andb] in Ht. by repeat case_bool_decide. }
  intros a b Ha Hb.
  destruct (Hpath a b (Hall a Ha) (Hall b Hb)) as (l & (Hh & Hl & Hch & _) & _).
  exists l. split; [done |]. split; [done |].
  eapply chain_mono; [| exact Hch]. intros x y Hxy.
  split; [by eapply passage_step_adjacent |].
  destruct (perfect p); [by rewrite Hg |].
  eapply safe_injection_passage; [| exact Hxy].
  by apply wall_removals_safe.
Qed.

(** ** The animated generator against the plain one *)

Lemma same_run_ret {A B} (a : A) (b : B) : same_run (ret a) (ret b).
Proof. by intros w. Qed.

Lemma same_run_bind {A A' B B'} (m : M A) (m' : M A') (k : A → M B)
    (k' : A' → M B') :
  same_run m m' → (∀ a a', same_run (k a) (k' a')) →
  same_run (bind m k) (bind m' k').
Proof.
  intros Hm Hk w. unfold bind. specialize (Hm w).
  destruct (m w) as [[a | e |] w1], (m' w) as [[a' | e' |] w1'];
    cbn [fst snd] in Hm; destruct Hm as [-> Hm]; try done;
    first [apply Hk | by subst e'].
Qed.

Lemma same_run_bind_same {A B B'} (m : M A) (k : A → M B) (k' : A → M B') :
  (∀ a, same_run (k a) (k' a)) → same_run (bind m k) (bind m k').
Proof.
  intros Hk w. unfold bind.
  destruct (m w) as [[a | e |] w1]; [apply Hk | done ..].
Qed.

Lemma same_run_for {A B} (l : list A) (body : A → M unit)
    (body' : A → M (list B)) :
  (∀ a, same_run (body a) (body' a)) →
  same_run (for_each l body) (for_yield l body').
Proof.
  intros Hb. induction l as [| a l IH]; cbn [for_each for_yield].
  - apply same_run_ret.
  - apply same_run_bind; [apply Hb |]. intros _ ys.
    intros w. specialize (IH w). unfold bind.
    destruct (for_each l body w) as [[[] | e |] w1],
      (for_yield l body' w) as [[zs | e' |] w1']; done.
Qed.

Lemma same_run_gen_DFS fuel mzParam animated :
  same_run (gen_DFS fuel mzParam) (gen_DFS_animated fuel mzParam animated).
Proof.
  unfold gen_DFS, gen_DFS_animated. destruct (exit mzParam) as [x y].
  apply same_run_bind_same. intros v. apply same_run_bind_same. intros _.
  intros w. rewrite gen_DFS_animated_loop_spec. unfold bind.
  by destruct (gen_DFS_loop fuel mzParam [(x, y, 15)] w) as [[[] | e |] w1].
Qed.

Lemma same_run_then_ret {A B C} (m : M A) (m' : M B) (c : C) :
  same_run m m' → same_run (m ;; ret c) m'.
Proof.
  intros Hm w. specialize (Hm w). unfold bind, ret.
  by destruct (m w) as [[a | e |] w1].
Qed.

Lemma same_run_do_not_prefect mzParam animated :
  same_run (do_not_prefect mzParam ;; ret tt)
    (do_not_prefect_animated mzParam animated).
Proof.
  apply same_run_then_ret.
  unfold do_not_prefect, do_not_prefect_animated.
  destruct (Qle_bool _ 0); [intros w; split; [reflexivity | exact I] |].
  apply same_run_bind_same. intros h. apply same_run_bind.
  - apply same_run_for. intros y. apply same_run_bind_same. intros w0.
    apply same_run_for. intros x. apply same_run_bind_same. intros r.
    apply same_run_ret.
  - intros _ ys w. split; [reflexivity | exact I].
Qed.

(** On an empty list [generate_animated] runs as [generate] does. *)
Lemma same_run_generate seed_tape fuel p w :
  w_maze w = [] →
  (generate_animated seed_tape fuel p w).2 = (generate seed_tape fuel p w).2
  ∧ match (generate seed_tape fuel p w).1,
          (generate_animated seed_tape fuel p w).1 with
    | Ret _, Ret _ => True
    | Raise e, Raise e' => e = e'
    | OutOfFuel, OutOfFuel => True
    | _, _ => False
    end.
Proof.
  intros Hw. unfold generate_animated, generate.
  rewrite !(bind_unfold get_maze). unfold get_maze. cbv beta iota.
  rewrite Hw, app_nil_l.
  match goal with
  | |- (?m' w).2 = (?m w).2 ∧ _ =>
      enough (Hs : same_run m m') by exact (Hs w)
  end.
  do 5 (apply same_run_bind_same; intros _).
  apply same_run_bind; [apply same_run_gen_DFS |]. intros _ ys.
  apply same_run_bind.
  - destruct (negb (perfect p)); [apply same_run_do_not_prefect |].
    apply same_run_ret.
  - intros _ zs. by intros w1.
Qed.

(** [generate] returns the maze it leaves. *)
Lemma generate_returns_maze seed_tape fuel p w g w' :
  generate seed_tape fuel p w = (Ret g, w') → g = w_maze w'.
Proof.
  unfold generate. intros Hrun.
  repeat (apply bind_inv_Ret in Hrun as (? & ? & _ & Hrun)).
  unfold get_maze in Hrun. by injection Hrun as <- <-.
Qed.

(** What [generate_animated] yields starts with the three [None] of its
    first stages and ends with the [None] that closes the last stage. *)
Lemma generate_animated_yields seed_tape fuel p w ys w' :
  generate_animated seed_tape fuel p w = (Ret ys, w') →
  take 3 ys = [None; None; None] ∧ last ys = Some None.
Proof.
  unfold generate_animated. intros Hrun.
  do 6 (apply bind_inv_Ret in Hrun as (? & ? & _ & Hrun)).
  apply bind_inv_Ret in Hrun as (ys1 & w1 & Hgen & Hrun).
  apply bind_inv_Ret in Hrun as (zs & w2 & Hinj & Hrun).
  unfold ret in Hrun. injection Hrun as <- <-. split; [done |].
  assert (Hys1 : ∃ l, ys1 = l ++ [None]).
  { unfold gen_DFS_animated in Hgen. destruct (exit p) as [ex ey].
    do 2 (apply bind_inv_Ret in Hgen as (? & ? & _ & Hgen)).
    rewrite gen_DFS_animated_loop_spec in Hgen.
    destruct (gen_DFS_loop _ _ _ _) as [[[] | e |] w3]; [| done ..].
    injection Hgen as <- _. eauto. }
  assert (Hzs : zs = [] ∨ ∃ l, zs = l ++ [None]).
  { destruct (negb (perfect p)); [| left; by injection Hinj as <- _].
    unfold do_not_prefect_animated in Hinj.
    destruct (Qle_bool _ 0); [left; by injection Hinj as <- _ |].
    do 2 (apply bind_inv_Ret in Hinj as (? & ? & _ & Hinj)).
    injection Hinj as <- _. right. eauto. }
  destruct Hys1 as [l1 ->].
  assert (Hlast : ∀ pre l : list (option area),
            last (pre ++ l ++ [None]) = Some None).
  { intros pre l. by rewrite app_assoc, last_snoc. }
  destruct Hzs as [-> | [l2 ->]].
  - rewrite app_nil_r. exact (Hlast [None; None; None] l1).
  - exact (Hlast ([None; None; None] ++ l1 ++ [None]) l2).
Qed.

(** ** What every store keeps, every function keeps *)

Lemma preserves_for_yield I {A B} (l : list A) (body : A → M (list B)) :
  (∀ a, preserves I (body a)) → preserves I (for_yield l body).
Proof.
  intros Hb. induction l as [| a l IH]; simpl.
  - apply preserves_ret.
  - apply preserves_bind; [apply Hb |]. intros ys.
    apply preserves_bind; [apply IH |]. intros zs. apply preserves_ret.
Qed.

Section Frame.

(** A property of the maze that no assignment [maze[y][x] = v] breaks. *)
Variable J : grid → Prop.

Let I : world → Prop := λ w, J (w_maze w).

Hypothesis store_keeps : ∀ y x v, preserves I (store y x v).

Lemma preserves_same_maze {A} (m : M A) :
  (∀ w, w_maze (m w).2 = w_maze w) → preserves I m.
Proof. intros Hm w HI. unfold I. by rewrite Hm. Qed.

Lemma preserves_load y x : preserves I (load y x).
Proof. apply preserves_read_only, read_only_load. Qed.

Lemma preserves_len_maze : preserves I len_maze.
Proof. apply preserves_read_only, read_only_len_maze. Qed.

Lemma preserves_len_row0 : preserves I len_row0.
Proof. apply preserves_read_only, read_only_len_row0. Qed.

Lemma preserves_get_maze : preserves I get_maze.
Proof. by intros w. Qed.

Lemma preserves_random_choice {A} (seq : list A) :
  preserves I (random_choice seq).
Proof.
  apply preserves_same_maze. intros w. unfold random_choice.
  by destruct (seq !! _).
Qed.

Lemma preserves_random_random : preserves I random_random.
Proof. by apply preserves_same_maze. Qed.

Lemma preserves_random_seed seed_tape a :
  preserves I (random_seed seed_tape a).
Proof. by apply preserves_same_maze. Qed.

Lemma preserves_clock : preserves I time_monotonic.
Proof. by apply preserves_same_maze. Qed.

Ltac frame_with tac :=
  repeat first
    [ tac
    | apply preserves_ret | apply preserves_raise
    | apply preserves_out_of_fuel
    | apply store_keeps
    | apply preserves_load | apply preserves_len_maze
    | apply preserves_len_row0 | apply preserves_get_maze
    | apply preserves_random_choice | apply preserves_random_random
    | apply preserves_random_seed | apply preserves_clock
    | apply preserves_for_each; intros ?
    | apply preserves_for_yield; intros ?
    | apply preserves_if
    | apply preserves_bind; [| intros ?]
    | match goal with
      | |- preserves _ (match ?x with _ => _ end) => destruct x
      end ].

Ltac frame := frame_with fail.

Lemma preserves_place_42 in_ out_ : preserves I (place_42 in_ out_).
Proof. unfold place_42. frame. Qed.

Lemma preserves_clear_tmp_data : preserves I clear_tmp_data.
Proof. unfold clear_tmp_data. frame. Qed.

Lemma preserves_carve_check q bit keep edge ny nx :
  preserves I (carve_check q bit keep edge ny nx).
Proof. unfold carve_check. frame. Qed.

Lemma preserves_gen_DFS_body mzParam m_path :
  preserves I (gen_DFS_body mzParam m_path).
Proof.
  unfold gen_DFS_body. frame_with ltac:(apply preserves_carve_check).
Qed.

Lemma preserves_gen_DFS_loop fuel mzParam m_path :
  preserves I (gen_DFS_loop fuel mzParam m_path).
Proof.
  revert m_path. induction fuel as [| fuel IH]; intros m_path; simpl.
  - apply preserves_out_of_fuel.
  - frame_with ltac:(first [apply preserves_gen_DFS_body | apply IH]).
Qed.

Lemma preserves_gen_DFS fuel mzParam : preserves I (gen_DFS fuel mzParam).
Proof.
  unfold gen_DFS. destruct (exit mzParam) as [x y].
  frame_with ltac:(apply preserves_gen_DFS_loop).
Qed.

Lemma preserves_gen_DFS_animated fuel mzParam animated :
  preserves I (gen_DFS_animated fuel mzParam animated).
Proof.
  intros w HI.
  destruct (same_run_gen_DFS fuel mzParam animated w) as [-> _].
  by apply preserves_gen_DFS.
Qed.

Lemma preserves_effective_walls v x y : preserves I (effective_walls v x y).
Proof. unfold effective_walls. frame. Qed.

Lemma preserves_removable_check w bit keep (edge : M bool) ny nx :
  preserves I edge → preserves I (removable_check w bit keep edge ny nx).
Proof. intros He. unfold removable_check. frame_with ltac:(apply He). Qed.

Lemma preserves_dead_end_body pr x y : preserves I (dead_end_body pr x y).
Proof.
  unfold dead_end_body.
  frame_with ltac:(first
    [ apply preserves_effective_walls
    | apply preserves_removable_check; unfold is_last_row, is_last_col ]).
Qed.

Lemma preserves_do_not_prefect mzParam : preserves I (do_not_prefect mzParam).
Proof.
  unfold do_not_prefect. frame_with ltac:(apply preserves_dead_end_body).
Qed.

Lemma preserves_do_not_prefect_animated mzParam animated :
  preserves I (do_not_prefect_animated mzParam animated).
Proof.
  unfold do_not_prefect_animated.
  frame_with ltac:(apply preserves_dead_end_body).
Qed.

Lemma preserves_stamp_frame y x i : preserves I (stamp y x i).
Proof. unfold stamp. frame. Qed.

Lemma preserves_dfs_stamp_block_frame c best i x y q :
  preserves I (dfs_stamp_block c best i x y q).
Proof.
  unfold dfs_stamp_block. frame_with ltac:(apply preserves_stamp_frame).
Qed.

Lemma preserves_find_path_DFS_body_frame mzParam st :
  preserves I (find_path_DFS_body mzParam st).
Proof.
  unfold find_path_DFS_body. destruct (exit mzParam) as [out_x out_y].
  frame_with ltac:(first
    [ apply preserves_dfs_stamp_block_frame
    | apply preserves_read_only, read_only_dfs_open_dirs ]).
Qed.

Lemma preserves_find_path_DFS_loop_frame fuel mzParam st :
  preserves I (find_path_DFS_loop fuel mzParam st).
Proof.
  revert st. induction fuel as [| fuel IH]; intros st; simpl.
  - apply preserves_out_of_fuel.
  - frame_with ltac:(first
      [ apply preserves_find_path_DFS_body_frame | apply IH ]).
Qed.

Lemma preserves_find_path_DFS_frame fuel mzParam best :
  preserves I (find_path_DFS fuel mzParam best).
Proof.
  unfold find_path_DFS. destruct (entry mzParam) as [x y].
  frame_with ltac:(apply preserves_find_path_DFS_loop_frame).
Qed.

Lemma preserves_generate_tail seed_tape fuel mzParam :
  preserves I
    (store (entry mzParam).2 (entry mzParam).1 7 ;;
     store (exit mzParam).2 (exit mzParam).1 11 ;;
     (if insert_42 mzParam
      then place_42 (entry mzParam) (exit mzParam) ;; ret tt
      else ret tt) ;;
     match seed mzParam with
     | Some a => random_seed seed_tape a
     | None => ret tt
     end ;;
     let* ys := gen_DFS_animated fuel mzParam true in
     let* zs :=
       (if negb (perfect mzParam) then do_not_prefect_animated mzParam true
        else ret []) in
     ret ([None; None; None] ++ ys ++ zs)).
Proof.
  frame_with ltac:(first
    [ apply preserves_place_42 | apply preserves_gen_DFS_animated
    | apply preserves_do_not_prefect_animated ]).
Qed.

Lemma preserves_generate_rest seed_tape fuel mzParam :
  preserves I
    (store (entry mzParam).2 (entry mzParam).1 7 ;;
     store (exit mzParam).2 (exit mzParam).1 11 ;;
     (if insert_42 mzParam
      then place_42 (entry mzParam) (exit mzParam) ;; ret tt
      else ret tt) ;;
     match seed mzParam with
     | Some a => random_seed seed_tape a
     | None => ret tt
     end ;;
     gen_DFS fuel mzParam ;;
     (if negb (perfect mzParam) then do_not_prefect mzParam ;; ret tt
      else ret tt) ;;
     get_maze).
Proof.
  frame_with ltac:(first
    [ apply preserves_place_42 | apply preserves_gen_DFS
    | apply preserves_do_not_prefect ]).
Qed.

End Frame.

(** An assignment to a cell keeps the shape of the list of rows. *)
Lemma store_shape s y x v :
  preserves (λ w, shape (w_maze w) = s) (store y x v).
Proof.
  intros w Hs. unfold store, py_get, py_set.
  destruct (py_index (length (w_maze w)) y) as [ky |]; [| done].
  destruct (w_maze w !! ky) as [row |] eqn:Hrow; [| done].
  destruct (py_index (length row) x) as [kx |]; [| done].
  cbn [snd w_maze]. rewrite <- Hs. unfold shape.
  rewrite list_fmap_insert, length_insert.
  apply list_insert_id. by rewrite list_lookup_fmap, Hrow.
Qed.

(** ** Drawing *)

Lemma draw_filled_rect_unfold x y w h color :
  draw_filled_rect x y w h color
  = j ← range 0 h; i ← range 0 w; [PixelPut (x + i) (y + j) (argb color)].
Proof. reflexivity. Qed.

(** The pixels of a rectangle. *)
Lemma elem_of_draw_filled_rect x y w h color e :
  e ∈ draw_filled_rect x y w h color
  ↔ ∃ px py, e = PixelPut px py (argb color) ∧ in_rect x y w h px py.
Proof.
  rewrite draw_filled_rect_unfold. rewrite list_elem_of_bind. split.
  - intros (j & Hin & Hj). apply list_elem_of_bind in Hin as (i & Hin & Hi).
    apply list_elem_of_singleton in Hin as ->.
    apply elem_of_range in Hi, Hj. exists (x + i), (y + j).
    split; [done |]. unfold in_rect. lia.
  - intros (px & py & -> & [Hx Hy]). exists (py - y). split.
    + apply list_elem_of_bind. exists (px - x). split.
      * apply list_elem_of_singleton. f_equal; lia.
      * apply elem_of_range. lia.
    + apply elem_of_range. lia.
Qed.

Lemma NoDup_draw_filled_rect x y w h color :
  NoDup (draw_filled_rect x y w h color).
Proof.
  rewrite draw_filled_rect_unfold.
  apply NoDup_bind; [| | apply NoDup_range].
  - intros j1 j2 e _ _ H1 H2.
    apply list_elem_of_bind in H1 as (i1 & H1 & _).
    apply list_elem_of_bind in H2 as (i2 & H2 & _).
    apply list_elem_of_singleton in H1, H2. subst e.
    injection H2 as _ Hj. lia.
  - intros j _. apply NoDup_bind; [| | apply NoDup_range].
    + intros i1 i2 e _ _ H1 H2.
      apply list_elem_of_singleton in H1, H2. subst e.
      injection H2 as Hi. lia.
    + intros i _. apply NoDup_singleton.
Qed.

(** The colour handed to the library. *)
Lemma argb_spec color :
  0 ≤ argb color < 2 ^ 32
  ∧ Z.land (argb color) 0xffffff = Z.land color 0xffffff
  ∧ Z.land (argb color) 0xff000000
    = if Z.land color 0xff000000 =? 0 then 0xff000000
      else Z.land color 0xff000000.
Proof.
  unfold argb. cbv zeta.
  set (c := Z.land 0xffffffff color).
  assert (Hc : 0 ≤ c < 2 ^ 32).
  { unfold c. rewrite Z.land_comm. change 0xffffffff with (Z.ones 32).
    rewrite Z.land_ones by lia. apply Z.mod_pos_bound. lia. }
  assert (Hlow : Z.land c 0xffffff = Z.land color 0xffffff).
  { unfold c. rewrite (Z.land_comm 0xffffffff), <- Z.land_assoc.
    reflexivity. }
  assert (Hhigh : Z.land c 0xff000000 = Z.land color 0xff000000).
  { unfold c. rewrite (Z.land_comm 0xffffffff), <- Z.land_assoc.
    reflexivity. }
  rewrite <- Hhigh.
  destruct (Z.eqb_spec (Z.land c 0xff000000) 0) as [Hz | Hnz];
    [| by split; [| split]].
  assert (Hadd : c + 0xff000000 = Z.lor c 0xff000000).
  { rewrite <- Z.lxor_lor by done. by apply Z.add_nocarry_lxor. }
  assert (Hsmall : c < 2 ^ 24).
  { destruct (Z.lt_ge_cases c (2 ^ 24)) as [| Hge]; [done |]. exfalso.
    assert (Hbit : ∃ n, 24 ≤ n < 32 ∧ Z.testbit c n = true).
    { exists (Z.log2 c).
      assert (Hl : 24 ≤ Z.log2 c) by (apply Z.log2_le_pow2; lia).
      assert (Hu : Z.log2 c < 32) by (apply Z.log2_lt_pow2; lia).
      split; [lia |]. apply Z.bit_log2. lia. }
    destruct Hbit as (n & Hn & Hbit).
    assert (Hb : Z.testbit (Z.land c 0xff000000) n = true).
    { rewrite Z.land_spec, Hbit.
      assert (n = 24 ∨ n = 25 ∨ n = 26 ∨ n = 27 ∨ n = 28 ∨ n = 29
              ∨ n = 30 ∨ n = 31) as Hcases by lia.
      by destruct Hcases as [-> | [-> | [-> | [-> | [-> | [-> | [-> | ->]]]]]]]. }
    rewrite Hz in Hb. by rewrite Z.bits_0 in Hb. }
  split; [lia |]. rewrite Hadd. split.
  - rewrite Z.land_lor_distr_l. change (Z.land 0xff000000 0xffffff) with 0.
    by rewrite Z.lor_0_r.
  - rewrite Z.land_lor_distr_l, Hz. reflexivity.
Qed.

Section Draw.

Variables (WIN_W WIN_MH WIN_H : Z) (colors : gmap string Z).
Variable param : CMazeParams.

Let t := w_wall_thickness param.
Let s := w_cell_size param.

Hypothesis Ht : 0 ≤ t.
Hypothesis Hs : 0 ≤ s.

(** What is drawn for a cell stays in the block of the cell. *)
Lemma draw_cell_block wall_color pattern_color x y val px py col :
  PixelPut px py col ∈ draw_cell colors param wall_color pattern_color x y val →
  cell_block param (x, y) px py.
Proof.
  unfold draw_cell, cell_block, in_rect. cbn [fst snd]. fold t s.
  rewrite !elem_of_app.
  intros [Hin | [Hin | Hin]];
    repeat match type of Hin with
           | _ ∈ (if ?b then _ else _) => destruct b
           end;
    try (by apply elem_of_nil in Hin);
    apply elem_of_draw_filled_rect in Hin as (? & ? & [= <- <- _] & [? ?]);
    lia.
Qed.

(** The side painted for a step of the path lies in the blocks of both
    cells when the cells are next to each other, and on no inside. *)
Lemma path_segment_strip path_color old cur px py col c :
  PixelPut px py col ∈ path_segment param path_color old cur →
  ¬ cell_inside param c px py.
Proof.
  unfold path_segment, cell_inside, in_rect. fold t s.
  destruct cur as [x y], old as [ox oy], c as [cx cy]. cbn [fst snd].
  intros Hin [Hx Hy].
  repeat match type of Hin with
         | _ ∈ (if ?b then _ else _) => destruct b
         end;
    apply elem_of_draw_filled_rect in Hin as (? & ? & [= <- <- _] & [? ?]).
  - destruct (Z.lt_ge_cases cy oy); nia.
  - destruct (Z.lt_ge_cases cy y); nia.
  - destruct (Z.lt_ge_cases cx ox); nia.
  - destruct (Z.lt_ge_cases cx x); nia.
Qed.

Lemma path_segment_block path_color old cur px py col :
  PixelPut px py col ∈ path_segment param path_color old cur →
  ∃ c, (c.1 = old.1 ∨ c.1 = cur.1) ∧ (c.2 = old.2 ∨ c.2 = cur.2)
       ∧ cell_block param c px py.
Proof.
  unfold path_segment, cell_block, in_rect. fold t s.
  destruct cur as [x y], old as [ox oy]. cbn [fst snd].
  intros Hin.
  destruct (Z.eqb_spec x ox) as [-> | Hx];
    [destruct (Z.gtb_spec oy y) | destruct (Z.gtb_spec ox x)];
    apply elem_of_draw_filled_rect in Hin as (? & ? & [= <- <- _] & [? ?]).
  - exists (ox, oy). cbn [fst snd]. split; [by left |]. split; [by left |]. lia.
  - exists (ox, y). cbn [fst snd]. split; [by left |]. split; [by right |]. lia.
  - exists (ox, y). cbn [fst snd]. split; [by left |]. split; [by right |]. lia.
  - exists (x, y). cbn [fst snd]. split; [by right |]. split; [by right |]. lia.
Qed.

(** The insides of two cells do not meet. *)
Lemma cell_inside_inj c1 c2 px py :
  cell_inside param c1 px py → cell_inside param c2 px py → c1 = c2.
Proof.
  unfold cell_inside, in_rect. fold t s.
  destruct c1 as [x1 y1], c2 as [x2 y2]. cbn [fst snd].
  intros [Hx1 Hy1] [Hx2 Hy2].
  assert (x1 = x2).
  { destruct (Z.lt_trichotomy x1 x2) as [? | [? | ?]]; [nia | done | nia]. }
  assert (y1 = y2).
  { destruct (Z.lt_trichotomy y1 y2) as [? | [? | ?]]; [nia | done | nia]. }
  congruence.
Qed.

(** The block of a cell of the grid lies in the part of the window that
    shows the maze. *)
Lemma cell_block_window W H c px py :
  WIN_W = W * (s + t) + t → WIN_MH = H * (s + t) + t →
  inside W H c → cell_block param c px py →
  in_rect 0 0 WIN_W WIN_MH px py.
Proof.
  unfold cell_block, in_rect, inside. fold t s.
  destruct c as [x y]. cbn [fst snd]. intros -> -> [Hx Hy] [Hpx Hpy].
  nia.
Qed.

(** The last stage of [draw_maze] returns, whatever the path, and what it
    draws is: for every step of the path the side it crosses; for every
    cell of the path but the first and the last, its inside; and blanks in
    the status line. *)
Lemma draw_path_run path_ w :
  ∃ calls,
    draw_path WIN_H colors param path_ w = (Ret calls, w)
    ∧ ∀ e, e ∈ calls ↔
        (∃ i old cur,
           path_ !! i = Some old ∧ path_ !! S i = Some cur
           ∧ e ∈ path_segment param
                   (default 0xFFe0e020 (colors !! "path"%string)) old cur)
        ∨ (∃ i cur,
             (0 < i)%nat ∧ (S i < length path_)%nat ∧ path_ !! i = Some cur
             ∧ (e ∈ draw_filled_rect (cur.1 * (t + s) + t)
                      (cur.2 * (t + s) + t) s s
                      (default 0xFFe0e020 (colors !! "path"%string))
                ∨ e = StringPut 0 (WIN_H - 20) 0xf0f0f0 " ")).
Proof.
  unfold draw_path. fold t s.
  set (pc := default 0xFFe0e020 (colors !! "path"%string)).
  set (f := λ i : Z,
         match path_ !! Z.to_nat i, path_ !! Z.to_nat (i - 1) with
         | Some cur, Some old =>
             path_segment param pc old cur
             ++ draw_filled_rect (cur.1 * (t + s) + t) (cur.2 * (t + s) + t)
                  s s pc
             ++ [StringPut 0 (WIN_H - 20) 0xf0f0f0 " "]
         | _, _ => []
         end).
  assert (Hget : ∀ i, 0 ≤ i < len path_ →
            py_get path_ i = path_ !! Z.to_nat i
            ∧ is_Some (path_ !! Z.to_nat i)).
  { intros i Hi. unfold len in Hi. split.
    - apply py_get_inside. lia.
    - apply lookup_lt_is_Some. lia. }
  rewrite bind_unfold.
  rewrite (for_yield_map f (λ i, 1 ≤ i < len path_ - 1));
    [| apply range_bounds |]; cycle 1.
  { intros i Hi. unfold f.
    destruct (Hget i ltac:(lia)) as [-> [[x y] ->]].
    destruct (Hget (i - 1) ltac:(lia)) as [-> [old ->]]. reflexivity. }
  rewrite bind_unfold.
  set (final := if len path_ >? 1
                then match path_ !! Z.to_nat (len path_ - 1),
                           path_ !! Z.to_nat (len path_ - 1 - 1) with
                     | Some cur, Some old => path_segment param pc old cur
                     | _, _ => []
                     end
                else []).
  assert (Hfinal :
    (if len path_ >? 1
     then match py_get path_ (len path_ - 1),
                py_get path_ (len path_ - 1 - 1) with
          | Some cur, Some old => ret (path_segment param pc old cur)
          | _, _ => raise IndexError
          end
     else ret []) w = (Ret final, w)).
  { unfold final. destruct (Z.gtb_spec (len path_) 1) as [Hl |]; [| done].
    destruct (Hget (len path_ - 1) ltac:(lia)) as [-> [cur ->]].
    destruct (Hget (len path_ - 1 - 1) ltac:(lia)) as [-> [old ->]].
    reflexivity. }
  rewrite Hfinal. unfold ret. eexists. split; [reflexivity |].
  intros e. rewrite elem_of_app, list_elem_of_bind. split.
  - intros [(i & He & Hi) | He].
    + apply elem_of_range in Hi. unfold f in He. unfold len in Hi.
      destruct (path_ !! Z.to_nat i) as [cur |] eqn:Hcur;
        [| by apply elem_of_nil in He].
      destruct (path_ !! Z.to_nat (i - 1)) as [old |] eqn:Hold;
        [| by apply elem_of_nil in He].
      rewrite !elem_of_app in He. destruct He as [He | [He | He]].
      * left. exists (Z.to_nat (i - 1)), old, cur. split; [done |].
        split; [| done].
        by replace (S (Z.to_nat (i - 1))) with (Z.to_nat i) by lia.
      * right. exists (Z.to_nat i), cur.
        split; [lia |]. split; [lia |]. split; [done |]. by left.
      * right. exists (Z.to_nat i), cur.
        split; [lia |]. split; [lia |]. split; [done |]. right.
        by apply list_elem_of_singleton in He.
    + unfold final in He.
      destruct (Z.gtb_spec (len path_) 1) as [Hl |];
        [| by apply elem_of_nil in He].
      destruct (path_ !! Z.to_nat (len path_ - 1)) as [cur |] eqn:Hcur;
        [| by apply elem_of_nil in He].
      destruct (path_ !! Z.to_nat (len path_ - 1 - 1)) as [old |] eqn:Hold;
        [| by apply elem_of_nil in He].
      left. exists (Z.to_nat (len path_ - 1 - 1)), old, cur.
      split; [done |]. split; [| done].
      by replace (S (Z.to_nat (len path_ - 1 - 1)))
        with (Z.to_nat (len path_ - 1)) by lia.
  - intros [(i & old & cur & Hold & Hcur & He) | (i & cur & Hi1 & Hi2 & Hcur & He)].
    + pose proof (lookup_lt_Some _ _ _ Hcur) as Hlt.
      destruct (decide (S (S i) = length path_)) as [Hlast | Hmid].
      * right. unfold final, len.
        destruct (Z.gtb_spec (Z.of_nat (length path_)) 1); [| lia].
        replace (Z.to_nat (Z.of_nat (length path_) - 1)) with (S i) by lia.
        replace (Z.to_nat (Z.of_nat (length path_) - 1 - 1)) with i by lia.
        by rewrite Hcur, Hold.
      * left. exists (Z.of_nat (S i)). split.
        -- unfold f. rewrite Nat2Z.id.
           replace (Z.to_nat (Z.of_nat (S i) - 1)) with i by lia.
           rewrite Hcur, Hold. rewrite elem_of_app. by left.
        -- apply elem_of_range. unfold len. lia.
    + left. exists (Z.of_nat i). split.
      * unfold f. rewrite Nat2Z.id.
        destruct (lookup_lt_is_Some_2 path_ (Z.to_nat (Z.of_nat i - 1))
                    ltac:(lia)) as [old Hold].
        rewrite Hcur, Hold. rewrite !elem_of_app. right.
        destruct He as [He | ->]; [by left |].
        right. by apply list_elem_of_singleton.
      * apply elem_of_range. unfold len. lia.
Qed.

(** [draw_maze] on a grid of [H] rows of [W] cells: it returns, and every
    pixel it puts is on the frame, in the block of a cell of the grid that
    lies in the region, or put by the last stage for the path. *)
Lemma draw_maze_calls W H path_ draw_area w :
  WIN_W = W * (s + t) + t → WIN_MH = H * (s + t) + t →
  0 ≤ W → wf_grid W H (w_maze w) →
  ∃ calls pcalls,
    draw_maze WIN_W WIN_MH WIN_H colors param path_ draw_area w
    = (Ret calls, w)
    ∧ draw_path WIN_H colors param path_ w = (Ret pcalls, w)
    ∧ ∀ px py col, PixelPut px py col ∈ calls →
        on_frame WIN_W WIN_MH t px py
        ∨ (∃ c, inside W H c ∧ in_area draw_area c
                ∧ cell_block param c px py)
        ∨ PixelPut px py col ∈ pcalls.
Proof.
  intros HWW HWH HW Hwf.
  assert (HH : 0 ≤ H) by (destruct Hwf; lia).
  destruct (draw_path_run path_ w) as (pcalls & Hpath & _).
  unfold draw_maze. fold t.
  rewrite bind_unfold, (len_maze_wf W H) by done.
  set (len_0 := if H >? 0 then W else 0).
  assert (Hlen0 : (if H >? 0 then len_row0 else ret 0) w = (Ret len_0, w)).
  { unfold len_0. destruct (Z.gtb_spec H 0); [| done].
    by apply (len_row0_wf W H). }
  rewrite bind_unfold, Hlen0.
  set (ar := match draw_area with
             | None => (0, 0, len_0, H)
             | Some (x_from, y_from, x_to, y_to) =>
                 if H >? 0
                 then (Z.min (Z.max 0 x_from) len_0,
                       Z.min (Z.max 0 y_from) H,
                       Z.min (Z.max 0 x_to) len_0,
                       Z.min (Z.max 0 y_to) H)
                 else (Z.max 0 x_from, Z.min (Z.max 0 y_from) H,
                       Z.max 0 x_to, Z.min (Z.max 0 y_to) H)
             end).
  destruct ar as [[[xf yf] xt] yt] eqn:Har.
  assert (Hbounds : ∀ x y, xf ≤ x < xt → yf ≤ y < yt →
            inside W H (x, y) ∧ in_area draw_area (x, y)).
  { intros x y Hx Hy. unfold ar, len_0 in Har.
    destruct draw_area as [[[[x1 y1] x2] y2] |]; cbn [in_area fst snd].
    - destruct (Z.gtb_spec H 0); injection Har as <- <- <- <-;
        unfold inside; cbn [fst snd]; lia.
    - injection Har as <- <- <- <-. destruct (Z.gtb_spec H 0);
        unfold inside; cbn [fst snd]; lia. }
  rewrite bind_unfold.
  set (wc := default 0xff959696 (colors !! "wall"%string)).
  set (ptc := default 0xffffffff (colors !! "pattern"%string)).
  rewrite (for_yield_map
             (λ y, range xf xt ≫= λ x,
                draw_cell colors param wc ptc x y (cell (w_maze w) x y))
             (λ y, yf ≤ y < yt)); [| apply range_bounds |]; cycle 1.
  { intros y Hy.
    apply (for_yield_map _ (λ x, xf ≤ x < xt)); [apply range_bounds |].
    intros x Hx. destruct (Hbounds x y Hx Hy) as [[Hx' Hy'] _].
    cbn [fst snd] in Hx', Hy'.
    by rewrite bind_unfold, (load_inside W H). }
  rewrite bind_unfold, Hpath. unfold ret.
  eexists _, pcalls. split; [reflexivity |]. split; [done |].
  intros px py col. rewrite !elem_of_app.
  intros [[Hin | [Hin | [Hin | Hin]]] | [Hin | [Hin | Hin]]].
  - left. apply elem_of_draw_filled_rect in Hin as (? & ? & [= <- <- _] & [? ?]).
    unfold on_frame, in_rect. nia.
  - left. apply elem_of_draw_filled_rect in Hin as (? & ? & [= <- <- _] & [? ?]).
    unfold on_frame, in_rect. nia.
  - left. apply elem_of_draw_filled_rect in Hin as (? & ? & [= <- <- _] & [? ?]).
    unfold on_frame, in_rect. nia.
  - left. apply elem_of_draw_filled_rect in Hin as (? & ? & [= <- <- _] & [? ?]).
    unfold on_frame, in_rect. nia.
  - right. left. apply list_elem_of_bind in Hin as (y & Hin & Hy).
    apply list_elem_of_bind in Hin as (x & Hin & Hx).
    apply elem_of_range in Hx, Hy. destruct (Hbounds x y Hx Hy) as [? ?].
    exists (x, y). split; [done |]. split; [done |].
    by eapply draw_cell_block.
  - exfalso. destruct draw_area as [[[[x1 y1] x2] y2] |].
    + by apply list_elem_of_singleton in Hin.
    + repeat (apply elem_of_cons in Hin as [Hin | Hin]; [done |]).
      by apply elem_of_nil in Hin.
  - by right; right.
Qed.

End Draw.

(** ** The key handler *)

Section Session.

Variables (seed_tape : Z → nat → N) (fuel : nat) (p : CMazeParams).

Let W := width p.
Let H := height p.

Hypothesis Hp : valid_params p.
Hypothesis Hfuel : 2 * (W * H) + 1 < Z.of_nat fuel.
Hypothesis Hfuel3 : (3 * Z.to_nat (W * H) ≤ fuel)%nat.

Lemma bfs_post_ui_inv colors r w :
  wf_grid W H (w_maze w) →
  bfs_post W H (w_maze w) (entry p) (exit p) r →
  ui_inv p (UiState r colors) w.
Proof.
  intros Hwf [_ Hpost]. split; [done |]. cbn [ui_path].
  destruct r as [| c r]; [by left |]. right. by apply Hpost.
Qed.

(** The search, on a maze of the size of the record. *)
Lemma returns_find_path colors w :
  wf_grid W H (w_maze w) →
  returns
    (let* path_ := find_path_BFS fuel p in ret (UiState path_ colors)) w
    (ui_inv p).
Proof.
  intros Hwf. pose proof Hp as (_ & _ & _ & Hen & _).
  apply returns_bind. eapply returns_mono.
  { by apply find_path_BFS_returns. }
  intros r ? [-> Hpost]. apply returns_ret. by apply bfs_post_ui_inv.
Qed.

Lemma generate_animated_total w :
  w_maze w = [] →
  returns (generate_animated seed_tape fuel p) w
    (λ _ w', wf_grid W H (w_maze w')).
Proof.
  intros Hw.
  destruct (same_run_generate seed_tape fuel p w Hw) as [Hworld Hend].
  destruct (generate_total seed_tape fuel p w Hp Hfuel)
    as (g & w1 & Hgen & -> & Hwf & _).
  rewrite Hgen in Hworld, Hend. cbn [fst snd] in Hworld, Hend.
  unfold returns.
  destruct (generate_animated seed_tape fuel p w) as [[ys | e |] w2];
    cbn [fst snd] in *; try done.
  subst w2. by exists ys, w1.
Qed.

Lemma write_to_file_same path file_name w :
  wf_grid W H (w_maze w) →
  ∃ r, write_to_file fuel p path file_name w = (Ret r, w).
Proof.
  intros Hwf. pose proof Hp as (_ & _ & _ & Hen & _).
  rewrite (write_to_file_run W H) by done. cbv zeta.
  destruct (String.length _ <=? 0)%nat; [by eexists |].
  rewrite bind_unfold. destruct (len path =? 0).
  - destruct (find_path_BFS_returns fuel p w Hwf Hen Hfuel3)
      as (r & w1 & -> & -> & _).
    by eexists.
  - by eexists.
Qed.

(** One key. *)
Lemma m_mykey_inv keynum st w :
  ui_inv p st w →
  returns (m_mykey seed_tape fuel p keynum st) w (ui_inv p).
Proof.
  intros [Hwf Hpath]. unfold m_mykey.
  destruct (keynum =? 49).
  { apply returns_bind. eapply returns_mono; [by apply generate_total |].
    intros g w1 (-> & Hwf1 & _). cbn beta.
    destruct (len (ui_path st) >? 0) eqn:Hlen.
    - by apply returns_find_path.
    - apply returns_ret. split; [done |]. left.
      rewrite Z.gtb_ltb in Hlen. apply Z.ltb_ge in Hlen.
      unfold len in Hlen.
      destruct (ui_path st); [done | simpl in Hlen; lia]. }
  destruct (keynum =? 97).
  { apply returns_bind. unfold returns at 1, set_maze.
    eexists _, _. split; [reflexivity |]. cbn beta.
    apply returns_bind. eapply returns_mono.
    { by apply generate_animated_total. }
    intros ys w1 Hwf1. cbn beta.
    destruct (len (ui_path st) >? 0) eqn:Hlen.
    - by apply returns_find_path.
    - apply returns_ret. split; [done |]. left.
      rewrite Z.gtb_ltb in Hlen. apply Z.ltb_ge in Hlen.
      unfold len in Hlen.
      destruct (ui_path st); [done | simpl in Hlen; lia]. }
  destruct ((keynum =? 65307) || (keynum =? 52)).
  { by apply returns_ret. }
  destruct (keynum =? 50).
  { destruct (len (ui_path st) <? 1).
    - apply returns_bind. eapply returns_mono.
      { by apply (clear_tmp_data_spec W H). }
      intros g w1 (-> & Hwf1 & _). cbn beta. by apply returns_find_path.
    - apply returns_ret. split; [done |]. by left. }
  destruct (keynum =? 51).
  { apply returns_bind. unfold returns at 1, random_randint.
    eexists _, _. split; [reflexivity |]. cbn beta.
    apply returns_bind. unfold returns at 1.
    eexists _, _. split; [reflexivity |]. cbn beta.
    apply returns_ret. by split. }
  destruct (keynum =? 115).
  { destruct (write_to_file_same (ui_path st) "" w Hwf) as [r Hrun].
    unfold returns. rewrite bind_unfold, Hrun. unfold ret.
    eexists _, _. split; [reflexivity |]. by split. }
  by apply returns_ret.
Qed.

(** Any number of keys. *)
Lemma key_loop_inv keys st w :
  ui_inv p st w →
  returns (key_loop seed_tape fuel p keys st) w (ui_inv p).
Proof.
  revert st w. induction keys as [| k keys IH]; intros st w Hinv;
    cbn [key_loop].
  - by apply returns_ret.
  - apply returns_bind. eapply returns_mono; [by apply m_mykey_inv |].
    intros st1 w1 Hinv1. cbn beta.
    destruct ((k =? 65307) || (k =? 52)); [by apply returns_ret |].
    by apply IH.
Qed.

(** The first run leaves a state that the handler can work on. *)
Lemma main_first_run_inv w :
  returns (main_first_run seed_tape fuel p) w
    (λ r w', ui_inv p (UiState r.1.2 default_colors) w').
Proof.
  pose proof Hp as (_ & _ & _ & Hen & _).
  unfold main_first_run. apply returns_bind.
  eapply returns_mono; [by apply generate_total |].
  intros g w1 (-> & Hwf1 & _). cbn beta.
  apply returns_bind. unfold returns at 1, time_monotonic.
  eexists _, _. split; [reflexivity |]. cbn beta.
  apply returns_bind. eapply returns_mono.
  { by apply find_path_BFS_returns. }
  intros r ? [-> Hpost]. cbn beta.
  apply returns_bind. unfold returns at 1.
  eexists _, _. split; [reflexivity |]. cbn beta.
  match goal with
  | |- returns _ ?w2 _ => assert (Hwf2 : wf_grid W H (w_maze w2)) by done
  end.
  destruct (write_to_file_same r "" _ Hwf2) as [saved Hrun].
  unfold returns. rewrite bind_unfold, Hrun. unfold ret.
  eexists _, _. split; [reflexivity |]. cbn [fst snd].
  by apply bfs_post_ui_inv.
Qed.

End Session.

(** ** [find_path_DFS] does not raise *)

Lemma returns_bind_inv (I : world → Prop) {A B} (m : M A) (k : A → M B) w
    (Q : B → world → Prop) :
  preserves I m → I w → returns m w (λ _ _, True) →
  (∀ a w', I w' → returns (k a) w' Q) →
  returns (bind m k) w Q.
Proof.
  intros Hp HI (a & w' & Hrun & _) Hk. apply returns_bind.
  exists a, w'. split; [done |]. apply Hk.
  specialize (Hp w HI). by rewrite Hrun in Hp.
Qed.

Lemma returns_and_ensures {A} (m : M A) w (Q Q' : A → world → Prop) :
  returns m w Q → ensures m w Q' →
  returns m w (λ a w', Q a w' ∧ Q' a w').
Proof.
  intros (a & w' & Hrun & HQ) He. exists a, w'. split; [done |].
  split; [done |]. by apply He.
Qed.

Lemma returns_time (Q : Q → world → Prop) w :
  (∀ t w', w_maze w' = w_maze w → Q t w') → returns time_monotonic w Q.
Proof. intros HQ. eexists _, _. split; [reflexivity |]. by apply HQ. Qed.

Lemma no_raise_bind {A B} (m : M A) (k : A → M B) w (Q : A → world → Prop) :
  returns m w Q → (∀ a w', Q a w' → no_raise (k a) w') →
  no_raise (bind m k) w.
Proof.
  intros (a & w' & Hrun & HQ) Hk e w''. rewrite bind_unfold, Hrun.
  by apply Hk.
Qed.

Lemma no_raise_ret {A} (a : A) w : no_raise (ret a) w.
Proof. by intros e w'. Qed.

Section Finder.

Variables (mzParam : CMazeParams) (g0 : grid).

Let W := width mzParam.
Let H := height mzParam.
Let I : world → Prop := λ w, same_low_byte W H g0 (w_maze w).

Ltac total_load :=
  apply returns_bind; eapply returns_load; [done | lia | lia |].

Lemma dfs_open_dirs_returns w c x y q :
  wf_grid W H (w_maze w) → inside W H (x, y) →
  returns (dfs_open_dirs mzParam c x y q) w (λ _ w', w' = w).
Proof.
  intros Hwf [Hx Hy]. cbn [fst snd] in Hx, Hy.
  unfold dfs_open_dirs. apply returns_bind.
  eapply returns_mono with (Q := λ _ w', w' = w).
  { unfold dfs_open_north.
    destruct (Z.eqb_spec y 0); [by apply returns_ret |].
    total_load. destruct (_ =? 0xc); [by apply returns_ret |].
    total_load. by destruct (_ || _); apply returns_ret. }
  intros q1 ? ->. apply returns_bind.
  eapply returns_mono with (Q := λ _ w', w' = w).
  { unfold dfs_open_east. fold W.
    destruct (Z.eqb_spec x (W - 1)); [by apply returns_ret |].
    total_load. destruct (_ =? 0xc); [by apply returns_ret |].
    total_load. by destruct (_ || _); apply returns_ret. }
  intros q2 ? ->. apply returns_bind.
  eapply returns_mono with (Q := λ _ w', w' = w).
  { unfold dfs_open_south. fold H.
    destruct (truthy _); [| by apply returns_ret].
    destruct (Z.eqb_spec y (H - 1)); [by apply returns_ret |].
    total_load. by destruct (_ || _); apply returns_ret. }
  intros q3 ? ->.
  unfold dfs_open_west.
  destruct (truthy _); [| by apply returns_ret].
  destruct (Z.eqb_spec x 0); [by apply returns_ret |].
  total_load. by destruct (_ || _); apply returns_ret.
Qed.

Lemma stamp_returns y x i w :
  I w → inside W H (x, y) → 0 ≤ i →
  returns (stamp y x i) w (λ _ w', I w').
Proof.
  intros HI [Hx Hy] Hi. cbn [fst snd] in Hx, Hy.
  pose proof HI as [Hwf _].
  assert (Hrun : returns (stamp y x i) w (λ _ _, True)).
  { unfold stamp. apply returns_bind. eapply returns_load; [done ..|].
    by eapply returns_store. }
  destruct Hrun as (a & w' & Hrun & _). exists a, w'. split; [done |].
  pose proof (preserves_stamp W H g0 y x i Hi w HI) as Hp.
  by rewrite Hrun in Hp.
Qed.

Lemma dfs_stamp_block_returns c best i x y q w :
  I w → inside W H (x, y) → Forall (inside W H) c.*1 →
  Forall (inside W H) best → 0 ≤ i →
  returns (dfs_stamp_block c best i x y q) w (λ _ _, True).
Proof.
  intros HI Hin Hc Hbest Hi. pose proof HI as [Hwf _].
  pose proof Hin as [Hx Hy]. cbn [fst snd] in Hx, Hy.
  unfold dfs_stamp_block.
  destruct (i >? 0); [| by apply returns_ret].
  apply returns_bind. eapply returns_load; [done ..|].
  destruct (_ || _); [| by destruct (_ && _); apply returns_ret].
  apply returns_bind. eapply returns_mono; [by apply stamp_returns |].
  intros ? w1 HI1. cbn beta.
  destruct (_ >? 0); [| by apply returns_ret].
  destruct (_ >? 0); [| by apply returns_ret].
  set (best' := c.*1 ++ drop _ best).
  assert (Hall : Forall (inside W H) best').
  { apply Forall_app. split; [done |]. by apply Forall_drop. }
  apply returns_bind. eapply returns_mono.
  { apply (returns_for_each I (λ j, i + 1 ≤ j < len best'));
      [apply range_bounds | done |].
    intros j w2 Hj HI2. unfold len in Hj.
    rewrite py_get_inside by lia.
    destruct (lookup_lt_is_Some_2 best' (Z.to_nat j) ltac:(lia))
      as [[bx by_] Hb].
    rewrite Hb. apply stamp_returns; [done | | lia].
    rewrite Forall_forall in Hall. apply Hall.
    by eapply list_elem_of_lookup_2. }
  intros ? w2 ?. by apply returns_ret.
Qed.

Lemma path_ok_inside best :
  inside W H (entry mzParam) →
  path_ok W H g0 (entry mzParam) (exit mzParam) best →
  Forall (inside W H) best.
Proof.
  intros Hen [-> | (Hh & _ & Hch)]; [done |].
  destruct best as [| a [| b l]]; [done | |].
  - injection Hh as ->. by apply Forall_singleton.
  - apply (chain_path_step_inside mzParam g0); [done | simpl; lia].
Qed.

(** One iteration of the loop returns, and keeps what the loop keeps. *)
Lemma find_path_DFS_body_returns st w :
  inside W H (entry mzParam) →
  I w → dfs_ok W H g0 mzParam st → c_path st ≠ [] →
  returns (find_path_DFS_body mzParam st) w
    (λ st' w', I w' ∧ dfs_ok W H g0 mzParam st').
Proof.
  intros Hen HI Hok Hne.
  assert (Htotal : returns (find_path_DFS_body mzParam st) w (λ _ _, True)).
  { destruct st as [c best pq t0].
    unfold find_path_DFS_body. cbn [c_path best_path paths_q start_time] in *.
    destruct (exit mzParam) as [out_x out_y].
    destruct Hok as [Htr Hbest]. cbn [c_path best_path] in Htr, Hbest.
    destruct (c !! _) as [[[x y] q] |] eqn:Htop; cycle 1.
    { exfalso. apply lookup_ge_None in Htop.
      destruct c; [done | simpl in Htop; lia]. }
    pose proof Htr as (_ & Hall & _).
    assert (Hin : inside W H (x, y)).
    { rewrite Forall_forall in Hall. apply Hall.
      apply list_elem_of_fmap. exists (x, y, q). split; [done |].
      by eapply list_elem_of_lookup_2. }
    pose proof HI as [Hwf _].
    destruct (_ && _); [by apply returns_ret |].
    destruct (_ && _).
    { apply returns_bind.
      destruct (_ =? 1); [| by apply returns_ret; by apply returns_ret].
      apply returns_bind. apply returns_time. intros t1 w1 _.
      destruct (Qlt_bool _ _); [| by apply returns_ret; by apply returns_ret].
      apply returns_bind. apply returns_time. intros t2 w2 _.
      apply returns_ret. by apply returns_ret. }
    apply (returns_bind_inv I);
      [apply preserves_dfs_stamp_block | done | |].
    { apply dfs_stamp_block_returns; [done .. | | lia].
      by apply path_ok_inside. }
    intros left w1 [Hwf1 _].
    destruct left as [best' |]; [by apply returns_ret |].
    apply returns_bind. eapply returns_mono.
    { by apply dfs_open_dirs_returns. }
    intros q' ? ->. cbn beta.
    destruct (q' =? 0); [by apply returns_ret |].
    by destruct (dfs_choose _ _ _ _ _) as [[keep n] |]; apply returns_ret. }
  destruct Htotal as (st' & w' & Hrun & _). exists st', w'.
  split; [done |]. split.
  - pose proof (preserves_find_path_DFS_body W H g0 mzParam st w HI) as Hp.
    by rewrite Hrun in Hp.
  - by apply (find_path_DFS_body_spec mzParam g0 st w HI Hok st' w').
Qed.

Lemma find_path_DFS_loop_no_raise fuel st w :
  inside W H (entry mzParam) →
  I w → dfs_ok W H g0 mzParam st →
  no_raise (find_path_DFS_loop fuel mzParam st) w.
Proof.
  intros Hen. revert st w.
  induction fuel as [| fuel IH]; intros st w HI Hok; cbn [find_path_DFS_loop].
  - by intros e w'.
  - destruct (Z.gtb_spec (len (c_path st)) 0) as [Hlen |];
      [| apply no_raise_ret].
    apply (no_raise_bind _ _ _ (λ _ w', I w')).
    { destruct (_ =? 0); [by apply returns_ret |].
      apply returns_bind. apply returns_time. intros t w1 Hw1.
      apply returns_ret. unfold I. by rewrite Hw1. }
    intros go w1 HI1. destruct go; [| apply no_raise_ret].
    eapply no_raise_bind.
    { apply find_path_DFS_body_returns; [done .. |].
      intros Hnil. rewrite Hnil in Hlen. unfold len in Hlen. simpl in Hlen.
      lia. }
    intros st' w2 [HI2 Hok2]. by apply IH.
Qed.

End Finder.

(** On a grid of the size of the record with the entry inside it, given no
    path or a path of the grid, [find_path_DFS] does not raise. *)
Lemma find_path_DFS_no_raise fuel mzParam best w :
  wf_grid (width mzParam) (height mzParam) (w_maze w) →
  inside (width mzParam) (height mzParam) (entry mzParam) →
  path_ok (width mzParam) (height mzParam) (w_maze w) (entry mzParam)
    (exit mzParam) best →
  no_raise (find_path_DFS fuel mzParam best) w.
Proof.
  intros Hwf Hin Hbest. unfold find_path_DFS.
  destruct (entry mzParam) as [x y] eqn:Hentry. rewrite <- Hentry in *.
  eapply no_raise_bind.
  { apply returns_time. intros t w1 Hw1. exact Hw1. }
  intros t w1 Hw1. cbn beta.
  apply (find_path_DFS_loop_no_raise mzParam (w_maze w)); [done | |].
  - rewrite Hw1. by apply same_low_byte_refl.
  - split; [| done]. cbn [c_path].
    destruct (Z.gtb_spec (len best) 1) as [Hlen | Hlen].
    + assert (Hid : ((λ i : Z * Z, (i, 15)) <$> best).*1 = best).
      { clear. induction best as [| a l IH]; [done |]. simpl. by f_equal. }
      rewrite Hid.
      destruct Hbest as [-> | (Hh & Hl & Hch)]; [done |].
      split; [done |]. split; [| by right].
      apply (chain_path_step_inside mzParam (w_maze w)); [done |].
      unfold len in Hlen. lia.
    + rewrite Hentry. split; [done |]. split; [| by right].
      apply Forall_singleton. by rewrite <- Hentry.
Qed.

(** ** With probability 100 the injector leaves no dead end *)

Lemma returns_conj {A} (m : M A) w (Q1 Q2 : A → world → Prop) :
  returns m w Q1 → returns m w Q2 →
  returns m w (λ a w', Q1 a w' ∧ Q2 a w').
Proof.
  intros (a & w' & Hrun & H1) (a2 & w2 & Hrun2 & H2).
  rewrite Hrun in Hrun2. injection Hrun2 as <- <-. by exists a, w'.
Qed.

(** A mask with a clear bit and not exactly three bits set has another
    clear bit. *)
Lemma mask_other_clear v d0 :
  0 ≤ v < 16 → Z.testbit v (dir_bit d0) = false →
  (Z.of_nat (length (set_bits4 v)) =? 3) = false →
  ∃ d1, d1 ≠ d0 ∧ Z.testbit v (dir_bit d1) = false.
Proof.
  intros Hv.
  assert (Hall :
    (Z.of_nat (length (set_bits4 v)) =? 3) = false →
    (Z.testbit v 0 = false → Z.testbit v 1 = false ∨ Z.testbit v 2 = false
                             ∨ Z.testbit v 3 = false)
    ∧ (Z.testbit v 1 = false → Z.testbit v 0 = false ∨ Z.testbit v 2 = false
                               ∨ Z.testbit v 3 = false)
    ∧ (Z.testbit v 2 = false → Z.testbit v 0 = false ∨ Z.testbit v 1 = false
                               ∨ Z.testbit v 3 = false)
    ∧ (Z.testbit v 3 = false → Z.testbit v 0 = false ∨ Z.testbit v 1 = false
                               ∨ Z.testbit v 2 = false)).
  { check_below v 16%nat. }
  intros Hd0 Hcnt. destruct (Hall Hcnt) as (H0 & H1 & H2 & H3).
  destruct d0; cbn [dir_bit] in Hd0.
  - destruct (H0 Hd0) as [? | [? | ?]];
      [by exists East | by exists South | by exists West].
  - destruct (H1 Hd0) as [? | [? | ?]];
      [by exists North | by exists South | by exists West].
  - destruct (H2 Hd0) as [? | [? | ?]];
      [by exists North | by exists East | by exists West].
  - destruct (H3 Hd0) as [? | [? | ?]];
      [by exists North | by exists East | by exists South].
Qed.

(** In a mask with exactly three bits set, every bit but the clear one is
    set. *)
Lemma mask_three_walls v d0 d :
  0 ≤ v < 16 → (Z.of_nat (length (set_bits4 v)) =? 3) = true →
  Z.testbit v (dir_bit d0) = false → d ≠ d0 →
  Z.testbit v (dir_bit d) = true.
Proof.
  intros Hv.
  assert (Hall : ∀ i j : Z,
    (i = 0 ∨ i = 1 ∨ i = 2 ∨ i = 3) → (j = 0 ∨ j = 1 ∨ j = 2 ∨ j = 3) →
    (Z.of_nat (length (set_bits4 v)) =? 3) = true →
    Z.testbit v i = false → j ≠ i → Z.testbit v j = true).
  { intros i j Hi Hj.
    destruct Hi as [-> | [-> | [-> | ->]]],
             Hj as [-> | [-> | [-> | ->]]]; check_below v 16%nat. }
  intros Hcnt Hd0 Hne. apply (Hall (dir_bit d0)); try done.
  - destruct d0; simpl; tauto.
  - destruct d; simpl; tauto.
  - by destruct d, d0.
Qed.

(** In a grid of two columns and two rows at least, a cell has a
    neighbour inside the grid in a direction other than a given one. *)
Lemma inside_other W H c d0 :
  2 ≤ W → 2 ≤ H → inside W H c →
  ∃ d, d ≠ d0 ∧ inside W H (neighbor c d).
Proof.
  intros HW HH [Hx Hy]. destruct c as [x y]. cbn [fst snd] in Hx, Hy.
  assert (Hh : ∃ d, (d = East ∨ d = West) ∧ inside W H (neighbor (x, y) d)).
  { destruct (decide (x + 1 < W)).
    - exists East. split; [by left |]. unfold inside. simpl. lia.
    - exists West. split; [by right |]. unfold inside. simpl. lia. }
  assert (Hv : ∃ d, (d = North ∨ d = South) ∧ inside W H (neighbor (x, y) d)).
  { destruct (decide (y + 1 < H)).
    - exists South. split; [by right |]. unfold inside. simpl. lia.
    - exists North. split; [by left |]. unfold inside. simpl. lia. }
  destruct Hh as (dh & Hdh & Hinh), Hv as (dv & Hdv & Hinv).
  destruct d0.
  - exists dh. split; [by destruct Hdh as [-> | ->] | done].
  - exists dv. split; [by destruct Hdv as [-> | ->] | done].
  - exists dh. split; [by destruct Hdh as [-> | ->] | done].
  - exists dv. split; [by destruct Hdv as [-> | ->] | done].
Qed.

Lemma safe_injection_path_step W H g g' a b :
  safe_injection W H g g' → path_step W H g a b → path_step W H g' a b.
Proof.
  intros Hsafe [Hadj Hp]. split; [done |].
  by eapply safe_injection_passage.
Qed.

Lemma two_open_mono W H g g' c :
  safe_injection W H g g' → two_open W H g c → two_open W H g' c.
Proof.
  intros Hsafe (d1 & d2 & Hne & H1 & H2). exists d1, d2.
  split; [done |]. split; by eapply safe_injection_path_step.
Qed.

Lemma one_open_mono W H g g' c :
  safe_injection W H g g' → one_open W H g c → one_open W H g' c.
Proof.
  intros Hsafe (d & Hd). exists d. by eapply safe_injection_path_step.
Qed.

Lemma unmarked_bits v :
  Z.land v 0xc = 0 ↔ Z.testbit v 3 = false ∧ Z.testbit v 2 = false.
Proof.
  rewrite land_0xc_bits.
  destruct (Z.testbit v 3), (Z.testbit v 2); split; (lia || tauto || done).
Qed.

Lemma safe_injection_unmarked W H g g' c :
  safe_injection W H g g' → inside W H c →
  Z.land (cell_at g' c) 0xc = Z.land (cell_at g c) 0xc.
Proof.
  intros (_ & _ & Hbits & _) Hc. rewrite !land_0xc_bits.
  by rewrite !Hbits by (done || lia).
Qed.

Section Visit.

Variables (W H : Z) (pr : Q).

Hypothesis HW : 2 ≤ W.
Hypothesis HH : 2 ≤ H.
Hypothesis Hpr : Qle_bool 100 pr = true.

(** At a cell that is neither the entry, the exit nor a cell of the
    pattern, and that has an open connection, the injector leaves two. *)
Lemma dead_end_body_opens w x y :
  wf_grid W H (w_maze w) → inside W H (x, y) →
  (∀ e, inside W H e → is_pattern (cell_at (w_maze w) e) = false) →
  Z.land (cell_at (w_maze w) (x, y)) 0xc = 0 →
  one_open W H (w_maze w) (x, y) →
  returns (dead_end_body pr x y) w
    (λ _ w', two_open W H (w_maze w') (x, y)).
Proof.
  intros Hwf Hin Hnop Hunm [d0 Hd0].
  pose proof Hin as [Hx Hy]. cbn [fst snd] in Hx, Hy.
  assert (HHp : 0 < H) by lia.
  unfold dead_end_body.
  apply returns_bind. eapply returns_load; [done ..|].
  rewrite truthy_0xc.
  apply unmarked_bits in Hunm as [Hb3 Hb2].
  unfold cell_at in Hb3, Hb2. cbn [fst snd] in Hb3, Hb2.
  rewrite Hb3, Hb2. cbn [orb].
  apply returns_bind. eapply returns_mono.
  { by apply (effective_walls_value W H). }
  intros v ? [-> ->]. cbn beta.
  set (v := wall_mask W H (w_maze w) (x, y)).
  pose proof (wall_mask_range W H (w_maze w) (x, y)) as Hv. fold v in Hv.
  assert (Hclear : Z.testbit v (dir_bit d0) = false)
    by (by apply wall_mask_spec).
  destruct (_ =? 3) eqn:Hcnt; cycle 1.
  { apply returns_ret.
    destruct (mask_other_clear v d0 Hv Hclear Hcnt) as (d1 & Hne & Hd1).
    exists d1, d0. split; [done |]. split; [| done].
    by apply wall_mask_spec. }
  rewrite Hpr. apply returns_bind. apply returns_ret.
  set (a := removable W H (w_maze w) (x, y)).
  apply returns_bind. eapply returns_mono.
  { apply (removable_check_spec W H w (x, y) v North 14);
      [done | | apply truthy_1].
    apply returns_ret. split; [done |]. by apply edge_north. }
  intros q1 ? [-> ->]. cbn beta.
  apply returns_bind. eapply returns_mono.
  { apply (removable_check_spec W H w (x, y) _ East 13);
      [done | | apply truthy_2].
    unfold is_last_col. apply returns_bind.
    eapply returns_len_row0; [done ..|].
    apply returns_ret. split; [done |]. by apply edge_east. }
  intros q2 ? [-> ->]. cbn beta.
  apply returns_bind. eapply returns_mono.
  { apply (removable_check_spec W H w (x, y) _ South 11);
      [done | | apply truthy_4].
    unfold is_last_row. apply returns_bind.
    eapply returns_len_maze; [done |].
    apply returns_ret. split; [done |]. by apply edge_south. }
  intros q3 ? [-> ->]. cbn beta.
  apply returns_bind. eapply returns_mono.
  { apply (removable_check_spec W H w (x, y) _ West 7);
      [done | | apply truthy_8].
    apply returns_ret. split; [done |]. by apply edge_west. }
  intros q4 ? [-> Hq4]. cbn beta.
  assert (Hq4' : q4 = prune_mask v a) by (rewrite Hq4; reflexivity).
  destruct (prune_mask_spec v a Hv) as [Hr4 Hb4]. rewrite <- Hq4' in Hr4, Hb4.
  clear Hq4 Hq4'.
  assert (Hsome : ∃ d, Z.testbit q4 (dir_bit d) = true).
  { destruct (inside_other W H (x, y) d0 HW HH Hin) as (d & Hne & Hn).
    exists d. rewrite Hb4.
    rewrite (mask_three_walls v d0 d Hv Hcnt Hclear Hne). cbn [andb].
    unfold a, removable. rewrite bool_decide_eq_true_2 by done.
    by rewrite Hnop. }
  destruct (Z.eqb_spec q4 0) as [-> | Hne].
  { destruct Hsome as [d Hd]. by rewrite Z.bits_0 in Hd. }
  apply returns_bind. apply random_choice_returns.
  { by apply set_bits4_nonempty. }
  intros ch Hch. apply set_bits4_spec in Hch. cbn [w_maze w_rng w_clock].
  assert (Hopen : ∀ d, Z.testbit q4 (dir_bit d) = true →
    inside W H (neighbor (x, y) d)
    ∧ two_open W H (open_wall (w_maze w) (x, y) d) (x, y)).
  { intros d Hd. rewrite Hb4 in Hd. apply andb_true_iff in Hd as [Hvd Had].
    apply removable_inside in Had as [Hn Hpn]. split; [done |].
    exists d, d0. split; [intros ->; congruence |]. split.
    - apply path_step_neighbor; [done .. |].
      rewrite (wall_bit_open_wall W H (w_maze w) (x, y) d Hwf Hin Hn)
        by done.
      rewrite bool_decide_eq_true_2 by (by left).
      by rewrite andb_false_r.
    - destruct Hd0 as [Hadj Hp]. split; [done |].
      by apply (passage_open_wall W H (w_maze w) (x, y) d Hwf Hin Hn). }
  destruct Hch as [[-> Hb] | [[-> Hb] | [[-> Hb] | [-> Hb]]]];
    cbn [Z.eqb Pos.eqb].
  - destruct (Hopen North Hb) as [[Hnx Hny] Hr]. simpl in Hnx, Hny.
    apply returns_bind. apply returns_bind.
    eapply returns_load; [done ..|]. eapply returns_store; [done ..|].
    apply returns_ret. exact Hr.
  - destruct (Hopen East Hb) as [[Hnx Hny] Hr]. simpl in Hnx, Hny.
    apply returns_bind. apply returns_bind.
    eapply returns_load; [done ..|]. eapply returns_store; [done ..|].
    apply returns_ret. exact Hr.
  - destruct (Hopen South Hb) as [[Hnx Hny] Hr]. simpl in Hnx, Hny.
    apply returns_bind. apply returns_bind.
    eapply returns_load; [done ..|]. eapply returns_store; [done ..|].
    apply returns_ret. exact Hr.
  - destruct (Hopen West Hb) as [[Hnx Hny] Hr]. simpl in Hnx, Hny.
    apply returns_bind. apply returns_bind.
    eapply returns_load; [done ..|]. eapply returns_store; [done ..|].
    apply returns_ret. exact Hr.
Qed.

End Visit.

Section Sweep.

Variables (W H : Z) (g0 : grid) (pr : Q).

Hypothesis HW : 2 ≤ W.
Hypothesis HH : 2 ≤ H.
Hypothesis Hpr : Qle_bool 100 pr = true.
Hypothesis Hwf0 : wf_grid W H g0.
Hypothesis Hnop : ∀ e, inside W H e → is_pattern (cell_at g0 e) = false.
Hypothesis Hone :
  ∀ c, inside W H c → Z.land (cell_at g0 c) 0xc = 0 → one_open W H g0 c.

(** What the two loops keep: the grid comes from [g0] by removals, and the
    cells already visited, the entry, the exit and the cells of the
    pattern apart, have two open connections. *)
Let inv (seen : Z * Z → Prop) (w : world) : Prop :=
  wf_grid W H (w_maze w) ∧ rtc (wall_removal W H) g0 (w_maze w)
  ∧ ∀ c, inside W H c → seen c → Z.land (cell_at g0 c) 0xc = 0 →
         two_open W H (w_maze w) c.

Lemma sweep_weaken (seen seen' : Z * Z → Prop) w :
  (∀ c, inside W H c → seen' c → seen c) → inv seen w → inv seen' w.
Proof.
  intros Himp (Hwf & Hrtc & Htwo). split; [done |]. split; [done |].
  intros c Hc Hs. apply Htwo; [done |]. by apply Himp.
Qed.

Lemma sweep_visit seen x y w :
  inside W H (x, y) → inv seen w →
  returns (dead_end_body pr x y) w
    (λ _ w', inv (λ c, seen c ∨ c = (x, y)) w').
Proof.
  intros Hin (Hwf & Hrtc & Htwo).
  pose proof (wall_removals_safe W H g0 (w_maze w) Hwf0 Hrtc) as Hsafe.
  assert (Hstep : returns (dead_end_body pr x y) w
    (λ _ w',
       (w_maze w' = w_maze w ∨ wall_removal W H (w_maze w) (w_maze w'))
       ∧ (Z.land (cell_at g0 (x, y)) 0xc = 0 →
          two_open W H (w_maze w') (x, y)))).
  { destruct (decide (Z.land (cell_at g0 (x, y)) 0xc = 0)) as [Hunm | Hm].
    - eapply returns_mono.
      { apply returns_conj; [by apply (dead_end_body_spec W H) |].
        apply (dead_end_body_opens W H pr HW HH Hpr); [done | done | | |].
        + intros e He. unfold is_pattern.
          destruct (safe_injection_pattern W H g0 (w_maze w) e Hwf0 Hsafe He)
            as [Hbits _].
          rewrite !Hbits by lia. by apply Hnop.
        + by rewrite (safe_injection_unmarked W H g0).
        + eapply one_open_mono; [exact Hsafe |]. by apply Hone. }
      intros ? w' [[Hmaze _] Hopen]. done.
    - eapply returns_mono; [by apply (dead_end_body_spec W H) |].
      intros ? w' [Hmaze _]. done. }
  eapply returns_mono; [exact Hstep |].
  intros ? w' [Hmaze Hopen]. cbn beta. unfold inv.
  destruct Hmaze as [Hsame | Hrem].
  - rewrite Hsame. split; [done |]. split; [done |].
    intros c Hc [Hs | ->] Hunm; [by apply Htwo |].
    rewrite <- Hsame. by apply Hopen.
  - split; [by eapply wall_removal_wf |]. split; [by eapply rtc_r |].
    intros c Hc [Hs | ->] Hunm; [| by apply Hopen].
    eapply two_open_mono; [by eapply wall_removal_safe |]. by apply Htwo.
Qed.

Lemma sweep_all w :
  w_maze w = g0 →
  returns
    (let* h := len_maze in
     for_each (range 0 h) (λ y,
       let* w0 := len_row0 in
       for_each (range 0 w0) (λ x, dead_end_body pr x y ;; ret tt)) ;;
     get_maze) w
    (λ g' w',
       g' = w_maze w'
       ∧ rtc (wall_removal W H) g0 g'
       ∧ ∀ c, inside W H c → Z.land (cell_at g0 c) 0xc = 0 →
              two_open W H g' c).
Proof.
  intros Hw. apply returns_bind.
  eapply returns_len_maze; [by rewrite Hw |].
  apply returns_bind. eapply returns_mono.
  { apply (returns_for_range (λ y, inv (λ c, c.2 < y))); [lia | |].
    { unfold inv. rewrite Hw. split; [done |]. split; [done |].
      intros c [_ Hc] Hlt. lia. }
    intros y w1 Hy Hinv1. apply returns_bind.
    pose proof Hinv1 as (Hwf1 & _).
    eapply returns_len_row0; [done | lia |].
    eapply returns_mono.
    { apply (returns_for_range
               (λ x, inv (λ c, c.2 < y ∨ (c.2 = y ∧ c.1 < x)))); [lia | |].
      { eapply sweep_weaken; [| exact Hinv1].
        intros c [Hcx _] [? | [_ ?]]; [done | lia]. }
      intros x w2 Hx Hinv2. apply returns_bind. eapply returns_mono.
      { apply (sweep_visit (λ c, c.2 < y ∨ (c.2 = y ∧ c.1 < x)) x y);
          [| exact Hinv2].
        unfold inside. cbn [fst snd]. lia. }
      intros ? w3 Hinv3. cbn beta. apply returns_ret.
      eapply sweep_weaken; [| exact Hinv3].
      intros [cx cy] _. cbn [fst snd].
      intros [? | [-> Hcx]]; [left; by left |].
      destruct (decide (cx = x)) as [-> | ?]; [by right |].
      left. right. lia. }
    intros ? w2 Hinv2. cbn beta.
    eapply sweep_weaken; [| exact Hinv2].
    intros c [[_ Hcx] _] Hlt.
    destruct (decide (c.2 = y)); [right; lia | left; lia]. }
  intros ? w1 (Hwf1 & Hrtc1 & Htwo1). cbn beta. apply returns_get_maze.
  split; [done |]. split; [done |].
  intros c Hc Hunm. apply Htwo1; [done | | done]. destruct Hc as [_ ?]. lia.
Qed.

End Sweep.

(** With the probability at 100, on a grid of two columns and two rows at
    least without a cell of the pattern, in which every cell other than
    the entry and the exit has an open connection, [do_not_prefect] leaves
    no such cell with one connection only. *)
Lemma do_not_prefect_opens W H mzParam w :
  2 ≤ W → 2 ≤ H →
  Qle_bool 100 (probability_to_del_dead_end mzParam) = true →
  wf_grid W H (w_maze w) →
  (∀ e, inside W H e → is_pattern (cell_at (w_maze w) e) = false) →
  (∀ c, inside W H c → Z.land (cell_at (w_maze w) c) 0xc = 0 →
        one_open W H (w_maze w) c) →
  returns (do_not_prefect mzParam) w
    (λ g' w',
       g' = w_maze w'
       ∧ rtc (wall_removal W H) (w_maze w) g'
       ∧ ∀ c, inside W H c → Z.land (cell_at (w_maze w) c) 0xc = 0 →
              two_open W H g' c).
Proof.
  intros HW HH Hpr Hwf Hnop Hone. unfold do_not_prefect.
  destruct (Qle_bool _ 0) eqn:Hz.
  { exfalso. apply Qle_bool_iff in Hz, Hpr.
    pose proof (Qle_trans _ _ _ Hpr Hz) as Habs.
    by apply Qle_bool_iff in Habs. }
  by apply (sweep_all W H (w_maze w)).
Qed.

(** [generate] up to the injector: the carver has left a carved grid, on
    which the rest of [generate] runs. *)
Lemma generate_stages {A} seed_tape fuel p w (k : M A)
    (Q : A → world → Prop) :
  valid_params p →
  2 * (width p * height p) + 1 < Z.of_nat fuel →
  (∀ w3 placed V,
     (placed = true → insert_42 p = true) →
     wf_grid (width p) (height p) (w_maze w3) →
     carved (width p) (height p) (exit p) V (w_maze w3) →
     (∀ c i, inside (width p) (height p) c → 2 ≤ i < 16 → i ≠ 4 →
        Z.testbit (cell_at (w_maze w3) c) i
        = Z.testbit (template p placed c) i) →
     returns k w3 Q) →
  returns
    (set_maze (replicate (Z.to_nat (height p))
                 (replicate (Z.to_nat (width p)) 3)) ;;
     store (entry p).2 (entry p).1 7 ;;
     store (exit p).2 (exit p).1 11 ;;
     (if insert_42 p then place_42 (entry p) (exit p) ;; ret tt
      else ret tt) ;;
     match seed p with
     | Some a => random_seed seed_tape a
     | None => ret tt
     end ;;
     gen_DFS fuel p ;;
     k) w Q.
Proof.
  intros Hp Hfuel Hk. pose proof Hp as (HW & HH & Hne & Hen & Hex).
  set (W := width p) in *. set (H := height p) in *.
  apply generate_prefix; [done |].
  intros w1 placed Hwf1 _ _ Hplaced Hcells.
  assert (Hpre : ∀ c, inside W H c →
     Z.testbit (cell_at (w_maze w1) c) 0 = true
     ∧ Z.testbit (cell_at (w_maze w1) c) 1 = true
     ∧ Z.testbit (cell_at (w_maze w1) c) 4 = false).
  { intros c Hc. rewrite Hcells by done.
    destruct (template_cases p placed c) as [-> | [-> | [-> | ->]]]; done. }
  apply returns_bind.
  apply returns_mono with
    (Q := λ _ w2, w_maze w2 = w_maze w1).
  { destruct (seed p); [by apply returns_random_seed | by apply returns_ret]. }
  intros ? w2 Hw2. cbn beta.
  apply returns_bind. eapply returns_mono.
  { apply gen_DFS_spec; [by rewrite Hw2 | done | done]. }
  intros g3 w3 (-> & Hwf3 & Hrtc & _). cbn beta. rewrite Hw2 in Hrtc.
  destruct (carve_steps_pat_inv _ _ (w_maze w1) (exit p) _ _ Hrtc
              [exit p] [] (carve_pat_inv_init _ _ _ _ Hwf1 Hex Hpre))
    as (V & E & Hinv & _).
  cbn [fst snd] in Hinv.
  pose proof (carve_pat_inv_carved _ _ _ _ _ _ _ Hinv) as Hcarved.
  apply (Hk w3 placed V); [| done | done |].
  - intros Hpl. by destruct (Hplaced Hpl).
  - intros c i Hc Hi Hi4. rewrite <- Hcells by done.
    by apply (cp_bits _ _ _ _ _ _ _ _ Hinv).
Qed.

(** ** Counting the carve steps *)

(** Under the invariant of the carver the cells of the grid are the
    visited ones and the free ones. *)
Lemma carve_inv_free W H V E g m :
  carve_inv W H V E g m →
  (length (free_cells W H g) + length V = length (cells W H))%nat.
Proof.
  intros [Hwf Hfr Ht Hvis Hins Hnp Hpas Hcnt Hst Hpen Hcl].
  unfold free_cells.
  set (P := λ c : Z * Z, is_blocked (cell_at g c) = false).
  rewrite <- (Permutation_length (filter_app_complement P (cells W H))).
  rewrite length_app. f_equal.
  apply Permutation_length. apply NoDup_Permutation.
  - by eapply tree_of_NoDup.
  - apply NoDup_filter, NoDup_cells.
  - intros c. rewrite list_elem_of_filter, elem_of_cells. unfold P, is_blocked.
    split.
    + intros Hc. split; [| by apply Hins].
      apply Hvis in Hc; [| by apply Hins]. by rewrite Hc.
    + intros [Hb Hc]. apply Hvis; [done |].
      rewrite (Hnp c Hc), orb_false_r in Hb. by destruct (Z.testbit _ 4).
Qed.

(** When the stack is empty no cell is free. *)
Lemma carve_inv_done W H V E g r :
  0 ≤ W → 0 ≤ H → carve_inv W H V E g [] → r ∈ V →
  length (free_cells W H g) = 0%nat.
Proof.
  intros HW HH Hinv Hr.
  destruct (carve_inv_perfect W H V E g r HW HH Hinv Hr) as [Hcount _].
  pose proof (carve_inv_free _ _ _ _ _ _ Hinv) as Hfree.
  pose proof (ci_count _ _ _ _ _ _ Hinv) as Hcnt.
  pose proof (tree_of_length _ _ (ci_tree _ _ _ _ _ _ Hinv)) as HVE.
  pose proof (length_cells W H HW HH). lia.
Qed.

(** An iteration that lengthens the stack enters one free cell; an
    iteration that does not leaves the free cells as they are. *)
Lemma carve_step_count W H g m g' m' :
  carve_step W H (g, m) (g', m') →
  wf_grid W H g → frames_ok W H m →
  (length (if (length m <? length m')%nat then [()] else [])
   + length (free_cells W H g') = length (free_cells W H g))%nat.
Proof.
  intros Hstep Hwf Hfr.
  destruct (carve_step_measure _ _ _ _ _ _ Hstep Hwf Hfr) as (_ & _ & Hmeas).
  destruct (length m <? length m')%nat eqn:Hlt;
    [apply Nat.ltb_lt in Hlt | apply Nat.ltb_ge in Hlt];
    inversion Hstep as [? ? c q Hnone | ? ? c q d q' Hq Ha Hq' Hbits]; subst;
    rewrite ?length_app in *; cbn [length] in *; lia.
Qed.

(** With fuel above the measure, the carve steps of the loop number the
    free cells that the loop uses up, and each one is a cell of the grid. *)
Lemma carve_steps_count mzParam fuel m w :
  let W := width mzParam in
  let H := height mzParam in
  wf_grid W H (w_maze w) → frames_ok W H m →
  (2 * length (free_cells W H (w_maze w)) + length m < fuel)%nat →
  returns (gen_DFS_loop fuel mzParam m) w
    (λ _ w',
       rtc (carve_step W H) (w_maze w, m) (w_maze w', [])
       ∧ (length (carve_steps fuel mzParam m w)
          + length (free_cells W H (w_maze w'))
          = length (free_cells W H (w_maze w)))%nat
       ∧ Forall (inside W H) (carve_steps fuel mzParam m w)).
Proof.
  intros W H. revert m w.
  induction fuel as [| fuel IH]; intros m w Hwf Hm Hfuel; [lia |].
  cbn [gen_DFS_loop carve_steps].
  destruct (decide (m = [])) as [-> | Hne].
  { simpl. apply returns_ret. split; [done |]. split; [done | constructor]. }
  replace (Z.of_nat (length m) >? 0) with true
    by (symmetry; apply Z.gtb_lt; destruct m; [done | simpl; lia]).
  destruct (exists_last Hne) as (m0 & [[x y] q] & ->).
  pose proof Hm as Hm'. apply frames_ok_app in Hm' as [_ Htop].
  apply Forall_singleton in Htop as [Hc Hq]. simpl in Hc, Hq.
  destruct (gen_DFS_body_spec mzParam m0 x y q w Hwf Hc Hq)
    as (m' & w1 & Hbody & Hstep & Hclk).
  unfold returns. rewrite bind_unfold, Hbody.
  destruct (carve_step_measure _ _ _ _ _ _ Hstep Hwf Hm) as (Hwf1 & Hm1 & Hmeas).
  pose proof (carve_step_count _ _ _ _ _ _ Hstep Hwf Hm) as Hcount.
  destruct (IH m' w1 Hwf1 Hm1) as (u & w2 & Hloop & Hrtc & Hlen & Hall).
  { unfold W, H in *. lia. }
  exists u, w2. split; [exact Hloop |]. split; [| split].
  - eapply rtc_l; [exact Hstep | exact Hrtc].
  - rewrite length_app. rewrite last_snoc.
    fold W H in Hcount, Hlen |- *.
    destruct (length (m0 ++ [(x, y, q)]) <? length m')%nat;
      cbn [length] in *; lia.
  - apply Forall_app. split; [| exact Hall].
    rewrite last_snoc. destruct (_ <? _)%nat; [| constructor].
    by apply Forall_singleton.
Qed.

(** ** Further properties of [find_path_BFS] *)

(** X1: on a grid of the size of the record, with the entry inside the
    grid (and fuel for three iterations per cell), [find_path_BFS] returns
    without raising and leaves the world as it was; it returns the empty
    list exactly when no path of the grid leads from the entry to the
    exit. *)
Theorem X1_find_path_BFS_complete fuel mzParam w :
  wf_grid (width mzParam) (height mzParam) (w_maze w) →
  inside (width mzParam) (height mzParam) (entry mzParam) →
  (3 * Z.to_nat (width mzParam * height mzParam) ≤ fuel)%nat →
  ∃ r, find_path_BFS fuel mzParam w = (Ret r, w)
       ∧ (r = [] ↔
          ¬ ∃ l, valid_path (width mzParam) (height mzParam) (w_maze w)
                   (entry mzParam) (exit mzParam) l).
Proof.
  intros Hwf Hin Hfuel.
  destruct (find_path_BFS_returns fuel mzParam w Hwf Hin Hfuel)
    as (r & w' & Hrun & -> & Hempty & Hpath).
  exists r. split; [done |]. split.
  - intros Hr [l Hl]. by apply (Hempty Hr l).
  - intros Hno. destruct r as [| c r]; [done |]. exfalso. apply Hno.
    eexists. by apply Hpath.
Qed.

Lemma X1_find_path_BFS_complete_witness :
  let p := MkParams 3 2 (0, 0) (2, 0) "maze.txt" true (Some 1) false 25 4 0 in
  let w := World [[7; 1; 9]; [0; 0; 2]] (Rng (λ n, N.of_nat n) 0)
             (Clock (λ _, 0%Q) 0) in
  ∃ r, find_path_BFS 18 p w = (Ret r, w)
       ∧ (r = [] ↔ ¬ ∃ l, valid_path 3 2 (w_maze w) (0, 0) (2, 0) l).
Proof.
  intros p w. apply (X1_find_path_BFS_complete 18 p w).
  - split; [reflexivity | repeat constructor].
  - unfold inside. simpl. lia.
  - simpl. lia.
Defined.

(** X2: under the same conditions, a path that [find_path_BFS] returns is
    a shortest one: no path of the grid from the entry to the exit has
    fewer cells. *)
Theorem X2_find_path_BFS_shortest fuel mzParam w r w' l :
  wf_grid (width mzParam) (height mzParam) (w_maze w) →
  inside (width mzParam) (height mzParam) (entry mzParam) →
  (3 * Z.to_nat (width mzParam * height mzParam) ≤ fuel)%nat →
  find_path_BFS fuel mzParam w = (Ret r, w') →
  valid_path (width mzParam) (height mzParam) (w_maze w)
    (entry mzParam) (exit mzParam) l →
  r ≠ [] ∧ (length r ≤ length l)%nat.
Proof.
  intros Hwf Hin Hfuel Hrun Hl.
  destruct (find_path_BFS_returns fuel mzParam w Hwf Hin Hfuel)
    as (r0 & w0 & Hrun0 & -> & Hempty & Hpath).
  rewrite Hrun in Hrun0. injection Hrun0 as -> ->.
  assert (Hne : r0 ≠ []) by (intros Hr; by apply (Hempty Hr l)).
  split; [done |]. by apply Hpath.
Qed.

Lemma X2_find_path_BFS_shortest_witness :
  let l := [(0, 0); (0, 1); (1, 1); (1, 0); (2, 0)] in
  l ≠ [] ∧ (length l ≤ length l)%nat.
Proof.
  intros l.
  pose (p := MkParams 3 2 (0, 0) (2, 0) "maze.txt" true (Some 1) false 25 4 0).
  pose (w := World [[7; 1; 9]; [0; 0; 2]] (Rng (λ n, N.of_nat n) 0)
               (Clock (λ _, 0%Q) 0)).
  apply (X2_find_path_BFS_shortest 18 p w l w l).
  - split; [reflexivity | repeat constructor].
  - unfold inside. simpl. lia.
  - simpl. lia.
  - vm_compute. reflexivity.
  - split; [reflexivity |]. split; [reflexivity |].
    unfold path_step, step_adjacent, passage, inside. simpl.
    repeat split; try lia;
      first [ by exists North | by exists East | by exists South
            | by exists West ].
Defined.

(** ** Further properties of [place_42] and [generate] *)

(** X3: on a grid of [H] rows of [W] cells [place_42] returns without
    raising.  When it returns [False] it has changed nothing.  When it
    returns [True] the grid has at least 5 rows and 7 columns, the cells of
    the pattern, centred in the grid, hold 15, and every other cell, the
    random source and the clock are as they were. *)
Theorem X3_place_42_stamps W H w in_ out_ :
  wf_grid W H (w_maze w) →
  ∃ b w',
    place_42 in_ out_ w = (Ret b, w')
    ∧ if b then
        5 ≤ H ∧ 7 ≤ W
        ∧ wf_grid W H (w_maze w')
        ∧ w_rng w' = w_rng w ∧ w_clock w' = w_clock w
        ∧ ∀ e, inside W H e →
            cell_at (w_maze w') e
            = if pattern_at (Z.quot (W - 7) 2) (Z.quot (H - 5) 2) e then 15
              else cell_at (w_maze w) e
      else w' = w.
Proof.
  intros Hwf.
  destruct (place_42_result W H w in_ out_ Hwf) as (b & w' & Hrun & Hb).
  exists b, w'. split; [done |]. destruct b; [| done].
  destruct Hb as (H5 & H7 & _ & Hwf' & Hr & Hk & Hc). done.
Qed.

Lemma X3_place_42_stamps_witness :
  let w := World (replicate 5 (replicate 7 3)) (Rng (λ n, N.of_nat n) 0)
             (Clock (λ _, 0%Q) 0) in
  ∃ b w',
    place_42 (0, 4) (6, 3) w = (Ret b, w')
    ∧ if b then
        5 ≤ 5 ∧ 7 ≤ 7
        ∧ wf_grid 7 5 (w_maze w')
        ∧ w_rng w' = w_rng w ∧ w_clock w' = w_clock w
        ∧ ∀ e, inside 7 5 e →
            cell_at (w_maze w') e
            = if pattern_at (Z.quot (7 - 7) 2) (Z.quot (5 - 5) 2) e then 15
              else cell_at (w_maze w) e
      else w' = w.
Proof.
  intros w. apply (X3_place_42_stamps 7 5 w (0, 4) (6, 3)).
  split; [reflexivity | repeat constructor].
Defined.

(** X4: when [place_42] returns [True], the entry cell is not one of the
    cells it has written; the exit cell is, only if the entry lies right
    of the rectangle of the pattern and the row index of the exit is at
    least the column just right of that rectangle (the test that reads
    [out_[1]] for [out_[0]]). *)
Theorem X4_place_42_keeps_entry W H w in_ out_ w' :
  wf_grid W H (w_maze w) → inside W H in_ → inside W H out_ →
  place_42 in_ out_ w = (Ret true, w') →
  cell_at (w_maze w') in_ = cell_at (w_maze w) in_
  ∧ (cell_at (w_maze w') out_ ≠ cell_at (w_maze w) out_ →
     Z.quot (W - 7) 2 + 7 ≤ in_.1 ∧ Z.quot (W - 7) 2 + 7 ≤ out_.2).
Proof.
  intros Hwf Hin Hout Hrun.
  destruct (place_42_result W H w in_ out_ Hwf) as (b & w1 & Hrun1 & Hb).
  rewrite Hrun in Hrun1. injection Hrun1 as <- <-.
  destruct Hb as (_ & _ & Hcheck & _ & _ & _ & Hc).
  apply check_palace_outside in Hcheck as [Hentry Hexit].
  unfold corner_42 in *. cbn [fst snd] in *. split.
  - rewrite Hc by done. destruct (pattern_at _ _ in_) eqn:Hp; [| done].
    by apply pattern_at_footprint in Hp.
  - rewrite Hc by done. destruct (pattern_at _ _ out_) eqn:Hp; [| done].
    intros _. apply Hexit. by apply pattern_at_footprint.
Qed.

Lemma X4_place_42_keeps_entry_witness :
  let p := MkParams 9 15 (8, 0) (3, 8) "maze.txt" true None true 25 4 99 in
  let w := World (blank_grid p) (Rng (λ n, N.of_nat n) 0)
             (Clock (λ _, 0%Q) 0) in
  let w' := (place_42 (8, 0) (3, 8) w).2 in
  cell_at (w_maze w') (8, 0) = cell_at (w_maze w) (8, 0)
  ∧ (cell_at (w_maze w') (3, 8) ≠ cell_at (w_maze w) (3, 8) →
     Z.quot (9 - 7) 2 + 7 ≤ 8 ∧ Z.quot (9 - 7) 2 + 7 ≤ 8).
Proof.
  intros p w w'. apply (X4_place_42_keeps_entry 9 15 w (8, 0) (3, 8) w').
  - split; [reflexivity | repeat constructor].
  - unfold inside. simpl. lia.
  - unfold inside. simpl. lia.
  - vm_compute. reflexivity.
Defined.

(** X5: for a record that satisfies the invariant of the data model, with
    the perfect flag set, with or without the pattern, [generate] returns a
    grid in which the open connections form a tree on the cells that carry
    the visited flag: the exit is one of them, an open connection joins
    only such cells, any two of them are joined by exactly one simple
    path, a cell of the grid next to one of them is one of them or a cell
    of the pattern, none of them but the exit is a cell of the pattern,
    and the open connections number these cells minus one. *)
Theorem X5_generate_carved seed_tape fuel mzParam w :
  valid_params mzParam → perfect mzParam = true →
  2 * (width mzParam * height mzParam) + 1 < Z.of_nat fuel →
  returns (generate seed_tape fuel mzParam) w
    (λ g w',
       g = w_maze w'
       ∧ wf_grid (width mzParam) (height mzParam) g
       ∧ ∃ V, carved (width mzParam) (height mzParam) (exit mzParam) V g).
Proof.
  intros Hp Hperf Hfuel.
  eapply returns_mono; [by apply generate_run |].
  intros g w' (-> & Hwf & placed & gc & V & _ & _ & Hcarved & _ & _ & Hg).
  rewrite Hperf in Hg. subst gc. split; [done |]. split; [done |].
  by exists V.
Qed.

Lemma X5_generate_carved_witness :
  let p := MkParams 9 7 (0, 0) (8, 6) "maze.txt" true (Some 1) true 25 4 0 in
  let w := World [] (Rng (λ n, N.of_nat n) 0) (Clock (λ _, 0%Q) 0) in
  returns (generate example_seed_tape 200 p) w
    (λ g w', g = w_maze w' ∧ wf_grid 9 7 g ∧ ∃ V, carved 9 7 (8, 6) V g).
Proof.
  intros p w. apply (X5_generate_carved example_seed_tape 200 p w).
  - unfold valid_params, inside. simpl. repeat split; (lia || discriminate).
  - reflexivity.
  - simpl. lia.
Defined.

(** X6: for a record that satisfies the invariant of the data model,
    whatever its flags, in the grid that [generate] returns the entry cell
    reads as the entry ([v & 0xc] is 4); the marker bits [v & 0xc] of every
    cell are those prepared before carving (0xc on the pattern, 8 at the
    exit, 4 at the entry, 0 elsewhere); and a cell other than the exit
    reads as a cell of the pattern ([v & 0xf] is 0xf) exactly when the
    pattern was placed and covers it. *)
Theorem X6_generate_cells seed_tape fuel mzParam w :
  valid_params mzParam →
  2 * (width mzParam * height mzParam) + 1 < Z.of_nat fuel →
  returns (generate seed_tape fuel mzParam) w
    (λ g w',
       g = w_maze w'
       ∧ Z.land (cell_at g (entry mzParam)) 0xc = 4
       ∧ ∃ placed : bool,
           (placed = true →
            insert_42 mzParam = true ∧ 5 ≤ height mzParam
            ∧ 7 ≤ width mzParam)
           ∧ ∀ c, inside (width mzParam) (height mzParam) c →
               Z.land (cell_at g c) 0xc
               = Z.land (template mzParam placed c) 0xc
               ∧ (c ≠ exit mzParam →
                  (Z.land (cell_at g c) 0xf = 0xf
                   ↔ placed = true
                     ∧ pattern_at
                         (corner_42 (width mzParam) (height mzParam)).1
                         (corner_42 (width mzParam) (height mzParam)).2 c
                       = true))).
Proof.
  intros Hp Hfuel. pose proof Hp as (HW & HH & Hne & Hen & Hex).
  set (W := width mzParam) in *. set (H := height mzParam) in *.
  eapply returns_mono; [by apply generate_run |].
  intros g w' (-> & Hwf & placed & gc & V & Hplaced & Hwfc & Hcarved & Hbits
               & Hrest & Hg).
  fold W H in Hwf, Hplaced, Hwfc, Hcarved, Hbits, Hrest, Hg.
  set (g := w_maze w') in *.
  assert (Hkeep : ∀ c, inside W H c →
    (∀ i, 2 ≤ i < 16 →
          Z.testbit (cell_at g c) i = Z.testbit (cell_at gc c) i)
    ∧ (is_pattern (cell_at gc c) = true →
       Z.testbit (cell_at g c) 0 = Z.testbit (cell_at gc c) 0
       ∧ Z.testbit (cell_at g c) 1 = Z.testbit (cell_at gc c) 1)).
  { intros c Hc. destruct (perfect mzParam).
    - by rewrite Hg.
    - apply (safe_injection_pattern W H); [done | | done].
      by apply wall_removals_safe. }
  assert (Hmark : ∀ c, inside W H c →
            Z.land (cell_at g c) 0xc = Z.land (template mzParam placed c) 0xc).
  { intros c Hc. destruct (Hkeep c Hc) as [Hk _].
    rewrite !land_0xc_bits, !Hk, !Hbits by (done || lia). done. }
  split; [done |]. split.
  { rewrite Hmark by done. rewrite template_entry; [done | done |].
    intros Hpl. by apply Hplaced. }
  exists placed. split; [intros Hpl; by destruct (Hplaced Hpl) as (? & ? & ? & _) |].
  intros c Hc. split; [by apply Hmark |]. intros Hce.
  destruct (Hkeep c Hc) as [Hk Hk01].
  rewrite <- (Z.eqb_eq (Z.land _ _)), land_0xf_bits.
  rewrite (Hk 2), (Hk 3), (Hbits c 2), (Hbits c 3) by (done || lia).
  assert (Hcase : template mzParam placed c = 15
                  ↔ placed = true
                    ∧ pattern_at (corner_42 W H).1 (corner_42 W H).2 c = true).
  { unfold template. fold W H. rewrite <- andb_true_iff.
    destruct (_ && _); repeat case_bool_decide; split; (done || lia). }
  rewrite <- Hcase. split.
  - intros Hb. apply andb_true_iff in Hb as [Hb H3].
    apply andb_true_iff in Hb as [_ H2].
    destruct (template_cases mzParam placed c) as [Ht | [Ht | [Ht | Ht]]];
      rewrite Ht in H2, H3; done.
  - intros Ht.
    assert (Hpat : is_pattern (cell_at gc c) = true).
    { unfold is_pattern. rewrite !Hbits, Ht by (done || lia). done. }
    assert (HcV : c ∉ V).
    { intros HcV. destruct Hcarved as (_ & _ & _ & _ & _ & _ & Hfree & _).
      rewrite (Hfree c HcV Hce) in Hpat. done. }
    destruct (Hk01 Hpat) as [-> ->]. rewrite (Hrest c Hc HcV), Ht. done.
Qed.

Lemma X6_generate_cells_witness :
  let p := MkParams 9 7 (0, 0) (8, 6) "maze.txt" false (Some 1) true 25 4 50 in
  let w := World [] (Rng (λ n, N.of_nat n) 0) (Clock (λ _, 0%Q) 0) in
  returns (generate example_seed_tape 200 p) w
    (λ g w',
       g = w_maze w'
       ∧ Z.land (cell_at g (entry p)) 0xc = 4
       ∧ ∃ placed : bool,
           (placed = true → insert_42 p = true ∧ 5 ≤ height p ∧ 7 ≤ width p)
           ∧ ∀ c, inside (width p) (height p) c →
               Z.land (cell_at g c) 0xc = Z.land (template p placed c) 0xc
               ∧ (c ≠ exit p →
                  (Z.land (cell_at g c) 0xf = 0xf
                   ↔ placed = true
                     ∧ pattern_at (corner_42 (width p) (height p)).1
                         (corner_42 (width p) (height p)).2 c = true))).
Proof.
  intros p w. apply (X6_generate_cells example_seed_tape 200 p w).
  - unfold valid_params, inside. simpl. repeat split; (lia || discriminate).
  - simpl. lia.
Defined.

(** ** Further properties of [write_to_file] and of the pipeline *)

(** X7: the text that [write_to_file] writes for a grid of [H] rows of [W]
    cells holds, at position [y * (W + 1) + x], a hexadecimal digit for the
    cell [(x, y)]; the value of that digit has the bit of a direction (1
    top, 2 right, 4 bottom, 8 left) clear exactly when the grid has an open
    connection from the cell in that direction; each row is closed by a
    newline. *)
Theorem X7_write_to_file_grid W H fuel mzParam path file_name w name text w'
    x y :
  wf_grid W H (w_maze w) →
  write_to_file fuel mzParam path file_name w
  = (Ret (Some (name, text)), w') →
  inside W H (x, y) →
  (∃ v, String.get (Z.to_nat (y * (W + 1) + x)) text ≫= hex_value = Some v
        ∧ ∀ d, Z.testbit v (dir_bit d) = false
               ↔ path_step W H (w_maze w) (x, y) (neighbor (x, y) d))
  ∧ String.get (Z.to_nat (y * (W + 1) + W)) text = Some newline.
Proof.
  intros Hwf Hrun Hin. rewrite (write_to_file_run W H) in Hrun by done.
  cbv zeta in Hrun.
  destruct (String.length _ <=? 0)%nat; [discriminate |].
  apply bind_inv_Ret in Hrun as (path' & w1 & _ & Hret).
  injection Hret as _ <- _.
  destruct Hin as [Hx Hy]. cbn [fst snd] in Hx, Hy.
  destruct (maze_text_get W H (w_maze w) (file_tail mzParam path') x y Hx Hy)
    as [Hcell Hnl].
  split; [| done]. exists (wall_mask W H (w_maze w) (x, y)).
  rewrite Hcell. split.
  - apply hex_value_digit, wall_mask_range.
  - intros d. by apply wall_mask_spec.
Qed.

Lemma X7_write_to_file_grid_witness :
  let p := MkParams 3 2 (0, 0) (2, 0) "maze.txt" true (Some 1) false 25 4 0 in
  let g := [[7; 1; 9]; [0; 0; 2]] in
  let w := World g (Rng (λ n, N.of_nat n) 0) (Clock (λ _, 0%Q) 0) in
  let text :=
    match (write_to_file 18 p [] "" w).1 with
    | Ret (Some (_, t)) => t
    | _ => EmptyString
    end in
  (∃ v, String.get (Z.to_nat (1 * (3 + 1) + 1)) text ≫= hex_value = Some v
        ∧ ∀ d, Z.testbit v (dir_bit d) = false
               ↔ path_step 3 2 g (1, 1) (neighbor (1, 1) d))
  ∧ String.get (Z.to_nat (1 * (3 + 1) + 3)) text = Some newline.
Proof.
  intros p g w text.
  apply (X7_write_to_file_grid 3 2 18 p [] "" w "maze.txt" text w 1 1).
  - split; [reflexivity | repeat constructor].
  - vm_compute. reflexivity.
  - unfold inside. simpl. lia.
Defined.

Lemma returns_time_monotonic {A} (k : Q → M A) w Q0 :
  (∀ t w', w_maze w' = w_maze w → returns (k t) w' Q0) →
  returns (bind time_monotonic k) w Q0.
Proof.
  intros Hk. apply returns_bind. unfold returns at 1.
  eexists _, _. split; [reflexivity |]. by apply Hk.
Qed.



(** ** Further properties of [check_point_in_path] and [clear_tmp_data] *)

(** X9: [check_point_in_path] returns 0 exactly when the point is not in
    the path; otherwise it returns the position, counted from 1, of the
    first occurrence of the point, so a value between 1 and the length of
    the path. *)
Theorem X9_check_point_in_path_first path x y :
  let r := check_point_in_path path x y in
  0 ≤ r ≤ Z.of_nat (length path)
  ∧ (r = 0 ↔ (x, y) ∉ path)
  ∧ (0 < r →
     path !! (Z.to_nat r - 1)%nat = Some (x, y)
     ∧ ∀ j, (j < Z.to_nat r - 1)%nat → path !! j ≠ Some (x, y)).
Proof.
  induction path as [| [px py] rest IH]; cbn [check_point_in_path].
  { cbn zeta. split; [simpl; lia |]. split; [| lia].
    split; [intros _; apply not_elem_of_nil | done]. }
  cbn zeta in IH |- *.
  remember (check_point_in_path rest x y) as r eqn:Hr. clear Hr.
  destruct IH as (Hrange & Hzero & Hpos).
  destruct (Z.eqb_spec x px) as [-> | Hx]; [destruct (Z.eqb_spec y py) as [-> | Hy] |];
    cbn [andb].
  - split; [simpl; lia |]. split.
    + split; [lia |]. intros Hn. exfalso. apply Hn. left.
    + intros _. split; [done |]. intros j Hj. simpl in Hj. lia.
  - assert (Hhd : (px, y) ≠ (px, py)) by congruence.
    destruct (Z.eqb_spec r 0) as [-> | Hne].
    + split; [simpl; lia |]. split; [| lia].
      split; [| done]. intros _. rewrite not_elem_of_cons. split; [done |].
      by apply Hzero.
    + split; [simpl length; lia |]. split.
      * split; [lia |]. intros Hn. apply not_elem_of_cons in Hn as [_ Hn].
        apply Hzero in Hn. lia.
      * intros _. destruct (Hpos ltac:(lia)) as [Hat Hbefore].
        replace (Z.to_nat (r + 1) - 1)%nat with (S (Z.to_nat r - 1)) by lia.
        split; [done |]. intros [| j] Hj; simpl; [congruence |].
        apply Hbefore. lia.
  - assert (Hhd : (x, y) ≠ (px, py)) by congruence.
    destruct (Z.eqb_spec r 0) as [-> | Hne].
    + split; [simpl; lia |]. split; [| lia].
      split; [| done]. intros _. rewrite not_elem_of_cons. split; [done |].
      by apply Hzero.
    + split; [simpl length; lia |]. split.
      * split; [lia |]. intros Hn. apply not_elem_of_cons in Hn as [_ Hn].
        apply Hzero in Hn. lia.
      * intros _. destruct (Hpos ltac:(lia)) as [Hat Hbefore].
        replace (Z.to_nat (r + 1) - 1)%nat with (S (Z.to_nat r - 1)) by lia.
        split; [done |]. intros [| j] Hj; simpl; [congruence |].
        apply Hbefore. lia.
Qed.

Lemma land_0xf_testbit a b k :
  Z.land a 0xf = Z.land b 0xf → 0 ≤ k < 4 → Z.testbit a k = Z.testbit b k.
Proof.
  intros Hab Hk.
  assert (Hb : Z.testbit (Z.land a 0xf) k = Z.testbit (Z.land b 0xf) k)
    by by rewrite Hab.
  rewrite !Z.land_spec in Hb. change 15 with (Z.ones 4) in Hb.
  rewrite Z.ones_spec_low in Hb by lia. by rewrite !andb_true_r in Hb.
Qed.

Lemma passage_low_bits W H g g' a b :
  (∀ e, inside W H e → Z.land (cell_at g' e) 0xf = Z.land (cell_at g e) 0xf) →
  passage W H g a b → passage W H g' a b.
Proof.
  intros Hlow (Ha & Hb & d & -> & Hwall).
  split; [done |]. split; [done |]. exists d. split; [done |].
  rewrite <- Hwall.
  destruct d; cbn [wall_bit]; apply land_0xf_testbit; (lia || by apply Hlow).
Qed.

Lemma valid_path_low_bits W H g g' a b l :
  (∀ e, inside W H e → Z.land (cell_at g' e) 0xf = Z.land (cell_at g e) 0xf) →
  valid_path W H g a b l → valid_path W H g' a b l.
Proof.
  intros Hlow (Hh & Hl & Hch). split; [done |]. split; [done |].
  eapply chain_mono; [| exact Hch].
  intros u v [Hadj Hp]. split; [done |]. by apply (passage_low_bits W H g).
Qed.

(** A second run of [clear_tmp_data], on cells that are all at most 0xF,
    writes nothing. *)
Lemma clear_tmp_data_fixed W H w :
  wf_grid W H (w_maze w) →
  (∀ e, inside W H e → cell_at (w_maze w) e ≤ 0xf) →
  clear_tmp_data w = (Ret (w_maze w), w).
Proof.
  intros Hwf Hle.
  assert (Hret : returns clear_tmp_data w (λ g' w', g' = w_maze w ∧ w' = w)).
  { unfold clear_tmp_data. apply returns_bind.
    eapply returns_len_maze; [done |].
    apply returns_bind. eapply returns_mono.
    { apply (returns_for_each (λ w', w' = w) (λ y, 0 ≤ y < H));
        [apply range_bounds | done |].
      intros y ? Hy ->. apply returns_bind.
      eapply returns_len_row0; [done | lia |].
      apply (returns_for_each (λ w', w' = w) (λ x, 0 ≤ x < W));
        [apply range_bounds | done |].
      intros x ? Hx ->. apply returns_bind.
      eapply returns_load; [done ..|].
      specialize (Hle (x, y)). unfold cell_at in Hle. cbn [fst snd] in Hle.
      destruct (Z.gtb_spec (cell (w_maze w) x y) 15) as [Hgt | _].
      - unfold inside in Hle. cbn [fst snd] in Hle. lia.
      - by apply returns_ret. }
    intros ? ? ->. simpl. by apply returns_get_maze. }
  destruct Hret as (g' & w' & Hrun & -> & ->). exact Hrun.
Qed.

(** X10: on a grid of [H] rows of [W] cells [clear_tmp_data] returns the
    grid it leaves, which has the paths of the grid it received, no more
    and no fewer; and a second call returns the same grid and changes
    nothing. *)
Theorem X10_clear_tmp_data_paths W H w :
  wf_grid W H (w_maze w) →
  returns clear_tmp_data w
    (λ g1 w1,
       g1 = w_maze w1
       ∧ wf_grid W H g1
       ∧ (∀ a b l, valid_path W H g1 a b l ↔ valid_path W H (w_maze w) a b l)
       ∧ clear_tmp_data w1 = (Ret g1, w1)).
Proof.
  intros Hwf.
  eapply returns_mono; [by apply (clear_tmp_data_spec W H) |].
  intros g1 w1 (-> & Hwf1 & Hcells).
  assert (Hlow : ∀ e, inside W H e →
    Z.land (cell_at (w_maze w1) e) 0xf = Z.land (cell_at (w_maze w) e) 0xf).
  { intros e He. rewrite Hcells by done. apply cleared_spec. }
  split; [done |]. split; [done |]. split.
  - intros a b l. split; apply valid_path_low_bits; [| done].
    intros e He. symmetry. by apply Hlow.
  - apply (clear_tmp_data_fixed W H); [done |].
    intros e He. rewrite Hcells by done. apply cleared_spec.
Qed.

Lemma X10_clear_tmp_data_paths_witness :
  let w := World [[0x107; 0x31; 0x1b]; [0x10; 0x20; 2]]
             (Rng (λ n, N.of_nat n) 0) (Clock (λ _, 0%Q) 0) in
  returns clear_tmp_data w
    (λ g1 w1,
       g1 = w_maze w1
       ∧ wf_grid 3 2 g1
       ∧ (∀ a b l, valid_path 3 2 g1 a b l ↔ valid_path 3 2 (w_maze w) a b l)
       ∧ clear_tmp_data w1 = (Ret g1, w1)).
Proof.
  intros w. apply (X10_clear_tmp_data_paths 3 2 w).
  split; [reflexivity | repeat constructor].
Defined.

(** ** [generate_animated] *)

(** X11: given an empty list, [generate_animated] pulled to its end does
    what [generate] does from the same state of the random source and of
    the clock, whatever list [generate] replaces: it leaves the same maze,
    random source and clock, and ends the same way (return, the same
    exception, or the end of the fuel).  When they return, the grid of
    [generate] is the maze that [generate_animated] has built in the list,
    and what it yields starts with three [None] and ends with a [None]. *)
Theorem X11_generate_animated_refines seed_tape fuel mzParam w w0 :
  w_maze w = [] → w_rng w0 = w_rng w → w_clock w0 = w_clock w →
  (generate_animated seed_tape fuel mzParam w).2
  = (generate seed_tape fuel mzParam w0).2
  ∧ match (generate seed_tape fuel mzParam w0).1,
          (generate_animated seed_tape fuel mzParam w).1 with
    | Ret g, Ret ys =>
        g = w_maze (generate_animated seed_tape fuel mzParam w).2
        ∧ take 3 ys = [None; None; None] ∧ last ys = Some None
    | Raise e, Raise e' => e = e'
    | OutOfFuel, OutOfFuel => True
    | _, _ => False
    end.
Proof.
  intros Hw Hrng Hclock.
  assert (Hsame : generate seed_tape fuel mzParam w0
                  = generate seed_tape fuel mzParam w).
  { unfold generate. rewrite !(bind_unfold (set_maze _)). unfold set_maze.
    cbv beta iota. by rewrite Hrng, Hclock. }
  rewrite Hsame. clear Hsame Hrng Hclock w0.
  destruct (same_run_generate seed_tape fuel mzParam w Hw) as [Hworld Hend].
  split; [done |].
  destruct (generate seed_tape fuel mzParam w) as [[g | e |] w1] eqn:Hgen,
    (generate_animated seed_tape fuel mzParam w) as [[ys | e' |] w2] eqn:Hani;
    cbn [fst snd] in *; try done.
  subst w2. split; [by apply generate_returns_maze in Hgen |].
  by apply generate_animated_yields in Hani.
Qed.

Lemma X11_generate_animated_refines_witness :
  let p := MkParams 3 3 (0, 0) (2, 2) "maze.txt" false (Some 1) false 25 4 50 in
  let w := World [] (Rng (λ n, N.of_nat n) 0) (Clock (λ _, 0%Q) 0) in
  let w0 := World [[1; 2]] (Rng (λ n, N.of_nat n) 0) (Clock (λ _, 0%Q) 0) in
  (generate_animated example_seed_tape 40 p w).2
  = (generate example_seed_tape 40 p w0).2
  ∧ match (generate example_seed_tape 40 p w0).1,
          (generate_animated example_seed_tape 40 p w).1 with
    | Ret g, Ret ys =>
        g = w_maze (generate_animated example_seed_tape 40 p w).2
        ∧ take 3 ys = [None; None; None] ∧ last ys = Some None
    | Raise e, Raise e' => e = e'
    | OutOfFuel, OutOfFuel => True
    | _, _ => False
    end.
Proof.
  intros p w w0.
  apply (X11_generate_animated_refines example_seed_tape 40 p w w0);
    reflexivity.
Defined.

(** X12: the functions that work on the maze in place never resize it:
    whatever the list of rows they are given (rectangular or not), whatever
    the indices, and however they end (return, exception, end of the
    fuel), [place_42], [gen_DFS], [gen_DFS_animated], [do_not_prefect],
    [do_not_prefect_animated], [find_path_DFS] and [clear_tmp_data] leave
    the number of rows and the length of every row as they were. *)
Theorem X12_shape_kept fuel mzParam animated best in_ out_ w :
  shape (w_maze (place_42 in_ out_ w).2) = shape (w_maze w)
  ∧ shape (w_maze (gen_DFS fuel mzParam w).2) = shape (w_maze w)
  ∧ shape (w_maze (gen_DFS_animated fuel mzParam animated w).2)
    = shape (w_maze w)
  ∧ shape (w_maze (do_not_prefect mzParam w).2) = shape (w_maze w)
  ∧ shape (w_maze (do_not_prefect_animated mzParam animated w).2)
    = shape (w_maze w)
  ∧ shape (w_maze (find_path_DFS fuel mzParam best w).2) = shape (w_maze w)
  ∧ shape (w_maze (clear_tmp_data w).2) = shape (w_maze w).
Proof.
  set (s := shape (w_maze w)).
  pose proof (store_shape s) as Hstore.
  pose (J := λ g : grid, shape g = s).
  split_and!.
  - exact (preserves_place_42 J Hstore in_ out_ w eq_refl).
  - exact (preserves_gen_DFS J Hstore fuel mzParam w eq_refl).
  - exact (preserves_gen_DFS_animated J Hstore fuel mzParam animated w
             eq_refl).
  - exact (preserves_do_not_prefect J Hstore mzParam w eq_refl).
  - exact (preserves_do_not_prefect_animated J Hstore mzParam animated w
             eq_refl).
  - exact (preserves_find_path_DFS_frame J Hstore fuel mzParam best w
             eq_refl).
  - exact (preserves_clear_tmp_data J Hstore w eq_refl).
Qed.

(** X13: [generate] replaces the maze by [height] rows of [width] cells;
    [generate_animated], whose first statement names [maze.clear] without
    calling it, appends these rows to the list it is given and keeps the
    rows the list had, with their lengths.  Both hold however the run
    ends. *)
Theorem X13_generate_animated_appends seed_tape fuel mzParam w :
  shape (w_maze (generate seed_tape fuel mzParam w).2)
  = replicate (Z.to_nat (height mzParam)) (Z.to_nat (width mzParam))
  ∧ shape (w_maze (generate_animated seed_tape fuel mzParam w).2)
    = shape (w_maze w)
      ++ replicate (Z.to_nat (height mzParam)) (Z.to_nat (width mzParam)).
Proof.
  assert (Hblank :
    shape (replicate (Z.to_nat (height mzParam))
             (replicate (Z.to_nat (width mzParam)) 3))
    = replicate (Z.to_nat (height mzParam)) (Z.to_nat (width mzParam))).
  { unfold shape. by rewrite fmap_replicate, length_replicate. }
  split.
  - unfold generate. rewrite (bind_unfold (set_maze _)). unfold set_maze.
    cbv beta iota.
    set (s := replicate (Z.to_nat (height mzParam))
                (Z.to_nat (width mzParam))) in *.
    apply (preserves_generate_rest (λ g, shape g = s) (store_shape s)
             seed_tape fuel mzParam).
    exact Hblank.
  - unfold generate_animated. rewrite (bind_unfold get_maze).
    unfold get_maze. cbv beta iota. rewrite (bind_unfold (set_maze _)).
    unfold set_maze. cbv beta iota.
    set (s := shape (w_maze w)
              ++ replicate (Z.to_nat (height mzParam))
                   (Z.to_nat (width mzParam))).
    apply (preserves_generate_tail (λ g, shape g = s) (store_shape s)
             seed_tape fuel mzParam).
    cbn [w_maze]. unfold s, shape in *. by rewrite fmap_app, Hblank.
Qed.

(** ** The configuration stage *)

Lemma fm_check_param_true params env :
  (fm_check_param params env).1 = true
  ↔ ∀ p_ n, (p_, n) ∈ params → is_Some (env !! p_).
Proof.
  induction params as [| [p_ n] rest IH]; cbn [fm_check_param].
  - split; [| done]. intros _ p_ n Hin. by apply elem_of_nil in Hin.
  - destruct (env !! p_) as [val |] eqn:Hval; cbn [fst].
    + rewrite IH. split.
      * intros Hrest q m Hin. apply elem_of_cons in Hin as [[= -> ->] | Hin];
          [by rewrite Hval | by eapply Hrest].
      * intros Hall q m Hin. apply (Hall q m). by right.
    + split; [done |]. intros Hall.
      destruct (Hall p_ n ltac:(left)) as [v Hv]. congruence.
Qed.

(** X14: [fm_check_param] returns [True] exactly when every name of the
    dictionary is set in the environment.  The minimal lengths of the
    dictionary have no part in the result: a value shorter than its minimum
    is reported on the standard error stream, one line for each such name
    in the order of the dictionary, and accepted. *)
Theorem X14_fm_check_param_set params env :
  ((fm_check_param params env).1 = true
   ↔ ∀ p_ n, (p_, n) ∈ params → is_Some (env !! p_))
  ∧ (∀ params', params'.*1 = params.*1 →
       (fm_check_param params' env).1 = (fm_check_param params env).1)
  ∧ ((fm_check_param params env).1 = true →
     (fm_check_param params env).2
     = omap (λ pn, val ← env !! pn.1;
                   if Z.of_nat (String.length val) <? pn.2
                   then Some (ParamWrongValue pn.1 val) else None) params).
Proof.
  split; [apply fm_check_param_true |]. split.
  - intros params'. revert params.
    induction params' as [| [p' n'] rest' IH]; intros [| [p_ n] rest] Heq;
      try done.
    injection Heq as -> Heq. cbn [fm_check_param].
    destruct (env !! p_); [| done]. cbn [fst]. by apply IH.
  - induction params as [| [p_ n] rest IH]; [done |].
    cbn [fm_check_param omap list_omap fst snd].
    destruct (env !! p_) as [val |]; [| done]. cbn [fst snd].
    intros Hrest. rewrite (IH Hrest). cbn [mbind option_bind].
    by destruct (_ <? _).
Qed.

Section Config.

Variable isfile : string → bool.
Variable load_dotenv : option string → environ → environ * bool.
Variable py_int : string → option Z.
Variable field_int : string → option Z.
Variable field_bool : string → option bool.

(** X15: [CMazeParams.create_param_from_file] never reads the file it is
    given.  For every non-empty file name, whether the file exists or not
    and whatever it holds, the environment is left as it was, and the
    result is [ValueError] when [WIDTH] or [HEIGHT] is not set in the
    environment of the process and otherwise the record that the
    constructor makes of that environment. *)
Theorem X15_create_param_from_file_ignores_file f env :
  f ≠ EmptyString →
  let r := create_param_from_file isfile load_dotenv py_int field_int
             field_bool (Some f) env in
  r.1.2 = env
  ∧ r.1.1
    = if decide (is_Some (env !! "WIDTH"%string)
                 ∧ is_Some (env !! "HEIGHT"%string))
      then CMazeParams_init py_int field_int field_bool (env_args py_int env)
      else ValueError.
Proof.
  intros Hf. destruct f as [| c f]; [done |].
  cbv zeta. unfold create_param_from_file, CMazeParams_fm_read_config.
  cbn [fst snd].
  pose proof (fm_check_param_true
                [("WIDTH"%string, 1); ("HEIGHT"%string, 1)] env) as Hcheck.
  destruct (fm_check_param _ env) as [b out]. cbn [fst snd] in *.
  destruct b; cbn [negb fst snd].
  - split; [done |]. destruct Hcheck as [Hset _]. specialize (Hset eq_refl).
    rewrite decide_True; [done |].
    split; [apply (Hset _ 1) | apply (Hset _ 1)]; set_solver.
  - split; [done |]. rewrite decide_False; [done |].
    intros [Hw Hh]. destruct Hcheck as [_ Hall]. discriminate Hall.
    intros p_ n Hin.
    apply elem_of_cons in Hin as [[= -> ->] | Hin]; [done |].
    apply elem_of_cons in Hin as [[= -> ->] | Hin]; [done |].
    by apply elem_of_nil in Hin.
Qed.

(** X16: when the configuration stage of [main] does not exit, the program
    was given exactly one argument; if that name is not empty, the file
    exists and [load_dotenv] has read it, once, without raising (with an
    empty name nothing is read and the environment of the process is
    used); the six required names are set; and the record is the one the
    constructor makes of that environment, so that it satisfies the field
    constraints and the model validator. *)
Theorem X16_main_config_accepts argv env p env' out :
  main_config isfile load_dotenv py_int field_int field_bool argv env
  = (Some p, env', out) →
  (∃ prog f,
     argv = [prog; f]
     ∧ if decide (f = EmptyString) then env' = env
       else isfile f = true ∧ load_dotenv (Some f) env = (env', true))
  ∧ (∀ k, k ∈ ["WIDTH"; "HEIGHT"; "ENTRY"; "EXIT"; "OUTPUT_FILE";
               "PERFECT"]%string → is_Some (env' !! k))
  ∧ CMazeParams_init py_int field_int field_bool (env_args py_int env')
    = Built p
  ∧ 1 ≤ width p ∧ 1 ≤ height p ∧ 2 ≤ w_cell_size p
  ∧ entry p ≠ exit p
  ∧ (entry p).1 < width p ∧ (entry p).2 < height p
  ∧ (exit p).1 < width p ∧ (exit p).2 < height p.
Proof.
  unfold main_config. intros Hrun.
  destruct argv as [| prog [| f [| ? ?]]]; try done.
  destruct (fm_read_config isfile load_dotenv (Some f) env)
    as [[ok env1] out1] eqn:Hread.
  cbn [fst snd] in Hrun. destruct ok; [| done]. cbn [negb] in Hrun.
  match type of Hrun with
  | context [fm_check_param ?ps env1] =>
      pose proof (fm_check_param_true ps env1) as Hcheck;
      destruct (fm_check_param ps env1) as [b out2]
  end.
  cbn [fst snd] in *. destruct b; [| done]. cbn [negb] in Hrun.
  destruct (CMazeParams_init _ _ _ _) as [p' | |] eqn:Hinit; try done.
  injection Hrun as -> -> <-.
  split; [| split; [| split; [done |]]].
  - exists prog, f. split; [done |].
    unfold fm_read_config in Hread. destruct f as [| c f].
    + rewrite decide_True by done. cbn in Hread. by injection Hread as <- _.
    + rewrite decide_False by done.
      change (0 <? String.length (String c f))%nat with true in Hread.
      cbv iota in Hread.
      destruct (isfile (String c f)); [| done]. cbn [negb] in Hread.
      destruct (load_dotenv _ env) as [env2 ok2]. cbn [fst snd] in Hread.
      destruct ok2; [| done]. by injection Hread as ->.
  - destruct Hcheck as [Hset _]. specialize (Hset eq_refl).
    intros k Hk.
    repeat (apply elem_of_cons in Hk as [-> | Hk];
            [eapply Hset; repeat first [by left | right] |]).
    by apply elem_of_nil in Hk.
  - unfold CMazeParams_init in Hinit.
    repeat match type of Hinit with
           | match ?x with _ => _ end = _ =>
               destruct x eqn:?; try discriminate
           end.
    injection Hinit as <-.
    match goal with
    | Hnew : CMazeParams_new ?r = Ret ?r' |- _ =>
        assert (r' = r) as ->
          by (unfold CMazeParams_new, params_validator in Hnew;
              repeat match type of Hnew with
                     | (if ?b then _ else _) = _ =>
                         destruct b; try discriminate
                     | (let '(_, _) := ?x in _) = _ => destruct x
                     end; by injection Hnew);
        apply CMazeParams_new_Ret in Hnew
          as (Hfield & Hne & He1 & He2 & Hx1 & Hx2)
    end.
    unfold field_constraints in Hfield. cbn [width height w_cell_size
      w_wall_thickness probability_to_del_dead_end entry exit] in *.
    rewrite !andb_true_iff in Hfield.
    destruct Hfield as [[[[[Hw Hh] Hc] _] _] _].
    apply Z.leb_le in Hw, Hh, Hc. done.
Qed.

(** The parts of a string between its commas. *)
Lemma split_comma_spec v :
  split_comma v ≠ []
  ∧ String.concat "," (split_comma v) = v
  ∧ Forall (λ s, ","%char ∉ list_ascii_of_string s) (split_comma v).
Proof.
  induction v as [| c v (Hne & Hcat & Hall)]; cbn [split_comma].
  - split; [done |]. split; [done |]. apply Forall_singleton.
    apply not_elem_of_nil.
  - destruct (Ascii.eqb_spec c ",") as [-> | Hc].
    + split; [done |]. split.
      * cbn [String.concat]. destruct (split_comma v) eqn:Hs; [done |].
        by rewrite <- Hcat.
      * apply Forall_cons. split; [apply not_elem_of_nil | done].
    + destruct (split_comma v) as [| h t] eqn:Hs; [done |].
      split; [done |]. split.
      * rewrite <- Hcat. cbn [String.concat]. by destruct t.
      * apply Forall_cons in Hall as [Hh Ht]. apply Forall_cons.
        split; [| done]. cbn [list_ascii_of_string].
        rewrite not_elem_of_cons. split; [congruence | done].
Qed.

Lemma split_comma_free s :
  ","%char ∉ list_ascii_of_string s → split_comma s = [s].
Proof.
  induction s as [| c s IH]; [done |]. cbn [list_ascii_of_string].
  rewrite not_elem_of_cons. intros [Hc Hs]. cbn [split_comma].
  destruct (Ascii.eqb_spec c ","); [congruence |]. by rewrite IH.
Qed.

Lemma split_comma_app x rest :
  ","%char ∉ list_ascii_of_string x →
  split_comma (x ++ String "," rest) = x :: split_comma rest.
Proof.
  induction x as [| c x IH]; cbn [list_ascii_of_string].
  - intros _. reflexivity.
  - rewrite not_elem_of_cons. intros [Hc Hx].
    change (String c x ++ String "," rest)%string
      with (String c (x ++ String "," rest)).
    cbn [split_comma]. destruct (Ascii.eqb_spec c ","); [congruence |].
    by rewrite IH.
Qed.

(** X17: [parse_tuple] turns a string into a pair exactly when the string
    is two parts around one comma and [int] accepts both parts; every other
    string (no comma, more than one, a part that is not a number) is
    refused with [ValueError]. *)
Theorem X17_parse_tuple_format v a b :
  parse_tuple py_int v = Built (a, b)
  ↔ ∃ x y, v = (x ++ "," ++ y)%string
           ∧ (","%char ∉ list_ascii_of_string x)
           ∧ (","%char ∉ list_ascii_of_string y)
           ∧ py_int x = Some a ∧ py_int y = Some b.
Proof.
  unfold parse_tuple. split.
  - destruct (split_comma_spec v) as (_ & Hcat & Hall).
    destruct (split_comma v) as [| x [| y [| ? ?]]]; try done.
    destruct (py_int x) as [a' |] eqn:Hx; [| done].
    destruct (py_int y) as [b' |] eqn:Hy; [| done].
    intros [= -> ->]. exists x, y.
    apply Forall_cons in Hall as [Hfx Hall].
    apply Forall_cons in Hall as [Hfy _].
    split; [by rewrite <- Hcat |]. done.
  - intros (x & y & -> & Hfx & Hfy & Hx & Hy).
    change (x ++ "," ++ y)%string with (x ++ String "," y)%string.
    rewrite split_comma_app by done. rewrite split_comma_free by done.
    by rewrite Hx, Hy.
Qed.

End Config.

Lemma X15_create_param_from_file_ignores_file_witness :
  let isfile := λ _ : string, true in
  let load_dotenv :=
    λ (_ : option string) (_ : environ),
      (({[ "WIDTH"%string := "9"%string ]} : environ), true) in
  let py_int := λ _ : string, Some 0 in
  let field_int := λ _ : string, Some 5 in
  let field_bool := λ _ : string, Some true in
  let env : environ := {[ "HEIGHT"%string := "5"%string ]} in
  let r := create_param_from_file isfile load_dotenv py_int field_int
             field_bool (Some "maze.env"%string) env in
  r.1.2 = env
  ∧ r.1.1
    = if decide (is_Some (env !! "WIDTH"%string)
                 ∧ is_Some (env !! "HEIGHT"%string))
      then CMazeParams_init py_int field_int field_bool (env_args py_int env)
      else ValueError.
Proof.
  intros isfile load_dotenv py_int field_int field_bool env.
  apply (X15_create_param_from_file_ignores_file isfile load_dotenv py_int
           field_int field_bool "maze.env"%string env).
  discriminate.
Defined.

Lemma X16_main_config_accepts_witness :
  let env0 : environ :=
    list_to_map [("WIDTH", "5"); ("HEIGHT", "5"); ("ENTRY", "0,0");
                 ("EXIT", "4,4"); ("OUTPUT_FILE", "maze.txt");
                 ("PERFECT", "True")]%string in
  let isfile := λ _ : string, true in
  let load_dotenv := λ (_ : option string) (_ : environ), (env0, true) in
  let py_int := λ s : string,
    if String.eqb s "0" then Some 0
    else if String.eqb s "4" then Some 4 else None in
  let field_int := λ s : string,
    if String.eqb s "5" then Some 5 else None in
  let field_bool := λ s : string,
    if String.eqb s "True" then Some true else None in
  let p := MkParams 5 5 (0, 0) (4, 4) "maze.txt" true None true 25 4 99 in
  (∃ prog f,
     ["a_maze_ing.py"; "config.txt"]%string = [prog; f]
     ∧ if decide (f = EmptyString) then env0 = ∅
       else isfile f = true ∧ load_dotenv (Some f) ∅ = (env0, true))
  ∧ (∀ k, k ∈ ["WIDTH"; "HEIGHT"; "ENTRY"; "EXIT"; "OUTPUT_FILE";
               "PERFECT"]%string → is_Some (env0 !! k))
  ∧ CMazeParams_init py_int field_int field_bool (env_args py_int env0)
    = Built p
  ∧ 1 ≤ width p ∧ 1 ≤ height p ∧ 2 ≤ w_cell_size p
  ∧ entry p ≠ exit p
  ∧ (entry p).1 < width p ∧ (entry p).2 < height p
  ∧ (exit p).1 < width p ∧ (exit p).2 < height p.
Proof.
  intros env0 isfile load_dotenv py_int field_int field_bool p.
  apply (X16_main_config_accepts isfile load_dotenv py_int field_int
           field_bool ["a_maze_ing.py"; "config.txt"]%string ∅ p env0 []).
  vm_compute. reflexivity.
Defined.

(** ** [write_to_file] as a whole *)



(** ** The drawing functions of [main] *)

(** X19: [draw_filled_rect] puts each pixel of the rectangle once and
    nothing else, so nothing at all when the width or the height is zero
    or negative; all in one colour of 32 bits, which keeps the red, green
    and blue of the colour given, and its alpha unless that is zero, in
    which case the colour is made opaque. *)
Theorem X19_draw_filled_rect_pixels x y w h color :
  NoDup (draw_filled_rect x y w h color)
  ∧ (∀ e, e ∈ draw_filled_rect x y w h color
          ↔ ∃ px py, e = PixelPut px py (argb color)
                     ∧ in_rect x y w h px py)
  ∧ 0 ≤ argb color < 2 ^ 32
  ∧ Z.land (argb color) 0xffffff = Z.land color 0xffffff
  ∧ Z.land (argb color) 0xff000000
    = if Z.land color 0xff000000 =? 0 then 0xff000000
      else Z.land color 0xff000000.
Proof.
  split; [apply NoDup_draw_filled_rect |].
  split; [apply elem_of_draw_filled_rect |].
  apply argb_spec.
Qed.

(** X20: on a grid of [H] rows of [W] cells, in a window sized as [main]
    sizes it, [draw_maze] returns without raising, whatever the region it
    is asked to redraw (the regions that [generate_animated] yields reach
    one cell beyond the grid on every side), and changes nothing of the
    maze; every pixel it puts lies in the part of the window that shows
    the maze, none in the margin or in the lines of the legend, provided
    the cells of the path lie in the grid. *)
Theorem X20_draw_maze_window WIN_H colors param path_ draw_area W H w :
  let t := w_wall_thickness param in
  let s := w_cell_size param in
  let WIN_W := W * (s + t) + t in
  let WIN_MH := H * (s + t) + t in
  0 ≤ t → 0 ≤ s → 0 ≤ W →
  wf_grid W H (w_maze w) → Forall (inside W H) path_ →
  ∃ calls,
    draw_maze WIN_W WIN_MH WIN_H colors param path_ draw_area w
    = (Ret calls, w)
    ∧ ∀ px py col, PixelPut px py col ∈ calls →
        in_rect 0 0 WIN_W WIN_MH px py.
Proof.
  intros t s WIN_W WIN_MH Ht Hs HW Hwf Hpath.
  destruct (draw_maze_calls WIN_W WIN_MH WIN_H colors param Ht Hs W H path_
              draw_area w eq_refl eq_refl HW Hwf)
    as (calls & pcalls & Hrun & Hprun & Hcalls).
  exists calls. split; [done |]. intros px py col Hin.
  destruct (Hcalls px py col Hin) as [[Hw _] | [(c & Hc & _ & Hb) | Hp]];
    [done | by eapply (cell_block_window WIN_W WIN_MH param Hs W H c) |].
  destruct (draw_path_run WIN_H colors param path_ w)
    as (pcalls' & Hprun' & Hpc).
  rewrite Hprun in Hprun'. injection Hprun' as <-.
  rewrite Forall_forall in Hpath.
  apply Hpc in Hp as [(i & old & cur & Hold & Hcur & Hseg)
                      | (i & cur & _ & _ & Hcur & [Hrect | [=]])].
  - apply path_segment_block in Hseg as (c & Hc1 & Hc2 & Hb).
    apply (cell_block_window WIN_W WIN_MH param Hs W H c); [done .. | | done].
    assert (Ho : inside W H old)
      by (apply Hpath; by eapply list_elem_of_lookup_2).
    assert (Hc : inside W H cur)
      by (apply Hpath; by eapply list_elem_of_lookup_2).
    unfold inside in *. destruct Hc1 as [-> | ->], Hc2 as [-> | ->]; lia.
  - apply elem_of_draw_filled_rect in Hrect as (? & ? & [= <- <- _] & Hr).
    apply (cell_block_window WIN_W WIN_MH param Hs W H cur); [done .. | |].
    + apply Hpath. by eapply list_elem_of_lookup_2.
    + unfold cell_block, in_rect in *. fold t s in Hr |- *. lia.
Qed.

Lemma X20_draw_maze_window_witness :
  let p := MkParams 3 2 (0, 0) (2, 0) "maze.txt" true (Some 1) false 25 4 0 in
  let w := World [[7; 1; 9]; [0; 0; 2]] (Rng (λ n, N.of_nat n) 0)
             (Clock (λ _, 0%Q) 0) in
  ∃ calls,
    draw_maze (3 * (25 + 4) + 4) (2 * (25 + 4) + 4) 142 ∅ p
      [(0, 0); (0, 1); (1, 1); (1, 0); (2, 0)] (Some (-1, 0, 1, 2)) w
    = (Ret calls, w)
    ∧ ∀ px py col, PixelPut px py col ∈ calls →
        in_rect 0 0 (3 * (25 + 4) + 4) (2 * (25 + 4) + 4) px py.
Proof.
  intros p w.
  apply (X20_draw_maze_window 142 ∅ p
           [(0, 0); (0, 1); (1, 1); (1, 0); (2, 0)] (Some (-1, 0, 1, 2))
           3 2 w).
  - simpl. lia.
  - simpl. lia.
  - lia.
  - split; [reflexivity | repeat constructor].
  - repeat constructor; simpl; lia.
Defined.

(** X21: a redraw of a region, as the animation asks for (no path, the
    region [(x1, y1, x2, y2)]), touches the frame and the blocks of the
    cells of the grid in columns [x1] to [x2 - 1] and rows [y1] to
    [y2 - 1], and no other pixel. *)
Theorem X21_draw_maze_region WIN_H colors param x1 y1 x2 y2 W H w :
  let t := w_wall_thickness param in
  let s := w_cell_size param in
  let WIN_W := W * (s + t) + t in
  let WIN_MH := H * (s + t) + t in
  0 ≤ t → 0 ≤ s → 0 ≤ W →
  wf_grid W H (w_maze w) →
  ∃ calls,
    draw_maze WIN_W WIN_MH WIN_H colors param [] (Some (x1, y1, x2, y2)) w
    = (Ret calls, w)
    ∧ ∀ px py col, PixelPut px py col ∈ calls →
        on_frame WIN_W WIN_MH t px py
        ∨ ∃ c, inside W H c ∧ x1 ≤ c.1 < x2 ∧ y1 ≤ c.2 < y2
               ∧ cell_block param c px py.
Proof.
  intros t s WIN_W WIN_MH Ht Hs HW Hwf.
  destruct (draw_maze_calls WIN_W WIN_MH WIN_H colors param Ht Hs W H []
              (Some (x1, y1, x2, y2)) w eq_refl eq_refl HW Hwf)
    as (calls & pcalls & Hrun & Hprun & Hcalls).
  exists calls. split; [done |]. intros px py col Hin.
  destruct (Hcalls px py col Hin) as [Hf | [(c & Hc & Ha & Hb) | Hp]].
  - by left.
  - right. exists c. cbn [in_area] in Ha. destruct Ha. done.
  - exfalso. injection Hprun as <-. by apply elem_of_nil in Hp.
Qed.

Lemma X21_draw_maze_region_witness :
  let p := MkParams 3 2 (0, 0) (2, 0) "maze.txt" true (Some 1) false 25 4 0 in
  let w := World [[7; 1; 9]; [0; 0; 2]] (Rng (λ n, N.of_nat n) 0)
             (Clock (λ _, 0%Q) 0) in
  ∃ calls,
    draw_maze (3 * (25 + 4) + 4) (2 * (25 + 4) + 4) 142 ∅ p []
      (Some (1, -1, 3, 1)) w
    = (Ret calls, w)
    ∧ ∀ px py col, PixelPut px py col ∈ calls →
        on_frame (3 * (25 + 4) + 4) (2 * (25 + 4) + 4) 4 px py
        ∨ ∃ c, inside 3 2 c ∧ 1 ≤ c.1 < 3 ∧ -1 ≤ c.2 < 1
               ∧ cell_block p c px py.
Proof.
  intros p w.
  apply (X21_draw_maze_region 142 ∅ p 1 (-1) 3 1 3 2 w).
  - simpl. lia.
  - simpl. lia.
  - lia.
  - split; [reflexivity | repeat constructor].
Defined.

(** X22: the last stage of [draw_maze] paints the path without hiding its
    ends: for a path that visits no cell twice, no pixel inside the first
    cell or inside the last cell is painted, so that the colours of the
    entry and of the exit stay visible, and the inside of every other cell
    of the path is painted entirely, in the colour of the path. *)
Theorem X22_draw_path_keeps_ends WIN_H colors param path_ w :
  0 ≤ w_wall_thickness param → 0 ≤ w_cell_size param → NoDup path_ →
  ∃ calls,
    draw_path WIN_H colors param path_ w = (Ret calls, w)
    ∧ (∀ px py col c,
         PixelPut px py col ∈ calls →
         head path_ = Some c ∨ last path_ = Some c →
         ¬ cell_inside param c px py)
    ∧ (∀ i c px py,
         (0 < i)%nat → (S i < length path_)%nat → path_ !! i = Some c →
         cell_inside param c px py →
         PixelPut px py
           (argb (default 0xFFe0e020 (colors !! "path"%string))) ∈ calls).
Proof.
  intros Ht Hs Hnd.
  destruct (draw_path_run WIN_H colors param path_ w)
    as (calls & Hrun & Hcalls).
  exists calls. split; [done |]. split.
  - intros px py col c Hin Hend Hinside.
    apply Hcalls in Hin as [(i & old & cur & _ & _ & Hseg)
                            | (i & cur & Hi1 & Hi2 & Hcur & [Hrect | [=]])].
    + by eapply (path_segment_strip param Ht Hs).
    + apply elem_of_draw_filled_rect in Hrect as (? & ? & [= <- <- _] & Hr).
      assert (cur = c) as ->
        by (eapply (cell_inside_inj param Ht Hs); [exact Hr | exact Hinside]).
      destruct Hend as [Hhead | Hlast].
      * rewrite head_lookup in Hhead.
        pose proof (NoDup_lookup _ _ _ _ Hnd Hcur Hhead). lia.
      * rewrite last_lookup in Hlast.
        pose proof (NoDup_lookup _ _ _ _ Hnd Hcur Hlast). lia.
  - intros i c px py Hi1 Hi2 Hc Hinside. apply Hcalls. right.
    exists i, c. split; [done |]. split; [done |]. split; [done |]. left.
    apply elem_of_draw_filled_rect. by exists px, py.
Qed.

Lemma X22_draw_path_keeps_ends_witness :
  let p := MkParams 3 2 (0, 0) (2, 0) "maze.txt" true (Some 1) false 25 4 0 in
  let w := World [[7; 1; 9]; [0; 0; 2]] (Rng (λ n, N.of_nat n) 0)
             (Clock (λ _, 0%Q) 0) in
  let path_ := [(0, 0); (0, 1); (1, 1); (1, 0); (2, 0)] in
  ∃ calls,
    draw_path 142 ∅ p path_ w = (Ret calls, w)
    ∧ (∀ px py col c,
         PixelPut px py col ∈ calls →
         head path_ = Some c ∨ last path_ = Some c →
         ¬ cell_inside p c px py)
    ∧ (∀ i c px py,
         (0 < i)%nat → (S i < length path_)%nat → path_ !! i = Some c →
         cell_inside p c px py →
         PixelPut px py
           (argb (default 0xFFe0e020 ((∅ : gmap string Z) !! "path"%string)))
         ∈ calls).
Proof.
  intros p w path_. apply (X22_draw_path_keeps_ends 142 ∅ p path_ w).
  - simpl. lia.
  - simpl. lia.
  - apply (bool_decide_unpack (NoDup path_)). vm_compute. exact I.
Defined.

(** ** The session *)



(** ** [find_path_DFS] as a whole *)

(** X24: on a grid of the size of the record with the entry inside it,
    given no path to improve or a path of the grid from the entry to the
    exit, [find_path_DFS] never raises: no index leaves the grid, the
    stack is never read when empty.  It either returns, and then the empty
    list or a path of the grid from the entry to the exit, or is still
    searching when the fuel ends. *)
Theorem X24_find_path_DFS_never_raises fuel mzParam best w :
  wf_grid (width mzParam) (height mzParam) (w_maze w) →
  inside (width mzParam) (height mzParam) (entry mzParam) →
  path_ok (width mzParam) (height mzParam) (w_maze w) (entry mzParam)
    (exit mzParam) best →
  match (find_path_DFS fuel mzParam best w).1 with
  | Ret r =>
      r = []
      ∨ valid_path (width mzParam) (height mzParam) (w_maze w)
          (entry mzParam) (exit mzParam) r
  | Raise _ => False
  | OutOfFuel => True
  end.
Proof.
  intros Hwf Hin Hbest.
  pose proof (find_path_DFS_no_raise fuel mzParam best w Hwf Hin Hbest)
    as Hsafe.
  pose proof (find_path_DFS_spec mzParam (w_maze w) fuel best w Hwf eq_refl
                Hin Hbest) as Hspec.
  destruct (find_path_DFS fuel mzParam best w) as [[r | e |] w'] eqn:Hrun;
    cbn [fst].
  - by apply (Hspec r w').
  - by apply (Hsafe e w').
  - done.
Qed.

Lemma X24_find_path_DFS_never_raises_witness :
  let p := MkParams 3 2 (0, 0) (2, 0) "maze.txt" true (Some 1) false 25 4 0 in
  let w := World [[7; 1; 9]; [0; 0; 2]] (Rng (λ n, N.of_nat n) 0)
             (Clock (λ _, 0%Q) 0) in
  match (find_path_DFS 40 p [] w).1 with
  | Ret r => r = [] ∨ valid_path 3 2 (w_maze w) (0, 0) (2, 0) r
  | Raise _ => False
  | OutOfFuel => True
  end.
Proof.
  intros p w. apply (X24_find_path_DFS_never_raises 40 p [] w).
  - split; [reflexivity | repeat constructor].
  - unfold inside. simpl. lia.
  - by left.
Defined.

(** ** The imperfect maze at probability 100 *)

(** X25: for a record that satisfies the invariant of the data model, with
    two columns and two rows at least, no pattern, the perfect flag off
    and the probability of removal at 100, the maze that [generate]
    returns has no dead end but, possibly, at the entry and at the exit:
    every other cell has open connections in two directions at least. *)
Theorem X25_generate_no_dead_end seed_tape fuel mzParam w :
  valid_params mzParam →
  2 ≤ width mzParam → 2 ≤ height mzParam →
  insert_42 mzParam = false → perfect mzParam = false →
  Qle_bool 100 (probability_to_del_dead_end mzParam) = true →
  2 * (width mzParam * height mzParam) + 1 < Z.of_nat fuel →
  returns (generate seed_tape fuel mzParam) w
    (λ g w',
       g = w_maze w'
       ∧ wf_grid (width mzParam) (height mzParam) g
       ∧ ∀ c, inside (width mzParam) (height mzParam) c →
              c ≠ entry mzParam → c ≠ exit mzParam →
              ∃ d1 d2,
                d1 ≠ d2
                ∧ path_step (width mzParam) (height mzParam) g c
                    (neighbor c d1)
                ∧ path_step (width mzParam) (height mzParam) g c
                    (neighbor c d2)).
Proof.
  intros Hp HW HH Hins Hperf Hpr Hfuel.
  pose proof Hp as (_ & _ & Hne & Hen & Hex).
  set (W := width mzParam) in *. set (H := height mzParam) in *.
  unfold generate. apply generate_stages; [done | done |].
  intros w3 placed V Hplaced Hwf3 Hcarved Hbits.
  assert (Hpl : placed = false).
  { destruct placed; [| done]. specialize (Hplaced eq_refl). congruence. }
  subst placed. rewrite Hperf. cbn [negb].
  assert (Htpl : ∀ c, template mzParam false c = 11
                      ∨ template mzParam false c = 7
                      ∨ template mzParam false c = 3).
  { intros c. unfold template. cbn [andb]. repeat case_bool_decide; tauto. }
  assert (Hnop : ∀ e, inside W H e →
            is_pattern (cell_at (w_maze w3) e) = false).
  { intros e He. unfold is_pattern. rewrite !Hbits by (done || lia).
    by destruct (Htpl e) as [-> | [-> | ->]]. }
  destruct Hcarved as (_ & HrV & HV & _ & Hpath & Hclosed & _).
  assert (Hall : ∀ c, inside W H c → c ∈ V).
  { apply (closed_all _ _ V (exit mzParam)); [done | done |].
    intros c d Hc Hd. destruct (Hclosed c d Hc Hd) as [? | Hpat]; [done |].
    by rewrite Hnop in Hpat. }
  assert (Hone : ∀ c, inside W H c → one_open W H (w_maze w3) c).
  { intros c Hc.
    destruct (inside_other W H c North HW HH Hc) as (d & _ & Hn).
    destruct (Hpath c (neighbor c d) (Hall c Hc) (Hall _ Hn))
      as (l & (Hh & Hl & Hch & _) & _).
    destruct l as [| a [| b l]]; [done | |].
    - injection Hh as ->. injection Hl as Heq. exfalso.
      destruct c as [x y], d; simpl in Heq; injection Heq; lia.
    - injection Hh as ->. destruct Hch as [Hab _].
      assert (Hstep : path_step W H (w_maze w3) c b)
        by (split; [by eapply passage_step_adjacent | done]).
      destruct (path_step_dir _ _ _ _ _ Hstep) as [d' ->]. by exists d'. }
  apply returns_bind. apply returns_bind. eapply returns_mono.
  { apply (do_not_prefect_opens W H); [done .. | ].
    intros c Hc _. by apply Hone. }
  intros g4 w4 (-> & Hrtc & Htwo). cbn beta.
  apply returns_ret. apply returns_get_maze.
  split; [done |].
  split; [by destruct (wall_removals_safe W H _ _ Hwf3 Hrtc) |].
  intros c Hc Hce Hcx. apply Htwo; [done |].
  rewrite land_0xc_bits. rewrite !Hbits by (done || lia).
  unfold template. cbn [andb].
  rewrite bool_decide_eq_false_2 by done.
  by rewrite bool_decide_eq_false_2 by done.
Qed.

Lemma X25_generate_no_dead_end_witness :
  let p := MkParams 3 3 (0, 0) (2, 2) "maze.txt" false (Some 1) false 25 4
             100 in
  let w := World [] (Rng (λ n, N.of_nat n) 0) (Clock (λ _, 0%Q) 0) in
  returns (generate example_seed_tape 20 p) w
    (λ g w',
       g = w_maze w'
       ∧ wf_grid 3 3 g
       ∧ ∀ c, inside 3 3 c → c ≠ (0, 0) → c ≠ (2, 2) →
              ∃ d1 d2,
                d1 ≠ d2
                ∧ path_step 3 3 g c (neighbor c d1)
                ∧ path_step 3 3 g c (neighbor c d2)).
Proof.
  intros p w. apply (X25_generate_no_dead_end example_seed_tape 20 p w).
  - unfold valid_params, inside. simpl. repeat split; (lia || discriminate).
  - simpl. lia.
  - simpl. lia.
  - reflexivity.
  - reflexivity.
  - reflexivity.
  - simpl. lia.
Defined.

(** ** The animated injector against the plain one *)

(** A loop whose iterations yield nothing yields nothing. *)
Lemma for_yield_nil {A B} (l : list A) (body : A → M (list B)) w ys w' :
  (∀ a w1 zs w2, body a w1 = (Ret zs, w2) → zs = []) →
  for_yield l body w = (Ret ys, w') → ys = [].
Proof.
  intros Hb. revert w ys w'.
  induction l as [| a l IH]; intros w ys w' Hrun; cbn [for_yield] in Hrun.
  - by injection Hrun as <- _.
  - apply bind_inv_Ret in Hrun as (zs & w1 & Hbody & Hrun).
    apply bind_inv_Ret in Hrun as (zs' & w2 & Hrest & Hrun).
    injection Hrun as <- _. apply Hb in Hbody as ->.
    by apply IH in Hrest as ->.
Qed.

(** X26: pulled to its end, [do_not_prefect_animated] does to the maze,
    the random source and the clock what [do_not_prefect] does, and ends
    the same way; when they return, the grid of [do_not_prefect] is the
    maze left by the animated variant, which yields nothing at all for a
    probability of zero or less and otherwise ends with [None]; with the
    animation flag off, [None] is all it yields. *)
Theorem X26_do_not_prefect_animated_refines mzParam animated w :
  (do_not_prefect_animated mzParam animated w).2
  = (do_not_prefect mzParam w).2
  ∧ match (do_not_prefect mzParam w).1,
          (do_not_prefect_animated mzParam animated w).1 with
    | Ret g, Ret ys =>
        g = w_maze (do_not_prefect_animated mzParam animated w).2
        ∧ (if Qle_bool (probability_to_del_dead_end mzParam) 0
           then ys = []
           else last ys = Some None ∧ (animated = false → ys = [None]))
    | Raise e, Raise e' => e = e'
    | OutOfFuel, OutOfFuel => True
    | _, _ => False
    end.
Proof.
  destruct (same_run_do_not_prefect mzParam animated w) as [Hworld Hend].
  assert (Hplain : ∀ w0, (do_not_prefect mzParam ;; ret tt) w0
            = match do_not_prefect mzParam w0 with
              | (Ret _, w1) => (Ret tt, w1)
              | (Raise e, w1) => (Raise e, w1)
              | (OutOfFuel, w1) => (OutOfFuel, w1)
              end).
  { intros w0. rewrite bind_unfold.
    by destruct (do_not_prefect mzParam w0) as [[? | ? |] ?]. }
  rewrite Hplain in Hworld, Hend.
  assert (Hmaze : ∀ g w1, do_not_prefect mzParam w = (Ret g, w1) →
            g = w_maze w1).
  { intros g w1. unfold do_not_prefect.
    destruct (Qle_bool _ 0); [by intros [= <- <-] |]. intros Hrun.
    repeat (apply bind_inv_Ret in Hrun as (? & ? & _ & Hrun)).
    by injection Hrun as <- <-. }
  assert (Hys : ∀ ys w1,
            do_not_prefect_animated mzParam animated w = (Ret ys, w1) →
            if Qle_bool (probability_to_del_dead_end mzParam) 0
            then ys = []
            else last ys = Some None ∧ (animated = false → ys = [None])).
  { intros ys w1. unfold do_not_prefect_animated.
    destruct (Qle_bool _ 0); [by intros [= <- _] |]. intros Hrun.
    apply bind_inv_Ret in Hrun as (h & w2 & _ & Hrun).
    apply bind_inv_Ret in Hrun as (zs & w3 & Hloop & Hrun).
    injection Hrun as <- _. split; [by rewrite last_snoc |].
    intros ->. apply for_yield_nil in Hloop as ->; [done |].
    intros y w4 zs' w5 Hrow.
    apply bind_inv_Ret in Hrow as (w0 & w6 & _ & Hrow).
    apply for_yield_nil in Hrow as ->; [done |].
    intros x w7 zs'' w8 Hcell.
    apply bind_inv_Ret in Hcell as (removed & w9 & _ & Hcell).
    injection Hcell as <- _. by rewrite andb_false_r. }
  destruct (do_not_prefect mzParam w) as [[g | e |] w1] eqn:Hrun,
    (do_not_prefect_animated mzParam animated w) as [[ys | e' |] w2]
      eqn:Hani; cbn [fst snd] in *; try done.
  subst w2. split; [done |]. split; [by apply Hmaze |]. by apply (Hys ys w1).
Qed.

(** ** The length of the animation *)



